(** * MyPromise: a shallow embedding of the hand-written Promise engine

    The JavaScript class [MyPromise] (states, handler queue, chaining,
    static combinators) and the scheduling adapter [runMicroTask] are
    translated into Rocq functions over an explicit world: the heap of
    promise objects, the closure scopes of [MyPromise.all], and the two
    deferral queues of the host ([process.nextTick] and [setTimeout]).
    JavaScript exceptions are threaded through a state-and-exception
    monad.

    Objects are shared by reference: a promise is an index into the heap,
    and the array [results] of a call of [all] is an index into the
    scopes, so that every closure of the call sees the same array.  The
    closures that the engine creates are constructors of [Value], and
    [call] gives each the body it has in the source.  A user function is
    known by what it does on its arguments: the capabilities it calls,
    and what it returns or throws in the end; an executor given to
    [new MyPromise] is any computation over the world.

    The world carries two histories that the source does not have,
    [registered] and [invoked]: every handler pushed, and every callback
    the host has run.  No operation reads them; the statements do. *)

From Stdlib Require Import ZArith String Lia.
From stdpp Require Import base option list.

Open Scope string_scope.
Open Scope list_scope.
Set Warnings "-register-all".

(** ** Values *)

(** The three state names of lines 2-4. *)
Inductive State := PENDING | FULFILLED | REJECTED.

Definition State_name (s : State) : string :=
  match s with
  | PENDING => "pending"
  | FULFILLED => "fulfilled"
  | REJECTED => "rejected"
  end.

Definition State_eqb (a b : State) : bool :=
  match a, b with
  | PENDING, PENDING | FULFILLED, FULFILLED | REJECTED, REJECTED => true
  | _, _ => false
  end.

#[global] Instance State_eq_dec : EqDecision State.
Proof. solve_decision. Defined.

(** Objects live in stores of the world and are named by their index. *)
Abbreviation ref := nat (only parsing).

(** JavaScript values, as far as the engine can tell them apart.  The
    function values are the closures the engine creates itself, plus user
    functions, which are named by an index into a table of behaviours. *)
Inductive Value :=
| VUndefined
| VNull
| VBool (b : bool)
| VNum (n : Z)
| VStr (s : string)
| VError (name message : string)
| VObject (fields : list (string * Value))
| VArray (a : ref)                (* the [results] array of one [all] call *)
| VPromise (p : ref)              (* an instance of MyPromise *)
| VFunction (f : nat)             (* a user function *)
| VResolve (p : ref)              (* [this._resolve.bind(this)] *)
| VReject (p : ref)               (* [this._reject.bind(this)] *)
| VAllOnFulfilled (resolve : Value) (scope : ref) (i : nat)
                                  (* [data => {...}] of [all], lines 218-224 *)
| VSettledOnFulfilled             (* [(value) => ({...})], lines 245-248 *)
| VSettledOnRejected.             (* [(reason) => ({...})], lines 249-252 *)

Inductive JSType :=
  TUndefined | TObject | TBoolean | TNumber | TString | TFunction.

Definition JSType_eqb (a b : JSType) : bool :=
  match a, b with
  | TUndefined, TUndefined | TObject, TObject | TBoolean, TBoolean
  | TNumber, TNumber | TString, TString | TFunction, TFunction => true
  | _, _ => false
  end.

Definition typeof (v : Value) : JSType :=
  match v with
  | VUndefined => TUndefined
  | VNull => TObject
  | VBool _ => TBoolean
  | VNum _ => TNumber
  | VStr _ => TString
  | VError _ _ | VObject _ | VArray _ | VPromise _ => TObject
  | VFunction _ | VResolve _ | VReject _ | VAllOnFulfilled _ _ _
  | VSettledOnFulfilled | VSettledOnRejected => TFunction
  end.

Definition truthy (v : Value) : bool :=
  match v with
  | VUndefined | VNull => false
  | VBool b => b
  | VNum n => negb (n =? 0)%Z
  | VStr s => negb (String.eqb s "")
  | _ => true
  end.

Fixpoint field (name : string) (fields : list (string * Value)) : Value :=
  match fields with
  | [] => VUndefined
  | (k, v) :: rest => if String.eqb k name then v else field name rest
  end.

(** [typeof obj.then], for a truthy [obj]: instances of MyPromise inherit
    [then] from the prototype, plain objects may carry their own. *)
Definition typeof_then (obj : Value) : JSType :=
  match obj with
  | VPromise _ => TFunction
  | VObject fields => typeof (field "then" fields)
  | _ => TUndefined
  end.

(** Lines 26-28. *)
Definition isPromise (obj : Value) : bool :=
  truthy obj && JSType_eqb (typeof obj) TObject
             && JSType_eqb (typeof_then obj) TFunction.

(** The first argument of a call; a missing argument is [undefined]. *)
Definition arg0 (args : list Value) : Value :=
  match args with
  | [] => VUndefined
  | a :: _ => a
  end.

(** ** The world *)

(** An entry of [this._handlers] (lines 54-59). *)
Record Handler := mkHandler {
  executor : Value;
  state : State;
  resolve : Value;
  reject : Value
}.

Record Promise := mkPromise {
  _state : State;
  _value : Value;
  _handlers : list Handler
}.

(** The arrow function of lines 81-103 that [_runOneHandler] hands to
    [runMicroTask]: it closes over [this] and the fields of the handler. *)
Record Task := mkTask {
  this : ref;
  handler : Handler
}.

(** The variables [results], [count] and [fulfilledCount] of one call of
    [all] (lines 212-214), shared by the closures of that call.  A hole of
    the JavaScript array is [None]. *)
Record AllScope := mkAllScope {
  results : list (option Value);
  count : nat;
  fulfilledCount : nat
}.

Record World := mkWorld {
  heap : list Promise;
  scopes : list AllScope;
  nextTickQueue : list Task;      (* callbacks given to process.nextTick *)
  timerQueue : list Task;         (* callbacks given to setTimeout(_, 0) *)
  registered : list Task;         (* history: every _pushHandler, in order *)
  invoked : list Task             (* history: every callback the host ran *)
}.

Definition empty_world : World := mkWorld [] [] [] [] [] [].

Definition with_heap (f : list Promise -> list Promise) (w : World) : World :=
  mkWorld (f (heap w)) (scopes w) (nextTickQueue w) (timerQueue w)
          (registered w) (invoked w).

Definition with_scopes (f : list AllScope -> list AllScope) (w : World) : World :=
  mkWorld (heap w) (f (scopes w)) (nextTickQueue w) (timerQueue w)
          (registered w) (invoked w).

Definition with_nextTickQueue (f : list Task -> list Task) (w : World) : World :=
  mkWorld (heap w) (scopes w) (f (nextTickQueue w)) (timerQueue w)
          (registered w) (invoked w).

Definition with_timerQueue (f : list Task -> list Task) (w : World) : World :=
  mkWorld (heap w) (scopes w) (nextTickQueue w) (f (timerQueue w))
          (registered w) (invoked w).

Definition with_registered (f : list Task -> list Task) (w : World) : World :=
  mkWorld (heap w) (scopes w) (nextTickQueue w) (timerQueue w)
          (f (registered w)) (invoked w).

Definition with_invoked (f : list Task -> list Task) (w : World) : World :=
  mkWorld (heap w) (scopes w) (nextTickQueue w) (timerQueue w)
          (registered w) (f (invoked w)).

(** ** The monad: a world passed along, and JavaScript exceptions *)

Inductive Completion (A : Type) :=
| Normal (a : A)
| Throw (error : Value).
Arguments Normal {A} a.
Arguments Throw {A} error.

Definition M (A : Type) : Type := World -> Completion A * World.

Definition ret {A} (a : A) : M A := fun w => (Normal a, w).

Definition throw {A} (error : Value) : M A := fun w => (Throw error, w).

Definition bind {A B} (m : M A) (k : A -> M B) : M B :=
  fun w =>
    match m w with
    | (Normal a, w') => k a w'
    | (Throw error, w') => (Throw error, w')
    end.

(** [try { m } catch(error) { h error }] *)
Definition try_catch {A} (m : M A) (h : Value -> M A) : M A :=
  fun w =>
    match m w with
    | (Normal a, w') => (Normal a, w')
    | (Throw error, w') => h error w'
    end.

Notation "x <- m ;; k" := (bind m (fun x => k))
  (at level 100, m at next level, right associativity).
Notation "m ;; k" := (bind m (fun _ => k))
  (at level 100, right associativity).

Definition TypeError (message : string) : Value := VError "TypeError" message.
Definition ReferenceError (message : string) : Value :=
  VError "ReferenceError" message.

(** Reading a property of something that is not there raises a TypeError. *)
Definition getPromise (p : ref) : M Promise :=
  fun w =>
    match heap w !! p with
    | Some o => (Normal o, w)
    | None => (Throw (TypeError "Cannot read properties of undefined"), w)
    end.

Definition putPromise (p : ref) (o : Promise) : M unit :=
  fun w => (Normal tt, with_heap (fun h => <[p := o]> h) w).

Definition newPromise (o : Promise) : M ref :=
  fun w => (Normal (length (heap w)), with_heap (fun h => h ++ [o]) w).

Definition getScope (c : ref) : M AllScope :=
  fun w =>
    match scopes w !! c with
    | Some s => (Normal s, w)
    | None => (Throw (ReferenceError "scope is not defined"), w)
    end.

Definition putScope (c : ref) (s : AllScope) : M unit :=
  fun w => (Normal tt, with_scopes (fun l => <[c := s]> l) w).

Definition newScope (s : AllScope) : M ref :=
  fun w => (Normal (length (scopes w)), with_scopes (fun l => l ++ [s]) w).

(** [a[i] = x] on a JavaScript array: writing past the end grows the array
    and leaves holes in between. *)
Definition array_set (i : nat) (x : Value) (a : list (option Value))
  : list (option Value) :=
  if decide (i < length a) then <[i := Some x]> a
  else a ++ replicate (i - length a) None ++ [Some x].

(** [for (const x of xs) body] *)
Fixpoint for_of {A} (xs : list A) (body : A -> M unit) : M unit :=
  match xs with
  | [] => ret tt
  | x :: rest => body x;; for_of rest body
  end.

(** ** User functions *)

(** A call [resolve(datum)] or [reject(datum)] of a capability, one of
    the two functions that the constructor binds to the promise
    [target]. *)
Record Settlement := mkSettlement {
  by_reject : bool;
  target : ref;
  datum : Value
}.

(** What a user function does when it is called: it calls capabilities,
    those it is handed as arguments or others that it has kept, one
    after the other, and then it returns a value or throws. *)
Record Behaviour := mkBehaviour {
  settlements : list Settlement;
  completion : Completion Value
}.

(** A function that calls no capability. *)
Definition pure (c : Completion Value) : Behaviour := mkBehaviour [] c.

(** ** The host *)

(** A global identifier is either not declared at all, and reading it
    raises a ReferenceError, or it is declared and holds a value. *)
Inductive Global (A : Type) :=
| Undeclared
| Declared (v : A).
Arguments Undeclared {A}.
Arguments Declared {A} v.

(** What the adapter can see of [process]: a falsy value, or an object
    whose [nextTick] member is there or not. *)
Inductive ProcessValue :=
| ProcessFalsy
| ProcessObject (nextTick : bool).

(** What the adapter can see of [MutationObserver]: its truthiness. *)
Record Host := mkHost {
  process : Global ProcessValue;
  MutationObserver : Global bool
}.

Definition node : Host := mkHost (Declared (ProcessObject true)) Undeclared.

Definition readGlobal {A} (name : string) (g : Global A) : M A :=
  match g with
  | Undeclared => throw (ReferenceError (String.append name " is not defined"))
  | Declared v => ret v
  end.

(** [process && process.nextTick], as a condition. *)
Definition process_nextTick_available (pv : ProcessValue) : bool :=
  match pv with
  | ProcessFalsy => false
  | ProcessObject nextTick => nextTick
  end.

Definition process_nextTick (callback : Task) : M unit :=
  fun w => (Normal tt, with_nextTickQueue (fun q => q ++ [callback]) w).

Definition setTimeout0 (callback : Task) : M unit :=
  fun w => (Normal tt, with_timerQueue (fun q => q ++ [callback]) w).

Section Engine.

Variable host : Host.

(** The behaviour of the user functions: what each does on given
    arguments. *)
Variable userFn : nat -> list Value -> Behaviour.

(** Lines 11-19.  The branch for the browser is empty. *)
Definition runMicroTask (callback : Task) : M unit :=
  pv <- readGlobal "process" (process host);;
  if process_nextTick_available pv then
    process_nextTick callback
  else
    mo <- readGlobal "MutationObserver" (MutationObserver host);;
    if mo then
      ret tt
    else
      setTimeout0 callback.

(** ** The class *)

(** Lines 53-60.  The last line writes the history [registered]. *)
Definition _pushHandler (this : ref) (executor : Value) (state : State)
    (resolve reject : Value) : M unit :=
  o <- getPromise this;;
  let h := mkHandler executor state resolve reject in
  putPromise this (mkPromise (_state o) (_value o) (_handlers o ++ [h]));;
  fun w => (Normal tt, with_registered (fun l => l ++ [mkTask this h]) w).

(** Lines 80-104: the handler is not run here, the arrow function is
    handed to the adapter. *)
Definition _runOneHandler (this : ref) (h : Handler) : M unit :=
  runMicroTask (mkTask this h).

(** [this._handlers.shift()] *)
Definition shiftHandlers (this : ref) : M unit :=
  o <- getPromise this;;
  putPromise this (mkPromise (_state o) (_value o) (tail (_handlers o))).

(** The loop of lines 70-73, on the queue as read when it is entered:
    [_runOneHandler] only reaches the host's queues, so [this._handlers[0]]
    is at every turn the head of what is left. *)
Fixpoint _runHandlers_loop (this : ref) (queue : list Handler) : M unit :=
  match queue with
  | [] => ret tt
  | h :: rest =>
      _runOneHandler this h;;
      shiftHandlers this;;
      _runHandlers_loop this rest
  end.

(** Lines 65-74. *)
Definition _runHandlers (this : ref) : M unit :=
  o <- getPromise this;;
  if State_eqb (_state o) PENDING then ret tt
  else _runHandlers_loop this (_handlers o).

(** Lines 146-154. *)
Definition _changeState (this : ref) (newState : State) (value : Value)
  : M unit :=
  o <- getPromise this;;
  if negb (State_eqb (_state o) PENDING) then ret tt
  else
    putPromise this (mkPromise newState value (_handlers o));;
    _runHandlers this.

(** Lines 160-163. *)
Definition _resolve (this : ref) (data : Value) : M unit :=
  _changeState this FULFILLED data.

(** Lines 169-172. *)
Definition _reject (this : ref) (reason : Value) : M unit :=
  _changeState this REJECTED reason.

(** Lines 35-44: [new MyPromise(executor)].  The executor is a closure of
    the caller; it receives the two bound capabilities. *)
Definition constructor (executor : Value -> Value -> M unit) : M ref :=
  this <- newPromise (mkPromise PENDING VUndefined []);;
  try_catch (executor (VResolve this) (VReject this))
            (fun error => _reject this error);;
  ret this.

(** Lines 111-117. *)
Definition then_ (this : ref) (onFulfilled onRejected : Value) : M ref :=
  constructor (fun resolve reject =>
    _pushHandler this onFulfilled FULFILLED resolve reject;;
    _pushHandler this onRejected REJECTED resolve reject;;
    _runHandlers this).

(** Lines 123-125. *)
Definition catch (this : ref) (onRejected : Value) : M ref :=
  then_ this VNull onRejected.

(** ** Calling a function value *)

(** The call of a capability by a user function. *)
Definition settle (s : Settlement) : M unit :=
  if by_reject s then _reject (target s) (datum s)
  else _resolve (target s) (datum s).

(** A user function makes its calls and ends; an exception that escapes
    one of the calls ends the function with it. *)
Fixpoint call (f : Value) (args : list Value) {struct f} : M Value :=
  match f with
  | VFunction id =>
      let b := userFn id args in
      for_of (settlements b) settle;;
      fun w => (completion b, w)
  | VResolve p => _resolve p (arg0 args);; ret VUndefined
  | VReject p => _reject p (arg0 args);; ret VUndefined
  | VAllOnFulfilled resolve c i =>
      (* lines 218-224 *)
      s <- getScope c;;
      let fulfilledCount' := S (fulfilledCount s) in
      putScope c (mkAllScope (array_set i (arg0 args) (results s))
                             (count s) fulfilledCount');;
      if Nat.eqb fulfilledCount' (count s) then
        call resolve [VArray c];; ret VUndefined
      else ret VUndefined
  | VSettledOnFulfilled =>
      ret (VObject [("status", VStr (State_name FULFILLED));
                    ("value", arg0 args)])
  | VSettledOnRejected =>
      ret (VObject [("status", VStr (State_name FULFILLED));
                    ("reason", arg0 args)])
  | _ => throw (TypeError "is not a function")
  end.


(** [obj.then(onFulfilled, onRejected)] *)
Definition invoke_then (obj onFulfilled onRejected : Value) : M Value :=
  match obj with
  | VPromise p => d <- then_ p onFulfilled onRejected;; ret (VPromise d)
  | VObject fields => call (field "then" fields) [onFulfilled; onRejected]
  | _ => throw (TypeError "then is not a function")
  end.

(** The body of the arrow function of lines 81-103. *)
Definition runTask (t : Task) : M unit :=
  let h := handler t in
  o <- getPromise (this t);;
  if negb (State_eqb (_state o) (state h)) then ret tt
  else if negb (JSType_eqb (typeof (executor h)) TFunction) then
    (if State_eqb (_state o) FULFILLED
     then call (resolve h) [_value o]
     else call (reject h) [_value o]);;
    ret tt
  else
    try_catch
      (result <- call (executor h) [_value o];;
       if isPromise result then
         invoke_then result (resolve h) (reject h);; ret tt
       else
         call (resolve h) [result];; ret tt)
      (fun error => call (reject h) [error];; ret tt).

(** ** The static combinators *)

(** Lines 181-192. *)
Definition MyPromise_resolve (data : Value) : M Value :=
  match data with
  | VPromise _ => ret data
  | _ =>
      p <- constructor (fun resolve reject =>
             if isPromise data then
               invoke_then data resolve reject;; ret tt
             else
               call resolve [data];; ret tt);;
      ret (VPromise p)
  end.

(** Lines 198-202. *)
Definition MyPromise_reject (reason : Value) : M Value :=
  p <- constructor (fun resolve reject => call reject [reason];; ret tt);;
  ret (VPromise p).

(** Lines 209-234. *)
Definition MyPromise_all (proms : list Value) : M Value :=
  p <- constructor (fun resolve reject =>
         try_catch
           (c <- newScope (mkAllScope [] 0 0);;
            for_of proms (fun promise =>
              s <- getScope c;;
              let i := count s in
              putScope c (mkAllScope (results s) (S i) (fulfilledCount s));;
              q <- MyPromise_resolve promise;;
              invoke_then q (VAllOnFulfilled resolve c i) reject;;
              ret tt);;
            s <- getScope c;;
            if Nat.eqb (count s) 0 then call resolve [VArray c];; ret tt
            else ret tt)
           (fun error => call reject [error];; ret tt));;
  ret (VPromise p).

(** The loop of lines 242-255, which fills [ps]. *)
Fixpoint allSettled_loop (proms : list Value) (ps : list Value)
  : M (list Value) :=
  match proms with
  | [] => ret ps
  | p :: rest =>
      q <- MyPromise_resolve p;;
      d <- invoke_then q VSettledOnFulfilled VSettledOnRejected;;
      allSettled_loop rest (ps ++ [d])
  end.

(** Lines 240-257. *)
Definition MyPromise_allSettled (proms : list Value) : M Value :=
  ps <- allSettled_loop proms [];;
  MyPromise_all ps.

(** The arrow function of lines 264-268. *)
Definition race_executor (proms : list Value) (resolve reject : Value)
  : M unit :=
  for_of proms (fun p =>
    q <- MyPromise_resolve p;;
    invoke_then q resolve reject;;
    ret tt).

(** [MyPromise(executor)], a class called without [new]. *)
Definition MyPromise_without_new (executor : Value -> Value -> M unit)
  : M Value :=
  throw (TypeError "Class constructor MyPromise cannot be invoked without 'new'").

(** Lines 263-269. *)
Definition MyPromise_race (proms : list Value) : M Value :=
  MyPromise_without_new (race_executor proms).

(** ** The host's event loop *)

(** The host takes the next callback and runs it: those of
    [process.nextTick] go before the timers.  The callback is written to
    the history [invoked].  [None] when nothing is waiting. *)
Definition tick (w : World) : option (Completion unit * World) :=
  match nextTickQueue w with
  | t :: q =>
      Some (runTask t (with_invoked (fun l => l ++ [t])
                        (with_nextTickQueue (fun _ => q) w)))
  | [] =>
      match timerQueue w with
      | t :: q =>
          Some (runTask t (with_invoked (fun l => l ++ [t])
                            (with_timerQueue (fun _ => q) w)))
      | [] => None
      end
  end.

(** The host runs callbacks until none is waiting; an exception that
    escapes a callback ends the run.  [None] when the fuel runs out. *)
Fixpoint run_loop (fuel : nat) (w : World) : option (Completion unit * World) :=
  match tick w with
  | None => Some (Normal tt, w)
  | Some (Throw error, w') => Some (Throw error, w')
  | Some (Normal _, w') =>
      match fuel with
      | 0 => None
      | S fuel' => run_loop fuel' w'
      end
  end.

End Engine.

(** * Definitions used by the statements *)

(** ** Hosts *)

(** A browser page whose bundle declares [process] without [nextTick]. *)
Definition bundled_browser : Host :=
  mkHost (Declared (ProcessObject false)) (Declared true).

(** A browser page where [process] is not declared. *)
Definition plain_browser : Host := mkHost Undeclared (Declared true).

(** A host with neither [process.nextTick] nor [MutationObserver]. *)
Definition bare_host : Host := mkHost (Declared ProcessFalsy) (Declared false).

(** The deferral facilities of the host that the adapter can reach. *)
Inductive Facility := NextTick | Timer.

(** The facility the adapter hands callbacks to, when there is one. *)
Definition facility (host : Host) : option Facility :=
  match process host with
  | Undeclared => None
  | Declared pv =>
      if process_nextTick_available pv then Some NextTick
      else match MutationObserver host with
           | Declared false => Some Timer
           | _ => None
           end
  end.

Definition enqueue (fac : Facility) (ts : list Task) (w : World) : World :=
  match fac with
  | NextTick => with_nextTickQueue (fun q => q ++ ts) w
  | Timer => with_timerQueue (fun q => q ++ ts) w
  end.

(** The callbacks waiting in a facility, and the other facility unused. *)
Definition queued (fac : Facility) (w : World) : list Task :=
  match fac with
  | NextTick => nextTickQueue w
  | Timer => timerQueue w
  end.

Definition unused (fac : Facility) (w : World) : list Task :=
  match fac with
  | NextTick => timerQueue w
  | Timer => nextTickQueue w
  end.

(** Nothing is waiting in the host. *)
Definition quiescent (w : World) : Prop :=
  nextTickQueue w = [] /\ timerQueue w = [].

(** The host has taken the first callback out of the facility. *)
Definition dequeue (fac : Facility) (w : World) : World :=
  match fac with
  | NextTick => with_nextTickQueue tail w
  | Timer => with_timerQueue tail w
  end.

(** The two entries that [then] pushes (lines 113-114). *)
Definition handler_pair (onFulfilled onRejected resolve reject : Value)
  : list Handler :=
  [mkHandler onFulfilled FULFILLED resolve reject;
   mkHandler onRejected REJECTED resolve reject].

(** Of the two continuations given to [then], the one for the state
    [st]. *)
Definition continuation_for (st : State) (onFulfilled onRejected : Value)
  : Value :=
  match st with
  | REJECTED => onRejected
  | _ => onFulfilled
  end.

(** The same, with the capabilities of the new promise [d]. *)
Definition then_handlers (d : ref) (onFulfilled onRejected : Value)
  : list Handler :=
  handler_pair onFulfilled onRejected (VResolve d) (VReject d).

Definition fresh_promise : Promise := mkPromise PENDING VUndefined [].

(** A world with one promise, fulfilled with 1, and nothing waiting. *)
Definition fulfilled_world : World :=
  mkWorld [mkPromise FULFILLED (VNum 1) []] [] [] [] [] [].

(** A world with a promise rejected with "x" and a pending one. *)
Definition rejected_and_pending_world : World :=
  mkWorld [mkPromise REJECTED (VStr "x") []; fresh_promise] [] [] [] [] [].

(** A world with a promise fulfilled with 1 and a pending one. *)
Definition fulfilled_and_pending_world : World :=
  mkWorld [mkPromise FULFILLED (VNum 1) []; fresh_promise] [] [] [] [] [].

(** A world with two pending promises and nothing waiting. *)
Definition two_pending_world : World :=
  mkWorld [fresh_promise; fresh_promise] [] [] [] [] [].

(** The claim, as it stands: whenever the executor raises [error], the
    constructed promise ends up rejected with [error]. *)
Definition executor_error_is_rejection_reason (host : Host) : Prop :=
  forall (executor : Value -> Value -> M unit) w error w',
    executor (VResolve (length (heap w))) (VReject (length (heap w)))
             (with_heap (fun h => h ++ [fresh_promise]) w) = (Throw error, w') ->
    exists hs,
      heap (constructor host executor w).2 !! length (heap w)
      = Some (mkPromise REJECTED error hs).

(** [(resolve, reject) => { throw new Error("E") }] *)
Definition throwing_executor (resolve reject : Value) : M unit :=
  throw (VError "Error" "E").

(** The host runs [n] callbacks, one after the other, each to a normal
    end.  [None] when a callback is missing or one ends in an exception. *)
Fixpoint ticks (host : Host) (userFn : nat -> list Value -> Behaviour)
    (n : nat) (w : World) : option World :=
  match n with
  | 0 => Some w
  | S n' =>
      match tick host userFn w with
      | Some (Normal _, w') => ticks host userFn n' w'
      | _ => None
      end
  end.

(** ** Registrations and their runs *)

(** The tasks of [l] that belong to the promise [p], in order. *)
Definition tasks_of (p : ref) (l : list Task) : list Task :=
  filter (fun t => this t = p) l.

(** The handlers still in [this._handlers] of [p], as the tasks they will
    become. *)
Definition waiting (w : World) (p : ref) : list Task :=
  match heap w !! p with
  | Some o => map (mkTask p) (_handlers o)
  | None => []
  end.

(** The account of the registrations: on every promise, the handlers
    registered so far are, in order, those the host has run, then those
    in the facility, then those still waiting in the promise; a pending
    promise has none of the first two kinds and a settled one none of
    the last; nothing is registered on a promise that does not exist. *)
Definition ledger (fac : Facility) (w : World) : Prop :=
  unused fac w = [] /\
  (forall p,
     tasks_of p (registered w)
     = tasks_of p (invoked w) ++ tasks_of p (queued fac w) ++ waiting w p) /\
  (forall p o, heap w !! p = Some o -> _state o <> PENDING -> _handlers o = []) /\
  (forall p o, heap w !! p = Some o -> _state o = PENDING ->
     tasks_of p (invoked w) = [] /\ tasks_of p (queued fac w) = []) /\
  (forall p, heap w !! p = None -> tasks_of p (registered w) = []).

(** ** Programs *)

(** What the code around the engine can do, one step at a time. *)
Inductive Op :=
| OpNew (settles : list (bool * Value)) (raises : option Value)
| OpThen (p : ref) (onFulfilled onRejected : Value)
| OpCall (f : Value) (args : list Value)
| OpResolve (data : Value)
| OpReject (reason : Value)
| OpAll (proms : list Value)
| OpAllSettled (proms : list Value)
| OpRace (proms : list Value)
| OpTick.

(** An executor that calls its capabilities one after the other, [reject]
    where the flag is set and [resolve] otherwise, and then returns, or
    raises an error. *)
Definition script_executor (host : Host)
    (userFn : nat -> list Value -> Behaviour)
    (settles : list (bool * Value)) (raises : option Value)
    (resolve reject : Value) : M unit :=
  for_of settles (fun s =>
    call host userFn (if s.1 then reject else resolve) [s.2];; ret tt);;
  match raises with
  | Some error => throw error
  | None => ret tt
  end.

(** One step; an exception that escapes the step is dropped. *)
Definition perform (host : Host)
    (userFn : nat -> list Value -> Behaviour) (op : Op) (w : World)
  : World :=
  match op with
  | OpNew settles raises =>
      (constructor host (script_executor host userFn settles raises) w).2
  | OpThen p onFulfilled onRejected => (then_ host p onFulfilled onRejected w).2
  | OpCall f args => (call host userFn f args w).2
  | OpResolve data => (MyPromise_resolve host userFn data w).2
  | OpReject reason => (MyPromise_reject host userFn reason w).2
  | OpAll proms => (MyPromise_all host userFn proms w).2
  | OpAllSettled proms => (MyPromise_allSettled host userFn proms w).2
  | OpRace proms => (MyPromise_race host userFn proms w).2
  | OpTick =>
      match tick host userFn w with
      | Some (_, w') => w'
      | None => w
      end
  end.

Definition run_ops (host : Host)
    (userFn : nat -> list Value -> Behaviour) (ops : list Op)
    (w : World) : World :=
  fold_left (fun w op => perform host userFn op w) ops w.

(** An operation respects a relation between the world before and the
    world after. *)
Definition respects {A} (R : World -> World -> Prop) (m : M A) : Prop :=
  forall w, R w (m w).2.

(** The relation of an invariant that is kept. *)
Definition keeps (I : World -> Prop) (w w' : World) : Prop := I w -> I w'.

(** The host has run nothing in between. *)
Definition same_invoked (w w' : World) : Prop := invoked w' = invoked w.

(** ** One call of [all], seen from outside *)

(** The two handlers that [all] registers on its input number [i]
    (lines 218-225): [r] is the promise that [all] returns, [c] the scope
    of the call, and [r + 1 + i] the promise that [then] returns. *)
Definition all_handlers (r c i : nat) : list Handler :=
  then_handlers (r + 1 + i) (VAllOnFulfilled (VResolve r) c i) (VReject r).

(** What happens around one call of [all] on the promises [ps]: the code
    that holds the capabilities of an input settles it, and the host runs
    a callback. *)
Definition input_event (ps : list ref) (op : Op) : Prop :=
  match op with
  | OpCall (VResolve p) _ | OpCall (VReject p) _ => p ∈ ps
  | OpTick => True
  | _ => False
  end.

(** The position of the promise [p] among the inputs. *)
Fixpoint index_of (p : ref) (ps : list ref) : option nat :=
  match ps with
  | [] => None
  | q :: rest => if decide (q = p) then Some 0 else S <$> index_of p rest
  end.

(** The course of one input: its state and value, and how far its two
    callbacks have come: 0 while the input is pending, 1 when both are in
    the facility, 2 when the first has run, 3 when both have. *)
Record Slot := mkSlot {
  slot_state : State;
  slot_value : Value;
  slot_phase : nat
}.

(** The call as a small machine: the inputs, the callbacks in the
    facility (the input, and whether it is the callback for rejection),
    [fulfilledCount], [results], and the state and value of the result. *)
Record Abs := mkAbs {
  slots : list Slot;
  aqueue : list (nat * bool);
  acount : nat;
  aresults : list (option Value);
  aout : State * Value
}.

(** Settlement takes effect on a pending promise only. *)
Definition settle_out (st : State) (v : Value) (out : State * Value)
  : State * Value :=
  if decide (out.1 = PENDING) then (st, v) else out.

Definition settle_slot (i : nat) (st : State) (v : Value) (a : Abs) : Abs :=
  match slots a !! i with
  | Some (mkSlot PENDING _ _) =>
      mkAbs (<[i := mkSlot st v 1]> (slots a))
            (aqueue a ++ [(i, false); (i, true)])
            (acount a) (aresults a) (aout a)
  | _ => a
  end.

Definition next_phase (s : Slot) : Slot :=
  mkSlot (slot_state s) (slot_value s) (S (slot_phase s)).

(** The host runs the first callback of the call [c] on [n] inputs. *)
Definition atick (c n : nat) (a : Abs) : Abs :=
  match aqueue a with
  | [] => a
  | (i, rejection) :: q =>
      match slots a !! i with
      | None => mkAbs (slots a) q (acount a) (aresults a) (aout a)
      | Some s =>
          let slots' := <[i := next_phase s]> (slots a) in
          if rejection then
            mkAbs slots' q (acount a) (aresults a)
                  (if decide (slot_state s = REJECTED)
                   then settle_out REJECTED (slot_value s) (aout a)
                   else aout a)
          else if decide (slot_state s = FULFILLED) then
            mkAbs slots' q (S (acount a))
                  (array_set i (slot_value s) (aresults a))
                  (if Nat.eqb (S (acount a)) n
                   then settle_out FULFILLED (VArray c) (aout a)
                   else aout a)
          else mkAbs slots' q (acount a) (aresults a) (aout a)
      end
  end.

Definition astep (ps : list ref) (c : nat) (op : Op) (a : Abs) : Abs :=
  match op with
  | OpCall (VResolve p) args =>
      match index_of p ps with
      | Some i => settle_slot i FULFILLED (arg0 args) a
      | None => a
      end
  | OpCall (VReject p) args =>
      match index_of p ps with
      | Some i => settle_slot i REJECTED (arg0 args) a
      | None => a
      end
  | OpTick => atick c (length ps) a
  | _ => a
  end.

(** The callbacks of an input that are in the facility, by its phase. *)
Definition phase_queue (i phase : nat) : list (nat * bool) :=
  match phase with
  | 1 => [(i, false); (i, true)]
  | 2 => [(i, true)]
  | _ => []
  end.

(** An input counts once its fulfillment callback has run. *)
Definition counted (s : Slot) : bool :=
  bool_decide (slot_state s = FULFILLED) && bool_decide (2 <= slot_phase s).

Definition contribution (s : Slot) : nat := if counted s then 1 else 0.

(** [results[i]], [None] for a hole or past the end. *)
Definition element (res : list (option Value)) (i : nat) : option Value :=
  match res !! i with
  | Some (Some v) => Some v
  | _ => None
  end.

(** What holds of the machine at every moment. *)
Definition consistent (c n : nat) (a : Abs) : Prop :=
  length (slots a) = n /\
  (forall i,
     filter (fun x => x.1 = i) (aqueue a)
     = match slots a !! i with
       | Some s => phase_queue i (slot_phase s)
       | None => []
       end) /\
  (forall i s, slots a !! i = Some s ->
     (slot_state s = PENDING <-> slot_phase s = 0) /\ slot_phase s <= 3) /\
  acount a = sum_list_with contribution (slots a) /\
  length (aresults a) <= n /\
  (forall i s, slots a !! i = Some s ->
     element (aresults a) i = if counted s then Some (slot_value s) else None) /\
  ((aout a).1 = PENDING \/ aout a = (FULFILLED, VArray c) \/
   ((aout a).1 = REJECTED /\
    exists i s, slots a !! i = Some s /\ slot_state s = REJECTED /\
                slot_phase s = 3)) /\
  (acount a = n -> (aout a).1 <> PENDING) /\
  ((aout a).1 = FULFILLED -> acount a = n).

(** After the input [i] has rejected with [e], first of all inputs: the
    result is rejected with [e], or it is pending and the rejection
    callback of [i] is in the facility, behind no rejection callback of
    another rejected input. *)
Definition first_rejection (i : nat) (e : Value) (a : Abs) : Prop :=
  aout a = (REJECTED, e) \/
  ((aout a).1 = PENDING /\
   (exists ph, slots a !! i = Some (mkSlot REJECTED e ph)) /\
   exists pre post,
     aqueue a = pre ++ (i, true) :: post /\
     forall j s, (j, true) ∈ pre -> slots a !! j = Some s ->
                 slot_state s <> REJECTED).

(** The callback that the element [(i, rejection)] of the machine's queue
    stands for. *)
Definition all_task (ps : list ref) (r c : nat) (x : nat * bool) : Task :=
  mkTask (default 0 (ps !! x.1))
    (if x.2
     then mkHandler (VReject r) REJECTED
                    (VResolve (r + 1 + x.1)) (VReject (r + 1 + x.1))
     else mkHandler (VAllOnFulfilled (VResolve r) c x.1) FULFILLED
                    (VResolve (r + 1 + x.1)) (VReject (r + 1 + x.1))).

(** The world shows the machine: the facility holds its callbacks, the
    scope its counters, the promise [r] its result, and every input its
    state and value, with the two handlers of the call while it is
    pending. *)
Definition represents (fac : Facility) (ps : list ref) (r c : nat)
    (w : World) (a : Abs) : Prop :=
  unused fac w = [] /\
  queued fac w = map (all_task ps r c) (aqueue a) /\
  scopes w !! c = Some (mkAllScope (aresults a) (length ps) (acount a)) /\
  heap w !! r = Some (mkPromise (aout a).1 (aout a).2 []) /\
  (forall i p, ps !! i = Some p ->
     exists s, slots a !! i = Some s /\
       heap w !! p
       = Some (mkPromise (slot_state s) (slot_value s)
                 (if decide (slot_state s = PENDING)
                  then all_handlers r c i else [])) /\
       exists tst tv, heap w !! (r + 1 + i) = Some (mkPromise tst tv [])).

(** The machine when [all] returns: every input pending, with the value
    it had; the result pending, or fulfilled at once when there is no
    input. *)
Definition initial_value (w : World) (p : ref) : Value :=
  default VUndefined (_value <$> heap w !! p).

Definition initial_abs (w : World) (ps : list ref) (c : nat) : Abs :=
  mkAbs ((fun p => mkSlot PENDING (initial_value w p) 0) <$> ps)
        [] 0 []
        (match ps with
         | [] => (FULFILLED, VArray c)
         | _ => (PENDING, VUndefined)
         end).

(** The state of the loop of lines 215-226 of [all], called in the world
    [w0] on the promises [ps], after [j] inputs. *)
Definition all_looped (fac : Facility) (w0 : World) (ps : list ref)
    (j : nat) (w : World) : Prop :=
  let r := length (heap w0) in
  let c := length (scopes w0) in
  length (heap w) = r + 1 + j /\
  scopes w !! c = Some (mkAllScope [] j 0) /\
  queued fac w = queued fac w0 /\ unused fac w = unused fac w0 /\
  heap w !! r = Some fresh_promise /\
  (forall i p, ps !! i = Some p -> i < j ->
     heap w !! p
     = Some (mkPromise PENDING (initial_value w0 p) (all_handlers r c i)) /\
     heap w !! (r + 1 + i) = Some fresh_promise) /\
  (forall i p, ps !! i = Some p -> j <= i ->
     heap w !! p = Some (mkPromise PENDING (initial_value w0 p) [])).

(** ** Small programs for the examples *)

(** The call [f(v)] in the body of a user function, for a capability
    [f]. *)
Definition calling (f v : Value) : list Settlement :=
  match f with
  | VResolve p => [mkSettlement false p v]
  | VReject p => [mkSettlement true p v]
  | _ => []
  end.

(** A table of user functions: number 0 returns its argument, number 1
    raises its argument, number 2 returns the promise 1, number 4
    returns an object whose [then] is number 5, number 5 is
    [(resolve, reject) => { resolve("t"); throw "late" }], and the others
    return [undefined]. *)
Definition sampleFn (f : nat) (args : list Value) : Behaviour :=
  match f with
  | 0 => pure (Normal (arg0 args))
  | 1 => pure (Throw (arg0 args))
  | 2 => pure (Normal (VPromise 1))
  | 4 => pure (Normal (VObject [("then", VFunction 5)]))
  | 5 => mkBehaviour (calling (arg0 args) (VStr "t")) (Throw (VStr "late"))
  | _ => pure (Normal VUndefined)
  end.

(** [(resolve, reject) => {}] *)
Definition idle_executor (resolve reject : Value) : M unit := ret tt.

(** [allSettled([Pok, Pfail])], [Pok] fulfilled with 1 and [Pfail]
    rejected with "x". *)
Definition allSettled_example (host : Host) : M Value :=
  Pok <- MyPromise_resolve host sampleFn (VNum 1);;
  Pfail <- MyPromise_reject host sampleFn (VStr "x");;
  MyPromise_allSettled host sampleFn [Pok; Pfail].

(** [(resolve, reject) => { resolve(1); throw new Error("E") }] *)
Definition resolve_then_throw (host : Host) (resolve reject : Value) : M unit :=
  call host sampleFn resolve [VNum 1];;
  throw (VError "Error" "E").


(** ** Continuations, chains and [finally] *)

(** What a continuation that has run gives to the promise of [then]
    (lines 93-102), from how it ends: the value it returns fulfills the
    promise, the error it raises rejects it.  [None] when the value
    returned is a thenable, which is followed instead. *)
Definition completion_outcome (c : Completion Value)
  : option (State * Value) :=
  match c with
  | Normal result => if isPromise result then None else Some (FULFILLED, result)
  | Throw error => Some (REJECTED, error)
  end.

(** The same from the behaviour of a user function; [None] also when the
    function calls a capability on its way. *)
Definition handler_outcome (b : Behaviour) : option (State * Value) :=
  match settlements b with
  | [] => completion_outcome (completion b)
  | _ :: _ => None
  end.

(** What [then(onFulfilled, onRejected)] gives to its promise when the
    source has the outcome [out]: the outcome itself when the continuation
    for its state is no function, and what the user function makes of it
    otherwise.  [None] when the continuation is a closure of the engine,
    calls a capability, or returns a thenable. *)
Definition link_outcome (userFn : nat -> list Value -> Behaviour)
    (out : State * Value) (link : Value * Value) : option (State * Value) :=
  match continuation_for out.1 link.1 link.2 with
  | VFunction f => handler_outcome (userFn f [out.2])
  | k => if JSType_eqb (typeof k) TFunction then None else Some out
  end.

(** The function [f], called on [args], ends with [c] and leaves the
    world as it is, whatever the world. *)
Definition quiet (host : Host) (userFn : nat -> list Value -> Behaviour)
    (f : Value) (args : list Value) (c : Completion Value) : Prop :=
  forall w, call host userFn f args w = (c, w).

(** The outcome [out'] that a [then] with the continuations [link] makes
    of the outcome [out]: [out] itself when the continuation for its
    state is no function; otherwise the continuation is quiet and ends
    with a value that is no thenable, which fulfills, or with an error,
    which rejects. *)
Definition link_result (host : Host) (userFn : nat -> list Value -> Behaviour)
    (out : State * Value) (link : Value * Value) (out' : State * Value)
  : Prop :=
  let k := continuation_for out.1 link.1 link.2 in
  if JSType_eqb (typeof k) TFunction
  then exists c, quiet host userFn k [out.2] c /\
                 completion_outcome c = Some out'
  else out' = out.








(** ** Construction *)

(** The calls [settles] of the two capabilities of the promise [d], in
    order: of [reject] where the flag is set, of [resolve] otherwise. *)
Definition calls_on (d : ref) (settles : list (bool * Value))
  : list Settlement :=
  map (fun s => mkSettlement s.1 d s.2) settles.

(** The error that ends a function, when one does. *)
Definition error_of (c : Completion Value) : option Value :=
  match c with
  | Normal _ => None
  | Throw error => Some error
  end.

(** The promise that [new MyPromise(executor)] leaves, for an executor
    that calls its capabilities as [settles] says and then returns or
    raises: the first call decides; without a call, the error raised
    rejects; without either, the promise is pending. *)
Definition constructed (settles : list (bool * Value)) (raises : option Value)
  : Promise :=
  match settles with
  | (rejection, v) :: _ =>
      mkPromise (if rejection then REJECTED else FULFILLED) v []
  | [] =>
      match raises with
      | Some error => mkPromise REJECTED error []
      | None => fresh_promise
      end
  end.

(** ** What lasts *)

(** Every promise of the heap [h] is still there in [h'], and those that
    were settled have their state and their value. *)
Definition heap_outlasts (h h' : list Promise) : Prop :=
  length h <= length h' /\
  forall p o, h !! p = Some o -> _state o <> PENDING ->
    exists o', h' !! p = Some o' /\ _state o' = _state o /\ _value o' = _value o.

Definition outlasts (w w' : World) : Prop := heap_outlasts (heap w) (heap w').

(** ** [all] on promises in any state *)

(** The loop of [all] (lines 215-226) at the input number [i], the
    promise [p] as it is in the world [w0] of the call: on a settled
    promise [then] defers the two callbacks at once, which is for the
    machine the settlement of the slot; on a pending one nothing
    happens. *)
Definition settle_entry (w0 : World) (i : nat) (p : ref) (a : Abs) : Abs :=
  match heap w0 !! p with
  | Some o =>
      if decide (_state o = PENDING) then a
      else settle_slot i (_state o) (_value o) a
  | None => a
  end.

(** The same for the inputs [rest], numbered from [j] on. *)
Fixpoint enter (w0 : World) (j : nat) (rest : list ref) (a : Abs) : Abs :=
  match rest with
  | [] => a
  | p :: rest' => enter w0 (S j) rest' (settle_entry w0 j p a)
  end.

(** The machine when [all] returns, for inputs in any state. *)
Definition entry_abs (w0 : World) (ps : list ref) (c : nat) : Abs :=
  enter w0 0 ps (initial_abs w0 ps c).

(** The state of the loop of [all], called in the world [w0] on the
    promises [ps], after [j] inputs, with the machine [a]. *)
Definition all_entered (fac : Facility) (w0 : World) (ps : list ref)
    (j : nat) (w : World) (a : Abs) : Prop :=
  let r := length (heap w0) in
  let c := length (scopes w0) in
  length (heap w) = r + 1 + j /\
  scopes w !! c = Some (mkAllScope [] j 0) /\
  unused fac w = [] /\
  queued fac w = map (all_task ps r c) (aqueue a) /\
  heap w !! r = Some fresh_promise /\
  acount a = 0 /\ aresults a = [] /\ aout a = (PENDING, VUndefined) /\
  (forall i p, ps !! i = Some p -> i < j ->
     exists s, slots a !! i = Some s /\
       heap w !! p
       = Some (mkPromise (slot_state s) (slot_value s)
                 (if decide (slot_state s = PENDING)
                  then all_handlers r c i else [])) /\
       heap w !! (r + 1 + i) = Some fresh_promise) /\
  (forall i p, ps !! i = Some p -> j <= i ->
     heap w !! p = heap w0 !! p /\
     slots a !! i = Some (mkSlot PENDING (initial_value w0 p) 0)) /\
  (forall x, x < r -> x ∉ ps -> heap w !! x = heap w0 !! x).

(** ** Hosts without a facility *)

(** Between [w] and [w'] nothing was handed to the host and the host ran
    nothing. *)
Definition idle (w w' : World) : Prop :=
  nextTickQueue w' = nextTickQueue w /\ timerQueue w' = timerQueue w /\
  invoked w' = invoked w.

(** ** What is waiting in the host *)

(** The world [w] with the callbacks [q] waiting in the facility. *)
Definition setq (fac : Facility) (q : list Task) (w : World) : World :=
  match fac with
  | NextTick => with_nextTickQueue (fun _ => q) w
  | Timer => with_timerQueue (fun _ => q) w
  end.

(** The operation [m] only adds to what is waiting: whatever is waiting,
    it ends in the same way, does the same to everything else, and puts
    the same callbacks [ts] behind. *)
Definition appends {A} (fac : Facility) (m : M A) : Prop :=
  forall w, exists ts, forall q,
    m (setq fac q w) = ((m w).1, setq fac (q ++ ts) (m w).2).

(** ** One call of [allSettled], seen from outside *)

(** The object that the continuations of [allSettled] make of an outcome
    (lines 245-252): both write the status [FULFILLED]. *)
Definition descriptor (st : State) (v : Value) : Value :=
  VObject [("status", VStr (State_name FULFILLED));
           (if decide (st = REJECTED) then "reason" else "value", v)].

(** The two handlers that [allSettled] registers on its input number [i]
    (lines 244-253); [L + i] is the promise that [then] returns, which is
    the input number [i] of the call of [all] on line 256. *)
Definition settled_handlers (L i : nat) : list Handler :=
  then_handlers (L + i) VSettledOnFulfilled VSettledOnRejected.

(** A callback in the facility: one of an input of [allSettled], or one
    of an input of the call of [all]; the input, and whether it is the
    callback for rejection. *)
Inductive Entry :=
| EInput (i : nat) (rejection : bool)
| EAll (i : nat) (rejection : bool).

Fixpoint input_part (q : list Entry) : list (nat * bool) :=
  match q with
  | [] => []
  | EInput i b :: q' => (i, b) :: input_part q'
  | EAll _ _ :: q' => input_part q'
  end.

Fixpoint all_part (q : list Entry) : list (nat * bool) :=
  match q with
  | [] => []
  | EInput _ _ :: q' => all_part q'
  | EAll i b :: q' => (i, b) :: all_part q'
  end.

(** The call as a machine: the course of the inputs, the machine of the
    call of [all], and the callbacks in the facility. *)
Record Abs2 := mkAbs2 {
  inputs : list Slot;
  inner : Abs;
  equeue : list Entry
}.

Definition settle_input (i : nat) (st : State) (v : Value) (m : Abs2) : Abs2 :=
  match inputs m !! i with
  | Some (mkSlot PENDING _ _) =>
      mkAbs2 (<[i := mkSlot st v 1]> (inputs m)) (inner m)
             (equeue m ++ [EInput i false; EInput i true])
  | _ => m
  end.

(** The callback for fulfillment finds its input fulfilled, or the one
    for rejection finds it rejected: the continuation runs and its
    descriptor fulfills the promise of [then]. *)
Definition delivers (s : Slot) (rejection : bool) : bool :=
  if rejection then bool_decide (slot_state s = REJECTED)
  else bool_decide (slot_state s = FULFILLED).

(** The host runs the first callback. *)
Definition tick2 (c n : nat) (m : Abs2) : Abs2 :=
  match equeue m with
  | [] => m
  | EAll i b :: q => mkAbs2 (inputs m) (atick c n (inner m)) q
  | EInput i b :: q =>
      match inputs m !! i with
      | None => mkAbs2 (inputs m) (inner m) q
      | Some s =>
          let inputs' := <[i := next_phase s]> (inputs m) in
          if delivers s b then
            mkAbs2 inputs'
              (settle_slot i FULFILLED
                 (descriptor (slot_state s) (slot_value s)) (inner m))
              (q ++ [EAll i false; EAll i true])
          else mkAbs2 inputs' (inner m) q
      end
  end.

Definition step2 (ps : list ref) (c : nat) (op : Op) (m : Abs2) : Abs2 :=
  match op with
  | OpCall (VResolve p) args =>
      match index_of p ps with
      | Some i => settle_input i FULFILLED (arg0 args) m
      | None => m
      end
  | OpCall (VReject p) args =>
      match index_of p ps with
      | Some i => settle_input i REJECTED (arg0 args) m
      | None => m
      end
  | OpTick => tick2 c (length ps) m
  | _ => m
  end.

(** The descriptor of an input has reached the call of [all]. *)
Definition delivered (s : Slot) : bool :=
  bool_decide (slot_state s = FULFILLED) && bool_decide (2 <= slot_phase s)
  || bool_decide (slot_state s = REJECTED) && bool_decide (slot_phase s = 3).

(** What holds of the machine at every moment. *)
Definition consistent2 (c n : nat) (m : Abs2) : Prop :=
  consistent c n (inner m) /\
  length (inputs m) = n /\
  aqueue (inner m) = all_part (equeue m) /\
  (forall i,
     filter (fun x => x.1 = i) (input_part (equeue m))
     = match inputs m !! i with
       | Some s => phase_queue i (slot_phase s)
       | None => []
       end) /\
  (forall i s, inputs m !! i = Some s ->
     (slot_state s = PENDING <-> slot_phase s = 0) /\ slot_phase s <= 3) /\
  (forall i s, inputs m !! i = Some s ->
     exists t, slots (inner m) !! i = Some t /\
       if delivered s
       then slot_state t = FULFILLED /\
            slot_value t = descriptor (slot_state s) (slot_value s)
       else slot_state t = PENDING).

(** The callback that an entry stands for: [ps] are the inputs of
    [allSettled], [L + i] the promise that [then] makes for the input
    [i], [L + length ps] the promise that [all] returns and [c] its
    scope. *)
Definition entry_task (ps : list ref) (L c : nat) (e : Entry) : Task :=
  match e with
  | EInput i rejection =>
      mkTask (default 0 (ps !! i))
        (mkHandler
           (if rejection then VSettledOnRejected else VSettledOnFulfilled)
           (if rejection then REJECTED else FULFILLED)
           (VResolve (L + i)) (VReject (L + i)))
  | EAll i rejection =>
      all_task (seq L (length ps)) (L + length ps) c (i, rejection)
  end.

(** The world shows the machine: the facility holds its callbacks, every
    input has its state and value, with the two handlers of [allSettled]
    while it is pending, and apart from the callbacks of the inputs the
    world shows the machine of the call of [all]. *)
Definition represents2 (fac : Facility) (ps : list ref) (L c : nat)
    (w : World) (m : Abs2) : Prop :=
  let ds := seq L (length ps) in
  let r := L + length ps in
  unused fac w = [] /\
  queued fac w = map (entry_task ps L c) (equeue m) /\
  represents fac ds r c
    (setq fac (map (all_task ds r c) (aqueue (inner m))) w) (inner m) /\
  forall i p, ps !! i = Some p ->
    exists s, inputs m !! i = Some s /\
      heap w !! p
      = Some (mkPromise (slot_state s) (slot_value s)
                (if decide (slot_state s = PENDING)
                 then settled_handlers L i else [])).

(** The machine of a call of [all] on [n] new promises. *)
Definition inner0 (n c : nat) : Abs :=
  mkAbs (replicate n (mkSlot PENDING VUndefined 0)) [] 0 []
        (match n with
         | 0 => (FULFILLED, VArray c)
         | _ => (PENDING, VUndefined)
         end).

(** The loop of [allSettled] (lines 242-255) at the input number [i]:
    on a settled promise [then] defers the two callbacks at once. *)
Definition settle_entry2 (w0 : World) (i : nat) (p : ref) (m : Abs2) : Abs2 :=
  match heap w0 !! p with
  | Some o =>
      if decide (_state o = PENDING) then m
      else settle_input i (_state o) (_value o) m
  | None => m
  end.

Fixpoint enter2 (w0 : World) (j : nat) (rest : list ref) (m : Abs2) : Abs2 :=
  match rest with
  | [] => m
  | p :: rest' => enter2 w0 (S j) rest' (settle_entry2 w0 j p m)
  end.

(** The machine when [allSettled] returns. *)
Definition entry_abs2 (w0 : World) (ps : list ref) (c : nat) : Abs2 :=
  enter2 w0 0 ps
    (mkAbs2 ((fun p => mkSlot PENDING (initial_value w0 p) 0) <$> ps)
            (inner0 (length ps) c) []).

(** How many callbacks are still to run at most: those in the facility,
    and two for every callback of an input among them. *)
Definition to_run (m : Abs2) : nat :=
  length (equeue m) + 2 * length (input_part (equeue m)).

(** Between [w] and [w'] only promises of [X] were written. *)
Definition only (X : ref -> Prop) (w w' : World) : Prop :=
  forall x, ~ X x -> heap w' !! x = heap w !! x.

(** The state of the loop of [allSettled], called in the world [w0] on
    the promises [ps], after [j] inputs, with the machine [m]. *)
Definition allSettled_entered (fac : Facility) (w0 : World) (ps : list ref)
    (j : nat) (w : World) (m : Abs2) : Prop :=
  let L := length (heap w0) in
  let c := length (scopes w0) in
  length (heap w) = L + j /\
  scopes w = scopes w0 /\
  unused fac w = [] /\
  queued fac w = map (entry_task ps L c) (equeue m) /\
  inner m = inner0 (length ps) c /\
  all_part (equeue m) = [] /\
  (forall i p, ps !! i = Some p -> i < j ->
     exists s, inputs m !! i = Some s /\
       heap w !! p
       = Some (mkPromise (slot_state s) (slot_value s)
                 (if decide (slot_state s = PENDING)
                  then settled_handlers L i else [])) /\
       heap w !! (L + i) = Some fresh_promise) /\
  (forall i p, ps !! i = Some p -> j <= i ->
     heap w !! p = heap w0 !! p /\
     inputs m !! i = Some (mkSlot PENDING (initial_value w0 p) 0)).


(** ** One call of [all] on any inputs *)

(** The promises that the loop of [all] works with for one input, in a
    heap whose first free place is [next]: the promise that
    [MyPromise.resolve] returns, which is the input itself when it is an
    instance of MyPromise and a new promise otherwise, and then the new
    promise that [then] returns. *)
Definition place_of (next : nat) (x : Value) : ref * ref :=
  match x with
  | VPromise p => (p, next)
  | _ => (next, S next)
  end.

(** The first free place after that input. *)
Definition step_of (next : nat) (x : Value) : nat :=
  match x with
  | VPromise _ => S next
  | _ => S (S next)
  end.

(** The same for all inputs, one after the other. *)
Fixpoint layout (next : nat) (xs : list Value) : list (ref * ref) :=
  match xs with
  | [] => []
  | x :: rest => place_of next x :: layout (step_of next x) rest
  end.

Fixpoint layout_end (next : nat) (xs : list Value) : nat :=
  match xs with
  | [] => next
  | x :: rest => layout_end (step_of next x) rest
  end.

(** The two handlers that [all] registers for its input number [i]
    (lines 218-225): [r] is the promise that [all] returns, [c] the scope
    of the call, and [d] the promise that [then] returns. *)
Definition input_handlers (r c i d : nat) : list Handler :=
  then_handlers d (VAllOnFulfilled (VResolve r) c i) (VReject r).

(** The places below [j] that the promise [p] has among the promises
    [qs], in order: an iterable may yield the same promise again. *)
Definition places_below (j : nat) (p : ref) (qs : list ref) : list nat :=
  filter (fun i => qs !! i = Some p) (seq 0 j).

Definition places (p : ref) (qs : list ref) : list nat :=
  places_below (length qs) p qs.

(** The callbacks of the places [ks], as the machine lists them. *)
Definition callbacks (ks : list nat) : list (nat * bool) :=
  flat_map (fun i => [(i, false); (i, true)]) ks.

(** The handlers that the loop has put on the promise [p] when it has
    come to the input number [j]: two for every place of [p]; [ds] are
    the promises that [then] returns. *)
Definition handlers_below (j : nat) (qs ds : list ref) (r c : nat) (p : ref)
  : list Handler :=
  flat_map (fun i => input_handlers r c i (default 0 (ds !! i)))
           (places_below j p qs).

(** The callback that the element [(i, rejection)] of the machine's queue
    stands for. *)
Definition input_task (qs ds : list ref) (r c : nat) (x : nat * bool) : Task :=
  let d := default 0 (ds !! x.1) in
  mkTask (default 0 (qs !! x.1))
    (if x.2
     then mkHandler (VReject r) REJECTED (VResolve d) (VReject d)
     else mkHandler (VAllOnFulfilled (VResolve r) c x.1) FULFILLED
                    (VResolve d) (VReject d)).

(** The settlement of a promise is the settlement of all its places. *)
Definition settle_places (ks : list nat) (st : State) (v : Value) (a : Abs)
  : Abs :=
  fold_left (fun a i => settle_slot i st v a) ks a.

Definition astep_any (qs : list ref) (c : nat) (op : Op) (a : Abs) : Abs :=
  match op with
  | OpCall (VResolve p) args =>
      settle_places (places p qs) FULFILLED (arg0 args) a
  | OpCall (VReject p) args =>
      settle_places (places p qs) REJECTED (arg0 args) a
  | OpTick => atick c (length qs) a
  | _ => a
  end.

(** The world shows the machine: the facility holds its callbacks, the
    scope its counters, the promise [r] its result; the promises of
    [then] have no handlers; and every promise among the inputs has the
    state and the value of its places, with the handlers of the call
    while it is pending. *)
Definition represents_any (fac : Facility) (qs ds : list ref) (r c : nat)
    (w : World) (a : Abs) : Prop :=
  unused fac w = [] /\
  queued fac w = map (input_task qs ds r c) (aqueue a) /\
  scopes w !! c = Some (mkAllScope (aresults a) (length qs) (acount a)) /\
  heap w !! r = Some (mkPromise (aout a).1 (aout a).2 []) /\
  (forall d, d ∈ ds ->
     exists tst tv, heap w !! d = Some (mkPromise tst tv [])) /\
  (forall p, p ∈ qs ->
     exists st v,
       heap w !! p
       = Some (mkPromise st v
                 (if decide (st = PENDING)
                  then handlers_below (length qs) qs ds r c p else [])) /\
       forall i, qs !! i = Some p ->
         exists ph, slots a !! i = Some (mkSlot st v ph)).

(** The state and the value [sv] that the promise made of the input [x]
    has when [then] is called on it, in a call of [all] in the world
    [w0]: those of the instance of MyPromise, which has no handlers; for
    a value that is no thenable, fulfilled with the value; and for a
    plain object whose [then] is a user function that calls the two
    functions it is given, as the first call says. *)
Definition input_state (userFn : nat -> list Value -> Behaviour) (w0 : World)
    (x : Value) (sv : State * Value) : Prop :=
  match x with
  | VPromise p => heap w0 !! p = Some (mkPromise sv.1 sv.2 [])
  | _ =>
      if isPromise x then
        exists fields g settles c,
          x = VObject fields /\ field "then" fields = VFunction g /\
          (forall d, userFn g [VResolve d; VReject d]
                     = mkBehaviour (calls_on d settles) c) /\
          sv = (_state (constructed settles (error_of c)),
                _value (constructed settles (error_of c)))
      else sv = (FULFILLED, x)
  end.

(** The loop of [all] at the input number [j], which has the state and
    the value [sv]: on a settled promise [then] defers the two callbacks
    at once, which is for the machine the settlement of the slot. *)
Fixpoint enter_any (j : nat) (svs : list (State * Value)) (a : Abs) : Abs :=
  match svs with
  | [] => a
  | sv :: rest =>
      enter_any (S j) rest
        (if decide (sv.1 = PENDING) then a else settle_slot j sv.1 sv.2 a)
  end.

(** The machine with every input pending. *)
Definition pending_abs (vs : list Value) (c : nat) : Abs :=
  mkAbs ((fun v => mkSlot PENDING v 0) <$> vs) [] 0 []
        (match vs with
         | [] => (FULFILLED, VArray c)
         | _ => (PENDING, VUndefined)
         end).

(** The machine when [all] returns. *)
Definition entry_any (svs : list (State * Value)) (c : nat) : Abs :=
  enter_any 0 svs (pending_abs (svs.*2) c).

(** The state of the loop of [all] (lines 215-226), called in the world
    [w0] on the inputs [xs], which have the states and values [svs],
    when it has come to the input number [j]; [a] is the machine. *)
Definition all_entered_any (fac : Facility) (w0 : World) (xs : list Value)
    (svs : list (State * Value)) (j : nat) (w : World) (a : Abs) : Prop :=
  let r := length (heap w0) in
  let c := length (scopes w0) in
  let qs := (layout (S r) xs).*1 in
  let ds := (layout (S r) xs).*2 in
  length (heap w) = layout_end (S r) (take j xs) /\
  scopes w !! c = Some (mkAllScope [] j 0) /\
  unused fac w = [] /\
  queued fac w = map (input_task qs ds r c) (aqueue a) /\
  heap w !! r = Some fresh_promise /\
  (acount a = 0 /\ aresults a = [] /\ aout a = (PENDING, VUndefined) /\
   length (slots a) = length xs) /\
  (forall i d, i < j -> ds !! i = Some d -> heap w !! d = Some fresh_promise) /\
  (forall i q sv, i < j -> qs !! i = Some q -> svs !! i = Some sv ->
     heap w !! q
     = Some (mkPromise sv.1 sv.2
               (if decide (sv.1 = PENDING)
                then handlers_below j qs ds r c q else [])) /\
     exists ph, slots a !! i = Some (mkSlot sv.1 sv.2 ph)) /\
  (forall i sv, j <= i -> svs !! i = Some sv ->
     slots a !! i = Some (mkSlot PENDING sv.2 0)) /\
  (forall p, p < r -> p ∉ take j qs -> heap w !! p = heap w0 !! p).
(** * Theorems *)

Lemma bind_eq {A B} (m : M A) (k : A -> M B) w :
  bind m k w = match m w with
               | (Normal a, w') => k a w'
               | (Throw error, w') => (Throw error, w')
               end.
Proof. reflexivity. Qed.

Lemma bind_Normal {A B} (m : M A) (k : A -> M B) w a w' :
  m w = (Normal a, w') -> bind m k w = k a w'.
Proof. intros H. unfold bind. by rewrite H. Qed.

Lemma bind_Throw {A B} (m : M A) (k : A -> M B) w error w' :
  m w = (Throw error, w') -> bind m k w = (Throw error, w').
Proof. intros H. unfold bind. by rewrite H. Qed.

Lemma getPromise_Some p o w :
  heap w !! p = Some o -> getPromise p w = (Normal o, w).
Proof. intros H. unfold getPromise. by rewrite H. Qed.

Lemma State_eqb_eq a b : State_eqb a b = true <-> a = b.
Proof. destruct a, b; cbn; split; congruence. Qed.

Lemma State_eqb_refl a : State_eqb a a = true.
Proof. by destruct a. Qed.

Lemma State_eqb_neq a b : a <> b -> State_eqb a b = false.
Proof. destruct a, b; cbn; congruence. Qed.

Section Settlement.

Variable host : Host.
Variable userFn : nat -> list Value -> Behaviour.

(** The adapter never touches the heap. *)
Lemma runMicroTask_heap callback w :
  heap (runMicroTask host callback w).2 = heap w.
Proof.
  unfold runMicroTask, readGlobal, bind.
  destruct (process host) as [|pv]; [reflexivity|]. cbn.
  destruct (process_nextTick_available pv); [reflexivity|].
  destruct (MutationObserver host) as [|[|]]; reflexivity.
Qed.

(** Draining the handlers changes neither the state nor the value of any
    promise, whatever the host does with the callbacks. *)
Lemma runHandlers_loop_keeps this queue q : forall w st v hs,
  heap w !! q = Some (mkPromise st v hs) ->
  exists hs', heap (_runHandlers_loop host this queue w).2 !! q
              = Some (mkPromise st v hs').
Proof.
  induction queue as [|h rest IH]; intros w st v hs Hq; [by exists hs|].
  cbn [_runHandlers_loop]. unfold _runOneHandler. rewrite bind_eq.
  pose proof (runMicroTask_heap (mkTask this h) w) as Hheap.
  destruct (runMicroTask host (mkTask this h) w) as [[[]|error] w1];
    cbn in Hheap; [|cbn; rewrite Hheap; by exists hs].
  rewrite bind_eq. unfold shiftHandlers at 1. rewrite bind_eq.
  unfold getPromise. rewrite Hheap.
  destruct (heap w !! this) as [o|] eqn:Hthis;
    [|cbn; rewrite Hheap; by exists hs].
  cbn [putPromise].
  destruct (decide (this = q)) as [->|Hne].
  - rewrite Hq in Hthis. injection Hthis as <-. cbn [_state _value _handlers].
    eapply IH. cbn. rewrite Hheap. apply list_lookup_insert_eq.
    by eapply lookup_lt_Some.
  - eapply IH. cbn. rewrite Hheap. by rewrite list_lookup_insert_ne.
Qed.

Lemma runHandlers_keeps this q w st v hs :
  heap w !! q = Some (mkPromise st v hs) ->
  exists hs', heap (_runHandlers host this w).2 !! q = Some (mkPromise st v hs').
Proof.
  intros Hq. unfold _runHandlers. rewrite bind_eq. unfold getPromise.
  destruct (heap w !! this) as [o|]; [|by exists hs].
  destruct (State_eqb (_state o) PENDING); [by exists hs|].
  by eapply runHandlers_loop_keeps.
Qed.

Lemma changeState_settled w F o newState value :
  heap w !! F = Some o -> _state o <> PENDING ->
  _changeState host F newState value w = (Normal tt, w).
Proof.
  intros Ho Hs. unfold _changeState.
  rewrite (bind_Normal _ _ _ _ _ (getPromise_Some _ _ _ Ho)).
  by rewrite State_eqb_neq.
Qed.

(** A pending promise takes the state and the value of the first
    settlement, on every host. *)
Lemma changeState_pending w F o newState value :
  heap w !! F = Some o -> _state o = PENDING ->
  exists hs, heap (_changeState host F newState value w).2 !! F
             = Some (mkPromise newState value hs).
Proof.
  intros Ho Hs. unfold _changeState.
  rewrite (bind_Normal _ _ _ _ _ (getPromise_Some _ _ _ Ho)).
  rewrite Hs. cbn [State_eqb negb]. rewrite bind_eq. cbn [putPromise].
  eapply runHandlers_keeps. cbn. apply list_lookup_insert_eq.
  by eapply lookup_lt_Some.
Qed.

(** C1.  Once a Future has left [PENDING], a call of either settlement
    capability, with any arguments, returns normally and leaves the whole
    world as it was: the state and the value of the Future, and everything
    else, are unchanged. *)
Theorem settled_future_ignores_settlement w F o args :
  heap w !! F = Some o -> _state o <> PENDING ->
  call host userFn (VResolve F) args w = (Normal VUndefined, w) /\
  call host userFn (VReject F) args w = (Normal VUndefined, w).
Proof.
  intros Ho Hs. split; cbn [call]; unfold _resolve, _reject;
    by rewrite (bind_Normal _ _ _ _ _ (changeState_settled _ _ _ _ _ Ho Hs)).
Qed.

End Settlement.

(** ** What the operations do on a host whose adapter defers *)

Lemma insert_same_promise (h : list Promise) p o :
  h !! p = Some o -> <[p := o]> h = h.
Proof. apply list_insert_id. Qed.

Ltac unfold_world :=
  unfold enqueue, with_heap, with_scopes, with_nextTickQueue, with_timerQueue,
    with_registered, with_invoked in *;
  cbn [heap scopes nextTickQueue timerQueue registered invoked] in *.

Section Deferring.

Variable host : Host.
Variable userFn : nat -> list Value -> Behaviour.
Variable fac : Facility.
Hypothesis Hfac : facility host = Some fac.

Lemma runMicroTask_defers callback w :
  runMicroTask host callback w = (Normal tt, enqueue fac [callback] w).
Proof using Hfac.
  revert Hfac. unfold facility, runMicroTask, readGlobal, bind.
  destruct (process host) as [|pv]; [discriminate|]. cbn.
  destruct (process_nextTick_available pv); [by intros [= <-]|].
  destruct (MutationObserver host) as [|[|]]; [discriminate..|].
  by intros [= <-].
Qed.

Lemma runHandlers_loop_defers this queue : forall w st v,
  heap w !! this = Some (mkPromise st v queue) ->
  _runHandlers_loop host this queue w
  = (Normal tt, enqueue fac (map (mkTask this) queue)
                  (with_heap (fun h => <[this := mkPromise st v []]> h) w)).
Proof using Hfac.
  induction queue as [|h rest IH]; intros w st v Hthis.
  - cbn. f_equal. destruct fac, w; unfold_world;
      by rewrite (insert_same_promise _ _ _ Hthis), app_nil_r.
  - cbn [_runHandlers_loop]. unfold _runOneHandler.
    rewrite (bind_Normal _ _ _ _ _ (runMicroTask_defers _ _)).
    assert (Hh : heap (enqueue fac [mkTask this h] w) = heap w)
      by (by destruct fac).
    unfold shiftHandlers.
    rewrite (bind_Normal _ _ _ tt
               (with_heap (fun l => <[this := mkPromise st v rest]> l)
                          (enqueue fac [mkTask this h] w))).
    2: { rewrite (bind_Normal _ _ _ (mkPromise st v (h :: rest))
                    (enqueue fac [mkTask this h] w)); [reflexivity|].
         apply getPromise_Some. by rewrite Hh. }
    erewrite IH.
    2: { cbn. rewrite Hh. apply list_lookup_insert_eq.
         by eapply lookup_lt_Some. }
    f_equal. destruct fac, w; unfold_world;
      by rewrite list_insert_insert_eq, <- app_assoc.
Qed.

Lemma runHandlers_pending this o w :
  heap w !! this = Some o -> _state o = PENDING ->
  _runHandlers host this w = (Normal tt, w).
Proof.
  intros Ho Hs. unfold _runHandlers.
  rewrite (bind_Normal _ _ _ _ _ (getPromise_Some _ _ _ Ho)). by rewrite Hs.
Qed.

Lemma runHandlers_defers this st v hs w :
  heap w !! this = Some (mkPromise st v hs) -> st <> PENDING ->
  _runHandlers host this w
  = (Normal tt, enqueue fac (map (mkTask this) hs)
                  (with_heap (fun h => <[this := mkPromise st v []]> h) w)).
Proof using Hfac.
  intros Ho Hs. unfold _runHandlers.
  rewrite (bind_Normal _ _ _ _ _ (getPromise_Some _ _ _ Ho)). cbn.
  rewrite (State_eqb_neq _ _ Hs). by apply runHandlers_loop_defers.
Qed.

(** The settlement of a pending promise: the state and the value are
    recorded, and its handlers move, in order, to the facility. *)
Lemma changeState_defers this v0 hs newState value w :
  heap w !! this = Some (mkPromise PENDING v0 hs) -> newState <> PENDING ->
  _changeState host this newState value w
  = (Normal tt, enqueue fac (map (mkTask this) hs)
                  (with_heap (fun h => <[this := mkPromise newState value []]> h) w)).
Proof using Hfac.
  intros Ho Hs. unfold _changeState.
  rewrite (bind_Normal _ _ _ _ _ (getPromise_Some _ _ _ Ho)).
  cbn [_state State_eqb negb _handlers]. rewrite bind_eq. cbn [putPromise].
  erewrite runHandlers_defers; [|cbn; apply list_lookup_insert_eq;
                                  by eapply lookup_lt_Some | done].
  f_equal. destruct fac, w; unfold_world; by rewrite list_insert_insert_eq.
Qed.

End Deferring.

(** ** The scheduling adapter *)

Lemma runMicroTask_node callback w :
  runMicroTask node callback w
  = (Normal tt, with_nextTickQueue (fun q => q ++ [callback]) w).
Proof. reflexivity. Qed.

Lemma runMicroTask_bare_host callback w :
  runMicroTask bare_host callback w
  = (Normal tt, with_timerQueue (fun q => q ++ [callback]) w).
Proof. reflexivity. Qed.

(** C5 (the code departs from the claim).  On the branch taken when
    [MutationObserver] is there, the adapter returns without handing the
    callback to any facility: the world, with both queues, is unchanged.
    Where [process] is not declared at all the adapter raises a
    ReferenceError, and again nothing is queued. *)
Theorem runMicroTask_browser_branch_drops_callback callback w :
  runMicroTask bundled_browser callback w = (Normal tt, w) /\
  runMicroTask plain_browser callback w
  = (Throw (ReferenceError "process is not defined"), w).
Proof. split; reflexivity. Qed.

(** ** race *)

(** C4 (the code departs from the claim).  [race] calls the class without
    [new]: on every input it raises a TypeError and returns no Future; the
    executor that would subscribe to the inputs is never run. *)
Theorem race_raises_TypeError host userFn proms w :
  MyPromise_race host userFn proms w
  = (Throw (TypeError
      "Class constructor MyPromise cannot be invoked without 'new'"), w).
Proof. reflexivity. Qed.

(** ** allSettled *)

(** C3 (the code departs from the claim).  The continuation that
    [allSettled] installs for a rejected input tags its descriptor with
    the status "fulfilled"; for [Pok] fulfilled with 1 and [Pfail] rejected
    with "x" the result, the promise 4, fulfills with
    [[{status: "fulfilled", value: 1}, {status: "fulfilled", reason: "x"}]]. *)
Theorem allSettled_tags_rejection_as_fulfilled :
  (forall reason w,
     call node sampleFn VSettledOnRejected [reason] w
     = (Normal (VObject [("status", VStr "fulfilled"); ("reason", reason)]), w))
  /\ exists w1 w,
       allSettled_example node empty_world = (Normal (VPromise 4), w1) /\
       run_loop node sampleFn 8 w1 = Some (Normal tt, w) /\
       heap w !! 4 = Some (mkPromise FULFILLED (VArray 0) []) /\
       results <$> scopes w !! 0
       = Some [Some (VObject [("status", VStr "fulfilled"); ("value", VNum 1)]);
               Some (VObject [("status", VStr "fulfilled");
                              ("reason", VStr "x")])].
Proof.
  split; [reflexivity|].
  eexists _, _. split; [vm_compute; reflexivity|].
  split; [vm_compute; reflexivity|]. split; reflexivity.
Qed.

(** ** Chaining and the dispatch of one handler *)

Lemma snd_bind_ret {A B} (m : M A) (b : B) w :
  ((m;; ret b) w).2 = (m w).2.
Proof. unfold bind, ret. by destruct (m w) as [[a|error] w']. Qed.

Lemma lookup_heap_snoc (h : list Promise) (o : Promise) :
  (h ++ [o]) !! length h = Some o.
Proof. by rewrite lookup_app_r, Nat.sub_diag. Qed.

Lemma lookup_heap_old (h : list Promise) (o x : Promise) p :
  h !! p = Some x -> (h ++ [o]) !! p = Some x.
Proof. intros H. by rewrite lookup_app_l; [|by eapply lookup_lt_Some]. Qed.

Section Chaining.

Variable host : Host.
Variable userFn : nat -> list Value -> Behaviour.

Lemma constructor_Normal executor w w' :
  executor (VResolve (length (heap w))) (VReject (length (heap w)))
           (with_heap (fun h => h ++ [fresh_promise]) w) = (Normal tt, w') ->
  constructor host executor w = (Normal (length (heap w)), w').
Proof.
  intros H. unfold constructor.
  erewrite bind_Normal; [|reflexivity]. unfold try_catch at 1.
  rewrite bind_eq. fold fresh_promise. by rewrite H.
Qed.

Lemma constructor_Throw executor w error w' :
  executor (VResolve (length (heap w))) (VReject (length (heap w)))
           (with_heap (fun h => h ++ [fresh_promise]) w) = (Throw error, w') ->
  constructor host executor w
  = (_reject host (length (heap w)) error;; ret (length (heap w))) w'.
Proof.
  intros H. unfold constructor.
  erewrite bind_Normal; [|reflexivity]. unfold try_catch at 1.
  rewrite !bind_eq. fold fresh_promise. by rewrite H.
Qed.

Lemma pushHandler_Some this st v hs executor state resolve reject w :
  heap w !! this = Some (mkPromise st v hs) ->
  _pushHandler this executor state resolve reject w
  = (Normal tt,
     with_registered
       (fun l => l ++ [mkTask this (mkHandler executor state resolve reject)])
       (with_heap
          (fun h => <[this := mkPromise st v
                       (hs ++ [mkHandler executor state resolve reject])]> h)
          w)).
Proof.
  intros H. unfold _pushHandler.
  rewrite (bind_Normal _ _ _ _ _ (getPromise_Some _ _ _ H)).
  erewrite bind_Normal; reflexivity.
Qed.

(** The heap once [then] has pushed its two handlers on [this]. *)
Lemma pushed_twice this st v hs onFulfilled onRejected res rej w :
  heap w !! this = Some (mkPromise st v hs) ->
  (_pushHandler this onFulfilled FULFILLED res rej;;
   _pushHandler this onRejected REJECTED res rej) w
  = (Normal tt,
     with_registered
       (fun l => l ++ map (mkTask this)
                          (handler_pair onFulfilled onRejected res rej))
       (with_heap
          (fun h => <[this := mkPromise st v
                       (hs ++ handler_pair onFulfilled onRejected res rej)]> h)
          w)).
Proof.
  intros H.
  rewrite (bind_Normal _ _ _ _ _ (pushHandler_Some _ _ _ _ _ _ _ _ _ H)).
  erewrite pushHandler_Some.
  2: { cbn. apply list_lookup_insert_eq. by eapply lookup_lt_Some. }
  f_equal. destruct w. unfold_world. unfold handler_pair. cbn [map].
  by rewrite list_insert_insert_eq, <- !app_assoc.
Qed.

Lemma bind_assoc {A B C} (m : M A) (k : A -> M B) (k' : B -> M C) w :
  bind (bind m k) k' w = bind m (fun a => bind (k a) k') w.
Proof. unfold bind. by destruct (m w) as [[a|error] w']. Qed.

(** [then] on a pending promise only records the two handlers; no
    callback reaches the host. *)
Lemma then_pending this v hs onFulfilled onRejected w :
  heap w !! this = Some (mkPromise PENDING v hs) ->
  let d := length (heap w) in
  then_ host this onFulfilled onRejected w
  = (Normal d,
     with_registered
       (fun l => l ++ map (mkTask this) (then_handlers d onFulfilled onRejected))
       (with_heap
          (fun h => <[this := mkPromise PENDING v
                       (hs ++ then_handlers d onFulfilled onRejected)]>
                     (h ++ [fresh_promise])) w)).
Proof.
  intros Hthis d. unfold then_. apply constructor_Normal. fold d.
  rewrite <- bind_assoc. erewrite bind_Normal.
  2: { apply pushed_twice. by apply lookup_heap_old. }
  apply (runHandlers_pending _ _ (mkPromise PENDING v
            (hs ++ then_handlers d onFulfilled onRejected))); [|reflexivity].
  cbn. apply list_lookup_insert_eq. rewrite length_app. cbn.
  apply lookup_lt_Some in Hthis. lia.
Qed.

Section WithFacility.

Variable fac : Facility.
Hypothesis Hfac : facility host = Some fac.

(** [then] on a settled promise hands the two handlers straight to the
    facility, after any handler still waiting. *)
Lemma then_settled this st v hs onFulfilled onRejected w :
  heap w !! this = Some (mkPromise st v hs) -> st <> PENDING ->
  let d := length (heap w) in
  then_ host this onFulfilled onRejected w
  = (Normal d,
     enqueue fac
       (map (mkTask this) (hs ++ then_handlers d onFulfilled onRejected))
       (with_registered
          (fun l => l ++ map (mkTask this)
                             (then_handlers d onFulfilled onRejected))
          (with_heap
             (fun h => <[this := mkPromise st v []]> (h ++ [fresh_promise]))
             w))).
Proof using Hfac.
  intros Hthis Hst d. unfold then_. apply constructor_Normal. fold d.
  rewrite <- bind_assoc. erewrite bind_Normal.
  2: { apply pushed_twice. by apply lookup_heap_old. }
  erewrite (runHandlers_defers _ _ Hfac); [| |exact Hst].
  2: { cbn. apply list_lookup_insert_eq. rewrite length_app. cbn.
       apply lookup_lt_Some in Hthis. lia. }
  f_equal. destruct fac, w; unfold_world; by rewrite list_insert_insert_eq.
Qed.

End WithFacility.

End Chaining.

Section Dispatch.

Variable host : Host.
Variable userFn : nat -> list Value -> Behaviour.

Lemma runTask_mismatch F o h w :
  heap w !! F = Some o -> _state o <> state h ->
  runTask host userFn (mkTask F h) w = (Normal tt, w).
Proof.
  intros Ho Hs. unfold runTask. cbn [this handler].
  rewrite (bind_Normal _ _ _ _ _ (getPromise_Some _ _ _ Ho)).
  by rewrite (State_eqb_neq _ _ Hs).
Qed.

Lemma runTask_forward F o h w :
  heap w !! F = Some o -> _state o = state h ->
  typeof (executor h) <> TFunction ->
  runTask host userFn (mkTask F h) w
  = ((if State_eqb (_state o) FULFILLED
      then call host userFn (resolve h) [_value o]
      else call host userFn (reject h) [_value o]);; ret tt) w.
Proof.
  intros Ho Hs Hty. unfold runTask. cbn [this handler].
  rewrite (bind_Normal _ _ _ _ _ (getPromise_Some _ _ _ Ho)).
  rewrite Hs, State_eqb_refl. cbn [negb].
  by destruct (typeof (executor h)).
Qed.

Lemma runTask_function F o h w :
  heap w !! F = Some o -> _state o = state h ->
  typeof (executor h) = TFunction ->
  runTask host userFn (mkTask F h) w
  = try_catch
      (result <- call host userFn (executor h) [_value o];;
       if isPromise result then
         invoke_then host userFn result (resolve h) (reject h);; ret tt
       else
         call host userFn (resolve h) [result];; ret tt)
      (fun error => call host userFn (reject h) [error];; ret tt) w.
Proof.
  intros Ho Hs Hty. unfold runTask. cbn [this handler].
  rewrite (bind_Normal _ _ _ _ _ (getPromise_Some _ _ _ Ho)).
  by rewrite Hs, State_eqb_refl, Hty.
Qed.

(** A user function that calls no capability leaves the world as it
    is. *)
Lemma call_pure f args c w :
  userFn f args = pure c -> call host userFn (VFunction f) args w = (c, w).
Proof. intros H. cbn [call]. by rewrite H. Qed.

Lemma run_loop_quiescent fuel w :
  quiescent w -> run_loop host userFn fuel w = Some (Normal tt, w).
Proof.
  intros [Hn Ht]. destruct fuel; cbn; unfold tick; by rewrite Hn, Ht.
Qed.

Lemma run_loop_step fuel w w' :
  tick host userFn w = Some (Normal tt, w') ->
  run_loop host userFn (S fuel) w = run_loop host userFn fuel w'.
Proof. intros H. cbn [run_loop]. by rewrite H. Qed.

Section WithFacility.

Variable fac : Facility.
Hypothesis Hfac : facility host = Some fac.

Lemma call_resolve_defers d v0 hs args w :
  heap w !! d = Some (mkPromise PENDING v0 hs) ->
  call host userFn (VResolve d) args w
  = (Normal VUndefined,
     enqueue fac (map (mkTask d) hs)
       (with_heap (fun h => <[d := mkPromise FULFILLED (arg0 args) []]> h) w)).
Proof using Hfac.
  intros Hd. cbn [call]. unfold _resolve.
  by erewrite bind_Normal; [|by eapply changeState_defers].
Qed.

Lemma call_reject_defers d v0 hs args w :
  heap w !! d = Some (mkPromise PENDING v0 hs) ->
  call host userFn (VReject d) args w
  = (Normal VUndefined,
     enqueue fac (map (mkTask d) hs)
       (with_heap (fun h => <[d := mkPromise REJECTED (arg0 args) []]> h) w)).
Proof using Hfac.
  intros Hd. cbn [call]. unfold _reject.
  by erewrite bind_Normal; [|by eapply changeState_defers].
Qed.

Lemma tick_defers t q w :
  unused fac w = [] -> queued fac w = t :: q ->
  tick host userFn w
  = Some (runTask host userFn t
            (with_invoked (fun l => l ++ [t]) (dequeue fac w))).
Proof using Type.
  clear Hfac. unfold tick. destruct fac, w; cbn; intros -> ->; reflexivity.
Qed.

End WithFacility.

(** C7.  When the handler of a settled Future fires and its continuation
    is missing ([undefined]), the fulfillment value goes to the handler's
    [resolve] and the rejection reason to its [reject], unchanged; when
    these are the capabilities of a pending downstream Future, that Future
    takes the state and the value of the source. *)
Theorem missing_continuation_forwards_outcome w F o downstreamSettle downstreamFail :
  heap w !! F = Some o ->
  (_state o = FULFILLED ->
   runTask host userFn (mkTask F (mkHandler VUndefined FULFILLED downstreamSettle downstreamFail)) w
   = (call host userFn downstreamSettle [_value o];; ret tt) w) /\
  (_state o = REJECTED ->
   runTask host userFn (mkTask F (mkHandler VUndefined REJECTED downstreamSettle downstreamFail)) w
   = (call host userFn downstreamFail [_value o];; ret tt) w) /\
  (forall d od,
     _state o <> PENDING -> heap w !! d = Some od -> _state od = PENDING ->
     exists hs,
       heap (runTask host userFn
               (mkTask F (mkHandler VUndefined (_state o)
                                    (VResolve d) (VReject d))) w).2 !! d
       = Some (mkPromise (_state o) (_value o) hs)).
Proof.
  intros Ho. split; [|split].
  - intros Hs. rewrite (runTask_forward _ _ _ _ Ho); [|by rewrite Hs|discriminate].
    by rewrite Hs.
  - intros Hs. rewrite (runTask_forward _ _ _ _ Ho); [|by rewrite Hs|discriminate].
    by rewrite Hs.
  - intros d od Hs Hd Hp.
    rewrite (runTask_forward _ _ _ _ Ho); [|reflexivity|discriminate].
    cbn [resolve reject]. rewrite snd_bind_ret.
    destruct (_state o) eqn:Es; [done| |]; cbn [State_eqb call];
      unfold _resolve, _reject; rewrite snd_bind_ret;
      by eapply changeState_pending.
Qed.

End Dispatch.

(** ** Reading the fields of an updated world *)

Section Fields.

Variable fac : Facility.

Lemma heap_enqueue ts w : heap (enqueue fac ts w) = heap w.
Proof. by destruct fac. Qed.
Lemma scopes_enqueue ts w : scopes (enqueue fac ts w) = scopes w.
Proof. by destruct fac. Qed.
Lemma registered_enqueue ts w : registered (enqueue fac ts w) = registered w.
Proof. by destruct fac. Qed.
Lemma invoked_enqueue ts w : invoked (enqueue fac ts w) = invoked w.
Proof. by destruct fac. Qed.
Lemma queued_enqueue ts w : queued fac (enqueue fac ts w) = queued fac w ++ ts.
Proof. by destruct fac. Qed.
Lemma unused_enqueue ts w : unused fac (enqueue fac ts w) = unused fac w.
Proof. by destruct fac. Qed.
Lemma heap_dequeue w : heap (dequeue fac w) = heap w.
Proof. by destruct fac. Qed.
Lemma scopes_dequeue w : scopes (dequeue fac w) = scopes w.
Proof. by destruct fac. Qed.
Lemma registered_dequeue w : registered (dequeue fac w) = registered w.
Proof. by destruct fac. Qed.
Lemma invoked_dequeue w : invoked (dequeue fac w) = invoked w.
Proof. by destruct fac. Qed.
Lemma queued_dequeue w : queued fac (dequeue fac w) = tail (queued fac w).
Proof. by destruct fac. Qed.
Lemma unused_dequeue w : unused fac (dequeue fac w) = unused fac w.
Proof. by destruct fac. Qed.
Lemma queued_with_heap f w : queued fac (with_heap f w) = queued fac w.
Proof. by destruct fac. Qed.
Lemma unused_with_heap f w : unused fac (with_heap f w) = unused fac w.
Proof. by destruct fac. Qed.
Lemma queued_with_scopes f w : queued fac (with_scopes f w) = queued fac w.
Proof. by destruct fac. Qed.
Lemma unused_with_scopes f w : unused fac (with_scopes f w) = unused fac w.
Proof. by destruct fac. Qed.
Lemma queued_with_registered f w :
  queued fac (with_registered f w) = queued fac w.
Proof. by destruct fac. Qed.
Lemma unused_with_registered f w :
  unused fac (with_registered f w) = unused fac w.
Proof. by destruct fac. Qed.
Lemma queued_with_invoked f w : queued fac (with_invoked f w) = queued fac w.
Proof. by destruct fac. Qed.
Lemma unused_with_invoked f w : unused fac (with_invoked f w) = unused fac w.
Proof. by destruct fac. Qed.

Lemma queued_quiescent w :
  quiescent w -> queued fac w = [] /\ unused fac w = [].
Proof. intros [? ?]. by destruct fac. Qed.

Lemma quiescent_queued w :
  queued fac w = [] -> unused fac w = [] -> quiescent w.
Proof. unfold quiescent. destruct fac; cbn; by intros -> ->. Qed.

End Fields.

Ltac wsimpl :=
  repeat first
    [ rewrite heap_enqueue | rewrite scopes_enqueue
    | rewrite registered_enqueue | rewrite invoked_enqueue
    | rewrite queued_enqueue | rewrite unused_enqueue
    | rewrite heap_dequeue | rewrite scopes_dequeue
    | rewrite registered_dequeue | rewrite invoked_dequeue
    | rewrite queued_dequeue | rewrite unused_dequeue
    | rewrite queued_with_heap | rewrite unused_with_heap
    | rewrite queued_with_scopes | rewrite unused_with_scopes
    | rewrite queued_with_registered | rewrite unused_with_registered
    | rewrite queued_with_invoked | rewrite unused_with_invoked
    | progress cbn [heap scopes registered invoked with_heap with_scopes
                    with_registered with_invoked] ].

Section Running.

Variable host : Host.
Variable userFn : nat -> list Value -> Behaviour.

Lemma ticks_run_loop n : forall w w',
  ticks host userFn n w = Some w' -> quiescent w' ->
  run_loop host userFn n w = Some (Normal tt, w').
Proof.
  induction n as [|n IH]; intros w w' Hticks Hq.
  - injection Hticks as ->. by apply run_loop_quiescent.
  - cbn in Hticks. destruct n; cbn [run_loop];
      destruct (tick host userFn w) as [[[[]|error] w1]|]; try done.
    + injection Hticks as ->. by apply (run_loop_quiescent _ _ 0).
    + by apply IH.
Qed.

Lemma ticks_app n m w w1 :
  ticks host userFn n w = Some w1 ->
  ticks host userFn (n + m) w = ticks host userFn m w1.
Proof.
  revert w. induction n as [|n IH]; intros w; cbn; [by intros [= ->]|].
  destruct (tick host userFn w) as [[[[]|error] w2]|]; try done. apply IH.
Qed.

End Running.
(** ** Handlers without a continuation *)

Section PassThrough.

Variable host : Host.
Variable userFn : nat -> list Value -> Behaviour.
Variable fac : Facility.
Hypothesis Hfac : facility host = Some fac.

Lemma runTask_not_function F e e' st res rej w :
  typeof e <> TFunction -> typeof e' <> TFunction ->
  runTask host userFn (mkTask F (mkHandler e st res rej)) w
  = runTask host userFn (mkTask F (mkHandler e' st res rej)) w.
Proof.
  intros He He'. unfold runTask. cbn [this handler executor state resolve reject].
  unfold bind. destruct (getPromise F w) as [[o|error] w']; [|done].
  destruct (negb (State_eqb (_state o) st)); [done|].
  by destruct (typeof e), (typeof e').
Qed.

(** One tick on a task that finds its promise in another state. *)
Lemma tick_mismatch F o h q w :
  unused fac w = [] -> queued fac w = mkTask F h :: q ->
  heap w !! F = Some o -> _state o <> state h ->
  exists w', tick host userFn w = Some (Normal tt, w') /\
    heap w' = heap w /\ scopes w' = scopes w /\
    queued fac w' = q /\ unused fac w' = [].
Proof.
  intros Hu Hq HF Hs. eexists. split.
  { rewrite (tick_defers host userFn fac _ _ _ Hu Hq).
    erewrite runTask_mismatch; [done| |done]. by wsimpl. }
  wsimpl. by rewrite Hq, Hu.
Qed.

(** One tick on a task without continuation, whose downstream Future is
    pending. *)
Lemma tick_forward F st v hsF e d v0 hs q w :
  unused fac w = [] ->
  queued fac w = mkTask F (mkHandler e st (VResolve d) (VReject d)) :: q ->
  heap w !! F = Some (mkPromise st v hsF) -> st <> PENDING ->
  typeof e <> TFunction ->
  heap w !! d = Some (mkPromise PENDING v0 hs) ->
  exists w', tick host userFn w = Some (Normal tt, w') /\
    heap w' = <[d := mkPromise st v []]> (heap w) /\ scopes w' = scopes w /\
    queued fac w' = q ++ map (mkTask d) hs /\ unused fac w' = [].
Proof using Hfac.
  intros Hu Hq HF Hst He Hd.
  rewrite (tick_defers host userFn fac _ _ _ Hu Hq).
  erewrite runTask_forward; [|by wsimpl|done|done].
  cbn [_state _value resolve reject].
  destruct st; [done| |]; cbn [State_eqb].
  - erewrite bind_Normal; [|eapply (call_resolve_defers _ _ _ Hfac); by wsimpl].
    eexists; split; [done|]. wsimpl. by rewrite Hq, Hu.
  - erewrite bind_Normal; [|eapply (call_reject_defers _ _ _ Hfac); by wsimpl].
    eexists; split; [done|]. wsimpl. by rewrite Hq, Hu.
Qed.

(** The two handlers of a [then] without continuations, run one after the
    other: the downstream Future takes the outcome of the source. *)
Lemma ticks_then_forward F st v hsF a b d v0 hs q w :
  unused fac w = [] ->
  queued fac w = map (mkTask F) (then_handlers d a b) ++ q ->
  heap w !! F = Some (mkPromise st v hsF) -> st <> PENDING ->
  typeof (continuation_for st a b) <> TFunction ->
  heap w !! d = Some (mkPromise PENDING v0 hs) ->
  exists w', ticks host userFn 2 w = Some w' /\
    heap w' = <[d := mkPromise st v []]> (heap w) /\ scopes w' = scopes w /\
    queued fac w' = q ++ map (mkTask d) hs /\ unused fac w' = [].
Proof using Hfac.
  intros Hu Hq HF Hst Hab Hd. cbn [then_handlers handler_pair map app] in Hq.
  assert (HFd : F <> d) by (intros ->; rewrite HF in Hd; by injection Hd as ->).
  destruct st; [done| |]; cbn [continuation_for] in Hab.
  - destruct (tick_forward _ _ _ _ _ _ _ _ _ _ Hu Hq HF Hst Hab Hd)
      as (w1 & Ht1 & Hh1 & Hs1 & Hq1 & Hu1).
    cbn [app] in Hq1.
    destruct (tick_mismatch F (mkPromise FULFILLED v hsF) _ _ w1 Hu1 Hq1)
      as (w2 & Ht2 & Hh2 & Hs2 & Hq2 & Hu2);
      [by rewrite Hh1, list_lookup_insert_ne|done|].
    exists w2. cbn [ticks]. rewrite Ht1, Ht2.
    by rewrite Hh2, Hh1, Hs2, Hs1.
  - destruct (tick_mismatch F (mkPromise REJECTED v hsF) _ _ w Hu Hq HF)
      as (w1 & Ht1 & Hh1 & Hs1 & Hq1 & Hu1); [done|].
    destruct (tick_forward F REJECTED v hsF b d v0 hs q w1 Hu1 Hq1)
      as (w2 & Ht2 & Hh2 & Hs2 & Hq2 & Hu2);
      [by rewrite Hh1..|done|done|by rewrite Hh1|].
    exists w2. cbn [ticks]. rewrite Ht1, Ht2.
    by rewrite Hh2, Hh1, Hs2, Hs1.
Qed.

(** C10.  A value that is not a function, in either argument position of
    [then], is treated exactly like a missing continuation.  The handler
    that carries it runs as the handler with [undefined] in its place
    does.  And when the argument for the state of the source Future is
    not a function, whatever the other argument is, the downstream Future
    takes the state and the value of the source unchanged, whether [then]
    is called after the source has settled or before. *)
Theorem non_function_argument_passes_outcome_through w F st v a b :
  quiescent w -> st <> PENDING ->
  typeof (continuation_for st a b) <> TFunction ->
  let d := length (heap w) in
  (forall e s res rej w',
     typeof e <> TFunction ->
     runTask host userFn (mkTask F (mkHandler e s res rej)) w'
     = runTask host userFn (mkTask F (mkHandler VUndefined s res rej)) w') /\
  (heap w !! F = Some (mkPromise st v []) ->
   exists w1 w2,
     then_ host F a b w = (Normal d, w1) /\
     run_loop host userFn 2 w1 = Some (Normal tt, w2) /\
     heap w2 !! d = Some (mkPromise st v [])) /\
  (forall v0,
     heap w !! F = Some (mkPromise PENDING v0 []) ->
     exists w1 w2 w3,
       then_ host F a b w = (Normal d, w1) /\
       _changeState host F st v w1 = (Normal tt, w2) /\
       run_loop host userFn 2 w2 = Some (Normal tt, w3) /\
       heap w3 !! d = Some (mkPromise st v [])).
Proof using Hfac.
  intros Hq Hst Hab d. apply (queued_quiescent fac) in Hq as [Hq Hu].
  split; [|split].
  - intros e s res rej w' He. by apply runTask_not_function.
  - intros HF.
    assert (HFd : F < d) by (by apply lookup_lt_Some in HF).
    pose proof (then_settled host fac Hfac F st v [] a b w HF Hst) as Hthen.
    cbn zeta in Hthen. fold d in Hthen. revert Hthen.
    set (w1 := enqueue _ _ _). intros Hthen.
    destruct (ticks_then_forward F st v [] a b d VUndefined [] [] w1)
      as (w2 & Ht & Hh & _ & Hq2 & Hu2); try done.
    + subst w1. by wsimpl.
    + subst w1. wsimpl. by rewrite Hq, app_nil_r.
    + subst w1. wsimpl. rewrite list_lookup_insert_eq; [done|].
      rewrite length_app. fold d. lia.
    + subst w1. wsimpl. rewrite list_lookup_insert_ne; [|lia].
      apply lookup_heap_snoc.
    + exists w1, w2. split; [done|].
      split; [apply ticks_run_loop; [done|by apply (quiescent_queued fac)]|].
      rewrite Hh. apply list_lookup_insert_eq. subst w1. wsimpl.
      rewrite length_insert, length_app. fold d. cbn. lia.
  - intros v0 HF.
    assert (HFd : F < d) by (by apply lookup_lt_Some in HF).
    pose proof (then_pending host F v0 [] a b w HF) as Hthen.
    cbn zeta in Hthen. fold d in Hthen. revert Hthen.
    set (w1 := with_registered _ _). intros Hthen.
    assert (HF1 : heap w1 !! F
                  = Some (mkPromise PENDING v0 (then_handlers d a b))).
    { subst w1. wsimpl. rewrite list_lookup_insert_eq; [done|].
      rewrite length_app. fold d. lia. }
    pose proof (changeState_defers host fac Hfac F v0 _ st v w1 HF1 Hst)
      as Hsettle.
    revert Hsettle. set (w2 := enqueue _ _ _). intros Hsettle.
    destruct (ticks_then_forward F st v [] a b d VUndefined [] [] w2)
      as (w3 & Ht & Hh & _ & Hq3 & Hu3); try done.
    + subst w2 w1. by wsimpl.
    + subst w2 w1. wsimpl. by rewrite Hq, app_nil_r.
    + subst w2 w1. wsimpl. rewrite list_lookup_insert_eq; [done|].
      rewrite length_insert, length_app. fold d. lia.
    + subst w2 w1. wsimpl. rewrite !list_lookup_insert_ne by lia.
      apply lookup_heap_snoc.
    + exists w1, w2, w3. do 2 (split; [done|]).
      split; [apply ticks_run_loop; [done|by apply (quiescent_queued fac)]|].
      rewrite Hh. apply list_lookup_insert_eq. subst w2 w1. wsimpl.
      rewrite !length_insert, length_app. fold d. cbn. lia.
Qed.

End PassThrough.

(** ** Errors raised by the executor *)

(** An executor that fulfills its promise and then raises: the promise
    stays fulfilled, the error is not its reason. *)
Lemma executor_error_after_settlement_is_dropped :
  ~ executor_error_is_rejection_reason node.
Proof.
  intros H.
  destruct (H (resolve_then_throw node) empty_world (VError "Error" "E")
              (mkWorld [mkPromise FULFILLED (VNum 1) []] [] [] [] [] [])
              eq_refl) as [hs Hhs].
  vm_compute in Hhs. discriminate.
Qed.

(** C9, amended.  An error that the executor raises is caught and passed to
    the reject capability of the promise under construction: the
    constructor ends as [_reject] called with the error in the world the
    executor left.  When the executor left the promise pending, the error
    becomes its rejection reason. *)
Theorem executor_error_is_passed_to_reject host
    (executor : Value -> Value -> M unit) w error w' :
  executor (VResolve (length (heap w))) (VReject (length (heap w)))
           (with_heap (fun h => h ++ [fresh_promise]) w) = (Throw error, w') ->
  constructor host executor w
  = (_reject host (length (heap w)) error;; ret (length (heap w))) w' /\
  (forall o,
     heap w' !! length (heap w) = Some o -> _state o = PENDING ->
     exists hs,
       heap (constructor host executor w).2 !! length (heap w)
       = Some (mkPromise REJECTED error hs)).
Proof.
  intros Hexec. split; [by apply constructor_Throw|].
  intros o Ho Hs. rewrite (constructor_Throw _ _ _ _ _ Hexec).
  rewrite snd_bind_ret. unfold _reject. by eapply changeState_pending.
Qed.

Lemma executor_error_is_passed_to_reject_witness :
  throwing_executor (VResolve 0) (VReject 0)
    (with_heap (fun h => h ++ [fresh_promise]) empty_world)
  = (Throw (VError "Error" "E"), mkWorld [fresh_promise] [] [] [] [] []) /\
  exists hs,
    heap (constructor node throwing_executor empty_world).2 !! 0
    = Some (mkPromise REJECTED (VError "Error" "E") hs).
Proof.
  split; [reflexivity|].
  apply (proj2 (executor_error_is_passed_to_reject node throwing_executor
                  empty_world (VError "Error" "E")
                  (mkWorld [fresh_promise] [] [] [] [] []) eq_refl)
               fresh_promise); reflexivity.
Defined.

(** ** Calls of capabilities, one after the other *)

Lemma with_heap_insert_id p o w :
  heap w !! p = Some o -> with_heap (fun h => <[p := o]> h) w = w.
Proof.
  intros Hp. destruct w. unfold with_heap. cbn [heap] in *.
  by rewrite (list_insert_id _ _ _ Hp).
Qed.

Lemma with_heap_twice f g w :
  with_heap f (with_heap g w) = with_heap (fun h => f (g h)) w.
Proof. by destruct w. Qed.

Section Scripts.

Variable host : Host.
Variable userFn : nat -> list Value -> Behaviour.

(** The settlement of a pending promise that has no handlers reaches no
    facility of the host. *)
Lemma changeState_unwatched p v0 newState value w :
  heap w !! p = Some (mkPromise PENDING v0 []) ->
  _changeState host p newState value w
  = (Normal tt, with_heap (fun h => <[p := mkPromise newState value []]> h) w).
Proof.
  intros Hp. unfold _changeState.
  rewrite bind_eq, (getPromise_Some _ _ _ Hp).
  cbn [_state State_eqb negb]. rewrite bind_eq. cbn [putPromise _handlers].
  unfold _runHandlers. rewrite bind_eq.
  erewrite getPromise_Some;
    [|wsimpl; apply list_lookup_insert_eq; by eapply lookup_lt_Some].
  cbn [_state _handlers _runHandlers_loop]. by destruct newState.
Qed.

Lemma capability_unwatched (rejection : bool) p v0 args w :
  heap w !! p = Some (mkPromise PENDING v0 []) ->
  call host userFn (if rejection then VReject p else VResolve p) args w
  = (Normal VUndefined,
     with_heap (fun h => <[p := mkPromise
                               (if rejection then REJECTED else FULFILLED)
                               (arg0 args) []]> h) w).
Proof.
  intros Hp. destruct rejection; cbn [call]; unfold _reject, _resolve;
    by erewrite bind_Normal; [|by eapply changeState_unwatched].
Qed.

Lemma capability_settled (rejection : bool) p o args w :
  heap w !! p = Some o -> _state o <> PENDING ->
  call host userFn (if rejection then VReject p else VResolve p) args w
  = (Normal VUndefined, w).
Proof.
  intros Hp Hst. destruct rejection; cbn [call]; unfold _reject, _resolve;
    by erewrite bind_Normal; [|by eapply changeState_settled].
Qed.

Lemma script_settled (settles : list (bool * Value)) : forall p o w,
  heap w !! p = Some o -> _state o <> PENDING ->
  for_of settles (fun s =>
    call host userFn (if s.1 then VReject p else VResolve p) [s.2];; ret tt) w
  = (Normal tt, w).
Proof.
  induction settles as [|s rest IH]; intros p o w Hp Hst; [done|].
  cbn [for_of]. rewrite bind_eq, bind_eq.
  rewrite (capability_settled _ _ _ _ _ Hp Hst). cbn [ret]. by eapply IH.
Qed.

(** The same for the calls that a user function makes. *)
Lemma settle_unwatched s v0 w :
  heap w !! target s = Some (mkPromise PENDING v0 []) ->
  settle host s w
  = (Normal tt,
     with_heap (fun h => <[target s := mkPromise
                              (if by_reject s then REJECTED else FULFILLED)
                              (datum s) []]> h) w).
Proof.
  intros Hp. unfold settle, _reject, _resolve.
  destruct (by_reject s); by eapply changeState_unwatched.
Qed.

Lemma settle_settled s o w :
  heap w !! target s = Some o -> _state o <> PENDING ->
  settle host s w = (Normal tt, w).
Proof.
  intros Hp Hst. unfold settle, _reject, _resolve.
  destruct (by_reject s); by eapply changeState_settled.
Qed.

Lemma calls_on_settled settles : forall d o w,
  heap w !! d = Some o -> _state o <> PENDING ->
  for_of (calls_on d settles) (settle host) w = (Normal tt, w).
Proof.
  induction settles as [|s rest IH]; intros d o w Hd Hst; [done|].
  cbn [calls_on map for_of]. rewrite bind_eq.
  rewrite (settle_settled _ o) by done. by eapply IH.
Qed.

(** The calls of the capabilities of a pending promise that has no
    handlers: the first call decides, and no facility is reached. *)
Lemma calls_on_unwatched settles d v0 w :
  heap w !! d = Some (mkPromise PENDING v0 []) ->
  for_of (calls_on d settles) (settle host) w
  = (Normal tt,
     with_heap (fun h => <[d := match settles with
                                | [] => mkPromise PENDING v0 []
                                | s :: _ =>
                                    mkPromise
                                      (if s.1 then REJECTED else FULFILLED)
                                      s.2 []
                                end]> h) w).
Proof.
  intros Hd. destruct settles as [|[rejection v] rest].
  - cbn [calls_on map for_of ret]. by rewrite with_heap_insert_id.
  - cbn [calls_on map for_of fst snd]. rewrite bind_eq.
    rewrite (settle_unwatched _ v0) by done.
    cbn [by_reject target datum].
    eapply calls_on_settled.
    + wsimpl. apply list_lookup_insert_eq. by eapply lookup_lt_Some.
    + by destruct rejection.
Qed.

(** A plain object whose [then] is the user function [g], and [g] calls
    the two functions it is given as [settles] says and ends with [c].
    Handed the capabilities of the new promise [d], with a rejection for
    what it throws: the promise is settled as the first call says;
    without a call, what [g] throws rejects it. *)
Lemma thenable_settles fields g settles c d w :
  field "then" fields = VFunction g ->
  userFn g [VResolve d; VReject d] = mkBehaviour (calls_on d settles) c ->
  heap w !! d = Some fresh_promise ->
  try_catch
    (invoke_then host userFn (VObject fields) (VResolve d) (VReject d);;
     ret tt)
    (fun error => _reject host d error) w
  = (Normal tt,
     with_heap (fun h => <[d := constructed settles (error_of c)]> h) w).
Proof.
  intros Hthen Hg Hd. unfold try_catch. cbn [invoke_then]. rewrite Hthen.
  cbn [call]. rewrite Hg. cbn [settlements completion].
  rewrite bind_eq, bind_eq.
  rewrite (calls_on_unwatched settles d VUndefined w Hd).
  destruct c as [y|error]; cbn [ret error_of].
  - by destruct settles as [|[rejection v] rest].
  - unfold _reject. destruct settles as [|[rejection v] rest];
      cbn [constructed fst snd].
    + erewrite changeState_unwatched.
      * f_equal. rewrite with_heap_twice. destruct w. unfold with_heap.
        cbn [heap]. by rewrite list_insert_insert_eq.
      * wsimpl. apply list_lookup_insert_eq. by eapply lookup_lt_Some.
    + erewrite changeState_settled;
        [done
        |wsimpl; apply list_lookup_insert_eq; by eapply lookup_lt_Some
        |cbn; by destruct rejection].
Qed.

End Scripts.

(** ** Continuations that return a Future *)

Section Flattening.

Variable host : Host.
Variable userFn : nat -> list Value -> Behaviour.
Variable fac : Facility.
Hypothesis Hfac : facility host = Some fac.

(** One tick on a handler whose continuation returns the promise [inner],
    still pending: the capabilities of the downstream Future are
    registered on [inner]. *)
Lemma tick_returns_pending F st x hsF f onResolve onReject inner u hs q w :
  unused fac w = [] ->
  queued fac w
  = mkTask F (mkHandler (VFunction f) st onResolve onReject) :: q ->
  heap w !! F = Some (mkPromise st x hsF) ->
  userFn f [x] = pure (Normal (VPromise inner)) ->
  heap w !! inner = Some (mkPromise PENDING u hs) ->
  exists w', tick host userFn w = Some (Normal tt, w') /\
    heap w' = <[inner := mkPromise PENDING u
                 (hs ++ then_handlers (length (heap w)) onResolve onReject)]>
                (heap w ++ [fresh_promise]) /\
    scopes w' = scopes w /\ queued fac w' = q /\ unused fac w' = [].
Proof using Hfac.
  intros Hu Hq HF Hf Hinner.
  rewrite (tick_defers host userFn fac _ _ _ Hu Hq).
  erewrite runTask_function; [|by wsimpl|done|done].
  unfold try_catch. cbn [executor _value resolve reject].
  rewrite bind_eq, (call_pure _ _ _ _ _ _ Hf).
  cbn [isPromise truthy typeof typeof_then JSType_eqb andb].
  cbn [invoke_then]. rewrite !bind_eq.
  erewrite then_pending; [|by wsimpl]. cbn [ret].
  eexists. split; [done|]. wsimpl. by rewrite Hq, Hu.
Qed.

(** One tick on a handler whose continuation is a capability of the
    pending promise [d], and whose own downstream promise [d'] is pending:
    [d] takes the outcome of the source, [d'] is fulfilled with
    [undefined], the value the capability returns. *)
Lemma tick_capability F st v hsF d u hs d' u' hs' q w :
  unused fac w = [] ->
  queued fac w
  = mkTask F (mkHandler (match st with REJECTED => VReject d | _ => VResolve d end)
                        st (VResolve d') (VReject d')) :: q ->
  heap w !! F = Some (mkPromise st v hsF) -> st <> PENDING ->
  heap w !! d = Some (mkPromise PENDING u hs) ->
  heap w !! d' = Some (mkPromise PENDING u' hs') -> d <> d' ->
  exists w', tick host userFn w = Some (Normal tt, w') /\
    heap w' = <[d' := mkPromise FULFILLED VUndefined []]>
                (<[d := mkPromise st v []]> (heap w)) /\
    scopes w' = scopes w /\
    queued fac w' = (q ++ map (mkTask d) hs) ++ map (mkTask d') hs' /\
    unused fac w' = [].
Proof using Hfac.
  intros Hu Hq HF Hst Hd Hd' Hne.
  rewrite (tick_defers host userFn fac _ _ _ Hu Hq).
  erewrite runTask_function; [|by wsimpl|done|by destruct st].
  unfold try_catch. cbn [executor _value resolve reject].
  destruct st; [done| |].
  - erewrite bind_Normal;
      [|eapply (call_resolve_defers _ _ _ Hfac); by wsimpl].
    cbn [isPromise truthy andb].
    erewrite bind_Normal.
    2: { eapply (call_resolve_defers _ _ _ Hfac). wsimpl.
         by rewrite list_lookup_insert_ne. }
    cbn [ret arg0]. eexists. split; [done|]. wsimpl. by rewrite Hq, Hu.
  - erewrite bind_Normal;
      [|eapply (call_reject_defers _ _ _ Hfac); by wsimpl].
    cbn [isPromise truthy andb].
    erewrite bind_Normal.
    2: { eapply (call_resolve_defers _ _ _ Hfac). wsimpl.
         by rewrite list_lookup_insert_ne. }
    cbn [ret arg0]. eexists. split; [done|]. wsimpl. by rewrite Hq, Hu.
Qed.

(** The two handlers by which [d] adopts the outcome of [inner], run one
    after the other. *)
Lemma ticks_adopt inner st v hsI d u hs d' u' hs' q w :
  unused fac w = [] ->
  queued fac w
  = map (mkTask inner) (then_handlers d' (VResolve d) (VReject d)) ++ q ->
  heap w !! inner = Some (mkPromise st v hsI) -> st <> PENDING ->
  heap w !! d = Some (mkPromise PENDING u hs) ->
  heap w !! d' = Some (mkPromise PENDING u' hs') -> d <> d' ->
  exists w', ticks host userFn 2 w = Some w' /\
    heap w' = <[d' := mkPromise FULFILLED VUndefined []]>
                (<[d := mkPromise st v []]> (heap w)) /\
    scopes w' = scopes w /\
    queued fac w' = (q ++ map (mkTask d) hs) ++ map (mkTask d') hs' /\
    unused fac w' = [].
Proof using Hfac.
  intros Hu Hq HI Hst Hd Hd' Hne. cbn [then_handlers handler_pair map app] in Hq.
  assert (HId : inner <> d) by (intros ->; rewrite HI in Hd; by injection Hd as ->).
  assert (HId' : inner <> d') by (intros ->; rewrite HI in Hd'; by injection Hd' as ->).
  destruct st; [done| |].
  - destruct (tick_capability inner FULFILLED v hsI d u hs d' u' hs' _ w Hu Hq)
      as (w1 & Ht1 & Hh1 & Hs1 & Hq1 & Hu1); try done.
    cbn [app] in Hq1.
    destruct (tick_mismatch host userFn fac inner (mkPromise FULFILLED v hsI)
                _ _ w1 Hu1 Hq1)
      as (w2 & Ht2 & Hh2 & Hs2 & Hq2 & Hu2);
      [by rewrite Hh1, !list_lookup_insert_ne|done|].
    exists w2. cbn [ticks]. rewrite Ht1, Ht2.
    by rewrite Hh2, Hh1, Hs2, Hs1.
  - destruct (tick_mismatch host userFn fac inner (mkPromise REJECTED v hsI)
                _ _ w Hu Hq HI)
      as (w1 & Ht1 & Hh1 & Hs1 & Hq1 & Hu1); [done|].
    destruct (tick_capability inner REJECTED v hsI d u hs d' u' hs' q w1 Hu1 Hq1)
      as (w2 & Ht2 & Hh2 & Hs2 & Hq2 & Hu2); try done; try by rewrite Hh1.
    exists w2. cbn [ticks]. rewrite Ht1, Ht2.
    by rewrite Hh2, Hh1, Hs2, Hs1.
Qed.

(** One tick on a handler whose continuation returns the promise [inner],
    already settled: its two handlers go straight to the facility. *)
Lemma tick_returns_settled F st x hsF f onResolve onReject inner sti v q w :
  unused fac w = [] ->
  queued fac w
  = mkTask F (mkHandler (VFunction f) st onResolve onReject) :: q ->
  heap w !! F = Some (mkPromise st x hsF) ->
  userFn f [x] = pure (Normal (VPromise inner)) ->
  heap w !! inner = Some (mkPromise sti v []) -> sti <> PENDING ->
  exists w', tick host userFn w = Some (Normal tt, w') /\
    heap w' = heap w ++ [fresh_promise] /\
    scopes w' = scopes w /\
    queued fac w'
    = q ++ map (mkTask inner)
               (then_handlers (length (heap w)) onResolve onReject) /\
    unused fac w' = [].
Proof using Hfac.
  intros Hu Hq HF Hf Hinner Hsti.
  rewrite (tick_defers host userFn fac _ _ _ Hu Hq).
  erewrite runTask_function; [|by wsimpl|done|done].
  unfold try_catch. cbn [executor _value resolve reject].
  rewrite bind_eq, (call_pure _ _ _ _ _ _ Hf).
  cbn [isPromise truthy typeof typeof_then JSType_eqb andb].
  cbn [invoke_then]. rewrite !bind_eq.
  erewrite (then_settled _ _ Hfac); [|by wsimpl|done]. cbn [ret].
  eexists. split; [done|]. wsimpl. rewrite Hq, Hu. cbn [tail app].
  split; [|done]. apply list_insert_id. by apply lookup_heap_old.
Qed.

Ltac heap_length :=
  rewrite ?length_insert, ?length_app; cbn [length]; lia.

(** The two handlers of a [then] whose continuation for the state of the
    source returns the pending promise [inner], run one after the other. *)
Lemma ticks_then_returns_pending F st x hsF onFulfilled onRejected f res rej
    inner u hs q w :
  unused fac w = [] ->
  queued fac w
  = map (mkTask F) (handler_pair onFulfilled onRejected res rej) ++ q ->
  heap w !! F = Some (mkPromise st x hsF) -> st <> PENDING ->
  continuation_for st onFulfilled onRejected = VFunction f ->
  userFn f [x] = pure (Normal (VPromise inner)) ->
  heap w !! inner = Some (mkPromise PENDING u hs) ->
  exists w', ticks host userFn 2 w = Some w' /\
    heap w' = <[inner := mkPromise PENDING u
                 (hs ++ then_handlers (length (heap w)) res rej)]>
                (heap w ++ [fresh_promise]) /\
    scopes w' = scopes w /\ queued fac w' = q /\ unused fac w' = [].
Proof using Hfac.
  intros Hu Hq HF Hst Hcont Hf HI. cbn [handler_pair map app] in Hq.
  assert (HFI : F <> inner) by (intros ->; rewrite HF in HI; by injection HI as ->).
  destruct st; [done| |]; cbn [continuation_for] in Hcont; subst.
  - destruct (tick_returns_pending _ _ _ _ _ _ _ _ _ _ _ _ Hu Hq HF Hf HI)
      as (w1 & Ht1 & Hh1 & Hs1 & Hq1 & Hu1).
    destruct (tick_mismatch host userFn fac F (mkPromise FULFILLED x hsF) _ _
                w1 Hu1 Hq1)
      as (w2 & Ht2 & Hh2 & Hs2 & Hq2 & Hu2); [|done|].
    { rewrite Hh1, list_lookup_insert_ne by done. by apply lookup_heap_old. }
    exists w2. cbn [ticks]. rewrite Ht1, Ht2.
    by rewrite Hh2, Hh1, Hs2, Hs1.
  - destruct (tick_mismatch host userFn fac F (mkPromise REJECTED x hsF) _ _
                w Hu Hq HF)
      as (w1 & Ht1 & Hh1 & Hs1 & Hq1 & Hu1); [done|].
    destruct (tick_returns_pending F REJECTED x hsF f res rej inner u hs q w1
                Hu1 Hq1)
      as (w2 & Ht2 & Hh2 & Hs2 & Hq2 & Hu2); [by rewrite Hh1|done|by rewrite Hh1|].
    exists w2. cbn [ticks]. rewrite Ht1, Ht2.
    by rewrite Hh2, Hh1, Hs2, Hs1.
Qed.

(** The same when [inner] has settled already. *)
Lemma ticks_then_returns_settled F st x hsF onFulfilled onRejected f res rej
    inner sti v q w :
  unused fac w = [] ->
  queued fac w
  = map (mkTask F) (handler_pair onFulfilled onRejected res rej) ++ q ->
  heap w !! F = Some (mkPromise st x hsF) -> st <> PENDING ->
  continuation_for st onFulfilled onRejected = VFunction f ->
  userFn f [x] = pure (Normal (VPromise inner)) ->
  heap w !! inner = Some (mkPromise sti v []) -> sti <> PENDING ->
  exists w', ticks host userFn 2 w = Some w' /\
    heap w' = heap w ++ [fresh_promise] /\
    scopes w' = scopes w /\
    queued fac w'
    = q ++ map (mkTask inner) (then_handlers (length (heap w)) res rej) /\
    unused fac w' = [].
Proof using Hfac.
  intros Hu Hq HF Hst Hcont Hf HI Hsti. cbn [handler_pair map app] in Hq.
  destruct st; [done| |]; cbn [continuation_for] in Hcont; subst.
  - destruct (tick_returns_settled _ _ _ _ _ _ _ _ _ _ _ _ Hu Hq HF Hf HI Hsti)
      as (w1 & Ht1 & Hh1 & Hs1 & Hq1 & Hu1).
    cbn [app] in Hq1.
    destruct (tick_mismatch host userFn fac F (mkPromise FULFILLED x hsF) _ _
                w1 Hu1 Hq1)
      as (w2 & Ht2 & Hh2 & Hs2 & Hq2 & Hu2); [|done|].
    { rewrite Hh1. by apply lookup_heap_old. }
    exists w2. cbn [ticks]. rewrite Ht1, Ht2.
    by rewrite Hh2, Hh1, Hs2, Hs1.
  - destruct (tick_mismatch host userFn fac F (mkPromise REJECTED x hsF) _ _
                w Hu Hq HF)
      as (w1 & Ht1 & Hh1 & Hs1 & Hq1 & Hu1); [done|].
    destruct (tick_returns_settled F REJECTED x hsF f res rej inner sti v q w1
                Hu1 Hq1)
      as (w2 & Ht2 & Hh2 & Hs2 & Hq2 & Hu2);
      [by rewrite Hh1|done|by rewrite Hh1|done|].
    rewrite Hh1 in Hq2. exists w2. cbn [ticks]. rewrite Ht1, Ht2.
    by rewrite Hh2, Hh1, Hs2, Hs1.
Qed.

(** When the continuation returns a value that [isPromise] accepts, the
    capabilities of the downstream Future go to the [then] of that value;
    the downstream Future is not fulfilled with the value. *)
Lemma runTask_returns_thenable F o h result w w1 :
  heap w !! F = Some o -> _state o = state h ->
  typeof (executor h) = TFunction ->
  call host userFn (executor h) [_value o] w = (Normal result, w1) ->
  isPromise result = true ->
  runTask host userFn (mkTask F h) w
  = try_catch (invoke_then host userFn result (resolve h) (reject h);; ret tt)
              (fun error => call host userFn (reject h) [error];; ret tt) w1.
Proof.
  intros Ho Hs Hty Hcall Hthen.
  rewrite (runTask_function _ _ _ _ _ _ Ho Hs Hty). unfold try_catch.
  by rewrite (bind_Normal _ _ _ _ _ Hcall), Hthen.
Qed.

Lemma try_catch_ext {A} (m : M A) (h h' : Value -> M A) w :
  (forall error w', h error w' = h' error w') ->
  try_catch m h w = try_catch m h' w.
Proof.
  intros Hh. unfold try_catch. by destruct (m w) as [[a|error] w'].
Qed.

Lemma call_reject_unit d error w :
  (call host userFn (VReject d) [error];; ret tt) w = _reject host d error w.
Proof.
  cbn [call arg0]. unfold bind, ret.
  by destruct (_reject host d error w) as [[[]|e] w'].
Qed.

(** One tick on a handler whose continuation returns a plain object with
    a [then]: the capabilities of the downstream Future go to that
    [then], and what it does with them settles the Future. *)
Lemma tick_returns_thenable F st x hsF f fields g settles c d q w :
  unused fac w = [] ->
  queued fac w
  = mkTask F (mkHandler (VFunction f) st (VResolve d) (VReject d)) :: q ->
  heap w !! F = Some (mkPromise st x hsF) ->
  userFn f [x] = pure (Normal (VObject fields)) ->
  field "then" fields = VFunction g ->
  userFn g [VResolve d; VReject d] = mkBehaviour (calls_on d settles) c ->
  heap w !! d = Some fresh_promise ->
  exists w', tick host userFn w = Some (Normal tt, w') /\
    heap w' = <[d := constructed settles (error_of c)]> (heap w) /\
    scopes w' = scopes w /\ queued fac w' = q /\ unused fac w' = [].
Proof using Type.
  intros Hu Hq HF Hf Hthen Hg Hd.
  rewrite (tick_defers host userFn fac _ _ _ Hu Hq).
  set (w0 := with_invoked _ _).
  assert (Hh0 : heap w0 = heap w) by (subst w0; by wsimpl).
  rewrite (runTask_returns_thenable F (mkPromise st x hsF) _
             (VObject fields) w0 w0); [|by rewrite Hh0|done|done| |].
  - cbn [resolve reject].
    rewrite (try_catch_ext _ _ (fun error => _reject host d error))
      by (intros; apply call_reject_unit).
    rewrite (thenable_settles host userFn fields g settles c d w0 Hthen Hg)
      by (by rewrite Hh0).
    eexists. split; [done|]. subst w0. wsimpl. by rewrite Hq, Hu.
  - cbn [executor _value]. by apply call_pure.
  - unfold isPromise. cbn [truthy typeof typeof_then JSType_eqb andb].
    by rewrite Hthen.
Qed.

(** The two handlers of a [then] whose continuation for the state of the
    source returns a plain object with a [then], run one after the
    other. *)
Lemma ticks_then_returns_thenable F st x hsF onFulfilled onRejected f fields
    g settles c d q w :
  unused fac w = [] ->
  queued fac w = map (mkTask F) (then_handlers d onFulfilled onRejected) ++ q ->
  heap w !! F = Some (mkPromise st x hsF) -> st <> PENDING ->
  continuation_for st onFulfilled onRejected = VFunction f ->
  userFn f [x] = pure (Normal (VObject fields)) ->
  field "then" fields = VFunction g ->
  userFn g [VResolve d; VReject d] = mkBehaviour (calls_on d settles) c ->
  heap w !! d = Some fresh_promise ->
  exists w', ticks host userFn 2 w = Some w' /\
    heap w' = <[d := constructed settles (error_of c)]> (heap w) /\
    scopes w' = scopes w /\ queued fac w' = q /\ unused fac w' = [].
Proof using Type.
  intros Hu Hq HF Hst Hcont Hf Hthen Hg Hd.
  cbn [then_handlers handler_pair map app] in Hq.
  assert (HFd : F <> d) by (intros ->; rewrite HF in Hd; by injection Hd as ->).
  destruct st; [done| |]; cbn [continuation_for] in Hcont; subst.
  - destruct (tick_returns_thenable _ _ _ _ _ _ _ _ _ _ _ _ Hu Hq HF Hf Hthen
                Hg Hd)
      as (w1 & Ht1 & Hh1 & Hs1 & Hq1 & Hu1).
    destruct (tick_mismatch host userFn fac F (mkPromise FULFILLED x hsF) _ _
                w1 Hu1 Hq1)
      as (w2 & Ht2 & Hh2 & Hs2 & Hq2 & Hu2);
      [by rewrite Hh1, list_lookup_insert_ne|done|].
    exists w2. cbn [ticks]. rewrite Ht1, Ht2.
    by rewrite Hh2, Hh1, Hs2, Hs1.
  - destruct (tick_mismatch host userFn fac F (mkPromise REJECTED x hsF) _ _
                w Hu Hq HF)
      as (w1 & Ht1 & Hh1 & Hs1 & Hq1 & Hu1); [done|].
    destruct (tick_returns_thenable F REJECTED x hsF f fields g settles c d q
                w1 Hu1 Hq1)
      as (w2 & Ht2 & Hh2 & Hs2 & Hq2 & Hu2); try done; try by rewrite Hh1.
    exists w2. cbn [ticks]. rewrite Ht1, Ht2.
    by rewrite Hh2, Hh1, Hs2, Hs1.
Qed.

(** C8.  The continuation that [then] runs returns a value with a
    callable [then], and the downstream Future is the promise of [then].
    It is not fulfilled with the value itself; it takes the outcome that
    the value comes to.  When the value is the Future [inner], the
    downstream Future stays pending until [inner] settles and then takes
    its state and value: fulfilled with [v] when [inner] fulfills with
    [v], rejected with the same reason when [inner] rejects; this holds
    when [inner] is pending when it is returned, and when it has settled
    already.  When the value is a plain object whose [then] is a user
    function, that function is handed the two capabilities of the
    downstream Future and its calls decide: the first call settles the
    Future, fulfilled with [v] for [resolve(v)] and rejected with [e] for
    [reject(e)]; later calls, and an error raised after a call, change
    nothing; an error raised before any call rejects the Future; and
    while no call was made the Future is pending, and the first call made
    later settles it.  All this holds for the continuation of either
    branch. *)
Theorem returned_future_is_adopted w F st x f onFulfilled onRejected result :
  quiescent w ->
  heap w !! F = Some (mkPromise st x []) -> st <> PENDING ->
  continuation_for st onFulfilled onRejected = VFunction f ->
  userFn f [x] = pure (Normal result) ->
  let d := length (heap w) in
  (forall inner u,
     result = VPromise inner ->
     heap w !! inner = Some (mkPromise PENDING u []) ->
     exists w1 w2,
       then_ host F onFulfilled onRejected w = (Normal d, w1) /\
       run_loop host userFn 2 w1 = Some (Normal tt, w2) /\
       heap w2 !! d = Some fresh_promise /\
       forall sti v, sti <> PENDING ->
         exists w3 w4,
           _changeState host inner sti v w2 = (Normal tt, w3) /\
           run_loop host userFn 2 w3 = Some (Normal tt, w4) /\
           heap w4 !! d = Some (mkPromise sti v [])) /\
  (forall inner sti v,
     result = VPromise inner ->
     heap w !! inner = Some (mkPromise sti v []) -> sti <> PENDING ->
     exists w1 w2,
       then_ host F onFulfilled onRejected w = (Normal d, w1) /\
       run_loop host userFn 4 w1 = Some (Normal tt, w2) /\
       heap w2 !! d = Some (mkPromise sti v [])) /\
  (forall fields g settles c,
     result = VObject fields -> field "then" fields = VFunction g ->
     userFn g [VResolve d; VReject d] = mkBehaviour (calls_on d settles) c ->
     exists w1 w2,
       then_ host F onFulfilled onRejected w = (Normal d, w1) /\
       run_loop host userFn 2 w1 = Some (Normal tt, w2) /\
       heap w2 !! d = Some (constructed settles (error_of c)) /\
       (constructed settles (error_of c) = fresh_promise ->
        forall (rejection : bool) v,
          heap (call host userFn (if rejection then VReject d else VResolve d)
                  [v] w2).2 !! d
          = Some (mkPromise (if rejection then REJECTED else FULFILLED) v []))).
Proof using Hfac.
  intros Hq HF Hst Hcont Hf d. apply (queued_quiescent fac) in Hq as [Hq Hu].
  assert (HFd : F < d) by (by apply lookup_lt_Some in HF).
  pose proof (then_settled host fac Hfac F st x [] onFulfilled
                onRejected w HF Hst) as Hthen.
  cbn zeta in Hthen. fold d in Hthen. revert Hthen.
  set (w1 := enqueue _ _ _). intros Hthen.
  assert (Hu1 : unused fac w1 = []) by (subst w1; by wsimpl).
  assert (Hq1 : queued fac w1
                = map (mkTask F) (then_handlers d onFulfilled onRejected) ++ [])
    by (subst w1; wsimpl; by rewrite Hq, app_nil_r).
  assert (Hh1 : heap w1 = heap w ++ [fresh_promise]).
  { subst w1. wsimpl. apply list_insert_id. by apply lookup_heap_old. }
  assert (Hl1 : length (heap w1) = S d) by (rewrite Hh1; heap_length).
  assert (HF1 : heap w1 !! F = Some (mkPromise st x []))
    by (rewrite Hh1; by apply lookup_heap_old).
  clearbody w1.
  split; [|split].
  - intros inner u -> HI. unfold then_handlers in Hq1.
    assert (HId : inner < d) by (by apply lookup_lt_Some in HI).
    destruct (ticks_then_returns_pending F st x [] onFulfilled onRejected f
                (VResolve d) (VReject d) inner u [] [] w1 Hu1 Hq1 HF1 Hst
                Hcont Hf)
      as (w2 & Ht & Hh2 & _ & Hq2 & Hu2);
      [rewrite Hh1; by apply lookup_heap_old|].
    rewrite Hl1, Hh1 in Hh2. cbn [app] in Hh2.
    exists w1, w2. split; [done|]. split.
    { apply ticks_run_loop; [done|by apply (quiescent_queued fac)]. }
    split.
    { rewrite Hh2, list_lookup_insert_ne by lia.
      apply lookup_heap_old, lookup_heap_snoc. }
    intros sti v Hsti.
    assert (HI2 : heap w2 !! inner
                  = Some (mkPromise PENDING u
                            (then_handlers (S d) (VResolve d) (VReject d)))).
    { rewrite Hh2. apply list_lookup_insert_eq. heap_length. }
    pose proof (changeState_defers host fac Hfac inner u _ sti v w2 HI2 Hsti)
      as Hsettle.
    revert Hsettle. set (w3 := enqueue _ _ _). intros Hsettle.
    destruct (ticks_adopt inner sti v [] d VUndefined [] (S d) VUndefined [] []
                w3)
      as (w4 & Ht4 & Hh4 & _ & Hq4 & Hu4); try done.
    + subst w3. by wsimpl.
    + subst w3. wsimpl. by rewrite Hq2, app_nil_r.
    + subst w3. wsimpl. apply list_lookup_insert_eq. rewrite Hh2. heap_length.
    + subst w3. wsimpl. rewrite Hh2, !list_lookup_insert_ne by lia.
      apply lookup_heap_old, lookup_heap_snoc.
    + subst w3. wsimpl. rewrite Hh2, !list_lookup_insert_ne by lia.
      replace (S d) with (length (heap w ++ [fresh_promise]))
        by heap_length.
      apply lookup_heap_snoc.
    + exists w3, w4. split; [done|]. split.
      { apply ticks_run_loop; [done|by apply (quiescent_queued fac)]. }
      rewrite Hh4, list_lookup_insert_ne by lia.
      apply list_lookup_insert_eq. subst w3. wsimpl. rewrite Hh2. heap_length.
  - intros inner sti v -> HI Hsti. unfold then_handlers in Hq1.
    assert (HId : inner < d) by (by apply lookup_lt_Some in HI).
    destruct (ticks_then_returns_settled F st x [] onFulfilled onRejected f
                (VResolve d) (VReject d) inner sti v [] w1 Hu1 Hq1 HF1 Hst
                Hcont Hf)
      as (w1b & Ht & Hh1b & _ & Hq1b & Hu1b);
      [rewrite Hh1; by apply lookup_heap_old|done|].
    rewrite Hl1 in Hq1b. rewrite Hh1 in Hh1b. cbn [app] in Hq1b.
    destruct (ticks_adopt inner sti v [] d VUndefined [] (S d) VUndefined [] []
                w1b)
      as (w2 & Ht2 & Hh2 & _ & Hq2 & Hu2); try done.
    + rewrite Hh1b. by do 2 apply lookup_heap_old.
    + rewrite Hh1b. apply lookup_heap_old, lookup_heap_snoc.
    + rewrite Hh1b.
      replace (S d) with (length (heap w ++ [fresh_promise]))
        by heap_length.
      apply lookup_heap_snoc.
    + exists w1, w2. split; [done|]. split.
      { apply ticks_run_loop; [|by apply (quiescent_queued fac)].
        change 4 with (2 + 2). by rewrite (ticks_app _ _ 2 2 _ _ Ht). }
      rewrite Hh2, list_lookup_insert_ne by lia.
      apply list_lookup_insert_eq. rewrite Hh1b. heap_length.
  - intros fields g settles c -> Hfield Hg.
    destruct (ticks_then_returns_thenable F st x [] onFulfilled onRejected f
                fields g settles c d [] w1 Hu1 Hq1 HF1 Hst Hcont Hf Hfield Hg)
      as (w2 & Ht & Hh2 & _ & Hq2 & Hu2);
      [rewrite Hh1; apply lookup_heap_snoc|].
    assert (Hd2 : heap w2 !! d = Some (constructed settles (error_of c))).
    { rewrite Hh2. apply list_lookup_insert_eq. rewrite Hh1. heap_length. }
    exists w1, w2. split; [done|]. split.
    { apply ticks_run_loop; [done|by apply (quiescent_queued fac)]. }
    split; [done|].
    intros Hpend rejection v. rewrite Hpend in Hd2.
    rewrite (capability_unwatched host userFn rejection d VUndefined [v] w2 Hd2).
    wsimpl. apply list_lookup_insert_eq. by eapply lookup_lt_Some.
Qed.

End Flattening.


(** ** Every registration runs once, in order, through the adapter *)

Section Respects.

Context {R : World -> World -> Prop} `{!PreOrder R}.

Lemma respects_ret {A} (a : A) : respects R (ret a).
Proof. intros w. cbn. reflexivity. Qed.

Lemma respects_throw {A} error : respects R (@throw A error).
Proof. intros w. cbn. reflexivity. Qed.

Lemma respects_bind {A B} (m : M A) (k : A -> M B) :
  respects R m -> (forall a, respects R (k a)) -> respects R (bind m k).
Proof.
  intros Hm Hk w. unfold bind. specialize (Hm w).
  destruct (m w) as [[a|error] w1]; [|exact Hm].
  etransitivity; [exact Hm|apply Hk].
Qed.

Lemma respects_try_catch {A} (m : M A) (h : Value -> M A) :
  respects R m -> (forall error, respects R (h error)) ->
  respects R (try_catch m h).
Proof.
  intros Hm Hh w. unfold try_catch. specialize (Hm w).
  destruct (m w) as [[a|error] w1]; [exact Hm|].
  etransitivity; [exact Hm|apply Hh].
Qed.

Lemma respects_for_of {A} (xs : list A) (body : A -> M unit) :
  (forall x, respects R (body x)) -> respects R (for_of xs body).
Proof.
  intros Hbody. induction xs as [|x rest IH]; cbn [for_of].
  - apply respects_ret.
  - apply respects_bind; [apply Hbody|done].
Qed.

(** A user function respects what every settlement respects. *)
Lemma respects_user_function host userFn id args :
  (forall this newState value, newState <> PENDING ->
     respects R (_changeState host this newState value)) ->
  respects R (call host userFn (VFunction id) args).
Proof.
  intros Hchange. cbn [call]. apply respects_bind.
  - apply respects_for_of. intros s. unfold settle, _resolve, _reject.
    destruct (by_reject s); by apply Hchange.
  - intros _ w. cbn. reflexivity.
Qed.

Lemma respects_getPromise p : respects R (getPromise p).
Proof. intros w. unfold getPromise. destruct (heap w !! p); cbn; reflexivity. Qed.

Lemma respects_getScope c : respects R (getScope c).
Proof. intros w. unfold getScope. destruct (scopes w !! c); cbn; reflexivity. Qed.

Lemma respects_readGlobal {A} name (g : Global A) :
  respects R (readGlobal name g).
Proof. destruct g; [apply respects_throw|apply respects_ret]. Qed.

End Respects.

Global Instance keeps_preorder I : PreOrder (keeps I).
Proof.
  split; [intros w H; exact H|].
  intros w1 w2 w3 H1 H2 H. apply H2, H1, H.
Qed.

Global Instance same_invoked_preorder : PreOrder same_invoked.
Proof.
  split; [intros w; reflexivity|].
  intros w1 w2 w3 H1 H2. unfold same_invoked in *. congruence.
Qed.

(** *** No operation of the engine runs a callback itself *)

Section NotSynchronous.

Variable host : Host.
Variable userFn : nat -> list Value -> Behaviour.

Lemma invoked_runMicroTask callback :
  respects same_invoked (runMicroTask host callback).
Proof.
  unfold runMicroTask. apply respects_bind; [apply respects_readGlobal|].
  intros pv. destruct (process_nextTick_available pv); [by intros w|].
  apply respects_bind; [apply respects_readGlobal|].
  intros [|]; by intros w.
Qed.

Lemma invoked_pushHandler this e s res rej :
  respects same_invoked (_pushHandler this e s res rej).
Proof.
  unfold _pushHandler. apply respects_bind; [apply respects_getPromise|].
  intros o. apply respects_bind; by intros w.
Qed.

Lemma invoked_runHandlers this : respects same_invoked (_runHandlers host this).
Proof.
  unfold _runHandlers. apply respects_bind; [apply respects_getPromise|].
  intros o. destruct (State_eqb (_state o) PENDING); [apply respects_ret|].
  induction (_handlers o) as [|h rest IH]; cbn [_runHandlers_loop];
    [apply respects_ret|].
  apply respects_bind; [apply invoked_runMicroTask|]. intros _.
  apply respects_bind; [|done].
  unfold shiftHandlers. apply respects_bind; [apply respects_getPromise|].
  by intros o' w.
Qed.

Lemma invoked_changeState this newState value :
  respects same_invoked (_changeState host this newState value).
Proof.
  unfold _changeState. apply respects_bind; [apply respects_getPromise|].
  intros o. destruct (negb (State_eqb (_state o) PENDING)); [apply respects_ret|].
  apply respects_bind; [by intros w|]. intros _. apply invoked_runHandlers.
Qed.

Lemma invoked_constructor executor :
  (forall resolve reject, respects same_invoked (executor resolve reject)) ->
  respects same_invoked (constructor host executor).
Proof.
  intros Hexec. unfold constructor. apply respects_bind; [by intros w|].
  intros this. apply respects_bind; [|intros; apply respects_ret].
  apply respects_try_catch; [apply Hexec|].
  intros error. apply invoked_changeState.
Qed.

Lemma invoked_then this onFulfilled onRejected :
  respects same_invoked (then_ host this onFulfilled onRejected).
Proof.
  apply invoked_constructor. intros resolve reject.
  repeat (apply respects_bind; [apply invoked_pushHandler|intros _]).
  apply invoked_runHandlers.
Qed.

Lemma invoked_call f : forall args,
  respects same_invoked (call host userFn f args).
Proof.
  induction f; intros args; try apply respects_throw;
    [apply respects_user_function; intros; apply invoked_changeState|..];
    cbn [call].
  - apply respects_bind; [apply invoked_changeState|intros; apply respects_ret].
  - apply respects_bind; [apply invoked_changeState|intros; apply respects_ret].
  - apply respects_bind; [apply respects_getScope|]. intros s.
    apply respects_bind; [by intros w|]. intros _.
    destruct (Nat.eqb _ _); [|apply respects_ret].
    apply respects_bind; [apply IHf|intros; apply respects_ret].
  - apply respects_ret.
  - apply respects_ret.
Qed.

Lemma invoked_invoke_then obj onFulfilled onRejected :
  respects same_invoked (invoke_then host userFn obj onFulfilled onRejected).
Proof.
  destruct obj; cbn [invoke_then]; try apply respects_throw.
  - apply invoked_call.
  - apply respects_bind; [apply invoked_then|intros; apply respects_ret].
Qed.

Lemma invoked_runTask t : respects same_invoked (runTask host userFn t).
Proof.
  unfold runTask. apply respects_bind; [apply respects_getPromise|]. intros o.
  destruct (negb _); [apply respects_ret|].
  destruct (negb _).
  - apply respects_bind; [|intros; apply respects_ret].
    destruct (State_eqb _ _); apply invoked_call.
  - apply respects_try_catch.
    + apply respects_bind; [apply invoked_call|]. intros result.
      destruct (isPromise result);
        (apply respects_bind; [|intros; apply respects_ret]);
        [apply invoked_invoke_then|apply invoked_call].
    + intros error.
      apply respects_bind; [apply invoked_call|intros; apply respects_ret].
Qed.

End NotSynchronous.

(** *** The ledger is kept *)

Lemma tasks_of_app p l1 l2 :
  tasks_of p (l1 ++ l2) = tasks_of p l1 ++ tasks_of p l2.
Proof. apply filter_app. Qed.

Lemma tasks_of_own p hs : tasks_of p (map (mkTask p) hs) = map (mkTask p) hs.
Proof.
  induction hs as [|h hs IH]; [done|]. cbn [map]. unfold tasks_of in *.
  rewrite filter_cons_True by done. by rewrite IH.
Qed.

Lemma tasks_of_other p p' hs : p' <> p -> tasks_of p (map (mkTask p') hs) = [].
Proof.
  intros Hne. induction hs as [|h hs IH]; [done|]. cbn [map].
  unfold tasks_of in *. by rewrite filter_cons_False.
Qed.

Lemma tasks_of_cons p t l :
  tasks_of p (t :: l)
  = if decide (this t = p) then t :: tasks_of p l else tasks_of p l.
Proof. unfold tasks_of. by rewrite filter_cons. Qed.

Lemma tasks_of_one p t :
  tasks_of p [t] = if decide (this t = p) then [t] else [].
Proof. by rewrite tasks_of_cons. Qed.

Lemma waiting_Some w p o :
  heap w !! p = Some o -> waiting w p = map (mkTask p) (_handlers o).
Proof. intros H. unfold waiting. by rewrite H. Qed.

Lemma waiting_None w p : heap w !! p = None -> waiting w p = [].
Proof. intros H. unfold waiting. by rewrite H. Qed.

Section Ledger.

Variable host : Host.
Variable userFn : nat -> list Value -> Behaviour.
Variable fac : Facility.
Hypothesis Hfac : facility host = Some fac.

Local Abbreviation kept := (respects (keeps (ledger fac))).

Lemma ledger_with_scopes f w : ledger fac w -> ledger fac (with_scopes f w).
Proof.
  intros (Hu & Hl & Hs & Hp & Hn). unfold ledger, waiting in *. by wsimpl.
Qed.

Lemma ledger_newPromise : kept (newPromise fresh_promise).
Proof.
  intros w (Hu & Hl & Hs & Hp & Hn). unfold newPromise. cbn [snd].
  assert (Hw : forall p, waiting (with_heap (fun h => h ++ [fresh_promise]) w) p
                         = waiting w p).
  { intros p. unfold waiting. wsimpl.
    destruct (heap w !! p) as [o|] eqn:Hp'.
    + by rewrite (lookup_heap_old _ _ _ _ Hp').
    + apply lookup_ge_None in Hp'.
      destruct (decide (p = length (heap w))) as [->|Hne].
      * by rewrite lookup_heap_snoc.
      * rewrite (proj2 (lookup_ge_None _ _)); [done|].
        rewrite length_app. cbn. lia. }
  split; [by wsimpl|]. split; [|split; [|split]].
  - intros p. rewrite Hw. wsimpl. apply Hl.
  - intros p o. wsimpl. intros Ho. apply lookup_app_Some in Ho as [Ho|[_ Ho]].
    + by apply (Hs p).
    + by apply list_lookup_singleton_Some in Ho as [_ <-].
  - intros p o. wsimpl. intros Ho Hpend.
    apply lookup_app_Some in Ho as [Ho|[Hge Ho]]; [by eapply Hp|].
    specialize (Hl p). rewrite waiting_None in Hl by (by apply lookup_ge_None).
    rewrite Hn, app_nil_r in Hl by (by apply lookup_ge_None).
    symmetry in Hl. by apply app_eq_nil in Hl.
  - intros p. wsimpl. intros Hnone. apply Hn.
    apply lookup_ge_None. apply lookup_ge_None in Hnone.
    rewrite length_app in Hnone. lia.
Qed.

(** The settlement of a pending promise keeps the ledger. *)
Lemma ledger_settle w p v0 hs st v :
  ledger fac w -> heap w !! p = Some (mkPromise PENDING v0 hs) ->
  st <> PENDING ->
  ledger fac (enqueue fac (map (mkTask p) hs)
                (with_heap (fun h => <[p := mkPromise st v []]> h) w)).
Proof.
  intros (Hu & Hl & Hs & Hp & Hn) Hlook Hst.
  assert (Hlt : p < length (heap w)) by (by eapply lookup_lt_Some).
  destruct (Hp _ _ Hlook eq_refl) as [Hip Hqp].
  split; [by wsimpl|]. split; [|split; [|split]].
  - intros p'. wsimpl. rewrite tasks_of_app.
    destruct (decide (p' = p)) as [->|Hne].
    + rewrite tasks_of_own, Hl, (waiting_Some _ _ _ Hlook).
      erewrite (waiting_Some _ p); [|wsimpl; by apply list_lookup_insert_eq].
      cbn. by rewrite app_nil_r.
    + rewrite tasks_of_other, app_nil_r, Hl by done. do 2 f_equal.
      unfold waiting. wsimpl. by rewrite list_lookup_insert_ne.
  - intros p' o. wsimpl. intros Ho.
    destruct (decide (p' = p)) as [->|Hne].
    + rewrite list_lookup_insert_eq in Ho by done. by injection Ho as <-.
    + rewrite list_lookup_insert_ne in Ho by done. by apply (Hs p').
  - intros p' o. wsimpl. intros Ho Hpend.
    destruct (decide (p' = p)) as [->|Hne].
    + rewrite list_lookup_insert_eq in Ho by done. injection Ho as <-. done.
    + rewrite list_lookup_insert_ne in Ho by done.
      destruct (Hp _ _ Ho Hpend) as [? Hq']. split; [done|].
      by rewrite tasks_of_app, Hq', tasks_of_other.
  - intros p'. wsimpl. intros Hnone. apply Hn.
    apply lookup_ge_None. apply lookup_ge_None in Hnone.
    by rewrite length_insert in Hnone.
Qed.

(** New handlers on a pending promise wait there. *)
Lemma ledger_push_pending w p v0 hs hs' :
  ledger fac w -> heap w !! p = Some (mkPromise PENDING v0 hs) ->
  ledger fac (with_registered (fun l => l ++ map (mkTask p) hs')
                (with_heap
                   (fun h => <[p := mkPromise PENDING v0 (hs ++ hs')]> h) w)).
Proof.
  intros (Hu & Hl & Hs & Hp & Hn) Hlook.
  assert (Hlt : p < length (heap w)) by (by eapply lookup_lt_Some).
  split; [by wsimpl|]. split; [|split; [|split]].
  - intros p'. wsimpl. rewrite tasks_of_app.
    destruct (decide (p' = p)) as [->|Hne].
    + rewrite tasks_of_own, Hl, (waiting_Some _ _ _ Hlook).
      erewrite (waiting_Some _ p); [|wsimpl; by apply list_lookup_insert_eq].
      cbn. by rewrite map_app, !app_assoc.
    + rewrite tasks_of_other, app_nil_r, Hl by done. do 2 f_equal.
      unfold waiting. wsimpl. by rewrite list_lookup_insert_ne.
  - intros p' o. wsimpl. intros Ho.
    destruct (decide (p' = p)) as [->|Hne].
    + rewrite list_lookup_insert_eq in Ho by done. by injection Ho as <-.
    + rewrite list_lookup_insert_ne in Ho by done. by apply (Hs p').
  - intros p' o. wsimpl. intros Ho Hpend.
    destruct (decide (p' = p)) as [->|Hne]; [by eapply Hp|].
    rewrite list_lookup_insert_ne in Ho by done. by eapply Hp.
  - intros p'. wsimpl. intros Hnone.
    apply lookup_ge_None in Hnone. rewrite length_insert in Hnone.
    rewrite tasks_of_app, tasks_of_other by lia. rewrite app_nil_r.
    apply Hn. by apply lookup_ge_None.
Qed.

(** New handlers on a settled promise go to the facility. *)
Lemma ledger_push_settled w p st v hs' :
  ledger fac w -> heap w !! p = Some (mkPromise st v []) -> st <> PENDING ->
  ledger fac (enqueue fac (map (mkTask p) hs')
                (with_registered (fun l => l ++ map (mkTask p) hs') w)).
Proof.
  intros (Hu & Hl & Hs & Hp & Hn) Hlook Hst.
  assert (Hlt : p < length (heap w)) by (by eapply lookup_lt_Some).
  split; [by wsimpl|]. split; [|split; [|split]].
  - intros p'. wsimpl. rewrite !tasks_of_app.
    replace (waiting (enqueue fac (map (mkTask p) hs')
               (with_registered (fun l => l ++ map (mkTask p) hs') w)) p')
      with (waiting w p') by (unfold waiting; by wsimpl).
    destruct (decide (p' = p)) as [->|Hne].
    + rewrite tasks_of_own, Hl, (waiting_Some _ _ _ Hlook). cbn.
      by rewrite !app_nil_r, !app_assoc.
    + by rewrite tasks_of_other, !app_nil_r, Hl.
  - intros p' o. wsimpl. apply Hs.
  - intros p' o. wsimpl. intros Ho Hpend.
    destruct (Hp _ _ Ho Hpend) as [? Hq']. split; [done|].
    rewrite tasks_of_app, Hq', tasks_of_other; [done|].
    intros ->. rewrite Hlook in Ho. injection Ho as <-. done.
  - intros p'. wsimpl. intros Hnone.
    rewrite tasks_of_app, tasks_of_other, app_nil_r; [by apply Hn|].
    intros ->. by rewrite Hlook in Hnone.
Qed.

Lemma ledger_changeState this newState value :
  newState <> PENDING -> kept (_changeState host this newState value).
Proof using Hfac.
  intros Hst w Hl.
  destruct (heap w !! this) as [[st v hs]|] eqn:Hthis.
  - destruct (decide (st = PENDING)) as [->|Hne].
    + erewrite changeState_defers; [|done..]. by eapply ledger_settle.
    + by erewrite changeState_settled.
  - unfold _changeState, bind, getPromise. by rewrite Hthis.
Qed.

(** What the executor of [then] does (lines 113-115). *)
Lemma ledger_register this onFulfilled onRejected res rej :
  kept (_pushHandler this onFulfilled FULFILLED res rej;;
        _pushHandler this onRejected REJECTED res rej;;
        _runHandlers host this).
Proof using Hfac.
  intros w Hl.
  destruct (heap w !! this) as [[st v hs]|] eqn:Hthis.
  - assert (Hlt : this < length (heap w)) by (by eapply lookup_lt_Some).
    rewrite <- bind_assoc.
    rewrite (bind_Normal _ _ _ _ _ (pushed_twice _ _ _ _ _ _ _ _ _ Hthis)).
    destruct (decide (st = PENDING)) as [->|Hne].
    + erewrite runHandlers_pending;
        [|by apply list_lookup_insert_eq|reflexivity].
      by apply ledger_push_pending.
    + erewrite (runHandlers_defers _ _ Hfac);
        [|by apply list_lookup_insert_eq|done].
      destruct Hl as (Hu & Hl & Hs & Hp & Hn).
      specialize (Hs _ _ Hthis Hne) as Hnil. cbn in Hnil. subst hs.
      cbn [app snd].
      replace (enqueue _ _ _)
        with (enqueue fac
                (map (mkTask this) (handler_pair onFulfilled onRejected res rej))
                (with_registered
                   (fun l => l ++ map (mkTask this)
                      (handler_pair onFulfilled onRejected res rej)) w)).
      { by eapply ledger_push_settled. }
      f_equal. destruct w. unfold_world.
      by rewrite list_insert_insert_eq, (list_insert_id _ _ _ Hthis).
  - unfold bind at 1. unfold _pushHandler at 1. unfold bind, getPromise.
    by rewrite Hthis.
Qed.

Lemma ledger_constructor executor :
  (forall resolve reject, kept (executor resolve reject)) ->
  kept (constructor host executor).
Proof using Hfac.
  intros Hexec. unfold constructor.
  apply respects_bind; [apply ledger_newPromise|].
  intros this. apply respects_bind; [|intros; apply respects_ret].
  apply respects_try_catch; [apply Hexec|].
  intros error. by apply ledger_changeState.
Qed.

Lemma ledger_then this onFulfilled onRejected :
  kept (then_ host this onFulfilled onRejected).
Proof using Hfac.
  apply ledger_constructor. intros resolve reject. apply ledger_register.
Qed.

Lemma ledger_putScope c s : kept (putScope c s).
Proof. intros w Hl. by apply ledger_with_scopes. Qed.

Lemma ledger_newScope s : kept (newScope s).
Proof. intros w Hl. by apply ledger_with_scopes. Qed.

Lemma ledger_call f : forall args, kept (call host userFn f args).
Proof using Hfac.
  induction f; intros args; try apply respects_throw;
    [apply respects_user_function; intros; by apply ledger_changeState|..];
    cbn [call].
  - apply respects_bind; [by apply ledger_changeState|intros; apply respects_ret].
  - apply respects_bind; [by apply ledger_changeState|intros; apply respects_ret].
  - apply respects_bind; [apply respects_getScope|]. intros s.
    apply respects_bind; [apply ledger_putScope|]. intros _.
    destruct (Nat.eqb _ _); [|apply respects_ret].
    apply respects_bind; [apply IHf|intros; apply respects_ret].
  - apply respects_ret.
  - apply respects_ret.
Qed.

Lemma ledger_invoke_then obj onFulfilled onRejected :
  kept (invoke_then host userFn obj onFulfilled onRejected).
Proof using Hfac.
  destruct obj; cbn [invoke_then]; try apply respects_throw.
  - apply ledger_call.
  - apply respects_bind; [apply ledger_then|intros; apply respects_ret].
Qed.

Lemma ledger_runTask t : kept (runTask host userFn t).
Proof using Hfac.
  unfold runTask. apply respects_bind; [apply respects_getPromise|]. intros o.
  destruct (negb _); [apply respects_ret|].
  destruct (negb _).
  - apply respects_bind; [|intros; apply respects_ret].
    destruct (State_eqb _ _); apply ledger_call.
  - apply respects_try_catch.
    + apply respects_bind; [apply ledger_call|]. intros result.
      destruct (isPromise result);
        (apply respects_bind; [|intros; apply respects_ret]);
        [apply ledger_invoke_then|apply ledger_call].
    + intros error.
      apply respects_bind; [apply ledger_call|intros; apply respects_ret].
Qed.

Lemma ledger_resolve data : kept (MyPromise_resolve host userFn data).
Proof using Hfac.
  assert (H : kept (p <- constructor host (fun resolve reject =>
                      if isPromise data then
                        invoke_then host userFn data resolve reject;; ret tt
                      else call host userFn resolve [data];; ret tt);;
                    ret (VPromise p))).
  { apply respects_bind; [|intros; apply respects_ret].
    apply ledger_constructor. intros resolve reject.
    destruct (isPromise data);
      (apply respects_bind; [|intros; apply respects_ret]);
      [apply ledger_invoke_then|apply ledger_call]. }
  destruct data; try exact H. apply respects_ret.
Qed.

Lemma ledger_reject reason : kept (MyPromise_reject host userFn reason).
Proof using Hfac.
  unfold MyPromise_reject.
  apply respects_bind; [|intros; apply respects_ret].
  apply ledger_constructor. intros resolve reject.
  apply respects_bind; [apply ledger_call|intros; apply respects_ret].
Qed.

Lemma ledger_all proms : kept (MyPromise_all host userFn proms).
Proof using Hfac.
  unfold MyPromise_all.
  apply respects_bind; [|intros; apply respects_ret].
  apply ledger_constructor. intros resolve reject.
  apply respects_try_catch.
  - apply respects_bind; [apply ledger_newScope|]. intros c.
    apply respects_bind.
    + apply respects_for_of. intros promise.
      apply respects_bind; [apply respects_getScope|]. intros s.
      apply respects_bind; [apply ledger_putScope|]. intros _.
      apply respects_bind; [apply ledger_resolve|]. intros q.
      apply respects_bind; [apply ledger_invoke_then|intros; apply respects_ret].
    + intros _. apply respects_bind; [apply respects_getScope|]. intros s.
      destruct (Nat.eqb _ _); [|apply respects_ret].
      apply respects_bind; [apply ledger_call|intros; apply respects_ret].
  - intros error.
    apply respects_bind; [apply ledger_call|intros; apply respects_ret].
Qed.

Lemma ledger_allSettled_loop proms : forall ps,
  kept (allSettled_loop host userFn proms ps).
Proof using Hfac.
  induction proms as [|p rest IH]; intros ps; cbn [allSettled_loop];
    [apply respects_ret|].
  apply respects_bind; [apply ledger_resolve|]. intros q.
  apply respects_bind; [apply ledger_invoke_then|]. intros d. apply IH.
Qed.

Lemma ledger_allSettled proms : kept (MyPromise_allSettled host userFn proms).
Proof using Hfac.
  unfold MyPromise_allSettled.
  apply respects_bind; [apply ledger_allSettled_loop|]. intros ps.
  apply ledger_all.
Qed.

Lemma ledger_script_executor settles raises resolve reject :
  kept (script_executor host userFn settles raises resolve reject).
Proof using Hfac.
  unfold script_executor. apply respects_bind.
  - apply respects_for_of. intros s.
    apply respects_bind; [apply ledger_call|intros; apply respects_ret].
  - intros _. destruct raises; [apply respects_throw|apply respects_ret].
Qed.

(** The host takes a callback out of the facility and runs it. *)
Lemma ledger_dequeue t q w :
  ledger fac w -> queued fac w = t :: q ->
  ledger fac (with_invoked (fun l => l ++ [t]) (dequeue fac w)).
Proof.
  intros (Hu & Hl & Hs & Hp & Hn) Hq.
  split; [by wsimpl|]. split; [|split; [|split]].
  - intros p. wsimpl. rewrite Hl, Hq, tasks_of_app, tasks_of_cons.
    replace (waiting (with_invoked _ (dequeue fac w)) p) with (waiting w p)
      by (unfold waiting; by wsimpl).
    cbn [tail]. rewrite tasks_of_one.
    destruct (decide (this t = p)); [|by rewrite app_nil_r].
    by rewrite <- !app_assoc.
  - intros p o. wsimpl. apply Hs.
  - intros p o. wsimpl. intros Ho Hpend.
    destruct (Hp _ _ Ho Hpend) as [Hi Hq']. rewrite Hq in *. cbn [tail].
    rewrite tasks_of_cons in Hq'. rewrite tasks_of_app, Hi, tasks_of_one.
    by destruct (decide (this t = p)).
  - intros p. wsimpl. apply Hn.
Qed.

Lemma ledger_perform op w :
  ledger fac w -> ledger fac (perform host userFn op w).
Proof using Hfac.
  intros Hl. destruct op; cbn [perform].
  - apply ledger_constructor; [|done]. apply ledger_script_executor.
  - by apply ledger_then.
  - by apply ledger_call.
  - by apply ledger_resolve.
  - by apply ledger_reject.
  - by apply ledger_all.
  - by apply ledger_allSettled.
  - done.
  - destruct (queued fac w) as [|t q] eqn:Hq.
    + destruct Hl as (Hu & Hl). unfold tick.
      destruct fac; cbn in Hq, Hu; by rewrite Hq, Hu.
    + rewrite (tick_defers host userFn fac t q w); [|by destruct Hl|done].
      pose proof (ledger_runTask t _ (ledger_dequeue _ _ _ Hl Hq)) as H.
      by destruct (runTask host userFn t _).
Qed.

Lemma ledger_run_ops ops : forall w,
  ledger fac w -> ledger fac (run_ops host userFn ops w).
Proof using Hfac.
  induction ops as [|op ops IH]; intros w Hl; [done|].
  cbn [run_ops fold_left]. apply IH. by apply ledger_perform.
Qed.

End Ledger.

Lemma ledger_empty fac : ledger fac empty_world.
Proof. unfold ledger. by destruct fac. Qed.

(** C2.  On a host where the adapter has a facility to hand callbacks to,
    in every world that a program reaches: the handlers registered on a
    Future are, in registration order and each exactly once, those the
    host has run, then those waiting in the facility, then those waiting
    in the Future; none has run or been handed over while the Future is
    pending, and none waits in the Future once it has settled, so that
    when the host has run all callbacks the handlers run on a settled
    Future are exactly the handlers registered on it, in order.  Neither
    the call that settles a Future nor the call that registers a handler
    runs a handler; the host runs them, taking them from the facility in
    order. *)
Theorem handlers_run_once_in_order host userFn fac ops :
  facility host = Some fac ->
  let w := run_ops host userFn ops empty_world in
  (forall F,
     tasks_of F (registered w)
     = tasks_of F (invoked w) ++ tasks_of F (queued fac w) ++ waiting w F) /\
  (forall F o, heap w !! F = Some o -> _state o = PENDING ->
     tasks_of F (invoked w) = [] /\ tasks_of F (queued fac w) = []) /\
  (forall F o, heap w !! F = Some o -> _state o <> PENDING ->
     waiting w F = [] /\
     (quiescent w -> tasks_of F (invoked w) = tasks_of F (registered w))) /\
  (forall F newState value,
     invoked (_changeState host F newState value w).2 = invoked w) /\
  (forall F onFulfilled onRejected,
     invoked (then_ host F onFulfilled onRejected w).2 = invoked w) /\
  (forall t q, queued fac w = t :: q ->
     invoked (perform host userFn OpTick w) = invoked w ++ [t]).
Proof.
  intros Hfac w.
  destruct (ledger_run_ops host userFn fac Hfac ops empty_world
              (ledger_empty fac)) as (Hu & Hl & Hs & Hp & Hn).
  fold w in Hu, Hl, Hs, Hp, Hn.
  split; [exact Hl|]. split; [exact Hp|]. split; [|split; [|split]].
  - intros F o Ho Hst.
    assert (Hw : waiting w F = [])
      by (by rewrite (waiting_Some _ _ _ Ho), (Hs _ _ Ho Hst)).
    split; [done|]. intros Hq.
    apply (queued_quiescent fac) in Hq as [Hq _].
    by rewrite Hl, Hw, Hq, !app_nil_r.
  - intros F newState value. apply invoked_changeState.
  - intros F onFulfilled onRejected. apply invoked_then.
  - intros t q Hq. cbn [perform].
    rewrite (tick_defers host userFn fac t q w Hu Hq).
    pose proof (invoked_runTask host userFn t
                  (with_invoked (fun l => l ++ [t]) (dequeue fac w))) as H.
    unfold same_invoked in H. destruct (runTask host userFn t _) as [c w'].
    cbn [snd] in H. rewrite H. by wsimpl.
Qed.

(** ** One call of [all] *)

(** *** The array of results and the count *)

Lemma element_array_set_eq i x res : element (array_set i x res) i = Some x.
Proof.
  unfold element, array_set. case_decide.
  - by rewrite list_lookup_insert_eq.
  - rewrite app_assoc, lookup_app_r; rewrite length_app, length_replicate.
    + replace (i - (length res + (i - length res))) with 0 by lia. done.
    + lia.
Qed.

Lemma element_array_set_ne i j x res :
  i <> j -> element (array_set i x res) j = element res j.
Proof.
  intros Hne. unfold element, array_set. case_decide.
  - by rewrite list_lookup_insert_ne.
  - destruct (decide (j < length res)) as [Hj|Hj].
    + by rewrite lookup_app_l.
    + rewrite (proj2 (lookup_ge_None res j)) by lia.
      rewrite lookup_app_r by lia.
      destruct (decide (j - length res < i - length res)) as [Hlt|Hge].
      * rewrite lookup_app_l by (rewrite length_replicate; lia).
        by rewrite lookup_replicate_2.
      * rewrite lookup_app_r by (rewrite length_replicate; lia).
        rewrite length_replicate.
        destruct (j - length res - (i - length res)) as [|k] eqn:Hk; [lia|].
        done.
Qed.

Lemma length_array_set i x res :
  length (array_set i x res) = Nat.max (length res) (S i).
Proof.
  unfold array_set. case_decide.
  - rewrite length_insert. lia.
  - rewrite !length_app, length_replicate. cbn. lia.
Qed.

Lemma sum_contribution_insert (l : list Slot) i s s' :
  l !! i = Some s ->
  sum_list_with contribution (<[i := s']> l) + contribution s
  = sum_list_with contribution l + contribution s'.
Proof.
  intros Hi. rewrite <- (take_drop_middle _ _ _ Hi) at 2.
  rewrite insert_take_drop by (by eapply lookup_lt_Some).
  rewrite !sum_list_with_app. cbn. lia.
Qed.

Lemma sum_contribution_le (l : list Slot) :
  sum_list_with contribution l <= length l.
Proof.
  induction l as [|s l IH]; cbn; [lia|].
  unfold contribution at 1. destruct (counted s); lia.
Qed.

Lemma sum_contribution_lt (l : list Slot) i s :
  l !! i = Some s -> counted s = false ->
  sum_list_with contribution l < length l.
Proof.
  intros Hi Hc. rewrite <- (take_drop_middle _ _ _ Hi).
  rewrite sum_list_with_app, length_app. cbn.
  unfold contribution at 2. rewrite Hc.
  pose proof (sum_contribution_le (take i l)).
  pose proof (sum_contribution_le (drop (S i) l)). lia.
Qed.

Lemma sum_contribution_all (l : list Slot) :
  (forall i s, l !! i = Some s -> counted s = true) ->
  sum_list_with contribution l = length l.
Proof.
  induction l as [|s l IH]; intros H; cbn; [done|].
  unfold contribution at 1. rewrite (H 0 s eq_refl).
  rewrite IH; [done|]. intros i s' Hi. by apply (H (S i)).
Qed.

Lemma filter_pair_own i :
  filter (fun x : nat * bool => x.1 = i) [(i, false); (i, true)]
  = [(i, false); (i, true)].
Proof. rewrite !filter_cons. cbn [fst]. by rewrite !decide_True. Qed.

Lemma filter_pair_other i j :
  j <> i ->
  filter (fun x : nat * bool => x.1 = j) [(i, false); (i, true)] = [].
Proof.
  intros Hne. rewrite !filter_cons. cbn [fst].
  by rewrite !decide_False by congruence.
Qed.

Lemma counted_early s : slot_phase s < 2 -> counted s = false.
Proof.
  intros H. unfold counted. by rewrite (bool_decide_false (2 <= _)), andb_false_r by lia.
Qed.

Lemma counted_not_fulfilled s : slot_state s <> FULFILLED -> counted s = false.
Proof. intros H. unfold counted. by rewrite bool_decide_false. Qed.

Lemma counted_late s :
  slot_state s = FULFILLED -> 2 <= slot_phase s -> counted s = true.
Proof. intros H1 H2. unfold counted. by rewrite !bool_decide_true. Qed.

Lemma contribution_early s : slot_phase s < 2 -> contribution s = 0.
Proof. intros H. unfold contribution. by rewrite counted_early. Qed.

Ltac abs_simpl := cbn [slots aqueue acount aresults aout] in *.

Lemma consistent_settle c n i st v a :
  consistent c n a -> st <> PENDING -> consistent c n (settle_slot i st v a).
Proof.
  intros Hc Hst. unfold settle_slot.
  destruct (slots a !! i) as [[[] v0 ph]|] eqn:Hi; try done.
  destruct a as [sl q k res out].
  destruct Hc as (Hlen & Hq & Hok & Hk & Hrl & Hel & Ha & Hb & Hcc).
  cbn [slots aqueue acount aresults aout] in *.
  assert (Hph : ph = 0) by (by apply (Hok _ _ Hi)). subst ph.
  assert (Hilt : i < length sl) by (by eapply lookup_lt_Some).
  unfold consistent. abs_simpl. split; [by rewrite length_insert|].
  split; [|split; [|split; [|split; [|split; [|split; [|split]]]]]];
    cbn [slots aqueue acount aresults aout].
  - intros j. rewrite filter_app, Hq.
    destruct (decide (j = i)) as [->|Hne].
    + rewrite Hi, list_lookup_insert_eq by done.
      by rewrite filter_pair_own.
    + rewrite list_lookup_insert_ne by done.
      by rewrite filter_pair_other, app_nil_r.
  - intros j s Hj. destruct (decide (j = i)) as [->|Hne].
    + rewrite list_lookup_insert_eq in Hj by done. injection Hj as <-. cbn.
      split; [split; [done|lia]|lia].
    + rewrite list_lookup_insert_ne in Hj by done. by eapply Hok.
  - pose proof (sum_contribution_insert sl i _ (mkSlot st v 1) Hi) as Hsum.
    unfold contribution in Hsum at 2 4.
    rewrite !counted_early in Hsum by (cbn; lia). lia.
  - done.
  - intros j s Hj. destruct (decide (j = i)) as [->|Hne].
    + rewrite list_lookup_insert_eq in Hj by done. injection Hj as <-.
      rewrite (Hel _ _ Hi). by rewrite !counted_early by (cbn; lia).
    + rewrite list_lookup_insert_ne in Hj by done. by apply Hel.
  - destruct Ha as [Ha|[Ha|(Ha & j & s & Hj & Hs & Hp)]]; [by left|by right; left|].
    right; right. split; [done|]. exists j, s. split; [|done].
    rewrite list_lookup_insert_ne; [done|]. intros ->. rewrite Hi in Hj.
    by injection Hj as <-.
  - pose proof (sum_contribution_insert sl i _ (mkSlot st v 1) Hi) as Hsum.
    unfold contribution in Hsum at 2 4.
    rewrite !counted_early in Hsum by (cbn; lia). intros Hkn. apply Hb. lia.
  - done.
Qed.

Lemma queue_head c n a i b q :
  consistent c n a -> aqueue a = (i, b) :: q ->
  exists s, slots a !! i = Some s /\ slot_phase s = (if b then 2 else 1) /\
            slot_state s <> PENDING /\ i < n /\
            filter (fun x : nat * bool => x.1 = i) q
            = phase_queue i (S (slot_phase s)).
Proof.
  intros (Hlen & Hq & Hok & _) Haq. specialize (Hq i). rewrite Haq in Hq.
  rewrite filter_cons_True in Hq by done.
  destruct (slots a !! i) as [s|] eqn:Hi; [|done].
  exists s. destruct (Hok _ _ Hi) as [Hpend Hle].
  assert (Hilt : i < n) by (rewrite <- Hlen; by eapply lookup_lt_Some).
  destruct (slot_phase s) as [|[|[|ph]]] eqn:Hph; cbn in Hq; try done.
  - injection Hq as -> Hq. repeat split; try done.
    intros Hs. apply Hpend in Hs. done.
  - injection Hq as -> Hq. repeat split; try done.
    intros Hs. apply Hpend in Hs. done.
Qed.

Lemma consistent_tick c n a : consistent c n a -> consistent c n (atick c n a).
Proof.
  intros Hc. unfold atick. destruct (aqueue a) as [|[i b] q] eqn:Haq; [done|].
  destruct (queue_head c n a i b q Hc Haq)
    as (s & Hi & Hph & Hnp & Hilt & Hfi).
  rewrite Hi. destruct a as [sl q0 k res out]. abs_simpl. subst q0.
  destruct Hc as (Hlen & Hq & Hok & Hk & Hrl & Hel & Ha & Hb & Hcc).
  abs_simpl.
  assert (Hil : i < length sl) by (by eapply lookup_lt_Some).
  (* what does not depend on the kind of callback *)
  assert (Hq' : forall j,
    filter (fun x : nat * bool => x.1 = j) q
    = match <[i := next_phase s]> sl !! j with
      | Some s' => phase_queue j (slot_phase s')
      | None => []
      end).
  { intros j. destruct (decide (j = i)) as [->|Hne].
    - by rewrite list_lookup_insert_eq.
    - rewrite list_lookup_insert_ne by done. rewrite <- Hq.
      by rewrite filter_cons_False by (cbn; congruence). }
  assert (Hok' : forall j s', <[i := next_phase s]> sl !! j = Some s' ->
    (slot_state s' = PENDING <-> slot_phase s' = 0) /\ slot_phase s' <= 3).
  { intros j s' Hj. destruct (decide (j = i)) as [->|Hne].
    - rewrite list_lookup_insert_eq in Hj by done. injection Hj as <-. cbn.
      split; [split; [done|lia]|destruct b; lia].
    - rewrite list_lookup_insert_ne in Hj by done. by eapply Hok. }
  assert (Hwit : forall j s', sl !! j = Some s' -> slot_phase s' = 3 ->
    <[i := next_phase s]> sl !! j = Some s').
  { intros j s' Hj Hp3. rewrite list_lookup_insert_ne; [done|].
    intros ->. rewrite Hi in Hj. injection Hj as <-. destruct b; lia. }
  pose proof (sum_contribution_insert sl i s (next_phase s) Hi) as Hsum.
  assert (Hnc : forall j s', j <> i ->
    <[i := next_phase s]> sl !! j = Some s' -> sl !! j = Some s').
  { intros j s' Hne Hj. by rewrite list_lookup_insert_ne in Hj. }
  destruct b.
  - (* the callback for rejection *)
    assert (Hsame : counted (next_phase s) = counted s).
    { unfold counted. cbn. f_equal. apply bool_decide_ext. lia. }
    assert (Hcs : contribution (next_phase s) = contribution s)
      by (unfold contribution; by rewrite Hsame).
    rewrite Hcs in Hsum.
    unfold consistent. abs_simpl.
    split; [by rewrite length_insert|]. split; [done|]. split; [done|].
    split; [lia|]. split; [done|]. split.
    { intros j s' Hj. destruct (decide (j = i)) as [->|Hne].
      - rewrite list_lookup_insert_eq in Hj by done. injection Hj as <-.
        rewrite Hsame. cbn [next_phase slot_value]. by apply Hel.
      - apply Hel. by apply Hnc. }
    case_decide as Hrej.
    + unfold settle_out. case_decide as Hout.
      * split; [|split; [done|done]].
        right; right. split; [done|]. exists i, (next_phase s).
        rewrite list_lookup_insert_eq by done. cbn. by rewrite Hph.
      * split; [|split; [done|done]].
        destruct Ha as [Ha|[Ha|(Ha & j & s' & Hj & Hs & Hp)]];
          [done|by right; left|].
        right; right. split; [done|]. exists j, s'. auto.
    + split; [|split; [done|done]].
      destruct Ha as [Ha|[Ha|(Ha & j & s' & Hj & Hs & Hp)]];
        [by left|by right; left|].
      right; right. split; [done|]. exists j, s'. auto.
  - (* the callback for fulfillment *)
    assert (Hold : counted s = false) by (apply counted_early; lia).
    assert (Hc0 : contribution s = 0) by (unfold contribution; by rewrite Hold).
    rewrite Hc0 in Hsum.
    pose proof (sum_contribution_lt sl i s Hi Hold) as Hlt.
    assert (Ha' : forall out', out' = out ->
      out'.1 = PENDING \/ out' = (FULFILLED, VArray c) \/
      (out'.1 = REJECTED /\
       exists j s', <[i := next_phase s]> sl !! j = Some s' /\
                    slot_state s' = REJECTED /\ slot_phase s' = 3)).
    { intros out' ->.
      destruct Ha as [Ha|[Ha|(Ha & j & s' & Hj & Hs & Hp)]];
        [by left|by right; left|].
      right; right. split; [done|]. exists j, s'. auto. }
    case_decide as Hful.
    + assert (Hnew : counted (next_phase s) = true)
        by (apply counted_late; [done|cbn; lia]).
      assert (Hc1 : contribution (next_phase s) = 1)
        by (unfold contribution; by rewrite Hnew).
      rewrite Hc1 in Hsum.
      unfold consistent. abs_simpl.
      split; [by rewrite length_insert|]. split; [done|]. split; [done|].
      split; [lia|]. split; [rewrite length_array_set; lia|]. split.
      { intros j s' Hj. destruct (decide (j = i)) as [->|Hne].
        - rewrite list_lookup_insert_eq in Hj by done. injection Hj as <-.
          by rewrite Hnew, element_array_set_eq.
        - rewrite element_array_set_ne by done. apply Hel. by apply Hnc. }
      destruct (Nat.eqb_spec (S k) n) as [Heq|Hneq].
      * unfold settle_out. case_decide as Hout.
        -- split; [by right; left|]. split; [done|done].
        -- split; [by apply Ha'|]. split; [done|]. done.
      * split; [by apply Ha'|]. split; [done|].
        intros Hf. apply Hcc in Hf. lia.
    + assert (Hnew : counted (next_phase s) = false)
        by (by apply counted_not_fulfilled).
      assert (Hc1 : contribution (next_phase s) = 0)
        by (unfold contribution; by rewrite Hnew).
      rewrite Hc1 in Hsum.
      unfold consistent. abs_simpl.
      split; [by rewrite length_insert|]. split; [done|]. split; [done|].
      split; [lia|]. split; [done|]. split.
      { intros j s' Hj. destruct (decide (j = i)) as [->|Hne].
        - rewrite list_lookup_insert_eq in Hj by done. injection Hj as <-.
          rewrite Hnew. rewrite (Hel _ _ Hi). by rewrite Hold.
        - apply Hel. by apply Hnc. }
      split; [by apply Ha'|]. split; [done|done].
Qed.

Lemma consistent_astep ps c op a :
  consistent c (length ps) a -> consistent c (length ps) (astep ps c op a).
Proof.
  intros Hc. destruct op as [| |f args| | | | | |]; cbn [astep]; try done.
  - destruct f; try done; destruct (index_of _ ps); try done;
      by apply consistent_settle.
  - by apply consistent_tick.
Qed.

(** When every input is fulfilled and no callback is left, the result is
    fulfilled with the array of the values, in the order of the inputs. *)
Lemma all_fulfilled_result c n a :
  consistent c n a -> aqueue a = [] ->
  (forall i s, slots a !! i = Some s -> slot_state s = FULFILLED) ->
  aout a = (FULFILLED, VArray c) /\
  aresults a = (fun s => Some (slot_value s)) <$> slots a.
Proof.
  intros (Hlen & Hq & Hok & Hk & Hrl & Hel & Ha & Hb & Hcc) Hempty Hall.
  assert (Hcounted : forall i s, slots a !! i = Some s -> counted s = true).
  { intros i s Hi. apply counted_late; [by eapply Hall|].
    specialize (Hq i). rewrite Hempty, Hi in Hq. cbn in Hq.
    destruct (Hok _ _ Hi) as [Hpend Hle].
    pose proof (Hall _ _ Hi) as Hf.
    destruct (slot_phase s) as [|[|[|ph]]]; try done; [|lia].
    assert (slot_state s = PENDING) by (by apply Hpend). congruence. }
  assert (Hkn : acount a = n)
    by (by rewrite Hk, sum_contribution_all).
  split.
  - destruct Ha as [Ha|[Ha|(Ha & j & s & Hj & Hs & Hp)]]; [|done|].
    + by apply Hb in Hkn.
    + rewrite (Hall _ _ Hj) in Hs. done.
  - apply list_eq. intros i. rewrite list_lookup_fmap.
    destruct (slots a !! i) as [s|] eqn:Hi; cbn.
    + specialize (Hel _ _ Hi). rewrite (Hcounted _ _ Hi) in Hel.
      unfold element in Hel.
      destruct (aresults a !! i) as [[v|]|]; try done. congruence.
    + apply lookup_ge_None. apply lookup_ge_None in Hi. lia.
Qed.

Lemma first_rejection_done i e a :
  first_rejection i e a -> aqueue a = [] -> aout a = (REJECTED, e).
Proof.
  intros [H|(_ & _ & pre & post & Hq & _)] Hempty; [done|].
  rewrite Hempty in Hq. by destruct pre.
Qed.

Lemma first_rejection_start c n i e v0 ph a :
  consistent c n a -> slots a !! i = Some (mkSlot PENDING v0 ph) ->
  (forall j s, slots a !! j = Some s -> slot_state s <> REJECTED) ->
  first_rejection i e (settle_slot i REJECTED e a).
Proof.
  intros Hc Hi Hnone. pose proof Hc as Hc'.
  destruct Hc' as (Hlen & Hq & Hok & Hk & Hrl & Hel & Ha & Hb & Hcc).
  assert (Hil : i < length (slots a)) by (by eapply lookup_lt_Some).
  assert (Hph : ph = 0) by (by apply (Hok _ _ Hi)). subst ph.
  unfold settle_slot. rewrite Hi. right. abs_simpl. split; [|split].
  - destruct Ha as [Ha|[Ha|(Ha & j & s & Hj & Hs & Hp)]]; [done| |].
    + assert (Hf : (aout a).1 = FULFILLED) by (by rewrite Ha).
      apply Hcc in Hf.
      assert (Hnf : counted (mkSlot PENDING v0 0) = false)
        by (by apply counted_not_fulfilled).
      pose proof (sum_contribution_lt _ _ _ Hi Hnf). lia.
    + by apply Hnone in Hj.
  - exists 1. by rewrite list_lookup_insert_eq.
  - exists (aqueue a ++ [(i, false)]), []. split; [by rewrite <- app_assoc|].
    intros j s Hj Hs. apply elem_of_app in Hj as [Hj|Hj].
    + assert (Hne : j <> i).
      { intros ->. specialize (Hq i). rewrite Hi in Hq. cbn in Hq.
        assert (Hin : (i, true) ∈ filter (fun x : nat * bool => x.1 = i)
                                    (aqueue a))
          by (by apply list_elem_of_filter).
        rewrite Hq in Hin. by apply elem_of_nil in Hin. }
      rewrite list_lookup_insert_ne in Hs by done. by eapply Hnone.
    + apply list_elem_of_singleton in Hj. congruence.
Qed.

Lemma first_rejection_settle c n i e j st v a :
  consistent c n a -> first_rejection i e a ->
  first_rejection i e (settle_slot j st v a).
Proof.
  intros Hc [H|(Hout & [ph Hi] & pre & post & Hq & Hpre)].
  { left. unfold settle_slot. by destruct (slots a !! j) as [[[] ? ?]|]. }
  unfold settle_slot.
  destruct (slots a !! j) as [[[] v0 ph0]|] eqn:Hj;
    try (right; split; [done|]; split; [by exists ph|]; by exists pre, post).
  assert (Hne : j <> i) by (intros ->; rewrite Hi in Hj; done).
  destruct Hc as (Hlen & Hfil & Hok & _).
  right. abs_simpl. split; [done|]. split.
  { exists ph. by rewrite list_lookup_insert_ne. }
  exists pre, (post ++ [(j, false); (j, true)]).
  split; [by rewrite Hq, <- app_assoc|].
  intros j' s Hin Hs. destruct (decide (j' = j)) as [->|Hne'].
  - exfalso. specialize (Hfil j). rewrite Hj in Hfil.
    assert (Hph0 : ph0 = 0) by (by apply (Hok _ _ Hj)). subst ph0.
    cbn in Hfil.
    assert (Hin' : (j, true) ∈ filter (fun x : nat * bool => x.1 = j)
                                 (aqueue a)).
    { apply list_elem_of_filter. split; [done|]. rewrite Hq.
      apply elem_of_app. by left. }
    rewrite Hfil in Hin'. by apply elem_of_nil in Hin'.
  - rewrite list_lookup_insert_ne in Hs by done. by eapply Hpre.
Qed.

Lemma settle_out_settled st v out : out.1 <> PENDING -> settle_out st v out = out.
Proof. intros H. unfold settle_out. by rewrite decide_False. Qed.

Lemma settle_out_pending st v out : out.1 = PENDING -> settle_out st v out = (st, v).
Proof. intros H. unfold settle_out. by rewrite decide_True. Qed.

Lemma first_rejection_tick c n i e a :
  consistent c n a -> first_rejection i e a ->
  first_rejection i e (atick c n a).
Proof.
  intros Hc Hfirst. pose proof (consistent_tick c n a Hc) as Hc'.
  destruct Hfirst as [H|(Hout & [ph Hi] & pre & post & Hq & Hpre)].
  { left. unfold atick. destruct (aqueue a) as [|[j b] q]; [done|].
    destruct (slots a !! j) as [s|]; [|done].
    assert (Hnp : (aout a).1 <> PENDING) by (by rewrite H).
    destruct b; repeat case_decide; try done; abs_simpl;
      try (by rewrite settle_out_settled).
    destruct (Nat.eqb _ _); [by rewrite settle_out_settled|done]. }
  destruct pre as [|[j b] pre'].
  - (* the rejection callback of [i] is next *)
    left. unfold atick. rewrite Hq. cbn [app]. rewrite Hi.
    cbn [slot_state slot_value]. rewrite decide_True by done. abs_simpl.
    by apply settle_out_pending.
  - cbn [app] in Hq.
    destruct (queue_head c n a j b _ Hc Hq) as (s & Hj & Hph & Hnp & Hjn & _).
    assert (Hil : i < length (slots a)) by (by eapply lookup_lt_Some).
    assert (Hjl : j < length (slots a)) by (by eapply lookup_lt_Some).
    (* the state of the machine after the tick, but for the result *)
    assert (Hi' : exists ph', <[j := next_phase s]> (slots a) !! i
                              = Some (mkSlot REJECTED e ph')).
    { destruct (decide (i = j)) as [->|Hne].
      - rewrite Hi in Hj. injection Hj as <-.
        exists (S ph). by rewrite list_lookup_insert_eq.
      - exists ph. by rewrite list_lookup_insert_ne. }
    assert (Hpre' : forall j' s', (j', true) ∈ pre' ->
              <[j := next_phase s]> (slots a) !! j' = Some s' ->
              slot_state s' <> REJECTED).
    { intros j' s' Hin Hs'. destruct (decide (j' = j)) as [->|Hne].
      - rewrite list_lookup_insert_eq in Hs' by done. injection Hs' as <-.
        cbn. eapply (Hpre j); [|done]. by apply elem_of_cons; right.
      - rewrite list_lookup_insert_ne in Hs' by done.
        eapply (Hpre j'); [|done]. by apply elem_of_cons; right. }
    revert Hc'. unfold atick. rewrite Hq, Hj. intros Hc'.
    destruct b.
    + right. abs_simpl.
      assert (Hs : slot_state s <> REJECTED)
        by (eapply (Hpre j); [by apply elem_of_cons; left|done]).
      rewrite decide_False by done.
      split; [done|]. split; [done|]. by exists pre', post.
    + destruct (decide (slot_state s = FULFILLED)) as [Hf|Hf].
      * right. abs_simpl.
        destruct Hi' as [ph' Hi'].
        destruct Hc' as (Hlen' & _ & _ & Hk' & _). abs_simpl.
        assert (Hnc : counted (mkSlot REJECTED e ph') = false)
          by (by apply counted_not_fulfilled).
        pose proof (sum_contribution_lt _ _ _ Hi' Hnc) as Hlt.
        rewrite (proj2 (Nat.eqb_neq _ _)) by lia.
        split; [done|]. split; [by exists ph'|]. by exists pre', post.
      * right. abs_simpl.
        split; [done|]. split; [done|]. by exists pre', post.
Qed.

Lemma first_rejection_astep ps c i e op a :
  consistent c (length ps) a -> first_rejection i e a ->
  first_rejection i e (astep ps c op a).
Proof.
  intros Hc Hf. destruct op as [| |f args| | | | | |]; cbn [astep]; try done.
  - destruct f; try done; destruct (index_of _ ps); try done;
      by eapply first_rejection_settle.
  - by apply first_rejection_tick.
Qed.

Lemma index_of_Some p ps :
  p ∈ ps -> exists i, index_of p ps = Some i /\ ps !! i = Some p.
Proof.
  induction ps as [|q rest IH]; intros Hin; [by apply elem_of_nil in Hin|].
  cbn [index_of]. case_decide as Hq.
  - subst q. by exists 0.
  - apply elem_of_cons in Hin as [->|Hin]; [done|].
    destruct (IH Hin) as (i & Hi & Hl). exists (S i). by rewrite Hi.
Qed.

Lemma consistent_initial w ps c :
  consistent c (length ps) (initial_abs w ps c).
Proof.
  unfold consistent, initial_abs. abs_simpl.
  split; [by rewrite length_fmap|].
  split.
  { intros i. rewrite filter_nil, list_lookup_fmap.
    by destruct (ps !! i). }
  split.
  { intros i s Hi. rewrite list_lookup_fmap in Hi.
    destruct (ps !! i); [|done]. injection Hi as <-. cbn. split; [done|lia]. }
  assert (Hsum : sum_list_with contribution
                   ((fun p => mkSlot PENDING (initial_value w p) 0) <$> ps)
                 = 0).
  { induction ps as [|p ps IH]; [done|]. cbn. by rewrite IH. }
  split; [by rewrite Hsum|]. split; [cbn; lia|].
  split.
  { intros i s Hi. rewrite list_lookup_fmap in Hi.
    destruct (ps !! i); [|done]. injection Hi as <-. by destruct i. }
  destruct ps as [|p ps]; cbn.
  - split; [by right; left|]. split; [done|done].
  - split; [by left|]. split; [done|done].
Qed.

Section Simulation.

Variable host : Host.
Variable userFn : nat -> list Value -> Behaviour.
Variable fac : Facility.
Hypothesis Hfac : facility host = Some fac.

(** A settlement capability of a promise without handlers, whatever its
    state. *)
Lemma changeState_no_handlers x st v newState value w :
  heap w !! x = Some (mkPromise st v []) -> newState <> PENDING ->
  _changeState host x newState value w
  = (Normal tt,
     with_heap (fun h => <[x := mkPromise (settle_out newState value (st, v)).1
                                    (settle_out newState value (st, v)).2 []]> h)
               w).
Proof using Hfac.
  intros Hx Hns. destruct (decide (st = PENDING)) as [->|Hst].
  - erewrite changeState_defers; [|done..]. f_equal.
    rewrite settle_out_pending by done. cbn [fst snd].
    destruct fac, w; unfold_world; by rewrite app_nil_r.
  - erewrite changeState_settled; [|done..]. f_equal.
    rewrite settle_out_settled by done. cbn [fst snd]. destruct w.
    unfold_world. by rewrite (list_insert_id _ _ _ Hx).
Qed.

Lemma call_resolve_no_handlers x st v args w :
  heap w !! x = Some (mkPromise st v []) ->
  call host userFn (VResolve x) args w
  = (Normal VUndefined,
     with_heap
       (fun h => <[x := mkPromise
                     (settle_out FULFILLED (arg0 args) (st, v)).1
                     (settle_out FULFILLED (arg0 args) (st, v)).2 []]> h) w).
Proof using Hfac.
  intros Hx. cbn [call]. unfold _resolve.
  by erewrite bind_Normal; [|by apply changeState_no_handlers].
Qed.

Lemma call_reject_no_handlers x st v args w :
  heap w !! x = Some (mkPromise st v []) ->
  call host userFn (VReject x) args w
  = (Normal VUndefined,
     with_heap
       (fun h => <[x := mkPromise
                     (settle_out REJECTED (arg0 args) (st, v)).1
                     (settle_out REJECTED (arg0 args) (st, v)).2 []]> h) w).
Proof using Hfac.
  intros Hx. cbn [call]. unfold _reject.
  by erewrite bind_Normal; [|by apply changeState_no_handlers].
Qed.

(** The closure of lines 218-224, called with the value of an input. *)
Lemma call_all_onFulfilled r c i res n k ost ov args w :
  scopes w !! c = Some (mkAllScope res n k) ->
  heap w !! r = Some (mkPromise ost ov []) ->
  let out := if Nat.eqb (S k) n
             then settle_out FULFILLED (VArray c) (ost, ov) else (ost, ov) in
  call host userFn (VAllOnFulfilled (VResolve r) c i) args w
  = (Normal VUndefined,
     with_heap (fun h => <[r := mkPromise out.1 out.2 []]> h)
       (with_scopes
          (fun l => <[c := mkAllScope (array_set i (arg0 args) res) n (S k)]> l)
          w)).
Proof using Hfac.
  intros Hc Hr out. cbn [call]. unfold getScope at 1. rewrite bind_eq, Hc.
  rewrite bind_eq. cbn [putScope results count fulfilledCount]. subst out.
  destruct (Nat.eqb (S k) n).
  - rewrite bind_eq. change (call host userFn (VResolve r) [VArray c])
      with (_resolve host r (VArray c);; ret VUndefined).
    unfold _resolve. rewrite bind_eq.
    erewrite changeState_no_handlers; [|by wsimpl|done]. done.
  - cbn [ret fst snd]. f_equal. destruct w. unfold_world.
    by rewrite (list_insert_id _ _ _ Hr).
Qed.

Variable ps : list ref.
Variables r c : nat.
Hypothesis Hnodup : NoDup ps.
Hypothesis Hbelow : forall p, p ∈ ps -> p < r.

Lemma all_tasks_of_input i p :
  ps !! i = Some p ->
  map (mkTask p) (all_handlers r c i)
  = map (all_task ps r c) [(i, false); (i, true)].
Proof. intros Hi. cbn. unfold all_task. cbn. by rewrite Hi. Qed.

Lemma represents_settle i p st v w a :
  ps !! i = Some p -> st <> PENDING ->
  represents fac ps r c w a ->
  represents fac ps r c (_changeState host p st v w).2 (settle_slot i st v a).
Proof using Hfac Hnodup Hbelow.
  intros Hi Hst (Hu & Hq & Hsc & Hr & Hsl).
  destruct (Hsl _ _ Hi) as ([sst sv sph] & Hs & Hp & tst & tv & Ht).
  cbn [slot_state slot_value] in Hp.
  assert (Hpr : p < r) by (apply Hbelow; by eapply list_elem_of_lookup_2).
  unfold settle_slot. rewrite Hs.
  destruct (decide (sst = PENDING)) as [->|Hne].
  - erewrite changeState_defers; [|done..]. cbn [snd].
    split; [by wsimpl|]. split; [|split; [|split]]; abs_simpl.
    + wsimpl. by rewrite map_app, Hq, (all_tasks_of_input _ _ Hi).
    + by wsimpl.
    + wsimpl. rewrite list_lookup_insert_ne by lia. done.
    + intros j q Hj. wsimpl. destruct (decide (j = i)) as [->|Hji].
      * rewrite Hi in Hj. injection Hj as <-.
        exists (mkSlot st v 1). cbn [slot_state slot_value].
        rewrite list_lookup_insert_eq by (by eapply lookup_lt_Some).
        split; [done|]. rewrite decide_False by done.
        split; [by rewrite list_lookup_insert_eq by (by eapply lookup_lt_Some)|].
        exists tst, tv. by rewrite list_lookup_insert_ne by lia.
      * destruct (Hsl _ _ Hj) as (s' & Hs' & Hp' & tst' & tv' & Ht').
        assert (Hqp : q <> p).
        { intros ->. apply Hji. by eapply NoDup_lookup. }
        assert (Hqr : q < r) by (apply Hbelow; by eapply list_elem_of_lookup_2).
        exists s'. rewrite !list_lookup_insert_ne by done.
        split; [done|]. split; [done|]. exists tst', tv'.
        by rewrite list_lookup_insert_ne by lia.
  - erewrite changeState_settled; [|done|done]. cbn [snd].
    destruct sst; try done; by repeat split.
Qed.

(** The inputs keep their place in a heap that differs from that of [w]
    only at the result and at the promises made by [then], and the slot
    [i] only by its phase. *)
Lemma inputs_after_tick w a i s (heap' : list Promise) :
  slots a !! i = Some s ->
  (forall i p, ps !! i = Some p ->
     exists s, slots a !! i = Some s /\
       heap w !! p
       = Some (mkPromise (slot_state s) (slot_value s)
                 (if decide (slot_state s = PENDING)
                  then all_handlers r c i else [])) /\
       exists tst tv, heap w !! (r + 1 + i) = Some (mkPromise tst tv [])) ->
  (forall x, x < r -> heap' !! x = heap w !! x) ->
  (forall j tst tv, heap w !! (r + 1 + j) = Some (mkPromise tst tv []) ->
     exists tst' tv', heap' !! (r + 1 + j) = Some (mkPromise tst' tv' [])) ->
  forall j p, ps !! j = Some p ->
    exists s', <[i := next_phase s]> (slots a) !! j = Some s' /\
      heap' !! p
      = Some (mkPromise (slot_state s') (slot_value s')
                (if decide (slot_state s' = PENDING)
                 then all_handlers r c j else [])) /\
      exists tst tv, heap' !! (r + 1 + j) = Some (mkPromise tst tv []).
Proof using Hbelow.
  intros Hi Hsl Hlow Hthen j p Hj.
  destruct (Hsl _ _ Hj) as (s' & Hs' & Hp' & tst & tv & Ht).
  assert (Hpr : p < r) by (apply Hbelow; by eapply list_elem_of_lookup_2).
  destruct (decide (j = i)) as [->|Hne].
  - rewrite Hi in Hs'. injection Hs' as <-. exists (next_phase s).
    rewrite list_lookup_insert_eq by (by eapply lookup_lt_Some).
    split; [done|]. rewrite Hlow by done. split; [done|]. by eapply Hthen.
  - exists s'. rewrite list_lookup_insert_ne by done.
    split; [done|]. rewrite Hlow by done. split; [done|]. by eapply Hthen.
Qed.

(** The host runs the first callback of the call: it ends normally, and
    the world shows the machine one tick later. *)
Lemma tick_represents w a x q :
  represents fac ps r c w a -> consistent c (length ps) a ->
  aqueue a = x :: q ->
  exists w', tick host userFn w = Some (Normal tt, w') /\
             represents fac ps r c w' (atick c (length ps) a).
Proof using Hfac Hnodup Hbelow.
  intros (Hu & Hq & Hsc & Hr & Hsl) Hc Haq. unfold atick.
  destruct x as [i b]. rewrite Haq in Hq |- *.
  destruct (queue_head c _ a i b q Hc Haq) as (s & Hi & Hph & Hnp & Hin & _).
  rewrite Hi. clear Hc Haq.
  destruct a as [sl aq k res [ost ov]]. abs_simpl. cbn [fst snd] in Hr.
  destruct (lookup_lt_is_Some_2 ps i Hin) as [p Hp].
  destruct (Hsl _ _ Hp) as (s' & Hs' & Hhp & tst & tv & Ht).
  rewrite Hi in Hs'. injection Hs' as <-.
  rewrite decide_False in Hhp by done.
  assert (Hpr : p < r) by (apply Hbelow; by eapply list_elem_of_lookup_2).
  cbn [map] in Hq.
  rewrite (tick_defers host userFn fac _ _ w Hu Hq).
  set (w0 := with_invoked _ (dequeue fac w)).
  assert (Hh0 : heap w0 = heap w) by (subst w0; by wsimpl).
  assert (Hs0 : scopes w0 = scopes w) by (subst w0; by wsimpl).
  assert (Hq0 : queued fac w0 = map (all_task ps r c) q)
    by (subst w0; wsimpl; by rewrite Hq).
  assert (Hu0 : unused fac w0 = []) by (subst w0; by wsimpl).
  clearbody w0. unfold all_task at 1. cbn [fst snd]. rewrite Hp. cbn [default].
  unfold represents.
  destruct b.
  - (* the callback for rejection *)
    destruct (decide (slot_state s = REJECTED)) as [Hrej|Hrej].
    + erewrite runTask_function; [|by rewrite Hh0|by rewrite Hrej|done].
      unfold try_catch. cbn [executor _value resolve reject].
      erewrite bind_Normal;
        [|eapply call_reject_no_handlers; by rewrite Hh0].
      cbn [isPromise truthy andb].
      erewrite bind_Normal.
      2: { eapply call_resolve_no_handlers. wsimpl.
           rewrite list_lookup_insert_ne by lia. by rewrite Hh0. }
      cbn [ret snd arg0]. abs_simpl. eexists. split; [done|].
      split; [by wsimpl|]. split; [by wsimpl|]. split; [by wsimpl; rewrite Hs0|].
      split.
      { wsimpl. rewrite list_lookup_insert_ne by lia.
        by rewrite list_lookup_insert_eq
          by (rewrite Hh0; by eapply lookup_lt_Some). }
      eapply (inputs_after_tick w (mkAbs sl aq k res (ost, ov)) i s);
        [done|done| |].
      * intros x Hx. wsimpl. rewrite !list_lookup_insert_ne by lia.
        by rewrite Hh0.
      * intros j tst' tv' Hj. wsimpl.
        destruct (decide (j = i)) as [->|Hne].
        -- rewrite list_lookup_insert_eq; [by eexists _, _|].
           rewrite length_insert, Hh0. by eapply lookup_lt_Some.
        -- rewrite !list_lookup_insert_ne by lia. rewrite Hh0.
           by eexists _, _.
    + erewrite runTask_mismatch; [|by rewrite Hh0|by cbn; congruence].
      cbn [snd]. abs_simpl. eexists. split; [done|].
      split; [done|]. split; [done|]. split; [by rewrite Hs0|].
      split; [by rewrite Hh0|].
      eapply (inputs_after_tick w (mkAbs sl aq k res (ost, ov)) i s);
        [done|done| |].
      * intros x Hx. by rewrite Hh0.
      * intros j tst' tv' Hj. rewrite Hh0. by eexists _, _.
  - (* the callback for fulfillment *)
    destruct (decide (slot_state s = FULFILLED)) as [Hful|Hful].
    + erewrite runTask_function; [|by rewrite Hh0|by rewrite Hful|done].
      unfold try_catch. cbn [executor _value resolve reject].
      erewrite bind_Normal.
      2: { eapply call_all_onFulfilled; [by rewrite Hs0|by rewrite Hh0]. }
      cbn [isPromise truthy andb].
      erewrite bind_Normal.
      2: { eapply call_resolve_no_handlers. wsimpl.
           rewrite list_lookup_insert_ne by lia. by rewrite Hh0. }
      cbn [ret snd arg0]. abs_simpl. eexists. split; [done|].
      split; [by wsimpl|]. split; [by wsimpl|]. split.
      { wsimpl. rewrite Hs0.
        apply list_lookup_insert_eq. by eapply lookup_lt_Some. }
      split.
      { wsimpl. rewrite list_lookup_insert_ne by lia.
        rewrite list_lookup_insert_eq by (rewrite Hh0; by eapply lookup_lt_Some).
        by destruct (Nat.eqb _ _). }
      eapply (inputs_after_tick w (mkAbs sl aq k res (ost, ov)) i s);
        [done|done| |].
      * intros x Hx. wsimpl. rewrite !list_lookup_insert_ne by lia.
        by rewrite Hh0.
      * intros j tst' tv' Hj. wsimpl.
        destruct (decide (j = i)) as [->|Hne].
        -- rewrite list_lookup_insert_eq; [by eexists _, _|].
           rewrite length_insert, Hh0. by eapply lookup_lt_Some.
        -- rewrite !list_lookup_insert_ne by lia. rewrite Hh0.
           by eexists _, _.
    + erewrite runTask_mismatch; [|by rewrite Hh0|by cbn; congruence].
      cbn [snd]. abs_simpl. eexists. split; [done|].
      split; [done|]. split; [done|]. split; [by rewrite Hs0|].
      split; [by rewrite Hh0|].
      eapply (inputs_after_tick w (mkAbs sl aq k res (ost, ov)) i s);
        [done|done| |].
      * intros x Hx. by rewrite Hh0.
      * intros j tst' tv' Hj. rewrite Hh0. by eexists _, _.
Qed.

Lemma represents_tick w a :
  represents fac ps r c w a -> consistent c (length ps) a ->
  represents fac ps r c (perform host userFn OpTick w) (atick c (length ps) a).
Proof using Hfac Hnodup Hbelow.
  intros Hrep Hc. cbn [perform].
  destruct (aqueue a) as [|x q] eqn:Haq.
  - destruct Hrep as (Hu & Hq & Hrest). rewrite Haq in Hq.
    assert (Hnone : tick host userFn w = None).
    { unfold tick. clear Hfac. destruct fac; cbn in Hq, Hu; by rewrite Hq, Hu. }
    rewrite Hnone. unfold atick. rewrite Haq. split; [done|].
    split; [by rewrite Haq|done].
  - destruct (tick_represents w a x q Hrep Hc Haq) as (w' & Ht & Hrep').
    by rewrite Ht.
Qed.

Lemma represents_perform op w a :
  input_event ps op ->
  represents fac ps r c w a -> consistent c (length ps) a ->
  represents fac ps r c (perform host userFn op w) (astep ps c op a).
Proof using Hfac Hnodup Hbelow.
  intros Hev Hrep Hc.
  destruct op as [| |f args| | | | | |]; cbn [input_event] in Hev; try done.
  - destruct f; try done; destruct (index_of_Some _ _ Hev) as (i & Hio & Hi);
      cbn [perform astep call]; rewrite Hio; unfold _resolve, _reject;
      rewrite snd_bind_ret; by apply represents_settle.
  - by apply represents_tick.
Qed.

Lemma represents_run_ops ops : forall w a,
  Forall (input_event ps) ops ->
  represents fac ps r c w a -> consistent c (length ps) a ->
  represents fac ps r c (run_ops host userFn ops w)
             (fold_left (fun a op => astep ps c op a) ops a) /\
  consistent c (length ps) (fold_left (fun a op => astep ps c op a) ops a).
Proof using Hfac Hnodup Hbelow.
  induction ops as [|op ops IH]; intros w a Hev Hrep Hc; [done|].
  apply Forall_cons in Hev as [Hop Hev]. cbn [run_ops fold_left].
  apply IH; [done| |by apply consistent_astep].
  by apply represents_perform.
Qed.

(** The host can always finish the callbacks of the call. *)
Lemma represents_drain : forall n w a,
  represents fac ps r c w a -> consistent c (length ps) a ->
  length (aqueue a) = n ->
  exists w', ticks host userFn n w = Some w' /\ quiescent w' /\
    w' = run_ops host userFn (replicate n OpTick) w.
Proof using Hfac Hnodup Hbelow.
  induction n as [|n IH]; intros w a Hrep Hc Hlen.
  - exists w. split; [done|]. split; [|done].
    destruct Hrep as (Hu & Hq & _). destruct (aqueue a); [|done].
    by apply (quiescent_queued fac).
  - destruct (aqueue a) as [|x q] eqn:Haq; [done|].
    destruct (tick_represents w a x q Hrep Hc Haq) as (w1 & Ht & Hrep1).
    destruct (IH w1 (atick c (length ps) a) Hrep1 (consistent_tick _ _ _ Hc))
      as (w' & Hticks & Hquiet & Hrun).
    { unfold atick. rewrite Haq. destruct x as [i b].
      cbn in Hlen. destruct (slots a !! i); [|by cbn; lia].
      destruct b; [by cbn; lia|]. case_decide; cbn; lia. }
    exists w'. cbn [ticks]. rewrite Ht. split; [done|]. split; [done|].
    cbn [replicate run_ops fold_left perform]. by rewrite Ht.
Qed.

End Simulation.

Section Establish.

Variable host : Host.
Variable userFn : nat -> list Value -> Behaviour.
Variable fac : Facility.
Hypothesis Hfac : facility host = Some fac.

Variable w0 : World.
Variable ps : list ref.
Hypothesis Hnodup : NoDup ps.
Hypothesis Hpending : forall p, p ∈ ps ->
  exists v0, heap w0 !! p = Some (mkPromise PENDING v0 []).

Local Abbreviation r := (length (heap w0)).
Local Abbreviation c := (length (scopes w0)).
Local Abbreviation v0 := (initial_value w0).
Local Abbreviation looped := (all_looped fac w0 ps).

Lemma all_loop rest : forall done w,
  ps = done ++ rest -> looped (length done) w ->
  exists w',
    for_of (VPromise <$> rest) (fun promise =>
      s <- getScope c;;
      putScope c (mkAllScope (results s) (S (count s)) (fulfilledCount s));;
      q <- MyPromise_resolve host userFn promise;;
      invoke_then host userFn q
        (VAllOnFulfilled (VResolve r) c (count s)) (VReject r);;
      ret tt) w = (Normal tt, w') /\
    looped (length ps) w'.
Proof using Hnodup Hpending.
  induction rest as [|p rest IH]; intros done w Hps Hloop.
  { exists w. split; [done|].
    assert (length ps = length done) as -> by (by rewrite Hps, app_nil_r).
    done. }
  set (j := length done) in *.
  destruct Hloop as (Hlen & Hsc & Hq & Hu & Hr & Hdone & Hrest).
  assert (Hj : ps !! j = Some p).
  { rewrite Hps. subst j. by rewrite lookup_app_r, Nat.sub_diag by lia. }
  assert (Hpr : p < r).
  { destruct (Hpending p) as [v Hv]; [by eapply list_elem_of_lookup_2|].
    by eapply lookup_lt_Some. }
  cbn [fmap list_fmap for_of].
  unfold getScope at 1. rewrite bind_eq, bind_eq, Hsc.
  rewrite bind_eq. cbn [putScope results count fulfilledCount].
  cbn [MyPromise_resolve]. rewrite bind_eq. cbn [ret invoke_then].
  rewrite !bind_eq.
  set (w1 := with_scopes _ w).
  assert (Hp1 : heap w1 !! p = Some (mkPromise PENDING (v0 p) []))
    by (subst w1; wsimpl; by apply (Hrest j)).
  rewrite (then_pending host p _ _ _ _ w1 Hp1). cbn [ret].
  set (w2 := with_registered _ _).
  assert (Hh2 : heap w2
                = <[p := mkPromise PENDING (v0 p) (all_handlers r c j)]>
                    (heap w ++ [fresh_promise])).
  { subst w2 w1. wsimpl. unfold all_handlers. by rewrite Hlen. }
  destruct (IH (done ++ [p]) w2) as (w' & Hfor & Hloop').
  { by rewrite <- app_assoc. }
  { rewrite length_app. cbn [length]. fold j.
    replace (j + 1) with (S j) by lia.
    split; [rewrite Hh2, length_insert, length_app; cbn; lia|].
    split.
    { subst w2 w1. wsimpl. apply list_lookup_insert_eq.
      by eapply lookup_lt_Some. }
    split; [by subst w2 w1; wsimpl|]. split; [by subst w2 w1; wsimpl|].
    split.
    { rewrite Hh2, list_lookup_insert_ne by lia. by apply lookup_heap_old. }
    split.
    - intros i q Hi Hlt. rewrite Hh2.
      destruct (decide (i = j)) as [->|Hne].
      + rewrite Hj in Hi. injection Hi as <-.
        rewrite list_lookup_insert_eq by (rewrite length_app; cbn; lia).
        split; [done|]. rewrite list_lookup_insert_ne by lia.
        replace (r + 1 + j) with (length (heap w)) by lia.
        apply lookup_heap_snoc.
      + assert (Hqp : q <> p) by (intros ->; apply Hne; by eapply NoDup_lookup).
        destruct (Hdone i q Hi ltac:(lia)) as [H1 H2].
        rewrite !list_lookup_insert_ne by done.
        assert (Hqr : q < r).
        { destruct (Hpending q) as [v Hv]; [by eapply list_elem_of_lookup_2|].
          by eapply lookup_lt_Some. }
        rewrite list_lookup_insert_ne by lia.
        split; by apply lookup_heap_old.
    - intros i q Hi Hle. rewrite Hh2.
      assert (Hqp : q <> p) by (intros ->; assert (i = j) by (by eapply NoDup_lookup); lia).
      rewrite list_lookup_insert_ne by done.
      apply lookup_heap_old. apply (Hrest i); [done|lia]. }
  exists w'. split; [|done]. exact Hfor.
Qed.

Lemma input_initial p :
  p ∈ ps -> heap w0 !! p = Some (mkPromise PENDING (v0 p) []).
Proof using Hpending.
  intros Hin. destruct (Hpending p Hin) as [v Hv].
  unfold initial_value. by rewrite Hv.
Qed.

(** [all] returns the new promise [r]; the world then shows the machine
    in its initial state. *)
Lemma all_establishes :
  quiescent w0 ->
  exists w1,
    MyPromise_all host userFn (VPromise <$> ps) w0 = (Normal (VPromise r), w1) /\
    represents fac ps r c w1 (initial_abs w0 ps c).
Proof using Hfac Hnodup Hpending.
  intros Hquiet. apply (queued_quiescent fac) in Hquiet as [Hq0 Hu0].
  unfold MyPromise_all.
  set (wa := with_heap (fun h => h ++ [fresh_promise]) w0).
  set (wb := with_scopes (fun l => l ++ [mkAllScope [] 0 0]) wa).
  destruct (all_loop ps [] wb eq_refl) as (w' & Hfor & Hloop).
  { split; [subst wb wa; wsimpl; rewrite length_app; cbn; lia|].
    split.
    { subst wb wa. wsimpl. by rewrite lookup_app_r, Nat.sub_diag by lia. }
    split; [by subst wb wa; wsimpl|]. split; [by subst wb wa; wsimpl|].
    split; [subst wb wa; wsimpl; apply lookup_heap_snoc|].
    split; [intros i p _ Hlt; cbn in Hlt; lia|].
    intros i p Hi _. subst wb wa. wsimpl. apply lookup_heap_old.
    apply input_initial. by eapply list_elem_of_lookup_2. }
  destruct Hloop as (Hlen & Hsc & Hq & Hu & Hr & Hdone & _).
  assert (Hq' : queued fac w' = []) by (rewrite Hq; subst wb wa; by wsimpl).
  assert (Hu' : unused fac w' = []) by (rewrite Hu; subst wb wa; by wsimpl).
  assert (Hbody : forall out w1,
    (if Nat.eqb (length ps) 0
     then call host userFn (VResolve r) [VArray c];; ret tt
     else ret tt) w' = (Normal out, w1) ->
    try_catch
      (c' <- newScope (mkAllScope [] 0 0);;
       for_of (VPromise <$> ps) (fun promise =>
         s <- getScope c';;
         putScope c' (mkAllScope (results s) (S (count s)) (fulfilledCount s));;
         q <- MyPromise_resolve host userFn promise;;
         invoke_then host userFn q
           (VAllOnFulfilled (VResolve r) c' (count s)) (VReject r);;
         ret tt);;
       s <- getScope c';;
       if Nat.eqb (count s) 0
       then call host userFn (VResolve r) [VArray c'];; ret tt
       else ret tt)
      (fun error => call host userFn (VReject r) [error];; ret tt) wa
    = (Normal out, w1)).
  { intros out w1 Hend. unfold try_catch. unfold newScope at 1.
    rewrite bind_eq. fold wa wb. change (length (scopes wa)) with c.
    rewrite (bind_Normal _ _ _ _ _ Hfor).
    unfold getScope at 1. rewrite bind_eq, Hsc. cbn [count].
    by rewrite Hend. }
  destruct (Nat.eqb_spec (length ps) 0) as [Hz|Hnz].
  - (* no input: the result is fulfilled at once *)
    assert (Hnil : ps = []) by (by apply nil_length_inv).
    eexists. split.
    { erewrite bind_Normal; [reflexivity|]. apply constructor_Normal.
      fold wa. apply Hbody.
      erewrite bind_Normal; [reflexivity|].
      eapply (call_resolve_defers host userFn fac Hfac). exact Hr. }
    rewrite Hz in Hsc. rewrite Hnil. unfold initial_abs, represents.
    abs_simpl. cbn [map arg0 fmap list_fmap length fst snd].
    split; [by wsimpl|]. split; [by wsimpl; rewrite Hq'|].
    split; [by wsimpl|]. split.
    { wsimpl. apply list_lookup_insert_eq. by eapply lookup_lt_Some. }
    intros i p Hi. done.
  - exists w'. split.
    { erewrite bind_Normal; [reflexivity|]. apply constructor_Normal.
      fold wa. by apply Hbody. }
    split; [done|]. split; [done|]. unfold initial_abs. abs_simpl.
    split; [done|]. split; [by destruct ps|].
    intros i p Hi.
    exists (mkSlot PENDING (v0 p) 0). rewrite list_lookup_fmap, Hi.
    split; [done|]. cbn [slot_state slot_value].
    destruct (Hdone i p Hi) as [H1 H2]; [by eapply lookup_lt_Some|].
    split; [done|]. by eexists _, _.
Qed.

End Establish.

Lemma first_rejection_fold ps c i e ops : forall a,
  consistent c (length ps) a -> first_rejection i e a ->
  first_rejection i e (fold_left (fun a op => astep ps c op a) ops a).
Proof.
  induction ops as [|op ops IH]; intros a Hc Hf; [done|].
  cbn [fold_left]. apply IH; [by apply consistent_astep|].
  by apply first_rejection_astep.
Qed.

Lemma run_ops_app host userFn ops1 ops2 w :
  run_ops host userFn (ops1 ++ ops2) w
  = run_ops host userFn ops2 (run_ops host userFn ops1 w).
Proof. apply fold_left_app. Qed.

(** [all] of no input is fulfilled when it returns, on every host: no
    callback is needed. *)
Lemma all_of_nothing host userFn w :
  exists w',
    MyPromise_all host userFn [] w = (Normal (VPromise (length (heap w))), w') /\
    heap w' !! length (heap w)
    = Some (mkPromise FULFILLED (VArray (length (scopes w))) []) /\
    results <$> scopes w' !! length (scopes w) = Some [] /\
    nextTickQueue w' = nextTickQueue w /\ timerQueue w' = timerQueue w.
Proof.
  eexists. split.
  { unfold MyPromise_all. erewrite bind_Normal; [reflexivity|].
    apply constructor_Normal. unfold try_catch. unfold newScope at 1.
    rewrite bind_eq. cbn [for_of]. rewrite bind_eq. cbn [ret].
    unfold getScope at 1. rewrite bind_eq. wsimpl.
    rewrite lookup_app_r, Nat.sub_diag by lia. cbn [lookup list_lookup count Nat.eqb].
    cbn [call]. unfold _resolve, _changeState. rewrite !bind_eq.
    unfold getPromise at 1. wsimpl. rewrite lookup_heap_snoc.
    cbn [_state fresh_promise State_eqb negb]. rewrite bind_eq.
    cbn [putPromise]. unfold _runHandlers, getPromise. rewrite bind_eq. wsimpl.
    rewrite list_lookup_insert_eq by (rewrite length_app; cbn; lia).
    cbn [_state State_eqb _handlers _runHandlers_loop ret]. reflexivity. }
  wsimpl. split.
  { apply list_lookup_insert_eq. rewrite length_app. cbn. lia. }
  split; [by rewrite lookup_app_r, Nat.sub_diag by lia|]. done.
Qed.

(** Two runs of the section on testable properties, on Node. *)

(** [all([P1, P2])] where [P2] rejects with "err" and [P1] never settles:
    the result, the promise 2, is rejected with "err". *)
Example all_rejects_while_an_input_is_pending :
  let w := run_ops node sampleFn
             [OpNew [] None; OpNew [] None; OpAll [VPromise 0; VPromise 1];
              OpCall (VReject 1) [VStr "err"]; OpTick; OpTick] empty_world in
  quiescent w /\
  heap w !! 0 = Some (mkPromise PENDING VUndefined
                        (all_handlers 2 0 0)) /\
  heap w !! 2 = Some (mkPromise REJECTED (VStr "err") []).
Proof. vm_compute. by repeat split. Qed.

(** [all] of a value that is no promise and of a promise fulfilled
    already: both are normalized through [resolve], and the result, the
    promise 1, fulfills with the values in the order of the inputs. *)
Example all_of_a_value_and_a_settled_promise :
  let w := run_ops node sampleFn
             [OpResolve (VStr "b"); OpAll [VNum 1; VPromise 0];
              OpTick; OpTick; OpTick; OpTick] empty_world in
  quiescent w /\
  heap w !! 1 = Some (mkPromise FULFILLED (VArray 0) []) /\
  results <$> scopes w !! 0 = Some [Some (VNum 1); Some (VStr "b")].
Proof. vm_compute. by repeat split. Qed.

(** * [all] on any inputs *)

Lemma classic_promise (data : Value) :
  (exists p, data = VPromise p) \/ (forall p, data <> VPromise p).
Proof. destruct data; try (by right); left; by eexists. Qed.

Lemma insert_last (h : list Promise) (o o' : Promise) :
  <[length h := o']> (h ++ [o]) = h ++ [o'].
Proof. by rewrite insert_app_r_alt, Nat.sub_diag by lia. Qed.

(** *** The places of a promise *)

Lemma places_below_S j p qs :
  places_below (S j) p qs
  = places_below j p qs ++ (if decide (qs !! j = Some p) then [j] else []).
Proof.
  unfold places_below. by rewrite seq_S, filter_app.
Qed.

Lemma elem_of_places_below i j p qs :
  i ∈ places_below j p qs <-> i < j /\ qs !! i = Some p.
Proof.
  unfold places_below. rewrite list_elem_of_filter, elem_of_seq.
  split; intros [H1 H2]; split; try done; lia.
Qed.

Lemma elem_of_places i p qs : i ∈ places p qs <-> qs !! i = Some p.
Proof.
  unfold places. rewrite elem_of_places_below. split; [by intros [_ H]|].
  intros H. split; [by eapply lookup_lt_Some|done].
Qed.

Lemma NoDup_places_below j p qs : NoDup (places_below j p qs).
Proof. apply NoDup_filter, NoDup_seq. Qed.

Lemma input_tasks_places qs ds r c p ks :
  (forall i, i ∈ ks -> qs !! i = Some p) ->
  map (mkTask p)
      (flat_map (fun i => input_handlers r c i (default 0 (ds !! i))) ks)
  = map (input_task qs ds r c) (callbacks ks).
Proof.
  induction ks as [|k ks IH]; intros Hks; [done|].
  cbn [flat_map callbacks]. rewrite !map_app. fold (callbacks ks).
  rewrite IH by (intros i Hi; apply Hks; by right).
  f_equal. unfold input_task. cbn. by rewrite (Hks k) by left.
Qed.

(** *** The settlement of the places of a promise *)

Lemma settle_places_pending ks st v : forall a,
  NoDup ks ->
  (forall i, i ∈ ks -> exists v0 ph, slots a !! i = Some (mkSlot PENDING v0 ph)) ->
  aqueue (settle_places ks st v a) = aqueue a ++ callbacks ks /\
  acount (settle_places ks st v a) = acount a /\
  aresults (settle_places ks st v a) = aresults a /\
  aout (settle_places ks st v a) = aout a /\
  length (slots (settle_places ks st v a)) = length (slots a) /\
  (forall i, i ∈ ks -> slots (settle_places ks st v a) !! i = Some (mkSlot st v 1)) /\
  (forall i, i ∉ ks -> slots (settle_places ks st v a) !! i = slots a !! i).
Proof.
  induction ks as [|k ks IH]; intros a Hnd Hpend;
    cbn [settle_places fold_left callbacks flat_map].
  { rewrite app_nil_r. repeat split; try done.
    intros i Hi. by apply elem_of_nil in Hi. }
  apply NoDup_cons in Hnd as [Hk Hnd].
  destruct (Hpend k) as (v0 & ph & Hs); [by left|].
  assert (Ha1 : settle_slot k st v a
                = mkAbs (<[k := mkSlot st v 1]> (slots a))
                        (aqueue a ++ [(k, false); (k, true)])
                        (acount a) (aresults a) (aout a))
    by (unfold settle_slot; by rewrite Hs).
  rewrite Ha1. set (a1 := mkAbs _ _ _ _ _).
  destruct (IH a1 Hnd) as (Hq & Hc & Hr & Ho & Hl & Hin & Hout).
  { intros i Hi. subst a1. abs_simpl.
    rewrite list_lookup_insert_ne by (by intros ->).
    apply Hpend. by right. }
  fold (settle_places ks st v a1). fold (callbacks ks).
  rewrite Hq, Hc, Hr, Ho, Hl. subst a1. abs_simpl.
  split; [by rewrite <- app_assoc|]. do 3 (split; [done|]).
  split; [by rewrite length_insert|]. split.
  - intros i Hi. apply elem_of_cons in Hi as [->|Hi]; [|by apply Hin].
    rewrite Hout by done. abs_simpl.
    apply list_lookup_insert_eq. by eapply lookup_lt_Some.
  - intros i Hi. apply not_elem_of_cons in Hi as [Hne Hi].
    rewrite Hout by done. abs_simpl. by rewrite list_lookup_insert_ne.
Qed.

Lemma settle_places_settled ks st v : forall a,
  (forall i, i ∈ ks ->
     exists s, slots a !! i = Some s /\ slot_state s <> PENDING) ->
  settle_places ks st v a = a.
Proof.
  induction ks as [|k ks IH]; intros a Hset; [done|].
  cbn [settle_places fold_left].
  destruct (Hset k) as ([[] v0 ph] & Hs & Hne); [by left|done| |];
    (replace (settle_slot k st v a) with a
       by (unfold settle_slot; by rewrite Hs));
    apply IH; intros i Hi; apply Hset; by right.
Qed.

Lemma consistent_settle_places c n ks st v : forall a,
  consistent c n a -> st <> PENDING ->
  consistent c n (settle_places ks st v a).
Proof.
  induction ks as [|k ks IH]; intros a Hc Hst; [done|].
  cbn [settle_places fold_left]. apply IH; [|done].
  by apply consistent_settle.
Qed.

Lemma first_rejection_settle_places c n i e ks st v : forall a,
  consistent c n a -> st <> PENDING -> first_rejection i e a ->
  first_rejection i e (settle_places ks st v a).
Proof.
  induction ks as [|k ks IH]; intros a Hc Hst Hf; [done|].
  cbn [settle_places fold_left]. apply IH; [|done|].
  - by apply consistent_settle.
  - by eapply first_rejection_settle.
Qed.

Lemma consistent_astep_any qs c op a :
  consistent c (length qs) a -> consistent c (length qs) (astep_any qs c op a).
Proof.
  intros Hc. destruct op as [| |f args| | | | | |]; cbn [astep_any]; try done.
  - destruct f; try done; by apply consistent_settle_places.
  - by apply consistent_tick.
Qed.

Lemma first_rejection_astep_any qs c i e op a :
  consistent c (length qs) a -> first_rejection i e a ->
  first_rejection i e (astep_any qs c op a).
Proof.
  intros Hc Hf. destruct op as [| |f args| | | | | |]; cbn [astep_any]; try done.
  - destruct f; try done; by eapply first_rejection_settle_places.
  - by apply first_rejection_tick.
Qed.

Lemma first_rejection_fold_any qs c i e ops : forall a,
  consistent c (length qs) a -> first_rejection i e a ->
  first_rejection i e (fold_left (fun a op => astep_any qs c op a) ops a).
Proof.
  induction ops as [|op ops IH]; intros a Hc Hf; [done|].
  cbn [fold_left]. apply IH; [by apply consistent_astep_any|].
  by apply first_rejection_astep_any.
Qed.

Section SimulationAny.

Variable host : Host.
Variable userFn : nat -> list Value -> Behaviour.
Variable fac : Facility.
Hypothesis Hfac : facility host = Some fac.

Variables qs ds : list ref.
Variables r c : nat.
Hypothesis Hlen : length ds = length qs.
Hypothesis Hnd : NoDup ds.
Hypothesis Hrq : r ∉ qs.
Hypothesis Hrd : r ∉ ds.
Hypothesis Hdq : forall d, d ∈ ds -> d ∉ qs.

Lemma represents_any_settle p st v w a :
  p ∈ qs -> st <> PENDING ->
  represents_any fac qs ds r c w a ->
  represents_any fac qs ds r c (_changeState host p st v w).2
                 (settle_places (places p qs) st v a).
Proof using Hfac Hrq Hdq.
  intros Hp Hst Hrep. pose proof Hrep as (Hu & Hq & Hsc & Hr & Hds & Hqs).
  destruct (Hqs p Hp) as (st0 & v0 & Hh & Hsl).
  assert (Hpr : p <> r) by (by intros ->).
  destruct (decide (st0 = PENDING)) as [->|Hne]; cbn beta iota in Hh.
  - erewrite changeState_defers; [|done..]. cbn [snd].
    destruct (settle_places_pending (places p qs) st v a)
      as (Haq & Hac & Har & Hao & Hal & Hin & Hout).
    { apply NoDup_places_below. }
    { intros i Hi. apply elem_of_places in Hi.
      destruct (Hsl i Hi) as [ph Hs]. by exists v0, ph. }
    unfold represents_any. rewrite Haq, Hac, Har, Hao.
    split; [by wsimpl|]. split.
    { wsimpl. rewrite map_app, Hq. f_equal. apply input_tasks_places.
      intros i Hi. by apply elem_of_places_below in Hi as [_ Hi]. }
    split; [by wsimpl|].
    split; [wsimpl; by rewrite list_lookup_insert_ne|]. split.
    { intros d Hd. wsimpl. rewrite list_lookup_insert_ne; [by apply Hds|].
      intros ->. by apply (Hdq d). }
    intros p' Hp'. wsimpl. destruct (decide (p' = p)) as [->|Hpp].
    + exists st, v. rewrite list_lookup_insert_eq by (by eapply lookup_lt_Some).
      rewrite decide_False by done. split; [done|].
      intros i Hi. exists 1. apply Hin. by apply elem_of_places.
    + destruct (Hqs p' Hp') as (st' & v' & Hh' & Hsl'). exists st', v'.
      rewrite list_lookup_insert_ne by done. split; [done|].
      intros i Hi. destruct (Hsl' i Hi) as [ph Hs]. exists ph.
      rewrite Hout; [done|].
      intros Hin'. apply elem_of_places in Hin'. congruence.
  - erewrite changeState_settled; [|done|done]. cbn [snd].
    rewrite settle_places_settled; [done|].
    intros i Hi. apply elem_of_places in Hi.
    destruct (Hsl i Hi) as [ph Hs]. by exists (mkSlot st0 v0 ph).
Qed.

(** The inputs and the promises of [then] in a heap that differs from
    that of [w] only at the result and at the promise [d] of the input
    [i], when the slot [i] differs only by its phase. *)
Lemma inputs_after_tick_any w a i s p d (heap' : list Promise) :
  qs !! i = Some p -> ds !! i = Some d -> slots a !! i = Some s ->
  (forall d, d ∈ ds ->
     exists tst tv, heap w !! d = Some (mkPromise tst tv [])) ->
  (forall p, p ∈ qs ->
     exists st v,
       heap w !! p
       = Some (mkPromise st v
                 (if decide (st = PENDING)
                  then handlers_below (length qs) qs ds r c p else [])) /\
       forall i, qs !! i = Some p ->
         exists ph, slots a !! i = Some (mkSlot st v ph)) ->
  (forall x, x <> r -> x <> d -> heap' !! x = heap w !! x) ->
  (exists tst tv, heap' !! d = Some (mkPromise tst tv [])) ->
  (forall d, d ∈ ds ->
     exists tst tv, heap' !! d = Some (mkPromise tst tv [])) /\
  (forall p, p ∈ qs ->
     exists st v,
       heap' !! p
       = Some (mkPromise st v
                 (if decide (st = PENDING)
                  then handlers_below (length qs) qs ds r c p else [])) /\
       forall j, qs !! j = Some p ->
         exists ph, <[i := next_phase s]> (slots a) !! j
                    = Some (mkSlot st v ph)).
Proof using Hrq Hrd Hdq.
  intros Hp Hd Hi Hds Hqs Hsame Hd'. split.
  - intros d' Hin. destruct (decide (d' = d)) as [->|Hne]; [done|].
    rewrite Hsame; [by apply Hds|by intros ->|done].
  - intros p' Hin. destruct (Hqs p' Hin) as (st & v & Hh & Hsl).
    exists st, v. split.
    { rewrite Hsame; [done|by intros ->|].
      intros ->. apply (Hdq d); [by eapply list_elem_of_lookup_2|done]. }
    intros j Hj. destruct (Hsl j Hj) as [ph Hs].
    destruct (decide (j = i)) as [->|Hne].
    + rewrite Hi in Hs. injection Hs as ->. exists (S ph).
      rewrite list_lookup_insert_eq by (by eapply lookup_lt_Some). done.
    + exists ph. by rewrite list_lookup_insert_ne.
Qed.

(** The host runs the first callback of the call: it ends normally, and
    the world shows the machine one tick later. *)
Lemma tick_represents_any w a x q :
  represents_any fac qs ds r c w a -> consistent c (length qs) a ->
  aqueue a = x :: q ->
  exists w', tick host userFn w = Some (Normal tt, w') /\
             represents_any fac qs ds r c w' (atick c (length qs) a).
Proof using Hfac Hlen Hrq Hrd Hdq.
  intros (Hu & Hq & Hsc & Hr & Hds & Hqs) Hc Haq. unfold atick.
  destruct x as [i b]. rewrite Haq in Hq |- *.
  destruct (queue_head c _ a i b q Hc Haq) as (s & Hi & Hph & Hnp & Hin & _).
  rewrite Hi. clear Hc Haq.
  destruct (lookup_lt_is_Some_2 qs i Hin) as [p Hp].
  destruct (lookup_lt_is_Some_2 ds i) as [d Hd]; [lia|].
  assert (Hpin : p ∈ qs) by (by eapply list_elem_of_lookup_2).
  assert (Hdin : d ∈ ds) by (by eapply list_elem_of_lookup_2).
  destruct (Hqs p Hpin) as (st & v & Hhp & Hsl).
  destruct (Hsl i Hp) as [ph Hs']. rewrite Hi in Hs'. injection Hs' as ->.
  cbn [slot_state slot_value slot_phase] in *.
  rewrite decide_False in Hhp by done.
  destruct (Hds d Hdin) as (tst & tv & Ht).
  assert (Hpr : p <> r) by (by intros ->).
  assert (Hdr : d <> r) by (by intros ->).
  assert (Hdp : d <> p) by (intros ->; by apply (Hdq p)).
  pose proof (inputs_after_tick_any w a i (mkSlot st v ph) p d) as Hafter.
  specialize (Hafter) with (1 := Hp) (2 := Hd) (3 := Hi) (4 := Hds) (5 := Hqs).
  destruct a as [sl aq k res [ost ov]]. abs_simpl. cbn [fst snd] in Hr.
  cbn [map] in Hq.
  rewrite (tick_defers host userFn fac _ _ w Hu Hq).
  set (w0 := with_invoked _ (dequeue fac w)).
  assert (Hh0 : heap w0 = heap w) by (subst w0; by wsimpl).
  assert (Hs0 : scopes w0 = scopes w) by (subst w0; by wsimpl).
  assert (Hq0 : queued fac w0 = map (input_task qs ds r c) q)
    by (subst w0; wsimpl; by rewrite Hq).
  assert (Hu0 : unused fac w0 = []) by (subst w0; by wsimpl).
  clearbody w0. unfold input_task at 1. cbn [fst snd]. rewrite Hp, Hd.
  cbn [default from_option id]. unfold represents_any.
  destruct b.
  - (* the callback for rejection *)
    destruct (decide (st = REJECTED)) as [Hrej|Hrej].
    + erewrite runTask_function; [|by rewrite Hh0|by rewrite Hrej|done].
      unfold try_catch. cbn [executor _value resolve reject].
      erewrite bind_Normal;
        [|eapply (call_reject_no_handlers host userFn fac Hfac);
          by rewrite Hh0].
      cbn [isPromise truthy andb].
      erewrite bind_Normal.
      2: { eapply (call_resolve_no_handlers host userFn fac Hfac). wsimpl.
           rewrite list_lookup_insert_ne by done. by rewrite Hh0. }
      cbn [ret snd arg0]. abs_simpl. eexists. split; [done|].
      split; [by wsimpl|]. split; [by wsimpl|].
      split; [by wsimpl; rewrite Hs0|]. split.
      { wsimpl. rewrite list_lookup_insert_ne by done.
        by rewrite list_lookup_insert_eq
          by (rewrite Hh0; by eapply lookup_lt_Some). }
      wsimpl. apply Hafter.
      * intros x Hx1 Hx2. rewrite !list_lookup_insert_ne by done.
        by rewrite Hh0.
      * rewrite list_lookup_insert_eq; [by eexists _, _|].
        rewrite length_insert, Hh0. by eapply lookup_lt_Some.
    + erewrite runTask_mismatch; [|by rewrite Hh0|by cbn; congruence].
      cbn [snd]. abs_simpl. eexists. split; [done|].
      split; [done|]. split; [done|]. split; [by rewrite Hs0|].
      split; [by rewrite Hh0|].
      rewrite Hh0. apply Hafter; [done|by eexists _, _].
  - (* the callback for fulfillment *)
    destruct (decide (st = FULFILLED)) as [Hful|Hful].
    + erewrite runTask_function; [|by rewrite Hh0|by rewrite Hful|done].
      unfold try_catch. cbn [executor _value resolve reject].
      erewrite bind_Normal.
      2: { eapply (call_all_onFulfilled host userFn fac Hfac);
             [by rewrite Hs0|by rewrite Hh0]. }
      cbn [isPromise truthy andb].
      erewrite bind_Normal.
      2: { eapply (call_resolve_no_handlers host userFn fac Hfac). wsimpl.
           rewrite list_lookup_insert_ne by done. by rewrite Hh0. }
      cbn [ret snd arg0]. abs_simpl. eexists. split; [done|].
      split; [by wsimpl|]. split; [by wsimpl|]. split.
      { wsimpl. rewrite Hs0.
        apply list_lookup_insert_eq. by eapply lookup_lt_Some. }
      split.
      { wsimpl. rewrite list_lookup_insert_ne by done.
        rewrite list_lookup_insert_eq by (rewrite Hh0; by eapply lookup_lt_Some).
        by destruct (Nat.eqb _ _). }
      wsimpl. apply Hafter.
      * intros x Hx1 Hx2. rewrite !list_lookup_insert_ne by done.
        by rewrite Hh0.
      * rewrite list_lookup_insert_eq; [by eexists _, _|].
        rewrite length_insert, Hh0. by eapply lookup_lt_Some.
    + erewrite runTask_mismatch; [|by rewrite Hh0|by cbn; congruence].
      cbn [snd]. abs_simpl. eexists. split; [done|].
      split; [done|]. split; [done|]. split; [by rewrite Hs0|].
      split; [by rewrite Hh0|].
      rewrite Hh0. apply Hafter; [done|by eexists _, _].
Qed.

Lemma represents_any_tick w a :
  represents_any fac qs ds r c w a -> consistent c (length qs) a ->
  represents_any fac qs ds r c (perform host userFn OpTick w)
                 (atick c (length qs) a).
Proof using Hfac Hlen Hrq Hrd Hdq.
  intros Hrep Hc. cbn [perform].
  destruct (aqueue a) as [|x q] eqn:Haq.
  - destruct Hrep as (Hu & Hq & Hrest). rewrite Haq in Hq.
    assert (Hnone : tick host userFn w = None).
    { unfold tick. clear Hfac. destruct fac; cbn in Hq, Hu; by rewrite Hq, Hu. }
    rewrite Hnone. unfold atick. rewrite Haq. split; [done|].
    split; [by rewrite Haq|done].
  - destruct (tick_represents_any w a x q Hrep Hc Haq) as (w' & Ht & Hrep').
    by rewrite Ht.
Qed.

Lemma represents_any_perform op w a :
  input_event qs op ->
  represents_any fac qs ds r c w a -> consistent c (length qs) a ->
  represents_any fac qs ds r c (perform host userFn op w)
                 (astep_any qs c op a).
Proof using Hfac Hlen Hrq Hrd Hdq.
  intros Hev Hrep Hc.
  destruct op as [| |f args| | | | | |]; cbn [input_event] in Hev; try done.
  - destruct f; try done; cbn [perform astep_any call];
      unfold _resolve, _reject; rewrite snd_bind_ret;
      by apply represents_any_settle.
  - by apply represents_any_tick.
Qed.

Lemma represents_any_run_ops ops : forall w a,
  Forall (input_event qs) ops ->
  represents_any fac qs ds r c w a -> consistent c (length qs) a ->
  represents_any fac qs ds r c (run_ops host userFn ops w)
                 (fold_left (fun a op => astep_any qs c op a) ops a) /\
  consistent c (length qs)
             (fold_left (fun a op => astep_any qs c op a) ops a).
Proof using Hfac Hlen Hrq Hrd Hdq.
  induction ops as [|op ops IH]; intros w a Hev Hrep Hc; [done|].
  apply Forall_cons in Hev as [Hop Hev]. cbn [run_ops fold_left].
  apply IH; [done| |by apply consistent_astep_any].
  by apply represents_any_perform.
Qed.

(** The host can always finish the callbacks of the call. *)
Lemma represents_any_drain : forall n w a,
  represents_any fac qs ds r c w a -> consistent c (length qs) a ->
  length (aqueue a) = n ->
  exists w', ticks host userFn n w = Some w' /\ quiescent w' /\
    w' = run_ops host userFn (replicate n OpTick) w.
Proof using Hfac Hlen Hrq Hrd Hdq.
  induction n as [|n IH]; intros w a Hrep Hc Hlen'.
  - exists w. split; [done|]. split; [|done].
    destruct Hrep as (Hu & Hq & _). destruct (aqueue a); [|done].
    by apply (quiescent_queued fac).
  - destruct (aqueue a) as [|x q] eqn:Haq; [done|].
    destruct (tick_represents_any w a x q Hrep Hc Haq) as (w1 & Ht & Hrep1).
    destruct (IH w1 (atick c (length qs) a) Hrep1 (consistent_tick _ _ _ Hc))
      as (w' & Hticks & Hquiet & Hrun).
    { unfold atick. rewrite Haq. destruct x as [i b].
      cbn in Hlen'. destruct (slots a !! i); [|by cbn; lia].
      destruct b; [by cbn; lia|]. case_decide; cbn; lia. }
    exists w'. cbn [ticks]. rewrite Ht. split; [done|]. split; [done|].
    cbn [replicate run_ops fold_left perform]. by rewrite Ht.
Qed.

End SimulationAny.


Section Normalize.

Variable host : Host.
Variable userFn : nat -> list Value -> Behaviour.

(** [MyPromise.resolve] on what is no instance of MyPromise. *)
Lemma resolve_new data :
  (forall p, data <> VPromise p) ->
  MyPromise_resolve host userFn data
  = (p <- constructor host (fun resolve reject =>
            if isPromise data then
              invoke_then host userFn data resolve reject;; ret tt
            else
              call host userFn resolve [data];; ret tt);;
     ret (VPromise p)).
Proof. intros Hdata. destruct data; try done. by destruct (Hdata p). Qed.

(** A value that is no thenable gives a new promise fulfilled with it. *)
Lemma resolve_plain data w :
  isPromise data = false ->
  MyPromise_resolve host userFn data w
  = (Normal (VPromise (length (heap w))),
     with_heap (fun h => h ++ [mkPromise FULFILLED data []]) w).
Proof.
  intros Hdata. rewrite resolve_new by (by intros p ->).
  rewrite Hdata, bind_eq.
  set (wa := with_heap (fun h => h ++ [fresh_promise]) w).
  assert (Hthis : heap wa !! length (heap w) = Some fresh_promise)
    by (subst wa; wsimpl; apply lookup_heap_snoc).
  erewrite constructor_Normal.
  2:{ fold wa. rewrite bind_eq.
      by rewrite (capability_unwatched host userFn false _ VUndefined [data]
                    wa Hthis). }
  cbn [ret arg0]. f_equal. subst wa. rewrite with_heap_twice.
  destruct w as [h0 ? ? ? ? ?]. unfold with_heap. cbn [heap].
  by rewrite insert_last.
Qed.

(** A plain object whose [then] is a user function gives a new promise,
    settled as the calls of that function say. *)
Lemma resolve_thenable fields g settles c w :
  field "then" fields = VFunction g ->
  userFn g [VResolve (length (heap w)); VReject (length (heap w))]
  = mkBehaviour (calls_on (length (heap w)) settles) c ->
  MyPromise_resolve host userFn (VObject fields) w
  = (Normal (VPromise (length (heap w))),
     with_heap (fun h => h ++ [constructed settles (error_of c)]) w).
Proof.
  intros Hthen Hg. rewrite resolve_new by done.
  assert (Hth : isPromise (VObject fields) = true).
  { unfold isPromise. cbn [truthy typeof typeof_then JSType_eqb andb].
    by rewrite Hthen. }
  rewrite Hth, bind_eq.
  set (wa := with_heap (fun h => h ++ [fresh_promise]) w).
  assert (Hthis : heap wa !! length (heap w) = Some fresh_promise)
    by (subst wa; wsimpl; apply lookup_heap_snoc).
  unfold constructor. rewrite bind_eq. cbn [newPromise]. fold fresh_promise wa.
  rewrite bind_eq.
  rewrite (thenable_settles host userFn fields g settles c _ wa Hthen Hg Hthis).
  cbn [ret]. f_equal. subst wa. rewrite with_heap_twice.
  destruct w as [h0 ? ? ? ? ?]. unfold with_heap. cbn [heap].
  by rewrite insert_last.
Qed.

(** The promise that [MyPromise.resolve] makes of an input that is no
    instance of MyPromise. *)
Lemma resolve_input w0 x sv w :
  (forall p, x <> VPromise p) -> input_state userFn w0 x sv ->
  MyPromise_resolve host userFn x w
  = (Normal (VPromise (length (heap w))),
     with_heap (fun h => h ++ [mkPromise sv.1 sv.2 []]) w).
Proof.
  intros Hx Hsv. unfold input_state in Hsv.
  destruct (isPromise x) eqn:Hth.
  - assert (Hobj : exists fields g settles c,
              x = VObject fields /\ field "then" fields = VFunction g /\
              (forall d, userFn g [VResolve d; VReject d]
                         = mkBehaviour (calls_on d settles) c) /\
              sv = (_state (constructed settles (error_of c)),
                    _value (constructed settles (error_of c)))).
    { destruct x; try done; by destruct (Hx p). }
    destruct Hobj as (fields & g & settles & c & -> & Hthen & Hg & ->).
    rewrite (resolve_thenable fields g settles c w Hthen (Hg _)).
    do 3 f_equal. cbn [fst snd].
    by destruct settles as [|[[] v] rest], c.
  - assert (Hval : sv = (FULFILLED, x)).
    { destruct x; try done; by destruct (Hx p). }
    subst sv. by apply resolve_plain.
Qed.

End Normalize.

(** The places of the promises of one call of [all]. *)

Lemma step_of_gt next x : next < step_of next x.
Proof. destruct x; cbn; lia. Qed.

Lemma place_of_instance next p :
  place_of next (VPromise p) = (p, next) /\
  step_of next (VPromise p) = S next.
Proof. done. Qed.

Lemma place_of_other next x :
  (forall p, x <> VPromise p) ->
  place_of next x = (next, S next) /\ step_of next x = S (S next).
Proof. intros Hx. destruct x; try done. by destruct (Hx p). Qed.

Lemma layout_end_app next xs ys :
  layout_end next (xs ++ ys) = layout_end (layout_end next xs) ys.
Proof.
  revert next. induction xs as [|x xs IH]; intros next; [done|].
  cbn [app layout_end]. apply IH.
Qed.

Lemma layout_app next xs ys :
  layout next (xs ++ ys)
  = layout next xs ++ layout (layout_end next xs) ys.
Proof.
  revert next. induction xs as [|x xs IH]; intros next; [done|].
  cbn [app layout layout_end]. f_equal. apply IH.
Qed.

Lemma length_layout next xs : length (layout next xs) = length xs.
Proof.
  revert next. induction xs as [|x xs IH]; intros next; [done|].
  cbn [layout length]. f_equal. apply IH.
Qed.

Lemma layout_end_ge next xs : next <= layout_end next xs.
Proof.
  revert next. induction xs as [|x xs IH]; intros next; [done|].
  cbn [layout_end]. pose proof (step_of_gt next x). pose proof (IH (step_of next x)).
  lia.
Qed.

Lemma layout_lookup next xs j x :
  xs !! j = Some x ->
  layout next xs !! j = Some (place_of (layout_end next (take j xs)) x).
Proof.
  intros Hx. pose proof (lookup_lt_Some _ _ _ Hx) as Hj.
  rewrite <- (take_drop_middle xs j x Hx) at 1.
  rewrite layout_app, lookup_app_r; rewrite length_layout, length_take; [|lia].
  replace (j - j `min` length xs) with 0 by lia. done.
Qed.

Lemma layout_end_take_S next xs j x :
  xs !! j = Some x ->
  layout_end next (take (S j) xs) = step_of (layout_end next (take j xs)) x.
Proof.
  intros Hx. erewrite take_S_r by done. by rewrite layout_end_app.
Qed.

Lemma layout_end_take_le next xs i j :
  i <= j -> layout_end next (take i xs) <= layout_end next (take j xs).
Proof.
  intros Hij. replace j with (i + (j - i)) by lia.
  rewrite <- take_take_drop, layout_end_app. apply layout_end_ge.
Qed.

Lemma layout_end_take_all next xs :
  layout_end next (take (length xs) xs) = layout_end next xs.
Proof. by rewrite firstn_all. Qed.

Section Places.

Variable userFn : nat -> list Value -> Behaviour.
Variable w0 : World.
Variable xs : list Value.
Variable svs : list (State * Value).
Hypothesis Hin : Forall2 (input_state userFn w0) xs svs.

Local Abbreviation r := (length (heap w0)).
Local Abbreviation qs := ((layout (S r) xs).*1).
Local Abbreviation ds := ((layout (S r) xs).*2).
Local Abbreviation pos j := (layout_end (S r) (take j xs)).

Lemma qs_lookup j x :
  xs !! j = Some x -> qs !! j = Some (place_of (pos j) x).1.
Proof. intros Hx. by rewrite list_lookup_fmap, (layout_lookup _ _ _ _ Hx). Qed.

Lemma derived_lookup j x :
  xs !! j = Some x -> ds !! j = Some (place_of (pos j) x).2.
Proof. intros Hx. by rewrite list_lookup_fmap, (layout_lookup _ _ _ _ Hx). Qed.

Lemma length_qs : length qs = length xs.
Proof. by rewrite length_fmap, length_layout. Qed.

Lemma length_ds : length ds = length xs.
Proof. by rewrite length_fmap, length_layout. Qed.

Lemma pos_above j : S r <= pos j.
Proof. apply layout_end_ge. Qed.

Lemma instance_below j p : xs !! j = Some (VPromise p) -> p < r.
Proof using Hin.
  intros Hx. destruct (Forall2_lookup_l _ _ _ _ _ Hin Hx) as (sv & _ & Hst).
  cbn in Hst. by eapply lookup_lt_Some.
Qed.

(** The two promises of the input number [i]. *)
Lemma places_of_input i q d :
  qs !! i = Some q -> ds !! i = Some d ->
  (q < r /\ d = pos i /\ pos (S i) = S (pos i)) \/
  (q = pos i /\ d = S (pos i) /\ pos (S i) = S (S (pos i))).
Proof using Hin.
  intros Hq Hd.
  destruct (lookup_lt_is_Some_2 xs i) as [x Hx].
  { rewrite <- length_qs. by eapply lookup_lt_Some. }
  rewrite (qs_lookup _ _ Hx) in Hq. rewrite (derived_lookup _ _ Hx) in Hd.
  rewrite (layout_end_take_S _ _ _ _ Hx).
  destruct (classic_promise x) as [[p ->]|Hne].
  - left. cbn in Hq, Hd. injection Hq as <-. injection Hd as <-.
    split; [by eapply instance_below|done].
  - right. destruct (place_of_other (pos i) x Hne) as [Hp ->].
    rewrite Hp in Hq, Hd. cbn in Hq, Hd. injection Hq as <-. by injection Hd as <-.
Qed.

Lemma qs_bounds i j q :
  i < j -> qs !! i = Some q -> q <> r /\ q < pos j.
Proof using Hin.
  intros Hij Hq.
  destruct (lookup_lt_is_Some_2 ds i) as [d Hd].
  { rewrite length_ds, <- length_qs. by eapply lookup_lt_Some. }
  pose proof (pos_above i). pose proof (pos_above j).
  pose proof (layout_end_take_le (S r) xs (S i) j ltac:(lia)).
  destruct (places_of_input _ _ _ Hq Hd) as [(? & ? & ?)|(? & ? & ?)]; lia.
Qed.

Lemma ds_bounds i j d :
  i < j -> ds !! i = Some d -> S r <= d < pos j.
Proof using Hin.
  intros Hij Hd.
  destruct (lookup_lt_is_Some_2 qs i) as [q Hq].
  { rewrite length_qs, <- length_ds. by eapply lookup_lt_Some. }
  pose proof (pos_above i).
  pose proof (layout_end_take_le (S r) xs (S i) j ltac:(lia)).
  destruct (places_of_input _ _ _ Hq Hd) as [(? & ? & ?)|(? & ? & ?)]; lia.
Qed.

Lemma derived_above i d : ds !! i = Some d -> pos i <= d.
Proof using Hin.
  intros Hd.
  destruct (lookup_lt_is_Some_2 qs i) as [q Hq].
  { rewrite length_qs, <- length_ds. by eapply lookup_lt_Some. }
  destruct (places_of_input _ _ _ Hq Hd) as [(? & ? & ?)|(? & ? & ?)]; lia.
Qed.

Lemma result_not_input : r ∉ qs.
Proof using Hin.
  intros Hr. apply list_elem_of_lookup_1 in Hr as [i Hi].
  by destruct (qs_bounds i (S i) r ltac:(lia) Hi).
Qed.

Lemma result_not_derived : r ∉ ds.
Proof using Hin.
  intros Hr. apply list_elem_of_lookup_1 in Hr as [i Hi].
  pose proof (ds_bounds i (S i) r ltac:(lia) Hi). lia.
Qed.

Lemma derived_not_input d : d ∈ ds -> d ∉ qs.
Proof using Hin.
  intros Hd Hq. apply list_elem_of_lookup_1 in Hd as [i Hi].
  apply list_elem_of_lookup_1 in Hq as [k Hk].
  destruct (lookup_lt_is_Some_2 qs i) as [q Hq].
  { rewrite length_qs, <- length_ds. by eapply lookup_lt_Some. }
  destruct (lookup_lt_is_Some_2 ds k) as [d' Hd'].
  { rewrite length_ds, <- length_qs. by eapply lookup_lt_Some. }
  pose proof (pos_above i). pose proof (pos_above k).
  destruct (places_of_input _ _ _ Hq Hi) as [(? & ? & ?)|(? & ? & ?)];
    destruct (places_of_input _ _ _ Hk Hd') as [(? & ? & ?)|(? & ? & ?)];
    try lia.
  - destruct (decide (i < k)) as [Hlt|Hge].
    + pose proof (layout_end_take_le (S r) xs (S i) k ltac:(lia)). lia.
    + destruct (decide (i = k)) as [->|Hne]; [lia|].
      pose proof (layout_end_take_le (S r) xs (S k) i ltac:(lia)). lia.
  - destruct (decide (i < k)) as [Hlt|Hge].
    + pose proof (layout_end_take_le (S r) xs (S i) k ltac:(lia)). lia.
    + destruct (decide (i = k)) as [->|Hne]; [lia|].
      pose proof (layout_end_take_le (S r) xs (S k) i ltac:(lia)). lia.
Qed.

Lemma derived_NoDup : NoDup ds.
Proof using Hin.
  apply NoDup_alt. intros i k d Hi Hk.
  destruct (decide (i = k)) as [|Hne]; [done|exfalso].
  pose proof (derived_above _ _ Hi). pose proof (derived_above _ _ Hk).
  destruct (decide (i < k)).
  - pose proof (ds_bounds i k d ltac:(lia) Hi). lia.
  - pose proof (ds_bounds k i d ltac:(lia) Hk). lia.
Qed.

End Places.

Lemma handlers_below_S j qs ds r c p :
  handlers_below (S j) qs ds r c p
  = handlers_below j qs ds r c p
    ++ (if decide (qs !! j = Some p)
        then input_handlers r c j (default 0 (ds !! j)) else []).
Proof.
  unfold handlers_below. rewrite places_below_S, flat_map_app.
  destruct (decide (qs !! j = Some p)); [|done]. cbn [flat_map]. by rewrite app_nil_r.
Qed.

Lemma handlers_below_none j qs ds r c p :
  (forall i, i < j -> qs !! i <> Some p) -> handlers_below j qs ds r c p = [].
Proof.
  intros Hno. unfold handlers_below.
  replace (places_below j p qs) with (@nil nat); [done|].
  symmetry. apply elem_of_nil_inv. intros i Hi.
  apply elem_of_places_below in Hi as [Hlt Hi]. by apply (Hno i).
Qed.

Lemma settle_slot_untouched i st v v0 a :
  slots a !! i = Some (mkSlot PENDING v0 0) ->
  settle_slot i st v a
  = mkAbs (<[i := mkSlot st v 1]> (slots a))
          (aqueue a ++ [(i, false); (i, true)])
          (acount a) (aresults a) (aout a).
Proof. intros Hs. unfold settle_slot. by rewrite Hs. Qed.

Section EstablishAny.

Variable host : Host.
Variable userFn : nat -> list Value -> Behaviour.
Variable fac : Facility.
Hypothesis Hfac : facility host = Some fac.

Variable w0 : World.
Variable xs : list Value.
Variable svs : list (State * Value).
Hypothesis Hin : Forall2 (input_state userFn w0) xs svs.

Local Abbreviation r := (length (heap w0)).
Local Abbreviation c := (length (scopes w0)).
Local Abbreviation qs := ((layout (S r) xs).*1).
Local Abbreviation ds := ((layout (S r) xs).*2).
Local Abbreviation pos j := (layout_end (S r) (take j xs)).
Local Abbreviation entered := (all_entered_any fac w0 xs svs).
Local Abbreviation body :=
  (fun promise : Value =>
     s <- getScope c;;
     putScope c (mkAllScope (results s) (S (count s)) (fulfilledCount s));;
     q <- MyPromise_resolve host userFn promise;;
     invoke_then host userFn q
       (VAllOnFulfilled (VResolve r) c (count s)) (VReject r);;
     ret tt).

(** One round of the loop. *)
Lemma all_step_any j x sv w a :
  xs !! j = Some x -> svs !! j = Some sv ->
  entered j w a ->
  exists w',
    body x w = (Normal tt, w') /\
    entered (S j) w'
      (if decide (sv.1 = PENDING) then a else settle_slot j sv.1 sv.2 a).
Proof using Hfac Hin.
  intros Hx Hsv (H1 & H2 & H3 & H4 & H5 & (Hac & Har & Hao & Hal)
                 & H7 & H8 & H9 & H10).
  pose proof (Forall2_lookup_lr _ _ _ _ _ _ Hin Hx Hsv) as Hst.
  pose proof (lookup_lt_Some _ _ _ Hx) as Hj.
  pose proof (qs_lookup w0 xs _ _ Hx) as Hq.
  pose proof (derived_lookup w0 xs _ _ Hx) as Hd.
  pose proof (places_of_input userFn w0 xs svs Hin _ _ _ Hq Hd) as Hpl.
  pose proof (pos_above w0 xs j) as Hpos.
  rewrite <- H1 in Hq, Hd, Hpl, Hpos.
  set (q := (place_of (length (heap w)) x).1) in *.
  set (d := (place_of (length (heap w)) x).2) in *.
  set (ws := with_scopes (fun l => <[c := mkAllScope [] (S j) 0]> l) w).
  assert (Hnorm : exists wn,
    MyPromise_resolve host userFn x ws = (Normal (VPromise q), wn) /\
    length (heap wn) = d /\
    heap wn !! q
    = Some (mkPromise sv.1 sv.2
              (if decide (sv.1 = PENDING)
               then handlers_below j qs ds r c q else [])) /\
    (forall p, p < length (heap w) -> heap wn !! p = heap w !! p) /\
    scopes wn = scopes ws /\ unused fac wn = [] /\
    queued fac wn = queued fac w).
  { destruct (classic_promise x) as [[p ->]|Hne].
    - exists ws. subst q d. cbn [place_of fst snd] in *.
      split; [done|]. split; [by subst ws; wsimpl|].
      split; [|by subst ws; wsimpl].
      subst ws. wsimpl. cbn in Hst.
      destruct (decide (p ∈ take j qs)) as [Hseen|Hnew].
      + apply elem_of_take in Hseen as (i & Hi & Hij).
        destruct (lookup_lt_is_Some_2 svs i) as [sv' Hsv'].
        { apply Forall2_length in Hin. rewrite <- Hin. lia. }
        destruct (lookup_lt_is_Some_2 xs i) as [x' Hx']; [lia|].
        destruct (H8 i p sv' Hij Hi Hsv') as [Hh _].
        (* the same promise has one state in [w0] *)
        pose proof (Forall2_lookup_lr _ _ _ _ _ _ Hin Hx' Hsv') as Hst'.
        pose proof (qs_lookup w0 xs _ _ Hx') as Hq'. rewrite Hi in Hq'.
        destruct (classic_promise x') as [[p' ->]|Hne'].
        * cbn in Hq'. injection Hq' as ->. cbn in Hst'.
          rewrite Hst in Hst'. injection Hst' as E1 E2.
          by rewrite <- E1, <- E2 in Hh.
        * destruct (place_of_other (pos i) x' Hne') as [Hp' _].
          rewrite Hp' in Hq'. cbn in Hq'. injection Hq' as ->.
          pose proof (pos_above w0 xs i). apply lookup_lt_Some in Hst. lia.
      + rewrite H10; [|by eapply lookup_lt_Some|done].
        rewrite Hst. rewrite handlers_below_none; [by destruct (decide _)|].
        intros i Hi Hqi. apply Hnew. apply elem_of_take. by exists i.
    - exists (with_heap (fun h => h ++ [mkPromise sv.1 sv.2 []]) ws).
      destruct (place_of_other (length (heap w)) x Hne) as [Hp _].
      subst q d. rewrite Hp. cbn [fst snd].
      split; [by rewrite (resolve_input host userFn w0 x sv ws Hne Hst)|].
      split; [subst ws; wsimpl; rewrite length_app; cbn; lia|].
      split.
      { subst ws. wsimpl. rewrite lookup_heap_snoc.
        rewrite handlers_below_none; [by destruct (decide _)|].
        intros i Hi Hqi.
        pose proof (qs_bounds userFn w0 xs svs Hin i j _ Hi Hqi).
        rewrite <- H1 in *. lia. }
      split.
      { intros p Hp'. subst ws. wsimpl. by rewrite lookup_app_l. }
      by subst ws; wsimpl. }
  destruct Hnorm as (wn & Hres & Hlen & Hhq & Hold & Hsc & Hu & Hqu).
  assert (Hqd : q < d /\ length (heap w) <= d /\ r < d) by
    (destruct Hpl as [(? & ? & ?)|(? & ? & ?)]; lia).
  set (hs' := if decide (sv.1 = PENDING)
              then handlers_below (S j) qs ds r c q else []).
  set (a' := if decide (sv.1 = PENDING) then a
             else settle_slot j sv.1 sv.2 a).
  assert (Hrun : exists w',
    body x w = (Normal tt, w') /\
    heap w' = <[q := mkPromise sv.1 sv.2 hs']> (heap wn ++ [fresh_promise]) /\
    scopes w' = scopes ws /\ unused fac w' = [] /\
    queued fac w' = map (input_task qs ds r c) (aqueue a')).
  { cbn beta. unfold getScope at 1. rewrite bind_eq, H2.
    rewrite bind_eq. cbn [putScope results count fulfilledCount].
    fold ws. rewrite (bind_Normal _ _ _ _ _ Hres). cbn [invoke_then].
    assert (Hhb : handlers_below (S j) qs ds r c q
                  = handlers_below j qs ds r c q
                    ++ then_handlers d (VAllOnFulfilled (VResolve r) c j)
                                     (VReject r)).
    { rewrite handlers_below_S, Hq, Hd. by rewrite decide_True. }
    subst hs' a'. destruct (decide (sv.1 = PENDING)) as [Hpe|Hse].
    - rewrite Hpe in Hhq.
      rewrite !bind_eq, (then_pending host q _ _ _ _ wn Hhq). cbn [ret].
      rewrite Hlen. eexists. split; [reflexivity|]. wsimpl.
      rewrite Hhb, Hpe. split; [done|]. split; [done|]. split; [done|].
      by rewrite Hqu.
    - rewrite !bind_eq,
        (then_settled host fac Hfac q _ _ _ _ _ wn Hhq Hse). cbn [ret].
      rewrite Hlen. eexists. split; [reflexivity|]. wsimpl.
      split; [done|]. split; [done|]. split; [done|].
      rewrite Hqu, H4.
      pose proof (H9 j sv (le_n _) Hsv) as Hsl.
      rewrite (settle_slot_untouched _ _ _ _ _ Hsl). cbn [aqueue].
      rewrite !map_app. f_equal. cbn [map app then_handlers].
      unfold input_task. cbn [fst snd]. by rewrite Hq, Hd. }
  destruct Hrun as (w' & Hbody & Hh' & Hsc' & Hu' & Hq').
  exists w'. split; [done|].
  assert (Hsl : slots a !! j = Some (mkSlot PENDING sv.2 0))
    by (by apply H9).
  assert (Hm : acount a' = 0 /\ aresults a' = [] /\
               aout a' = (PENDING, VUndefined) /\
               length (slots a') = length xs /\
               (exists ph, slots a' !! j = Some (mkSlot sv.1 sv.2 ph)) /\
               (forall i, i <> j -> slots a' !! i = slots a !! i)).
  { subst a'. destruct (decide (sv.1 = PENDING)) as [Hpe|Hse].
    - repeat (split; [done|]). split; [|done].
      exists 0. rewrite Hsl. f_equal. destruct sv as [s1 s2]. cbn in *. by subst.
    - rewrite (settle_slot_untouched _ _ _ _ _ Hsl). cbn [slots acount aresults aout].
      rewrite length_insert. repeat (split; [done|]).
      split; [exists 1; apply list_lookup_insert_eq; lia|].
      intros i Hi. by rewrite list_lookup_insert_ne. }
  destruct Hm as (Hac' & Har' & Hao' & Hal' & Hsj & Hso).
  assert (Hlen' : length (heap w') = S d).
  { rewrite Hh', length_insert, length_app, Hlen. cbn. lia. }
  assert (HposS : pos (S j) = S d).
  { destruct Hpl as [(? & ? & ?)|(? & ? & ?)]; lia. }
  split; [by rewrite Hlen', HposS|].
  split.
  { rewrite Hsc'. subst ws. wsimpl. apply list_lookup_insert_eq.
    by eapply lookup_lt_Some. }
  split; [done|]. split; [done|].
  assert (Hkeep : forall p, p < length (heap w) -> p <> q ->
            heap w' !! p = heap w !! p).
  { intros p Hp Hpq. rewrite Hh', list_lookup_insert_ne by done.
    rewrite lookup_app_l by lia. by apply Hold. }
  assert (Hrq : r <> q).
  { intros Heq. pose proof (qs_bounds userFn w0 xs svs Hin j (S j) q
                              ltac:(lia)) as Hb.
    destruct (Hb Hq). done. }
  split.
  { rewrite Hkeep; [done|by eapply lookup_lt_Some|done]. }
  split; [done|].
  split.
  { intros i d' Hi Hd'. destruct (decide (i = j)) as [->|Hne].
    - rewrite Hd in Hd'. injection Hd' as <-.
      rewrite Hh', list_lookup_insert_ne by lia.
      rewrite <- Hlen. apply lookup_heap_snoc.
    - pose proof (ds_bounds userFn w0 xs svs Hin i j d' ltac:(lia) Hd') as Hb.
      rewrite <- H1 in Hb.
      rewrite Hkeep; [by apply (H7 i); [lia|]|lia|].
      intros ->. apply (derived_not_input userFn w0 xs svs Hin q).
      + by eapply list_elem_of_lookup_2.
      + by eapply list_elem_of_lookup_2. }
  split.
  { intros i p sv' Hi Hp Hsv'.
    destruct (decide (i = j)) as [->|Hne].
    - rewrite Hq in Hp. injection Hp as <-. rewrite Hsv in Hsv'.
      injection Hsv' as <-. split; [|done].
      rewrite Hh'. apply list_lookup_insert_eq. rewrite length_app, Hlen.
      cbn. lia.
    - destruct (H8 i p sv' ltac:(lia) Hp Hsv') as [Hhp Hsp].
      split; [|by rewrite Hso].
      destruct (decide (p = q)) as [->|Hpq].
      + (* the same promise again *)
        pose proof (qs_bounds userFn w0 xs svs Hin i j q ltac:(lia) Hp) as Hb.
        rewrite <- H1 in Hb.
        rewrite <- Hold, Hhq in Hhp by lia. injection Hhp as E1 E2 E3.
        rewrite Hh', list_lookup_insert_eq by (rewrite length_app, Hlen; cbn; lia).
        subst hs'. by rewrite <- E1, <- E2.
      + pose proof (qs_bounds userFn w0 xs svs Hin i j p ltac:(lia) Hp) as Hb.
        rewrite <- H1 in Hb.
        rewrite Hkeep by (done || lia). rewrite Hhp.
        rewrite handlers_below_S, Hq.
        rewrite (decide_False (P := Some q = Some p)) by congruence.
        by rewrite app_nil_r. }
  split.
  { intros i sv' Hi Hsv'. rewrite Hso by lia. apply H9; [lia|done]. }
  intros p Hp Hnot.
  assert (Hpq : p <> q).
  { intros ->. apply Hnot. apply elem_of_take. exists j. split; [done|lia]. }
  rewrite Hkeep by (done || lia). apply H10; [done|].
  intros Hseen. apply Hnot.
  apply elem_of_take in Hseen as (i & Hi & Hij).
  apply elem_of_take. exists i. split; [done|lia].
Qed.


Lemma all_loop_inputs rest : forall done w a,
  xs = done ++ rest -> entered (length done) w a ->
  exists w',
    for_of rest body w = (Normal tt, w') /\
    entered (length xs) w'
      (enter_any (length done) (drop (length done) svs) a).
Proof using Hfac Hin.
  pose proof (Forall2_length _ _ _ Hin) as Hlen.
  induction rest as [|x rest IH]; intros done w a Hxs Hent.
  { exists w. split; [done|].
    assert (length xs = length done) as -> by (by rewrite Hxs, app_nil_r).
    rewrite drop_ge; [done|]. rewrite <- Hlen, Hxs, app_nil_r. lia. }
  set (j := length done) in *.
  assert (Hx : xs !! j = Some x).
  { rewrite Hxs. subst j. by rewrite lookup_app_r, Nat.sub_diag by lia. }
  destruct (lookup_lt_is_Some_2 svs j) as [sv Hsv].
  { rewrite <- Hlen. by eapply lookup_lt_Some. }
  destruct (all_step_any j x sv w a Hx Hsv Hent) as (w1 & Hbody & Hent1).
  destruct (IH (done ++ [x]) w1
              (if decide (sv.1 = PENDING) then a
               else settle_slot j sv.1 sv.2 a)) as (w' & Hfor & Hent').
  { by rewrite <- app_assoc. }
  { rewrite length_app. cbn [length]. fold j.
    replace (j + 1) with (S j) by lia. exact Hent1. }
  exists w'. split.
  { cbn [for_of]. by rewrite (bind_Normal _ _ _ _ _ Hbody). }
  rewrite (drop_S _ _ _ Hsv). cbn [enter_any].
  rewrite length_app in Hent'. cbn [length] in Hent'. fold j in Hent'.
  by replace (j + 1) with (S j) in Hent' by lia.
Qed.

(** The machine at the head of the loop. *)
Lemma pending_abs_cons vs :
  vs <> [] ->
  pending_abs vs c
  = mkAbs ((fun v => mkSlot PENDING v 0) <$> vs) [] 0 []
          (PENDING, VUndefined).
Proof. by destruct vs. Qed.

(** [all] returns the new promise [r]; the world then shows the machine
    [entry_any]. *)
Lemma all_establishes_inputs :
  quiescent w0 ->
  exists w1,
    MyPromise_all host userFn xs w0 = (Normal (VPromise r), w1) /\
    represents_any fac qs ds r c w1 (entry_any svs c) /\
    Forall2 (fun q sv => exists hs, heap w1 !! q = Some (mkPromise sv.1 sv.2 hs))
            qs svs /\
    (forall p, p < r -> p ∉ qs -> heap w1 !! p = heap w0 !! p).
Proof using Hfac Hin.
  intros Hquiet. apply (queued_quiescent fac) in Hquiet as [Hq0 Hu0].
  pose proof (Forall2_length _ _ _ Hin) as Hlen.
  unfold MyPromise_all.
  set (wa := with_heap (fun h => h ++ [fresh_promise]) w0).
  set (wb := with_scopes (fun l => l ++ [mkAllScope [] 0 0]) wa).
  set (a0 := mkAbs ((fun v => mkSlot PENDING v 0) <$> svs.*2) [] 0 []
                   (PENDING, VUndefined)).
  destruct (all_loop_inputs xs [] wb a0 eq_refl) as (w' & Hfor & Hent).
  { split; [subst wb wa; wsimpl; rewrite length_app, take_0; cbn; lia|].
    split.
    { subst wb wa. wsimpl. by rewrite lookup_app_r, Nat.sub_diag by lia. }
    split; [by subst wb wa; wsimpl|]. split; [by subst wb wa; wsimpl|].
    split; [subst wb wa; wsimpl; apply lookup_heap_snoc|].
    split.
    { subst a0. abs_simpl. repeat (split; [done|]).
      by rewrite !length_fmap. }
    split; [intros i d Hi; cbn in Hi; lia|].
    split; [intros i q sv Hi; cbn in Hi; lia|].
    split.
    { intros i sv _ Hsv. subst a0. abs_simpl.
      by rewrite !list_lookup_fmap, Hsv. }
    intros p Hp _. subst wb wa. wsimpl. by rewrite lookup_app_l. }
  cbn [length] in Hent. rewrite drop_0 in Hent.
  destruct Hent as (H1 & H2 & H3 & H4 & H5 & (Hac & Har & Hao & Hal)
                    & H7 & H8 & H9 & H10).
  assert (Hbody : forall out w1,
    (if Nat.eqb (length xs) 0
     then call host userFn (VResolve r) [VArray c];; ret tt
     else ret tt) w' = (Normal out, w1) ->
    try_catch
      (c' <- newScope (mkAllScope [] 0 0);;
       for_of xs (fun promise =>
         s <- getScope c';;
         putScope c' (mkAllScope (results s) (S (count s)) (fulfilledCount s));;
         q <- MyPromise_resolve host userFn promise;;
         invoke_then host userFn q
           (VAllOnFulfilled (VResolve r) c' (count s)) (VReject r);;
         ret tt);;
       s <- getScope c';;
       if Nat.eqb (count s) 0
       then call host userFn (VResolve r) [VArray c'];; ret tt
       else ret tt)
      (fun error => call host userFn (VReject r) [error];; ret tt) wa
    = (Normal out, w1)).
  { intros out w1 Hend. unfold try_catch. unfold newScope at 1.
    rewrite bind_eq. fold wa wb. change (length (scopes wa)) with c.
    rewrite (bind_Normal _ _ _ _ _ Hfor).
    unfold getScope at 1. rewrite bind_eq, H2. cbn [count].
    by rewrite Hend. }
  destruct (Nat.eqb_spec (length xs) 0) as [Hz|Hnz].
  - (* no input: the result is fulfilled at once *)
    assert (Hnil : xs = []) by (by apply nil_length_inv).
    assert (Hnil' : svs = []).
    { apply nil_length_inv. by rewrite <- Hlen, Hz. }
    eexists. split.
    { erewrite bind_Normal; [reflexivity|]. apply constructor_Normal.
      fold wa. apply Hbody.
      erewrite bind_Normal; [reflexivity|].
      eapply (call_resolve_defers host userFn fac Hfac). exact H5. }
    rewrite Hz in H2. rewrite Hnil, Hnil' in *.
    cbn [layout fmap list_fmap enter_any] in *.
    split.
    { unfold entry_any, pending_abs, represents_any.
      cbn [enter_any fmap list_fmap]. abs_simpl.
      cbn [map arg0 length fst snd].
      split; [by wsimpl|]. split; [by wsimpl; rewrite H4|].
      split; [by wsimpl|]. split.
      { wsimpl. apply list_lookup_insert_eq. by eapply lookup_lt_Some. }
      split; intros p Hp; by apply elem_of_nil in Hp. }
    split; [by apply Forall2_nil|].
    intros p Hp _. wsimpl. rewrite list_lookup_insert_ne by lia.
    by apply H10; [|cbn; apply not_elem_of_nil].
  - exists w'. split.
    { erewrite bind_Normal; [reflexivity|]. apply constructor_Normal.
      fold wa. by apply Hbody. }
    assert (Hne : svs.*2 <> []).
    { intros Hnil. apply (f_equal length) in Hnil.
      rewrite length_fmap in Hnil. cbn in Hnil. lia. }
    unfold entry_any. rewrite (pending_abs_cons _ Hne). fold a0.
    set (a1 := enter_any 0 svs a0) in *.
    assert (Hqs : length qs = length xs) by apply length_qs.
    split.
    { split; [done|]. split; [done|].
      split; [by rewrite Har, Hac, Hqs|].
      split; [by rewrite Hao|].
      split.
      { intros d Hd. apply list_elem_of_lookup_1 in Hd as [i Hi].
        exists PENDING, VUndefined. apply (H7 i); [|done].
        rewrite <- (length_ds w0 xs). by eapply lookup_lt_Some. }
      intros p Hp. apply list_elem_of_lookup_1 in Hp as [i Hi].
      assert (Hilt : i < length xs).
      { rewrite <- Hqs. by eapply lookup_lt_Some. }
      destruct (lookup_lt_is_Some_2 svs i) as [sv Hsv]; [lia|].
      destruct (H8 i p sv Hilt Hi Hsv) as [Hh Hs].
      exists sv.1, sv.2. rewrite Hqs. split; [done|].
      intros k Hk.
      assert (Hklt : k < length xs).
      { rewrite <- Hqs. by eapply lookup_lt_Some. }
      destruct (lookup_lt_is_Some_2 svs k) as [sv' Hsv']; [lia|].
      destruct (H8 k p sv' Hklt Hk Hsv') as [Hh' Hs'].
      rewrite Hh in Hh'. injection Hh' as -> -> _. done. }
    split.
    { apply Forall2_same_length_lookup_2; [by rewrite Hqs|].
      intros i q sv Hq Hsv.
      destruct (H8 i q sv) as [Hh _]; [|done|done|by eexists].
      rewrite <- Hqs. by eapply lookup_lt_Some. }
    intros p Hp Hnot. apply H10; [done|].
    intros Hseen. apply Hnot. apply elem_of_take in Hseen as (i & Hi & _).
    by eapply list_elem_of_lookup_2.
Qed.

End EstablishAny.

Lemma consistent_enter_any c n svs : forall j a,
  consistent c n a -> consistent c n (enter_any j svs a).
Proof.
  induction svs as [|sv svs IH]; intros j a Hc; [done|].
  cbn [enter_any]. apply IH. destruct (decide (sv.1 = PENDING)); [done|].
  by apply consistent_settle.
Qed.

Lemma consistent_pending_abs vs c :
  consistent c (length vs) (pending_abs vs c).
Proof.
  unfold consistent, pending_abs. abs_simpl.
  split; [by rewrite length_fmap|].
  split.
  { intros i. rewrite filter_nil, list_lookup_fmap.
    by destruct (vs !! i). }
  split.
  { intros i s Hi. rewrite list_lookup_fmap in Hi.
    destruct (vs !! i); [|done]. injection Hi as <-. cbn. split; [done|lia]. }
  assert (Hsum : sum_list_with contribution
                   ((fun v => mkSlot PENDING v 0) <$> vs) = 0).
  { induction vs as [|p ps IH]; [done|]. cbn. by rewrite IH. }
  split; [by rewrite Hsum|]. split; [cbn; lia|].
  split.
  { intros i s Hi. rewrite list_lookup_fmap in Hi.
    destruct (vs !! i); [|done]. injection Hi as <-. by destruct i. }
  destruct vs as [|p ps]; cbn.
  - split; [by right; left|]. split; [done|done].
  - split; [by left|]. split; [done|done].
Qed.

Lemma consistent_entry_any svs c :
  consistent c (length svs) (entry_any svs c).
Proof.
  unfold entry_any. apply consistent_enter_any.
  rewrite <- (length_fmap snd svs). apply consistent_pending_abs.
Qed.

Lemma settle_slot_elsewhere i st v a k :
  k <> i -> slots (settle_slot i st v a) !! k = slots a !! k.
Proof.
  intros Hk. unfold settle_slot.
  destruct (slots a !! i) as [[[] v0 ph]|]; try done.
  cbn [slots]. by rewrite list_lookup_insert_ne.
Qed.

Lemma settle_slot_slots i st v a k s :
  slots (settle_slot i st v a) !! k = Some s ->
  slots a !! k = Some s \/ s = mkSlot st v 1.
Proof.
  intros Hs. destruct (decide (k = i)) as [->|Hne].
  - unfold settle_slot in Hs.
    destruct (slots a !! i) as [[[] v0 ph]|] eqn:Hi; try (by left; congruence).
    cbn [slots] in Hs. rewrite list_lookup_insert_eq in Hs
      by (by eapply lookup_lt_Some).
    right. congruence.
  - left. by rewrite settle_slot_elsewhere in Hs.
Qed.

Lemma first_rejection_enter_any c n i e svs : forall j a,
  consistent c n a -> first_rejection i e a ->
  first_rejection i e (enter_any j svs a).
Proof.
  induction svs as [|sv svs IH]; intros j a Hc Hf; [done|].
  cbn [enter_any]. destruct (decide (sv.1 = PENDING)); [by apply IH|].
  apply IH; [by apply consistent_settle|].
  by eapply first_rejection_settle.
Qed.

(** The first input that is rejected when [all] is called. *)
Lemma first_rejection_in_loop c n e svs : forall i j a,
  consistent c n a ->
  svs !! i = Some (REJECTED, e) ->
  (forall k sv, k < i -> svs !! k = Some sv -> sv.1 <> REJECTED) ->
  (forall k s, slots a !! k = Some s -> slot_state s <> REJECTED) ->
  (exists v0 ph, slots a !! (j + i) = Some (mkSlot PENDING v0 ph)) ->
  first_rejection (j + i) e (enter_any j svs a).
Proof.
  induction svs as [|sv svs IH]; intros i j a Hc Hi Hbefore Hnone Hpend;
    [done|].
  cbn [enter_any]. destruct i as [|i].
  - cbn in Hi. injection Hi as ->. cbn [fst snd].
    rewrite decide_False by done. rewrite Nat.add_0_r in *.
    destruct Hpend as (v0 & ph & Hpend).
    apply (first_rejection_enter_any c n); [by apply consistent_settle|].
    by eapply first_rejection_start.
  - cbn in Hi. replace (j + S i) with (S j + i) in * by lia.
    assert (Hsv : sv.1 <> REJECTED) by (apply (Hbefore 0); [lia|done]).
    apply IH; try done.
    + destruct (decide (sv.1 = PENDING)); [done|by apply consistent_settle].
    + intros k sv' Hk Hsv'. apply (Hbefore (S k)); [lia|done].
    + destruct (decide (sv.1 = PENDING)); [done|].
      intros k s Hs. apply settle_slot_slots in Hs as [Hs| ->];
        [by eapply Hnone|done].
    + destruct (decide (sv.1 = PENDING)); [done|].
      rewrite settle_slot_elsewhere by lia. done.
Qed.

Lemma first_rejection_at_call c e svs i :
  svs !! i = Some (REJECTED, e) ->
  (forall k sv, k < i -> svs !! k = Some sv -> sv.1 <> REJECTED) ->
  first_rejection i e (entry_any svs c).
Proof.
  intros Hi Hbefore. unfold entry_any.
  apply (first_rejection_in_loop c (length svs) e svs i 0); try done.
  - rewrite <- (length_fmap snd svs). apply consistent_pending_abs.
  - intros k s Hs. unfold pending_abs in Hs. cbn [slots] in Hs.
    rewrite list_lookup_fmap in Hs.
    destruct (svs.*2 !! k); [|done]. by injection Hs as <-.
  - unfold pending_abs. cbn [slots Nat.add]. rewrite !list_lookup_fmap, Hi.
    by eexists _, _.
Qed.

(** The rejection of a pending input, when no input is rejected. *)
Lemma first_rejection_event c qs p e a i :
  consistent c (length qs) a -> qs !! i = Some p ->
  (forall k, qs !! k = Some p ->
     exists v0 ph, slots a !! k = Some (mkSlot PENDING v0 ph)) ->
  (forall k s, slots a !! k = Some s -> slot_state s <> REJECTED) ->
  exists k, qs !! k = Some p /\
    first_rejection k e (settle_places (places p qs) REJECTED e a).
Proof.
  intros Hc Hi Hpend Hnone.
  destruct (places p qs) as [|k ks] eqn:Hpl.
  { assert (Hel : i ∈ places p qs) by (by apply elem_of_places).
    rewrite Hpl in Hel. by apply elem_of_nil in Hel. }
  assert (Hk : qs !! k = Some p).
  { apply elem_of_places. rewrite Hpl. by left. }
  exists k. split; [done|]. cbn [settle_places fold_left].
  destruct (Hpend k Hk) as (v0 & ph & Hs).
  apply (first_rejection_settle_places c (length qs)); [|done|].
  - by apply consistent_settle.
  - by eapply first_rejection_start.
Qed.

(** C6.  [all] of no input is fulfilled with the empty array when it
    returns.  For [all] called on any inputs [xs] --- instances of
    MyPromise in any state and without handlers, the same one more than
    once if the iterable yields it again, values that are no thenables,
    and plain objects whose [then] is a user function that calls the two
    functions it is given --- [all] returns a new promise, and every
    input has been normalized through [resolve] to a promise with the
    state and the value [input_state] gives.  Whatever the order in
    which the pending ones are settled and the host runs callbacks
    afterwards: the host can always finish the callbacks; when it has,
    and every input is fulfilled, the result is fulfilled with the array
    of the values in the order of the inputs; when an input was rejected
    while it was pending and no input was rejected before, the result is
    rejected with that reason; and when inputs were rejected already at
    the call, the result is rejected with the reason of the first of
    them in the order of the inputs. *)
Theorem all_follows_its_inputs host userFn fac w0 xs svs :
  facility host = Some fac -> quiescent w0 ->
  Forall2 (input_state userFn w0) xs svs ->
  let r := length (heap w0) in
  let c := length (scopes w0) in
  let qs := (layout (S r) xs).*1 in
  (forall host' w, exists w',
     MyPromise_all host' userFn [] w = (Normal (VPromise (length (heap w))), w') /\
     heap w' !! length (heap w)
     = Some (mkPromise FULFILLED (VArray (length (scopes w))) []) /\
     results <$> scopes w' !! length (scopes w) = Some [] /\
     nextTickQueue w' = nextTickQueue w /\ timerQueue w' = timerQueue w) /\
  exists w1,
    MyPromise_all host userFn xs w0 = (Normal (VPromise r), w1) /\
    Forall2 (fun q sv => exists hs,
               heap w1 !! q = Some (mkPromise sv.1 sv.2 hs)) qs svs /\
    forall ops, Forall (input_event qs) ops ->
      let w2 := run_ops host userFn ops w1 in
      (exists w3,
         run_loop host userFn (length (queued fac w2)) w2 = Some (Normal tt, w3) /\
         quiescent w3 /\
         w3 = run_ops host userFn
                (ops ++ replicate (length (queued fac w2)) OpTick) w1) /\
      (quiescent w2 ->
       forall vs,
         Forall2 (fun q v => exists hs,
                    heap w2 !! q = Some (mkPromise FULFILLED v hs)) qs vs ->
         heap w2 !! r = Some (mkPromise FULFILLED (VArray c) []) /\
         results <$> scopes w2 !! c = Some (Some <$> vs)) /\
      (quiescent w2 ->
       forall ops1 p args ops2,
         ops = ops1 ++ OpCall (VReject p) args :: ops2 -> p ∈ qs ->
         (forall q o, q ∈ qs ->
            heap (run_ops host userFn ops1 w1) !! q = Some o ->
            _state o <> REJECTED) ->
         (exists o, heap (run_ops host userFn ops1 w1) !! p = Some o /\
                    _state o = PENDING) ->
         heap w2 !! r = Some (mkPromise REJECTED (arg0 args) [])) /\
      (quiescent w2 ->
       forall i e,
         svs !! i = Some (REJECTED, e) ->
         (forall k sv, k < i -> svs !! k = Some sv -> sv.1 <> REJECTED) ->
         heap w2 !! r = Some (mkPromise REJECTED e [])).
Proof.
  intros Hfac Hquiet Hin r c qs. subst r c qs.
  split; [intros host' w; apply all_of_nothing|].
  destruct (all_establishes_inputs host userFn fac Hfac w0 xs svs Hin Hquiet)
    as (w1 & Hall & Hrep1 & Hnorm & _).
  exists w1. split; [done|]. split; [done|]. intros ops Hev w2.
  set (r := length (heap w0)) in *. set (c := length (scopes w0)) in *.
  set (qs := (layout (S r) xs).*1) in *.
  set (ds := (layout (S r) xs).*2) in *.
  assert (Hlq : length qs = length svs).
  { pose proof (length_qs w0 xs) as E.
    pose proof (Forall2_length _ _ _ Hin). subst qs r. lia. }
  assert (Hld : length ds = length qs).
  { pose proof (length_qs w0 xs) as E1. pose proof (length_ds w0 xs) as E2.
    subst qs ds r. lia. }
  pose proof (result_not_input userFn w0 xs svs Hin) as Hrq.
  pose proof (result_not_derived userFn w0 xs svs Hin) as Hrd.
  pose proof (derived_not_input userFn w0 xs svs Hin) as Hdq.
  fold r qs ds in Hrq, Hrd, Hdq.
  assert (Hc1 : consistent c (length qs) (entry_any svs c)).
  { rewrite Hlq. apply consistent_entry_any. }
  assert (Hsim : forall ops', Forall (input_event qs) ops' ->
            represents_any fac qs ds r c (run_ops host userFn ops' w1)
              (fold_left (fun a op => astep_any qs c op a) ops'
                         (entry_any svs c)) /\
            consistent c (length qs)
              (fold_left (fun a op => astep_any qs c op a) ops'
                         (entry_any svs c))).
  { intros ops' Hev'.
    by apply (represents_any_run_ops host userFn fac Hfac qs ds r c
                Hld Hrq Hrd Hdq). }
  destruct (Hsim ops Hev) as [Hrep2 Hc2]. fold w2 in Hrep2.
  set (a2 := fold_left (fun a op => astep_any qs c op a) ops
                       (entry_any svs c)) in *.
  assert (Hqlen : length (queued fac w2) = length (aqueue a2)).
  { destruct Hrep2 as (_ & Hq & _). by rewrite Hq, length_map. }
  assert (Hempty : quiescent w2 -> aqueue a2 = []).
  { intros Hq2. apply (queued_quiescent fac) in Hq2 as [Hq2 _].
    rewrite Hq2 in Hqlen. by destruct (aqueue a2). }
  assert (Hslot : forall w a, represents_any fac qs ds r c w a ->
            consistent c (length qs) a ->
            forall i s, slots a !! i = Some s ->
            exists p hs, qs !! i = Some p /\
              heap w !! p
              = Some (mkPromise (slot_state s) (slot_value s) hs)).
  { intros w a Hrep Hc i s Hi. destruct Hc as (Hlen & _).
    destruct Hrep as (_ & _ & _ & _ & _ & Hsl).
    destruct (lookup_lt_is_Some_2 qs i) as [p Hp].
    { rewrite <- Hlen. by eapply lookup_lt_Some. }
    destruct (Hsl p (list_elem_of_lookup_2 _ _ _ Hp)) as (st & v & Hh & Hs).
    destruct (Hs i Hp) as [ph Hs']. rewrite Hi in Hs'. injection Hs' as ->.
    by eexists _, _. }
  split; [|split; [|split]].
  - destruct (represents_any_drain host userFn fac Hfac qs ds r c
                Hld Hrq Hrd Hdq _ w2 a2 Hrep2 Hc2 (eq_sym Hqlen))
      as (w3 & Hticks & Hq3 & Hrun).
    exists w3. split; [by apply ticks_run_loop|]. split; [done|].
    by rewrite run_ops_app.
  - intros Hq2 vs Hvs.
    assert (Hful : forall i s, slots a2 !! i = Some s ->
              slot_state s = FULFILLED /\ vs !! i = Some (slot_value s)).
    { intros i s Hi. destruct (Hslot _ _ Hrep2 Hc2 _ _ Hi) as (p & hs & Hp & Hh).
      destruct (Forall2_lookup_l _ _ _ _ _ Hvs Hp) as (v & Hv & hs' & Hh').
      rewrite Hh in Hh'. injection Hh' as -> -> _. done. }
    destruct (all_fulfilled_result _ _ a2 Hc2 (Hempty Hq2)) as [Hout Hres].
    { intros i s Hi. by destruct (Hful _ _ Hi). }
    destruct Hrep2 as (_ & _ & Hsc & Hr & _). rewrite Hout in Hr.
    split; [done|]. rewrite Hsc. cbn. f_equal. rewrite Hres.
    apply list_eq. intros i. rewrite !list_lookup_fmap.
    destruct (slots a2 !! i) as [s|] eqn:Hi.
    + destruct (Hful _ _ Hi) as [_ ->]. done.
    + cbn. rewrite (proj2 (lookup_ge_None vs i)); [done|].
      apply lookup_ge_None in Hi. destruct Hc2 as (Hlen & _).
      apply Forall2_length in Hvs. lia.
  - intros Hq2 ops1 p args ops2 Hops Hinp Hnone (o & Ho & Hpend).
    rewrite Hops in Hev. apply Forall_app in Hev as [Hev1 Hev2].
    apply Forall_cons in Hev2 as [_ Hev2].
    destruct (Hsim ops1 Hev1) as [Hrepm Hcm].
    set (wm := run_ops host userFn ops1 w1) in *.
    set (am := fold_left (fun a op => astep_any qs c op a) ops1
                 (entry_any svs c)) in *.
    apply list_elem_of_lookup_1 in Hinp as [i Hi].
    assert (Hsm : forall k, qs !! k = Some p ->
              exists v ph, slots am !! k = Some (mkSlot PENDING v ph)).
    { intros k Hk. destruct Hrepm as (_ & _ & _ & _ & _ & Hsl).
      destruct (Hsl p (list_elem_of_lookup_2 _ _ _ Hk)) as (st & v & Hh & Hs).
      destruct (Hs k Hk) as [ph Hs'].
      rewrite Ho in Hh. injection Hh as Hh.
      destruct o as [ost ov ohs]. cbn in Hpend. subst ost.
      injection Hh as <- _ _. by exists v, ph. }
    assert (Hnorej : forall j s, slots am !! j = Some s ->
              slot_state s <> REJECTED).
    { intros j s Hj.
      destruct (Hslot _ _ Hrepm Hcm _ _ Hj) as (q & hs & Hq & Hh).
      apply (Hnone q _ (list_elem_of_lookup_2 _ _ _ Hq)) in Hh. done. }
    destruct (first_rejection_event c qs p (arg0 args) am i Hcm Hi Hsm Hnorej)
      as (k & Hk & Hstart).
    assert (Ha2 : a2 = fold_left (fun a op => astep_any qs c op a) ops2
                         (settle_places (places p qs) REJECTED (arg0 args) am)).
    { subst a2 am. by rewrite Hops, fold_left_app. }
    assert (Hfirst : first_rejection k (arg0 args) a2).
    { rewrite Ha2. apply first_rejection_fold_any; [|done].
      by apply consistent_settle_places. }
    pose proof (first_rejection_done _ _ _ Hfirst (Hempty Hq2)) as Hout.
    destruct Hrep2 as (_ & _ & _ & Hr & _). by rewrite Hout in Hr.
  - intros Hq2 i e Hi Hbefore.
    assert (Hfirst : first_rejection i e a2).
    { subst a2. apply first_rejection_fold_any; [done|].
      by apply first_rejection_at_call. }
    pose proof (first_rejection_done _ _ _ Hfirst (Hempty Hq2)) as Hout.
    destruct Hrep2 as (_ & _ & _ & Hr & _). by rewrite Hout in Hr.
Qed.

(** * Further properties *)

(** ** What a continuation makes of an outcome *)

Section Continuations.

Variable host : Host.
Variable userFn : nat -> list Value -> Behaviour.
Variable fac : Facility.
Hypothesis Hfac : facility host = Some fac.

Lemma JSType_eqb_eq a b : JSType_eqb a b = true <-> a = b.
Proof. destruct a, b; cbn; split; congruence. Qed.

(** A user function that calls no capability is quiet. *)
Lemma quiet_pure f args c :
  userFn f args = pure c -> quiet host userFn (VFunction f) args c.
Proof. intros H w. by apply call_pure. Qed.

Lemma handler_outcome_pure b out :
  handler_outcome b = Some out ->
  b = pure (completion b) /\ completion_outcome (completion b) = Some out.
Proof. by destruct b as [[|s ss] c]. Qed.

(** One tick on a handler whose continuation is quiet, and returns no
    thenable or raises. *)
Lemma tick_continuation F st x hsF k d v0 hs q w c out :
  unused fac w = [] ->
  queued fac w = mkTask F (mkHandler k st (VResolve d) (VReject d)) :: q ->
  heap w !! F = Some (mkPromise st x hsF) ->
  typeof k = TFunction -> quiet host userFn k [x] c ->
  completion_outcome c = Some out ->
  heap w !! d = Some (mkPromise PENDING v0 hs) ->
  exists w', tick host userFn w = Some (Normal tt, w') /\
    heap w' = <[d := mkPromise out.1 out.2 []]> (heap w) /\
    scopes w' = scopes w /\
    queued fac w' = q ++ map (mkTask d) hs /\ unused fac w' = [].
Proof using Hfac.
  intros Hu Hq HF Hk Hquiet Hout Hd.
  rewrite (tick_defers host userFn fac _ _ _ Hu Hq).
  erewrite runTask_function; [|by wsimpl|done|done].
  unfold try_catch. cbn [executor _value resolve reject].
  rewrite bind_eq, Hquiet.
  destruct c as [result|error]; cbn [completion_outcome] in Hout.
  - destruct (isPromise result); [done|]. injection Hout as <-.
    erewrite bind_Normal; [|eapply (call_resolve_defers host userFn fac Hfac); by wsimpl].
    eexists; split; [done|]. wsimpl. by rewrite Hq, Hu.
  - injection Hout as <-.
    erewrite bind_Normal; [|eapply (call_reject_defers host userFn fac Hfac); by wsimpl].
    eexists; split; [done|]. wsimpl. by rewrite Hq, Hu.
Qed.

(** The two handlers of one [then], run one after the other. *)
Lemma ticks_link F st x hsF a b d v0 hs q w out :
  unused fac w = [] ->
  queued fac w = map (mkTask F) (then_handlers d a b) ++ q ->
  heap w !! F = Some (mkPromise st x hsF) -> st <> PENDING ->
  link_result host userFn (st, x) (a, b) out ->
  heap w !! d = Some (mkPromise PENDING v0 hs) ->
  exists w', ticks host userFn 2 w = Some w' /\
    heap w' = <[d := mkPromise out.1 out.2 []]> (heap w) /\
    scopes w' = scopes w /\
    queued fac w' = q ++ map (mkTask d) hs /\ unused fac w' = [].
Proof using Hfac.
  intros Hu Hq HF Hst Hout Hd. unfold link_result in Hout.
  cbn [fst snd] in Hout.
  assert (HFd : F <> d) by (intros ->; rewrite HF in Hd; by injection Hd as ->).
  destruct (JSType_eqb (typeof (continuation_for st a b)) TFunction) eqn:Hty.
  2: { subst out.
       apply (ticks_then_forward host userFn fac Hfac F st x hsF a b d v0);
         try done.
       intros Hfun. apply JSType_eqb_eq in Hfun. congruence. }
  apply JSType_eqb_eq in Hty. destruct Hout as (c & Hquiet & Hc).
  cbn [then_handlers handler_pair map app] in Hq.
  destruct st; [done| |]; cbn [continuation_for] in Hty, Hquiet.
  - destruct (tick_continuation _ _ _ _ _ _ _ _ _ _ _ _ Hu Hq HF Hty Hquiet
                Hc Hd)
      as (w1 & Ht1 & Hh1 & Hs1 & Hq1 & Hu1).
    cbn [app] in Hq1.
    destruct (tick_mismatch host userFn fac F (mkPromise FULFILLED x hsF) _ _
                w1 Hu1 Hq1)
      as (w2 & Ht2 & Hh2 & Hs2 & Hq2 & Hu2);
      [by rewrite Hh1, list_lookup_insert_ne|done|].
    exists w2. cbn [ticks]. rewrite Ht1, Ht2.
    by rewrite Hh2, Hh1, Hs2, Hs1.
  - destruct (tick_mismatch host userFn fac F (mkPromise REJECTED x hsF) _ _
                w Hu Hq HF)
      as (w1 & Ht1 & Hh1 & Hs1 & Hq1 & Hu1); [done|].
    destruct (tick_continuation F REJECTED x hsF b d v0 hs q w1 c out Hu1 Hq1)
      as (w2 & Ht2 & Hh2 & Hs2 & Hq2 & Hu2);
      [by rewrite Hh1|done|done|done|by rewrite Hh1|].
    exists w2. cbn [ticks]. rewrite Ht1, Ht2.
    by rewrite Hh2, Hh1, Hs2, Hs1.
Qed.

(** [then] on a settled promise, and the two callbacks it has deferred. *)
Lemma then_link_settled w F st x a b out :
  quiescent w -> heap w !! F = Some (mkPromise st x []) -> st <> PENDING ->
  link_result host userFn (st, x) (a, b) out ->
  let d := length (heap w) in
  exists w1 w2,
    then_ host F a b w = (Normal d, w1) /\
    heap w1 !! d = Some fresh_promise /\
    run_loop host userFn 2 w1 = Some (Normal tt, w2) /\
    heap w2 !! d = Some (mkPromise out.1 out.2 []) /\
    heap w2 !! F = Some (mkPromise st x []) /\ quiescent w2.
Proof using Hfac.
  intros Hq HF Hst Hout d. apply (queued_quiescent fac) in Hq as [Hq Hu].
  assert (HFd : F < d) by (by apply lookup_lt_Some in HF).
  pose proof (then_settled host fac Hfac F st x [] a b w HF Hst) as Hthen.
  cbn zeta in Hthen. fold d in Hthen. revert Hthen.
  set (w1 := enqueue _ _ _). intros Hthen.
  assert (Hh1 : heap w1 = heap w ++ [fresh_promise]).
  { subst w1. wsimpl. apply list_insert_id. by apply lookup_heap_old. }
  destruct (ticks_link F st x [] a b d VUndefined [] [] w1 out)
    as (w2 & Ht & Hh & _ & Hq2 & Hu2); try done.
  - subst w1. by wsimpl.
  - subst w1. wsimpl. by rewrite Hq, app_nil_r.
  - rewrite Hh1. by apply lookup_heap_old.
  - rewrite Hh1. apply lookup_heap_snoc.
  - exists w1, w2. split; [done|].
    split; [rewrite Hh1; apply lookup_heap_snoc|].
    split; [apply ticks_run_loop; [done|by apply (quiescent_queued fac)]|].
    rewrite Hh, Hh1. split; [|split].
    + apply list_lookup_insert_eq. rewrite length_app. fold d. cbn. lia.
    + rewrite list_lookup_insert_ne by lia. by apply lookup_heap_old.
    + by apply (quiescent_queued fac).
Qed.

(** [then] on a pending promise, its settlement afterwards, and the two
    callbacks that the settlement has deferred. *)
Lemma then_link_pending w F v0 st x a b out :
  quiescent w -> heap w !! F = Some (mkPromise PENDING v0 []) ->
  st <> PENDING -> link_result host userFn (st, x) (a, b) out ->
  let d := length (heap w) in
  exists w1 w2 w3,
    then_ host F a b w = (Normal d, w1) /\
    _changeState host F st x w1 = (Normal tt, w2) /\
    heap w2 !! d = Some fresh_promise /\
    run_loop host userFn 2 w2 = Some (Normal tt, w3) /\
    heap w3 !! d = Some (mkPromise out.1 out.2 []) /\ quiescent w3.
Proof using Hfac.
  intros Hq HF Hst Hout d. apply (queued_quiescent fac) in Hq as [Hq Hu].
  assert (HFd : F < d) by (by apply lookup_lt_Some in HF).
  pose proof (then_pending host F v0 [] a b w HF) as Hthen.
  cbn zeta in Hthen. fold d in Hthen. revert Hthen.
  set (w1 := with_registered _ _). intros Hthen.
  assert (HF1 : heap w1 !! F
                = Some (mkPromise PENDING v0 (then_handlers d a b))).
  { subst w1. wsimpl. rewrite list_lookup_insert_eq; [done|].
    rewrite length_app. fold d. lia. }
  pose proof (changeState_defers host fac Hfac F v0 _ st x w1 HF1 Hst)
    as Hsettle.
  revert Hsettle. set (w2 := enqueue _ _ _). intros Hsettle.
  assert (Hd2 : heap w2 !! d = Some fresh_promise).
  { subst w2 w1. wsimpl. rewrite !list_lookup_insert_ne by lia.
    apply lookup_heap_snoc. }
  destruct (ticks_link F st x [] a b d VUndefined [] [] w2 out)
    as (w3 & Ht & Hh & _ & Hq3 & Hu3); try done.
  - subst w2 w1. by wsimpl.
  - subst w2 w1. wsimpl. by rewrite Hq, app_nil_r.
  - subst w2 w1. wsimpl. rewrite list_lookup_insert_eq; [done|].
    rewrite length_insert, length_app. fold d. lia.
  - exists w1, w2, w3. do 3 (split; [done|]).
    split; [apply ticks_run_loop; [done|by apply (quiescent_queued fac)]|].
    split; [|by apply (quiescent_queued fac)].
    rewrite Hh. apply list_lookup_insert_eq. subst w2 w1. wsimpl.
    rewrite !length_insert, length_app. fold d. cbn. lia.
Qed.

(** What [link_outcome] computes is the result of the link. *)
Lemma link_outcome_result out link out' :
  link_outcome userFn out link = Some out' ->
  link_result host userFn out link out'.
Proof.
  unfold link_outcome, link_result.
  destruct (continuation_for out.1 link.1 link.2) as [| | | | | | | | |f| | | | |];
    cbn [typeof JSType_eqb]; try done; try by intros [= <-].
  intros Hout. apply handler_outcome_pure in Hout as [Hpure Hc].
  exists (completion (userFn f [out.2])). split; [|done].
  by apply quiet_pure.
Qed.

Lemma link_result_returns st x a b f result :
  continuation_for st a b = VFunction f ->
  userFn f [x] = pure (Normal result) -> isPromise result = false ->
  link_result host userFn (st, x) (a, b) (FULFILLED, result).
Proof.
  intros Hk Hf Hr. apply link_outcome_result.
  unfold link_outcome. cbn [fst snd].
  rewrite Hk, Hf. cbn [handler_outcome pure settlements completion
                       completion_outcome].
  by rewrite Hr.
Qed.

Lemma link_result_raises st x a b f error :
  continuation_for st a b = VFunction f ->
  userFn f [x] = pure (Throw error) ->
  link_result host userFn (st, x) (a, b) (REJECTED, error).
Proof.
  intros Hk Hf. apply link_outcome_result.
  unfold link_outcome. cbn [fst snd]. by rewrite Hk, Hf.
Qed.

Lemma link_result_passes st x a b :
  typeof (continuation_for st a b) <> TFunction ->
  link_result host userFn (st, x) (a, b) (st, x).
Proof.
  intros Hk. unfold link_result. cbn [fst snd].
  by destruct (continuation_for st a b).
Qed.

(** X1.  A continuation that returns a value which is no thenable
    fulfills the promise of [then] with that value, also when it is the
    continuation for rejection: the promise is pending when [then]
    returns, and settled once the host has run the two callbacks.  This
    holds when [then] is called on the settled promise, and when it is
    called before the promise is settled. *)
Theorem returned_value_fulfills_derived_promise w F st x onFulfilled onRejected
    f result :
  quiescent w -> st <> PENDING ->
  continuation_for st onFulfilled onRejected = VFunction f ->
  userFn f [x] = pure (Normal result) -> isPromise result = false ->
  let d := length (heap w) in
  (heap w !! F = Some (mkPromise st x []) ->
   exists w1 w2,
     then_ host F onFulfilled onRejected w = (Normal d, w1) /\
     heap w1 !! d = Some fresh_promise /\
     run_loop host userFn 2 w1 = Some (Normal tt, w2) /\
     heap w2 !! d = Some (mkPromise FULFILLED result [])) /\
  (forall v0,
     heap w !! F = Some (mkPromise PENDING v0 []) ->
     exists w1 w2 w3,
       then_ host F onFulfilled onRejected w = (Normal d, w1) /\
       _changeState host F st x w1 = (Normal tt, w2) /\
       heap w2 !! d = Some fresh_promise /\
       run_loop host userFn 2 w2 = Some (Normal tt, w3) /\
       heap w3 !! d = Some (mkPromise FULFILLED result [])).
Proof using Hfac.
  intros Hq Hst Hk Hf Hr d.
  pose proof (link_result_returns st x _ _ f result Hk Hf Hr) as Hout.
  split.
  - intros HF.
    destruct (then_link_settled w F st x _ _ _ Hq HF Hst Hout)
      as (w1 & w2 & H1 & H2 & H3 & H4 & _).
    by exists w1, w2.
  - intros v0 HF.
    destruct (then_link_pending w F v0 st x _ _ _ Hq HF Hst Hout)
      as (w1 & w2 & w3 & H1 & H2 & H3 & H4 & H5 & _).
    by exists w1, w2, w3.
Qed.

(** X2.  A continuation that raises an error rejects the promise of
    [then] with that error, also when it is the continuation for
    fulfillment. *)
Theorem raised_error_rejects_derived_promise w F st x onFulfilled onRejected
    f error :
  quiescent w -> st <> PENDING ->
  continuation_for st onFulfilled onRejected = VFunction f ->
  userFn f [x] = pure (Throw error) ->
  let d := length (heap w) in
  (heap w !! F = Some (mkPromise st x []) ->
   exists w1 w2,
     then_ host F onFulfilled onRejected w = (Normal d, w1) /\
     heap w1 !! d = Some fresh_promise /\
     run_loop host userFn 2 w1 = Some (Normal tt, w2) /\
     heap w2 !! d = Some (mkPromise REJECTED error [])) /\
  (forall v0,
     heap w !! F = Some (mkPromise PENDING v0 []) ->
     exists w1 w2 w3,
       then_ host F onFulfilled onRejected w = (Normal d, w1) /\
       _changeState host F st x w1 = (Normal tt, w2) /\
       heap w2 !! d = Some fresh_promise /\
       run_loop host userFn 2 w2 = Some (Normal tt, w3) /\
       heap w3 !! d = Some (mkPromise REJECTED error [])).
Proof using Hfac.
  intros Hq Hst Hk Hf d.
  pose proof (link_result_raises st x _ _ f error Hk Hf) as Hout.
  split.
  - intros HF.
    destruct (then_link_settled w F st x _ _ _ Hq HF Hst Hout)
      as (w1 & w2 & H1 & H2 & H3 & H4 & _).
    by exists w1, w2.
  - intros v0 HF.
    destruct (then_link_pending w F v0 st x _ _ _ Hq HF Hst Hout)
      as (w1 & w2 & w3 & H1 & H2 & H3 & H4 & H5 & _).
    by exists w1, w2, w3.
Qed.

(** X3.  [catch(onRejected)] is [then] without a continuation for
    fulfillment.  On a fulfilled promise it gives a promise fulfilled
    with the same value, whatever [onRejected] is.  On a rejected promise
    it gives a promise fulfilled with what [onRejected] returns, rejected
    with what it raises, and rejected with the same reason when
    [onRejected] is no function. *)
Theorem catch_recovers_from_rejection w F x onRejected :
  quiescent w ->
  let d := length (heap w) in
  (heap w !! F = Some (mkPromise FULFILLED x []) ->
   exists w1 w2,
     catch host F onRejected w = (Normal d, w1) /\
     run_loop host userFn 2 w1 = Some (Normal tt, w2) /\
     heap w2 !! d = Some (mkPromise FULFILLED x [])) /\
  (heap w !! F = Some (mkPromise REJECTED x []) ->
   (forall f result,
      onRejected = VFunction f -> userFn f [x] = pure (Normal result) ->
      isPromise result = false ->
      exists w1 w2,
        catch host F onRejected w = (Normal d, w1) /\
        run_loop host userFn 2 w1 = Some (Normal tt, w2) /\
        heap w2 !! d = Some (mkPromise FULFILLED result [])) /\
   (forall f error,
      onRejected = VFunction f -> userFn f [x] = pure (Throw error) ->
      exists w1 w2,
        catch host F onRejected w = (Normal d, w1) /\
        run_loop host userFn 2 w1 = Some (Normal tt, w2) /\
        heap w2 !! d = Some (mkPromise REJECTED error [])) /\
   (typeof onRejected <> TFunction ->
    exists w1 w2,
      catch host F onRejected w = (Normal d, w1) /\
      run_loop host userFn 2 w1 = Some (Normal tt, w2) /\
      heap w2 !! d = Some (mkPromise REJECTED x []))).
Proof using Hfac.
  intros Hq d.
  assert (Hlink : forall st out,
            heap w !! F = Some (mkPromise st x []) -> st <> PENDING ->
            link_result host userFn (st, x) (VNull, onRejected) out ->
            exists w1 w2,
              catch host F onRejected w = (Normal d, w1) /\
              run_loop host userFn 2 w1 = Some (Normal tt, w2) /\
              heap w2 !! d = Some (mkPromise out.1 out.2 [])).
  { intros st out HF Hst Hout.
    destruct (then_link_settled w F st x _ _ _ Hq HF Hst Hout)
      as (w1 & w2 & H1 & _ & H3 & H4 & _).
    by exists w1, w2. }
  split; [|intros HF; split; [|split]].
  - intros HF. by apply (Hlink FULFILLED (FULFILLED, x)).
  - intros f result -> Hf Hr.
    apply (Hlink REJECTED (FULFILLED, result)); [done..|].
    by apply (link_result_returns _ _ _ _ f).
  - intros f error -> Hf.
    apply (Hlink REJECTED (REJECTED, error)); [done..|].
    by apply (link_result_raises _ _ _ _ f).
  - intros Hno. apply (Hlink REJECTED (REJECTED, x)); [done..|].
    by apply link_result_passes.
Qed.



(** *** Chains *)






End Continuations.

(** ** Construction and the static constructors, on every host *)

Section Construction.

Variable host : Host.
Variable userFn : nat -> list Value -> Behaviour.

(** X6.  [new MyPromise(executor)] for an executor that calls its
    capabilities any number of times and then returns or raises, on every
    host: the promise has the state and the value of the first call; the
    later calls and an error raised after a call change nothing; without
    a call, an error raised rejects the promise, and without either the
    promise is pending.  No callback is deferred and nothing else in the
    world changes. *)
Theorem first_settlement_decides settles raises w :
  constructor host (script_executor host userFn settles raises) w
  = (Normal (length (heap w)),
     with_heap (fun h => h ++ [constructed settles raises]) w).
Proof.
  set (this := length (heap w)).
  set (wa := with_heap (fun h => h ++ [fresh_promise]) w).
  assert (Hthis : heap wa !! this = Some fresh_promise)
    by (subst wa; wsimpl; apply lookup_heap_snoc).
  destruct settles as [|[rejection v] rest].
  - destruct raises as [error|].
    + rewrite (constructor_Throw host _ w error wa) by done.
      fold this. unfold _reject. rewrite bind_eq.
      rewrite (changeState_unwatched host this VUndefined _ _ wa Hthis).
      cbn [ret constructed]. f_equal. subst wa this.
      rewrite with_heap_twice. destruct w. unfold with_heap. cbn [heap].
      by rewrite insert_last.
    + by rewrite (constructor_Normal host _ w wa).
  - set (st := if rejection then REJECTED else FULFILLED).
    set (wb := with_heap (fun h => <[this := mkPromise st v []]> h) wa).
    assert (Hst : st <> PENDING) by (subst st; by destruct rejection).
    assert (Hb : heap wb !! this = Some (mkPromise st v [])).
    { subst wb. wsimpl. apply list_lookup_insert_eq. by eapply lookup_lt_Some. }
    assert (Hloop : for_of ((rejection, v) :: rest) (fun s =>
              call host userFn (if s.1 then VReject this else VResolve this)
                   [s.2];; ret tt) wa = (Normal tt, wb)).
    { cbn [for_of fst snd]. rewrite bind_eq, bind_eq.
      rewrite (capability_unwatched host userFn rejection this VUndefined [v] wa Hthis).
      cbn [ret arg0]. fold st wb. by eapply (script_settled host userFn). }
    assert (Hwb : wb = with_heap
                         (fun h => h ++ [constructed ((rejection, v) :: rest)
                                           raises]) w).
    { subst wb wa this. rewrite with_heap_twice. destruct w.
      unfold with_heap. cbn [heap constructed]. by rewrite insert_last. }
    destruct raises as [error|].
    + rewrite (constructor_Throw host _ w error wb).
      * fold this. unfold _reject. rewrite bind_eq.
        rewrite (changeState_settled host wb this _ _ _ Hb Hst).
        cbn [ret]. by rewrite Hwb.
      * fold this wa. unfold script_executor.
        by rewrite (bind_Normal _ _ _ _ _ Hloop).
    + rewrite (constructor_Normal host _ w wb); [by rewrite Hwb|].
      fold this wa. unfold script_executor.
      by rewrite (bind_Normal _ _ _ _ _ Hloop).
Qed.


(** X8.  [MyPromise.reject(reason)] on every host and for every reason,
    a promise or a thenable too: a new promise rejected with the reason
    as it is; no callback is deferred and nothing else in the world
    changes. *)
Theorem reject_gives_rejected_promise reason w :
  MyPromise_reject host userFn reason w
  = (Normal (VPromise (length (heap w))),
     with_heap (fun h => h ++ [mkPromise REJECTED reason []]) w).
Proof.
  unfold MyPromise_reject. rewrite bind_eq.
  set (wa := with_heap (fun h => h ++ [fresh_promise]) w).
  assert (Hthis : heap wa !! length (heap w) = Some fresh_promise)
    by (subst wa; wsimpl; apply lookup_heap_snoc).
  erewrite constructor_Normal.
  2:{ fold wa. rewrite bind_eq.
      by rewrite (capability_unwatched host userFn true _ VUndefined [reason] wa Hthis). }
  cbn [ret arg0]. f_equal. subst wa. rewrite with_heap_twice.
  destruct w. unfold with_heap. cbn [heap]. by rewrite insert_last.
Qed.

End Construction.

(** ** What no operation undoes *)

Global Instance heap_outlasts_preorder : PreOrder heap_outlasts.
Proof.
  split.
  - intros h. split; [done|]. intros p o Hp _. by exists o.
  - intros h1 h2 h3 [Hl12 H12] [Hl23 H23]. split; [lia|].
    intros p o Hp Hst. destruct (H12 p o Hp Hst) as (o2 & Hp2 & Hs2 & Hv2).
    destruct (H23 p o2 Hp2) as (o3 & Hp3 & Hs3 & Hv3); [congruence|].
    exists o3. split; [done|]. split; congruence.
Qed.

Global Instance outlasts_preorder : PreOrder outlasts.
Proof.
  split.
  - intros w. unfold outlasts. reflexivity.
  - intros w1 w2 w3. unfold outlasts. apply transitivity.
Qed.

Lemma outlasts_same_heap w w' : heap w' = heap w -> outlasts w w'.
Proof. intros Hh. unfold outlasts. by rewrite Hh. Qed.

(** A promise is written with the state and the value it has, or while it
    is pending. *)
Lemma heap_outlasts_insert h p o o' :
  h !! p = Some o ->
  (_state o <> PENDING -> _state o' = _state o /\ _value o' = _value o) ->
  heap_outlasts h (<[p := o']> h).
Proof.
  intros Hp Hsame. split; [by rewrite length_insert|].
  intros q oq Hq Hst. destruct (decide (q = p)) as [->|Hne].
  - rewrite Hp in Hq. injection Hq as <-. exists o'.
    split; [apply list_lookup_insert_eq; by eapply lookup_lt_Some|].
    by apply Hsame.
  - exists oq. by rewrite list_lookup_insert_ne.
Qed.

Lemma heap_outlasts_snoc h o : heap_outlasts h (h ++ [o]).
Proof.
  split; [rewrite length_app; lia|].
  intros p op Hp _. exists op. split; [|done]. by apply lookup_heap_old.
Qed.

Section Lasting.

Variable host : Host.
Variable userFn : nat -> list Value -> Behaviour.

Local Abbreviation lasting := (respects outlasts).

Lemma lasting_runMicroTask callback : lasting (runMicroTask host callback).
Proof. intros w. apply outlasts_same_heap, runMicroTask_heap. Qed.

Lemma lasting_pushHandler this e s res rej :
  lasting (_pushHandler this e s res rej).
Proof.
  intros w. unfold _pushHandler, bind, getPromise.
  destruct (heap w !! this) as [o|] eqn:Ho; cbn; [|reflexivity].
  unfold outlasts. cbn. by eapply heap_outlasts_insert.
Qed.

Lemma lasting_shiftHandlers this : lasting (shiftHandlers this).
Proof.
  intros w. unfold shiftHandlers, bind, getPromise.
  destruct (heap w !! this) as [o|] eqn:Ho; cbn; [|reflexivity].
  unfold outlasts. cbn. by eapply heap_outlasts_insert.
Qed.

Lemma lasting_runHandlers this : lasting (_runHandlers host this).
Proof.
  unfold _runHandlers. apply respects_bind; [apply respects_getPromise|].
  intros o. destruct (State_eqb (_state o) PENDING); [apply respects_ret|].
  induction (_handlers o) as [|h rest IH]; cbn [_runHandlers_loop];
    [apply respects_ret|].
  apply respects_bind; [apply lasting_runMicroTask|]. intros _.
  apply respects_bind; [apply lasting_shiftHandlers|done].
Qed.

Lemma lasting_changeState this newState value :
  lasting (_changeState host this newState value).
Proof.
  intros w. unfold _changeState. rewrite bind_eq. unfold getPromise.
  destruct (heap w !! this) as [o|] eqn:Ho; [|reflexivity].
  destruct (State_eqb (_state o) PENDING) eqn:Hst; cbn [negb]; [|reflexivity].
  rewrite bind_eq. cbn [putPromise].
  etransitivity; [|apply lasting_runHandlers].
  unfold outlasts. cbn. eapply heap_outlasts_insert; [done|].
  intros Hne. by apply State_eqb_eq in Hst.
Qed.

Lemma lasting_constructor executor :
  (forall resolve reject, lasting (executor resolve reject)) ->
  lasting (constructor host executor).
Proof.
  intros Hexec. unfold constructor. apply respects_bind.
  { intros w. unfold outlasts. cbn. apply heap_outlasts_snoc. }
  intros this. apply respects_bind; [|intros; apply respects_ret].
  apply respects_try_catch; [apply Hexec|].
  intros error. apply lasting_changeState.
Qed.

Lemma lasting_then this onFulfilled onRejected :
  lasting (then_ host this onFulfilled onRejected).
Proof.
  apply lasting_constructor. intros resolve reject.
  repeat (apply respects_bind; [apply lasting_pushHandler|intros _]).
  apply lasting_runHandlers.
Qed.

Lemma lasting_call f : forall args, lasting (call host userFn f args).
Proof.
  induction f; intros args; try apply respects_throw;
    [apply respects_user_function; intros; apply lasting_changeState|..];
    cbn [call].
  - apply respects_bind; [apply lasting_changeState|intros; apply respects_ret].
  - apply respects_bind; [apply lasting_changeState|intros; apply respects_ret].
  - apply respects_bind; [apply respects_getScope|]. intros s.
    apply respects_bind; [by intros w; apply outlasts_same_heap|]. intros _.
    destruct (Nat.eqb _ _); [|apply respects_ret].
    apply respects_bind; [apply IHf|intros; apply respects_ret].
  - apply respects_ret.
  - apply respects_ret.
Qed.

Lemma lasting_invoke_then obj onFulfilled onRejected :
  lasting (invoke_then host userFn obj onFulfilled onRejected).
Proof.
  destruct obj; cbn [invoke_then]; try apply respects_throw.
  - apply lasting_call.
  - apply respects_bind; [apply lasting_then|intros; apply respects_ret].
Qed.

Lemma lasting_runTask t : lasting (runTask host userFn t).
Proof.
  unfold runTask. apply respects_bind; [apply respects_getPromise|]. intros o.
  destruct (negb _); [apply respects_ret|].
  destruct (negb _).
  - apply respects_bind; [|intros; apply respects_ret].
    destruct (State_eqb _ _); apply lasting_call.
  - apply respects_try_catch.
    + apply respects_bind; [apply lasting_call|]. intros result.
      destruct (isPromise result);
        (apply respects_bind; [|intros; apply respects_ret]);
        [apply lasting_invoke_then|apply lasting_call].
    + intros error.
      apply respects_bind; [apply lasting_call|intros; apply respects_ret].
Qed.

Lemma lasting_resolve data : lasting (MyPromise_resolve host userFn data).
Proof.
  assert (Hnew : lasting
            (p <- constructor host (fun resolve reject =>
                    if isPromise data then
                      invoke_then host userFn data resolve reject;; ret tt
                    else
                      call host userFn resolve [data];; ret tt);;
             ret (VPromise p))).
  { apply respects_bind; [|intros; apply respects_ret].
    apply lasting_constructor. intros resolve reject.
    destruct (isPromise data);
      (apply respects_bind; [|intros; apply respects_ret]);
      [apply lasting_invoke_then|apply lasting_call]. }
  destruct data; try exact Hnew. apply respects_ret.
Qed.

Lemma lasting_reject reason : lasting (MyPromise_reject host userFn reason).
Proof.
  apply respects_bind; [|intros; apply respects_ret].
  apply lasting_constructor. intros resolve reject.
  apply respects_bind; [apply lasting_call|intros; apply respects_ret].
Qed.

Lemma lasting_scope (m : M unit) :
  (forall w, heap (m w).2 = heap w) -> lasting m.
Proof. intros Hm w. by apply outlasts_same_heap. Qed.

Lemma lasting_all proms : lasting (MyPromise_all host userFn proms).
Proof.
  apply respects_bind; [|intros; apply respects_ret].
  apply lasting_constructor. intros resolve reject.
  apply respects_try_catch.
  - apply respects_bind; [by intros w; apply outlasts_same_heap|]. intros c.
    apply respects_bind.
    + apply respects_for_of. intros promise.
      apply respects_bind; [apply respects_getScope|]. intros s.
      apply respects_bind; [by intros w; apply outlasts_same_heap|]. intros _.
      apply respects_bind; [apply lasting_resolve|]. intros q.
      apply respects_bind; [apply lasting_invoke_then|].
      intros; apply respects_ret.
    + intros _. apply respects_bind; [apply respects_getScope|]. intros s.
      destruct (Nat.eqb _ _); [|apply respects_ret].
      apply respects_bind; [apply lasting_call|intros; apply respects_ret].
  - intros error.
    apply respects_bind; [apply lasting_call|intros; apply respects_ret].
Qed.

Lemma lasting_allSettled proms :
  lasting (MyPromise_allSettled host userFn proms).
Proof.
  apply respects_bind; [|intros; apply lasting_all].
  generalize (@nil Value). induction proms as [|p rest IH]; intros ps;
    cbn [allSettled_loop]; [apply respects_ret|].
  apply respects_bind; [apply lasting_resolve|]. intros q.
  apply respects_bind; [apply lasting_invoke_then|]. intros d. apply IH.
Qed.

Lemma lasting_script settles raises resolve reject :
  lasting (script_executor host userFn settles raises resolve reject).
Proof.
  apply respects_bind.
  - apply respects_for_of. intros s.
    apply respects_bind; [apply lasting_call|intros; apply respects_ret].
  - intros _. destruct raises; [apply respects_throw|apply respects_ret].
Qed.

Lemma lasting_perform op w : outlasts w (perform host userFn op w).
Proof.
  destruct op; cbn [perform].
  - apply lasting_constructor. intros resolve reject. apply lasting_script.
  - apply lasting_then.
  - apply lasting_call.
  - apply lasting_resolve.
  - apply lasting_reject.
  - apply lasting_all.
  - apply lasting_allSettled.
  - cbn. reflexivity.
  - unfold tick.
    destruct (nextTickQueue w) as [|t q]; [destruct (timerQueue w) as [|t q]|].
    + reflexivity.
    + etransitivity; [|apply lasting_runTask]. by apply outlasts_same_heap.
    + etransitivity; [|apply lasting_runTask]. by apply outlasts_same_heap.
Qed.

(** X9.  Whatever the program and the host do, in any order and on every
    host (constructions, [then], calls of capabilities and of other
    functions, the static combinators, callbacks run by the host): no
    promise is lost, and a promise that is settled keeps its state and
    its value. *)
Theorem settled_promise_never_changes ops w :
  let w' := run_ops host userFn ops w in
  length (heap w) <= length (heap w') /\
  forall p o,
    heap w !! p = Some o -> _state o <> PENDING ->
    exists o',
      heap w' !! p = Some o' /\ _state o' = _state o /\ _value o' = _value o.
Proof.
  revert w. induction ops as [|op ops IH]; intros w.
  - split; [done|]. intros p o Hp _. by exists o.
  - cbn [run_ops fold_left].
    change (outlasts w (run_ops host userFn ops (perform host userFn op w))).
    etransitivity; [apply lasting_perform|apply IH].
Qed.

End Lasting.

(** ** Hosts where the adapter has no facility *)

Global Instance idle_preorder : PreOrder idle.
Proof.
  split; [by intros w|].
  intros w1 w2 w3 (H1 & H2 & H3) (H4 & H5 & H6). unfold idle.
  by rewrite H4, H5, H6.
Qed.

Section NoFacility.

Variable host : Host.
Variable userFn : nat -> list Value -> Behaviour.
Hypothesis Hnone : facility host = None.

Local Abbreviation nothing := (respects idle).

Lemma nothing_runMicroTask callback : nothing (runMicroTask host callback).
Proof using Hnone.
  intros w. unfold runMicroTask, facility in *.
  destruct (process host) as [|pv]; [done|]. cbn [readGlobal]. rewrite bind_eq.
  cbn [ret]. destruct (process_nextTick_available pv); [done|].
  destruct (MutationObserver host) as [|[|]]; done.
Qed.

Lemma nothing_pushHandler this e s res rej :
  nothing (_pushHandler this e s res rej).
Proof.
  unfold _pushHandler. apply respects_bind; [apply respects_getPromise|].
  intros o. apply respects_bind; by intros w.
Qed.

Lemma nothing_runHandlers this : nothing (_runHandlers host this).
Proof using Hnone.
  unfold _runHandlers. apply respects_bind; [apply respects_getPromise|].
  intros o. destruct (State_eqb (_state o) PENDING); [apply respects_ret|].
  induction (_handlers o) as [|h rest IH]; cbn [_runHandlers_loop];
    [apply respects_ret|].
  apply respects_bind; [apply nothing_runMicroTask|]. intros _.
  apply respects_bind; [|done].
  unfold shiftHandlers. apply respects_bind; [apply respects_getPromise|].
  by intros o' w.
Qed.

Lemma nothing_changeState this newState value :
  nothing (_changeState host this newState value).
Proof using Hnone.
  unfold _changeState. apply respects_bind; [apply respects_getPromise|].
  intros o. destruct (negb (State_eqb (_state o) PENDING)); [apply respects_ret|].
  apply respects_bind; [by intros w|]. intros _. apply nothing_runHandlers.
Qed.

Lemma nothing_constructor executor :
  (forall resolve reject, nothing (executor resolve reject)) ->
  nothing (constructor host executor).
Proof using Hnone.
  intros Hexec. unfold constructor. apply respects_bind; [by intros w|].
  intros this. apply respects_bind; [|intros; apply respects_ret].
  apply respects_try_catch; [apply Hexec|].
  intros error. apply nothing_changeState.
Qed.

Lemma nothing_then this onFulfilled onRejected :
  nothing (then_ host this onFulfilled onRejected).
Proof using Hnone.
  apply nothing_constructor. intros resolve reject.
  repeat (apply respects_bind; [apply nothing_pushHandler|intros _]).
  apply nothing_runHandlers.
Qed.

Lemma nothing_call f : forall args, nothing (call host userFn f args).
Proof using Hnone.
  induction f; intros args; try apply respects_throw;
    [apply respects_user_function; intros; apply nothing_changeState|..];
    cbn [call].
  - apply respects_bind; [apply nothing_changeState|intros; apply respects_ret].
  - apply respects_bind; [apply nothing_changeState|intros; apply respects_ret].
  - apply respects_bind; [apply respects_getScope|]. intros s.
    apply respects_bind; [by intros w|]. intros _.
    destruct (Nat.eqb _ _); [|apply respects_ret].
    apply respects_bind; [apply IHf|intros; apply respects_ret].
  - apply respects_ret.
  - apply respects_ret.
Qed.

Lemma nothing_invoke_then obj onFulfilled onRejected :
  nothing (invoke_then host userFn obj onFulfilled onRejected).
Proof using Hnone.
  destruct obj; cbn [invoke_then]; try apply respects_throw.
  - apply nothing_call.
  - apply respects_bind; [apply nothing_then|intros; apply respects_ret].
Qed.

Lemma nothing_resolve data : nothing (MyPromise_resolve host userFn data).
Proof using Hnone.
  assert (Hnew : nothing
            (p <- constructor host (fun resolve reject =>
                    if isPromise data then
                      invoke_then host userFn data resolve reject;; ret tt
                    else
                      call host userFn resolve [data];; ret tt);;
             ret (VPromise p))).
  { apply respects_bind; [|intros; apply respects_ret].
    apply nothing_constructor. intros resolve reject.
    destruct (isPromise data);
      (apply respects_bind; [|intros; apply respects_ret]);
      [apply nothing_invoke_then|apply nothing_call]. }
  destruct data; try exact Hnew. apply respects_ret.
Qed.

Lemma nothing_reject reason : nothing (MyPromise_reject host userFn reason).
Proof using Hnone.
  apply respects_bind; [|intros; apply respects_ret].
  apply nothing_constructor. intros resolve reject.
  apply respects_bind; [apply nothing_call|intros; apply respects_ret].
Qed.

Lemma nothing_all proms : nothing (MyPromise_all host userFn proms).
Proof using Hnone.
  apply respects_bind; [|intros; apply respects_ret].
  apply nothing_constructor. intros resolve reject.
  apply respects_try_catch.
  - apply respects_bind; [by intros w|]. intros c.
    apply respects_bind.
    + apply respects_for_of. intros promise.
      apply respects_bind; [apply respects_getScope|]. intros s.
      apply respects_bind; [by intros w|]. intros _.
      apply respects_bind; [apply nothing_resolve|]. intros q.
      apply respects_bind; [apply nothing_invoke_then|].
      intros; apply respects_ret.
    + intros _. apply respects_bind; [apply respects_getScope|]. intros s.
      destruct (Nat.eqb _ _); [|apply respects_ret].
      apply respects_bind; [apply nothing_call|intros; apply respects_ret].
  - intros error.
    apply respects_bind; [apply nothing_call|intros; apply respects_ret].
Qed.

Lemma nothing_allSettled proms :
  nothing (MyPromise_allSettled host userFn proms).
Proof using Hnone.
  apply respects_bind; [|intros; apply nothing_all].
  generalize (@nil Value). induction proms as [|p rest IH]; intros ps;
    cbn [allSettled_loop]; [apply respects_ret|].
  apply respects_bind; [apply nothing_resolve|]. intros q.
  apply respects_bind; [apply nothing_invoke_then|]. intros d. apply IH.
Qed.

Lemma nothing_script settles raises resolve reject :
  nothing (script_executor host userFn settles raises resolve reject).
Proof using Hnone.
  apply respects_bind.
  - apply respects_for_of. intros s.
    apply respects_bind; [apply nothing_call|intros; apply respects_ret].
  - intros _. destruct raises; [apply respects_throw|apply respects_ret].
Qed.

Lemma nothing_perform op w :
  quiescent w -> idle w (perform host userFn op w).
Proof using Hnone.
  intros [Hn Ht]. destruct op; cbn [perform].
  - apply nothing_constructor. intros resolve reject. apply nothing_script.
  - apply nothing_then.
  - apply nothing_call.
  - apply nothing_resolve.
  - apply nothing_reject.
  - apply nothing_all.
  - apply nothing_allSettled.
  - by cbn.
  - unfold tick. by rewrite Hn, Ht.
Qed.

(** X11.  On a host where the adapter reaches no facility (a page where
    [MutationObserver] is defined, or where [process] is not declared),
    whatever the program does from a world where nothing is waiting:
    nothing is ever handed to the host and the host never runs a
    callback, so no continuation given to [then] is ever called. *)
Theorem no_facility_no_callback ops w :
  quiescent w ->
  let w' := run_ops host userFn ops w in
  quiescent w' /\ invoked w' = invoked w.
Proof using Hnone.
  revert w. induction ops as [|op ops IH]; intros w Hq; [done|].
  cbn [run_ops fold_left].
  destruct (nothing_perform op w Hq) as (Hn & Ht & Hi).
  destruct Hq as [Hqn Hqt].
  destruct (IH (perform host userFn op w)) as [Hq' Hi'].
  { split; congruence. }
  split; [done|]. cbn zeta in Hi'. unfold run_ops in Hi'. congruence.
Qed.

End NoFacility.

(** ** [all] on promises in any state *)

Lemma settle_entry_pending w0 i p v a :
  heap w0 !! p = Some (mkPromise PENDING v []) -> settle_entry w0 i p a = a.
Proof. intros Hp. unfold settle_entry. by rewrite Hp. Qed.

Lemma settle_entry_settled w0 i p st v a :
  heap w0 !! p = Some (mkPromise st v []) -> st <> PENDING ->
  settle_entry w0 i p a = settle_slot i st v a.
Proof.
  intros Hp Hst. unfold settle_entry. rewrite Hp. cbn [_state _value].
  by rewrite decide_False.
Qed.

Lemma settle_slot_other i st v a k :
  k <> i -> slots (settle_slot i st v a) !! k = slots a !! k.
Proof.
  intros Hne. unfold settle_slot.
  destruct (slots a !! i) as [[[] v0 ph]|]; try done.
  abs_simpl. by rewrite list_lookup_insert_ne.
Qed.

Lemma settle_entry_other w0 i p a k :
  k <> i -> slots (settle_entry w0 i p a) !! k = slots a !! k.
Proof.
  intros Hne. unfold settle_entry. destruct (heap w0 !! p) as [o|]; [|done].
  case_decide; [done|]. by apply settle_slot_other.
Qed.

Lemma enter_other w0 rest : forall j a k,
  k < j \/ j + length rest <= k ->
  slots (enter w0 j rest a) !! k = slots a !! k.
Proof.
  induction rest as [|p rest IH]; intros j a k Hk; cbn [enter]; [done|].
  cbn [length] in Hk. rewrite IH by lia. apply settle_entry_other. lia.
Qed.

Lemma enter_app w0 l1 l2 : forall j a,
  enter w0 j (l1 ++ l2) a = enter w0 (j + length l1) l2 (enter w0 j l1 a).
Proof.
  induction l1 as [|p l1 IH]; intros j a; cbn [enter app length].
  - by rewrite Nat.add_0_r.
  - rewrite IH. f_equal. lia.
Qed.

Lemma consistent_settle_entry w0 c n i p a :
  consistent c n a -> consistent c n (settle_entry w0 i p a).
Proof.
  intros Hc. unfold settle_entry. destruct (heap w0 !! p) as [o|]; [|done].
  case_decide; [done|]. by apply consistent_settle.
Qed.

Lemma consistent_enter w0 c n rest : forall j a,
  consistent c n a -> consistent c n (enter w0 j rest a).
Proof.
  induction rest as [|p rest IH]; intros j a Hc; cbn [enter]; [done|].
  by apply IH, consistent_settle_entry.
Qed.

Lemma first_rejection_enter w0 c n i e rest : forall j a,
  consistent c n a -> first_rejection i e a ->
  first_rejection i e (enter w0 j rest a).
Proof.
  induction rest as [|p rest IH]; intros j a Hc Hf; cbn [enter]; [done|].
  apply IH; [by apply consistent_settle_entry|].
  unfold settle_entry. destruct (heap w0 !! p) as [o|]; [|done].
  case_decide; [done|]. by eapply first_rejection_settle.
Qed.

(** Inputs that are not rejected leave no rejected slot. *)
Lemma enter_not_rejected w0 rest : forall j a,
  (forall p o, p ∈ rest -> heap w0 !! p = Some o -> _state o <> REJECTED) ->
  (forall k s, slots a !! k = Some s -> slot_state s <> REJECTED) ->
  forall k s, slots (enter w0 j rest a) !! k = Some s ->
              slot_state s <> REJECTED.
Proof.
  induction rest as [|p rest IH]; intros j a Hrest Ha; cbn [enter]; [done|].
  apply IH; [intros q o Hq; apply Hrest; by right|].
  intros k s. unfold settle_entry.
  destruct (heap w0 !! p) as [o|] eqn:Hp; [|by apply Ha].
  case_decide; [by apply Ha|]. unfold settle_slot.
  destruct (slots a !! j) as [[[] v0 ph]|] eqn:Hj; try by apply Ha.
  abs_simpl. destruct (decide (k = j)) as [->|Hne].
  - rewrite list_lookup_insert_eq by (by eapply lookup_lt_Some).
    intros [= <-]. cbn. apply (Hrest p o); [by left|done].
  - rewrite list_lookup_insert_ne by done. apply Ha.
Qed.

(** The first of the inputs that are rejected when [all] is called. *)
Lemma first_rejection_entry w0 ps c i p e hs :
  ps !! i = Some p -> heap w0 !! p = Some (mkPromise REJECTED e hs) ->
  (forall j q o, j < i -> ps !! j = Some q -> heap w0 !! q = Some o ->
                 _state o <> REJECTED) ->
  first_rejection i e (entry_abs w0 ps c).
Proof.
  intros Hi Hp Hbefore. unfold entry_abs.
  pose proof (consistent_initial w0 ps c) as Hc0.
  replace (enter w0 0 ps (initial_abs w0 ps c))
    with (enter w0 0 (take i ps ++ p :: drop (S i) ps) (initial_abs w0 ps c))
    by (by rewrite take_drop_middle).
  assert (Hlen : length (take i ps) = i).
  { rewrite length_take. apply lookup_lt_Some in Hi. lia. }
  rewrite enter_app, Hlen. cbn [enter Nat.add].
  set (a := enter w0 0 (take i ps) (initial_abs w0 ps c)).
  assert (Hca : consistent c (length ps) a) by (by apply consistent_enter).
  apply (first_rejection_enter _ c (length ps));
    [by apply consistent_settle_entry|].
  unfold settle_entry. rewrite Hp. cbn [_state _value].
  rewrite decide_False by done.
  apply (first_rejection_start c (length ps) i e (initial_value w0 p) 0);
    [done| |].
  - subst a. rewrite enter_other by lia. unfold initial_abs. abs_simpl.
    by rewrite list_lookup_fmap, Hi.
  - subst a. apply enter_not_rejected.
    + intros q o Hq Ho. apply list_elem_of_lookup in Hq as [j Hj].
      apply lookup_take_Some in Hj as [Hj Hlt]. by eapply Hbefore.
    + intros k s. unfold initial_abs. abs_simpl. rewrite list_lookup_fmap.
      destruct (ps !! k); [|done]. by intros [= <-].
Qed.

Section Entering.

Variable host : Host.
Variable userFn : nat -> list Value -> Behaviour.
Variable fac : Facility.
Hypothesis Hfac : facility host = Some fac.

Variable w0 : World.
Variable ps : list ref.
Hypothesis Hnodup : NoDup ps.
Hypothesis Hany : forall p, p ∈ ps ->
  exists st v, heap w0 !! p = Some (mkPromise st v []).

Local Abbreviation r := (length (heap w0)).
Local Abbreviation c := (length (scopes w0)).
Local Abbreviation entered := (all_entered fac w0 ps).

Lemma input_below p : p ∈ ps -> p < r.
Proof using Hany.
  intros Hin. destruct (Hany p Hin) as (st & v & Hp). by eapply lookup_lt_Some.
Qed.

Lemma all_loop_any rest : forall done w a,
  ps = done ++ rest -> entered (length done) w a ->
  exists w',
    for_of (VPromise <$> rest) (fun promise =>
      s <- getScope c;;
      putScope c (mkAllScope (results s) (S (count s)) (fulfilledCount s));;
      q <- MyPromise_resolve host userFn promise;;
      invoke_then host userFn q
        (VAllOnFulfilled (VResolve r) c (count s)) (VReject r);;
      ret tt) w = (Normal tt, w') /\
    entered (length ps) w' (enter w0 (length done) rest a).
Proof using Hfac Hnodup Hany.
  induction rest as [|p rest IH]; intros done w a Hps Hloop.
  { exists w. split; [done|].
    assert (length ps = length done) as -> by (by rewrite Hps, app_nil_r).
    done. }
  set (j := length done) in *.
  destruct Hloop
    as (Hlen & Hsc & Hu & Hq & Hr & Hk & Hres & Hout & Hdone & Hrest & Hframe).
  assert (Hj : ps !! j = Some p).
  { rewrite Hps. subst j. by rewrite lookup_app_r, Nat.sub_diag by lia. }
  assert (Hin : p ∈ ps) by (by eapply list_elem_of_lookup_2).
  assert (Hpr : p < r) by (by apply input_below).
  destruct (Hany p Hin) as (st & v & Hp0).
  destruct (Hrest j p Hj ltac:(lia)) as [Hpw Hsj].
  assert (Hv : initial_value w0 p = v)
    by (unfold initial_value; by rewrite Hp0).
  rewrite Hv in Hsj.
  cbn [fmap list_fmap for_of enter].
  unfold getScope at 1. rewrite bind_eq, bind_eq, Hsc.
  rewrite bind_eq. cbn [putScope results count fulfilledCount].
  cbn [MyPromise_resolve]. rewrite bind_eq. cbn [ret invoke_then].
  rewrite !bind_eq.
  set (w1 := with_scopes _ w).
  assert (Hp1 : heap w1 !! p = Some (mkPromise st v []))
    by (subst w1; wsimpl; by rewrite Hpw).
  assert (Hother : forall i q, ps !! i = Some q -> i <> j -> p <> q).
  { intros i q Hi Hne <-. apply Hne. by eapply NoDup_lookup. }
  destruct (decide (st = PENDING)) as [->|Hst].
  - (* a pending input: its handlers wait *)
    rewrite (settle_entry_pending _ _ _ _ _ Hp0).
    rewrite (then_pending host p _ _ _ _ w1 Hp1). cbn [ret].
    set (w2 := with_registered _ _).
    assert (Hh2 : heap w2
                  = <[p := mkPromise PENDING v (all_handlers r c j)]>
                      (heap w ++ [fresh_promise])).
    { subst w2 w1. wsimpl. unfold all_handlers. by rewrite Hlen. }
    destruct (IH (done ++ [p]) w2 a) as (w' & Hfor & Hloop').
    { by rewrite <- app_assoc. }
    { rewrite length_app. cbn [length]. fold j.
      replace (j + 1) with (S j) by lia.
      split; [rewrite Hh2, length_insert, length_app; cbn; lia|].
      split.
      { subst w2 w1. wsimpl. apply list_lookup_insert_eq.
        by eapply lookup_lt_Some. }
      split; [by subst w2 w1; wsimpl|]. split; [by subst w2 w1; wsimpl|].
      split.
      { rewrite Hh2, list_lookup_insert_ne by lia. by apply lookup_heap_old. }
      do 3 (split; [done|]). split; [|split].
      - intros i q Hi Hlt. rewrite Hh2.
        destruct (decide (i = j)) as [->|Hne].
        + rewrite Hj in Hi. injection Hi as <-.
          exists (mkSlot PENDING v 0). split; [done|].
          cbn [slot_state slot_value]. rewrite decide_True by done.
          rewrite list_lookup_insert_eq by (rewrite length_app; cbn; lia).
          split; [done|]. rewrite list_lookup_insert_ne by lia.
          replace (r + 1 + j) with (length (heap w)) by lia.
          apply lookup_heap_snoc.
        + destruct (Hdone i q Hi ltac:(lia)) as (s & Hs & H1 & H2).
          exists s. split; [done|].
          assert (Hqr : q < r)
            by (apply input_below; by eapply list_elem_of_lookup_2).
          rewrite !list_lookup_insert_ne by (try lia; by eapply Hother).
          split; by apply lookup_heap_old.
      - intros i q Hi Hle. rewrite Hh2.
        destruct (Hrest i q Hi ltac:(lia)) as [H1 H2]. split; [|done].
        rewrite list_lookup_insert_ne by (eapply Hother; [done|lia]).
        rewrite <- H1. apply lookup_app_l.
        assert (Hqr : q < r)
          by (apply input_below; by eapply list_elem_of_lookup_2).
        lia.
      - intros x Hx Hnot. rewrite Hh2, <- Hframe by done.
        rewrite list_lookup_insert_ne by (by intros ->).
        apply lookup_app_l. lia. }
    rewrite length_app in Hloop'. cbn [length] in Hloop'. fold j in Hloop'.
    replace (j + 1) with (S j) in Hloop' by lia.
    exists w'. split; [|done]. exact Hfor.
  - (* a settled input: its callbacks go to the facility *)
    rewrite (settle_entry_settled _ _ _ _ _ _ Hp0 Hst).
    rewrite (then_settled host fac Hfac p st v [] _ _ w1 Hp1 Hst). cbn [ret app].
    set (w2 := enqueue _ _ _).
    assert (Hh2 : heap w2
                  = <[p := mkPromise st v []]> (heap w ++ [fresh_promise]))
      by (by subst w2 w1; wsimpl).
    assert (Ha2 : settle_slot j st v a
                  = mkAbs (<[j := mkSlot st v 1]> (slots a))
                          (aqueue a ++ [(j, false); (j, true)])
                          (acount a) (aresults a) (aout a)).
    { unfold settle_slot. by rewrite Hsj. }
    destruct (IH (done ++ [p]) w2 (settle_slot j st v a))
      as (w' & Hfor & Hloop').
    { by rewrite <- app_assoc. }
    { rewrite length_app. cbn [length]. fold j.
      replace (j + 1) with (S j) by lia. rewrite Ha2.
      split; [rewrite Hh2, length_insert, length_app; cbn; lia|].
      split.
      { subst w2 w1. wsimpl. apply list_lookup_insert_eq.
        by eapply lookup_lt_Some. }
      split; [by subst w2 w1; wsimpl|]. split.
      { subst w2 w1. wsimpl. abs_simpl. rewrite map_app, Hq. f_equal.
        rewrite <- (all_tasks_of_input ps r c j p Hj).
        unfold all_handlers. by rewrite Hlen. }
      split.
      { rewrite Hh2, list_lookup_insert_ne by lia. by apply lookup_heap_old. }
      abs_simpl. do 3 (split; [done|]). split; [|split].
      - intros i q Hi Hlt. rewrite Hh2.
        destruct (decide (i = j)) as [->|Hne].
        + rewrite Hj in Hi. injection Hi as <-.
          exists (mkSlot st v 1).
          rewrite list_lookup_insert_eq by (by eapply lookup_lt_Some).
          split; [done|]. cbn [slot_state slot_value].
          rewrite decide_False by done.
          rewrite list_lookup_insert_eq by (rewrite length_app; cbn; lia).
          split; [done|]. rewrite list_lookup_insert_ne by lia.
          replace (r + 1 + j) with (length (heap w)) by lia.
          apply lookup_heap_snoc.
        + destruct (Hdone i q Hi ltac:(lia)) as (s & Hs & H1 & H2).
          exists s. rewrite list_lookup_insert_ne by done. split; [done|].
          assert (Hqr : q < r)
            by (apply input_below; by eapply list_elem_of_lookup_2).
          rewrite !list_lookup_insert_ne by (try lia; by eapply Hother).
          split; by apply lookup_heap_old.
      - intros i q Hi Hle. rewrite Hh2.
        destruct (Hrest i q Hi ltac:(lia)) as [H1 H2].
        split; [|by rewrite list_lookup_insert_ne by lia].
        rewrite list_lookup_insert_ne by (eapply Hother; [done|lia]).
        rewrite <- H1. apply lookup_app_l.
        assert (Hqr : q < r)
          by (apply input_below; by eapply list_elem_of_lookup_2).
        lia.
      - intros x Hx Hnot. rewrite Hh2, <- Hframe by done.
        rewrite list_lookup_insert_ne by (by intros ->).
        apply lookup_app_l. lia. }
    rewrite length_app in Hloop'. cbn [length] in Hloop'. fold j in Hloop'.
    replace (j + 1) with (S j) in Hloop' by lia.
    exists w'. split; [|done]. exact Hfor.
Qed.

(** [all] returns the new promise [r]; the world then shows the machine
    as the inputs have left it. *)
Lemma all_establishes_any :
  quiescent w0 -> ps <> [] ->
  exists w1,
    MyPromise_all host userFn (VPromise <$> ps) w0 = (Normal (VPromise r), w1) /\
    represents fac ps r c w1 (entry_abs w0 ps c) /\
    (forall x, x < r -> x ∉ ps -> heap w1 !! x = heap w0 !! x).
Proof using Hfac Hnodup Hany.
  intros Hquiet Hne. apply (queued_quiescent fac) in Hquiet as [Hq0 Hu0].
  unfold MyPromise_all.
  set (wa := with_heap (fun h => h ++ [fresh_promise]) w0).
  set (wb := with_scopes (fun l => l ++ [mkAllScope [] 0 0]) wa).
  destruct (all_loop_any ps [] wb (initial_abs w0 ps c) eq_refl)
    as (w' & Hfor & Hloop).
  { split; [subst wb wa; wsimpl; rewrite length_app; cbn; lia|].
    split.
    { subst wb wa. wsimpl. by rewrite lookup_app_r, Nat.sub_diag by lia. }
    split; [by subst wb wa; wsimpl|].
    split; [by subst wb wa; wsimpl; rewrite Hq0|].
    split; [subst wb wa; wsimpl; apply lookup_heap_snoc|].
    unfold initial_abs. abs_simpl. do 2 (split; [done|]).
    split; [by destruct ps|].
    split; [intros i p _ Hlt; cbn in Hlt; lia|].
    split.
    - intros i p Hi _. split.
      + subst wb wa. wsimpl. apply lookup_app_l.
        apply input_below. by eapply list_elem_of_lookup_2.
      + by rewrite list_lookup_fmap, Hi.
    - intros x Hx _. subst wb wa. wsimpl. by apply lookup_app_l. }
  cbn [length] in Hloop. fold (entry_abs w0 ps c) in Hloop.
  destruct Hloop
    as (Hlen & Hsc & Hu & Hq & Hr & Hk & Hres & Hout & Hdone & _ & Hframe).
  exists w'. split; [|split; [|exact Hframe]].
  { erewrite bind_Normal; [reflexivity|]. apply constructor_Normal.
    fold wa. unfold try_catch. unfold newScope at 1.
    rewrite bind_eq. fold wa wb. change (length (scopes wa)) with c.
    rewrite (bind_Normal _ _ _ _ _ Hfor).
    unfold getScope at 1. rewrite bind_eq, Hsc. cbn [count].
    destruct (Nat.eqb_spec (length ps) 0) as [Hz|Hnz]; [|done].
    by apply nil_length_inv in Hz. }
  split; [done|]. split; [done|]. rewrite Hk, Hres, Hout. cbn [fst snd].
  split; [done|]. split; [done|].
  intros i p Hi. destruct (Hdone i p Hi) as (s & Hs & H1 & H2);
    [by eapply lookup_lt_Some|].
  exists s. split; [done|]. split; [done|]. by eexists _, _.
Qed.

End Entering.

(** X10.  [all] called on promises [ps], no two the same, each pending
    or settled already, and whatever the order in which the pending
    inputs are settled and the host runs callbacks afterwards.  The host
    can always finish the callbacks.  When it has, and every input is
    fulfilled, the result is fulfilled with the array of the values in
    the order of the inputs.  When an input was rejected before the call,
    the result is rejected with the reason of the first such input in the
    order of the inputs, whatever happens to the others.  And when no
    input was rejected before a pending input is rejected, the result is
    rejected with the reason of that input. *)
Theorem all_takes_promises_in_any_state host userFn fac w0 ps :
  facility host = Some fac -> quiescent w0 -> NoDup ps ->
  (forall p, p ∈ ps -> exists st v, heap w0 !! p = Some (mkPromise st v [])) ->
  let r := length (heap w0) in
  let c := length (scopes w0) in
  exists w1,
    MyPromise_all host userFn (VPromise <$> ps) w0 = (Normal (VPromise r), w1) /\
    forall ops, Forall (input_event ps) ops ->
      let w2 := run_ops host userFn ops w1 in
      (exists w3,
         run_loop host userFn (length (queued fac w2)) w2 = Some (Normal tt, w3) /\
         quiescent w3 /\
         w3 = run_ops host userFn
                (ops ++ replicate (length (queued fac w2)) OpTick) w1) /\
      (quiescent w2 ->
       forall vs,
         Forall2 (fun p v => exists hs,
                    heap w2 !! p = Some (mkPromise FULFILLED v hs)) ps vs ->
         heap w2 !! r = Some (mkPromise FULFILLED (VArray c) []) /\
         results <$> scopes w2 !! c = Some (Some <$> vs)) /\
      (quiescent w2 ->
       forall i p e,
         ps !! i = Some p -> heap w0 !! p = Some (mkPromise REJECTED e []) ->
         (forall j q o, j < i -> ps !! j = Some q -> heap w0 !! q = Some o ->
                        _state o <> REJECTED) ->
         heap w2 !! r = Some (mkPromise REJECTED e [])) /\
      (quiescent w2 ->
       forall ops1 p args ops2,
         ops = ops1 ++ OpCall (VReject p) args :: ops2 -> p ∈ ps ->
         (forall q o, q ∈ ps ->
            heap (run_ops host userFn ops1 w1) !! q = Some o ->
            _state o <> REJECTED) ->
         (exists o, heap (run_ops host userFn ops1 w1) !! p = Some o /\
                    _state o = PENDING) ->
         heap w2 !! r = Some (mkPromise REJECTED (arg0 args) [])).
Proof.
  intros Hfac Hquiet Hnodup Hany r c. subst r c.
  assert (Hbelow : forall p, p ∈ ps -> p < length (heap w0)).
  { intros p Hin. destruct (Hany p Hin) as (st & v & Hv).
    by eapply lookup_lt_Some. }
  assert (Hest : exists w1,
            MyPromise_all host userFn (VPromise <$> ps) w0
            = (Normal (VPromise (length (heap w0))), w1) /\
            represents fac ps (length (heap w0)) (length (scopes w0)) w1
              (entry_abs w0 ps (length (scopes w0)))).
  { destruct ps as [|p0 ps'] eqn:Hps.
    - apply (all_establishes host userFn fac Hfac w0 [] Hnodup); [|done].
      intros p Hp. by apply elem_of_nil in Hp.
    - destruct (all_establishes_any host userFn fac Hfac w0 _ Hnodup Hany)
        as (w1 & H1 & H2 & _); [done..|].
      by exists w1. }
  destruct Hest as (w1 & Hall & Hrep1).
  exists w1. split; [done|]. intros ops Hev w2.
  assert (Hc1 : consistent (length (scopes w0)) (length ps)
                  (entry_abs w0 ps (length (scopes w0))))
    by (apply consistent_enter, consistent_initial).
  destruct (represents_run_ops host userFn fac Hfac ps _ _ Hnodup Hbelow ops
              w1 _ Hev Hrep1 Hc1) as [Hrep2 Hc2].
  fold w2 in Hrep2.
  set (a2 := fold_left (fun a op => astep ps (length (scopes w0)) op a) ops
               (entry_abs w0 ps (length (scopes w0)))) in *.
  assert (Hqlen : length (queued fac w2) = length (aqueue a2)).
  { destruct Hrep2 as (_ & Hq & _). by rewrite Hq, length_map. }
  assert (Hempty : quiescent w2 -> aqueue a2 = []).
  { intros Hq2. apply (queued_quiescent fac) in Hq2 as [Hq2 _].
    rewrite Hq2 in Hqlen. by destruct (aqueue a2). }
  assert (Hslot : forall i s, slots a2 !! i = Some s ->
            exists p, ps !! i = Some p /\
              heap w2 !! p
              = Some (mkPromise (slot_state s) (slot_value s)
                        (if decide (slot_state s = PENDING)
                         then all_handlers (length (heap w0))
                                (length (scopes w0)) i
                         else []))).
  { intros i s Hi. destruct Hc2 as (Hlen & _).
    destruct Hrep2 as (_ & _ & _ & _ & Hsl).
    destruct (lookup_lt_is_Some_2 ps i) as [p Hp].
    { rewrite <- Hlen. by eapply lookup_lt_Some. }
    exists p. split; [done|]. destruct (Hsl _ _ Hp) as (s' & Hs' & Hh & _).
    rewrite Hi in Hs'. by injection Hs' as <-. }
  split; [|split; [|split]].
  - destruct (represents_drain host userFn fac Hfac ps _ _ Hnodup Hbelow
                _ w2 a2 Hrep2 Hc2 (eq_sym Hqlen)) as (w3 & Hticks & Hq3 & Hrun).
    exists w3. split; [by apply ticks_run_loop|]. split; [done|].
    by rewrite run_ops_app.
  - intros Hq2 vs Hvs.
    assert (Hful : forall i s, slots a2 !! i = Some s ->
              slot_state s = FULFILLED /\ vs !! i = Some (slot_value s)).
    { intros i s Hi. destruct (Hslot _ _ Hi) as (p & Hp & Hh).
      destruct (Forall2_lookup_l _ _ _ _ _ Hvs Hp) as (v & Hv & hs & Hh').
      rewrite Hh in Hh'. injection Hh' as -> -> _. done. }
    destruct (all_fulfilled_result _ _ a2 Hc2 (Hempty Hq2)) as [Hout Hres].
    { intros i s Hi. by destruct (Hful _ _ Hi). }
    destruct Hrep2 as (_ & _ & Hsc & Hr & _). rewrite Hout in Hr.
    split; [done|]. rewrite Hsc. cbn. f_equal. rewrite Hres.
    apply list_eq. intros i. rewrite !list_lookup_fmap.
    destruct (slots a2 !! i) as [s|] eqn:Hi.
    + destruct (Hful _ _ Hi) as [_ ->]. done.
    + cbn. rewrite (proj2 (lookup_ge_None vs i)); [done|].
      apply lookup_ge_None in Hi. destruct Hc2 as (Hlen & _).
      apply Forall2_length in Hvs. lia.
  - intros Hq2 i p e Hi Hp Hbefore.
    pose proof (first_rejection_entry w0 ps (length (scopes w0)) i p e []
                  Hi Hp Hbefore) as Hstart.
    assert (Hfirst : first_rejection i e a2)
      by (by apply first_rejection_fold).
    pose proof (first_rejection_done _ _ _ Hfirst (Hempty Hq2)) as Hout.
    destruct Hrep2 as (_ & _ & _ & Hr & _). by rewrite Hout in Hr.
  - intros Hq2 ops1 p args ops2 Hops Hin Hnone (o & Ho & Hpend).
    rewrite Hops in Hev. apply Forall_app in Hev as [Hev1 Hev2].
    apply Forall_cons in Hev2 as [_ Hev2].
    destruct (represents_run_ops host userFn fac Hfac ps _ _ Hnodup Hbelow ops1
                w1 _ Hev1 Hrep1 Hc1) as [Hrepm Hcm].
    set (wm := run_ops host userFn ops1 w1) in *.
    set (am := fold_left (fun a op => astep ps (length (scopes w0)) op a) ops1
                 (entry_abs w0 ps (length (scopes w0)))) in *.
    destruct (index_of_Some _ _ Hin) as (i & Hio & Hi).
    assert (Hsm : exists v ph, slots am !! i = Some (mkSlot PENDING v ph)).
    { destruct Hrepm as (_ & _ & _ & _ & Hsl).
      destruct (Hsl _ _ Hi) as ([sst sv sph] & Hs & Hh & _).
      rewrite Ho in Hh. injection Hh as Hh. cbn in Hh.
      destruct o as [ost ov ohs]. cbn in Hpend. subst ost.
      injection Hh as <- _ _. by exists sv, sph. }
    destruct Hsm as (v & ph & Hsm).
    assert (Hnorej : forall j s, slots am !! j = Some s ->
              slot_state s <> REJECTED).
    { intros j s Hj. destruct Hcm as (Hlen & _).
      destruct Hrepm as (_ & _ & _ & _ & Hsl).
      destruct (lookup_lt_is_Some_2 ps j) as [q Hq].
      { rewrite <- Hlen. by eapply lookup_lt_Some. }
      destruct (Hsl _ _ Hq) as (s' & Hs' & Hh & _).
      rewrite Hj in Hs'. injection Hs' as <-.
      apply (Hnone q _ (list_elem_of_lookup_2 _ _ _ Hq)) in Hh. done. }
    pose proof (first_rejection_start _ _ i (arg0 args) v ph am Hcm Hsm Hnorej)
      as Hstart.
    assert (Ha2 : a2 = fold_left
                         (fun a op => astep ps (length (scopes w0)) op a) ops2
                         (settle_slot i REJECTED (arg0 args) am)).
    { subst a2 am. rewrite Hops, fold_left_app. cbn [fold_left astep].
      by rewrite Hio. }
    assert (Hfirst : first_rejection i (arg0 args) a2).
    { rewrite Ha2. apply first_rejection_fold; [|done].
      by apply consistent_settle. }
    pose proof (first_rejection_done _ _ _ Hfirst (Hempty Hq2)) as Hout.
    destruct Hrep2 as (_ & _ & _ & Hr & _). by rewrite Hout in Hr.
Qed.

(** ** No operation looks at what is waiting in the host *)

Section Frame.

Variable fac : Facility.

Lemma setq_with_heap f q w :
  with_heap f (setq fac q w) = setq fac q (with_heap f w).
Proof. by destruct fac. Qed.

Lemma setq_with_scopes f q w :
  with_scopes f (setq fac q w) = setq fac q (with_scopes f w).
Proof. by destruct fac. Qed.

Lemma setq_with_registered f q w :
  with_registered f (setq fac q w) = setq fac q (with_registered f w).
Proof. by destruct fac. Qed.

Lemma setq_with_invoked f q w :
  with_invoked f (setq fac q w) = setq fac q (with_invoked f w).
Proof. by destruct fac. Qed.

Lemma setq_enqueue ts q w :
  enqueue fac ts (setq fac q w) = setq fac (q ++ ts) (enqueue fac ts w).
Proof. by destruct fac. Qed.

Lemma setq_setq q q' w : setq fac q (setq fac q' w) = setq fac q w.
Proof. by destruct fac. Qed.

Lemma setq_queued w : setq fac (queued fac w) w = w.
Proof. by destruct fac, w. Qed.

Lemma heap_setq q w : heap (setq fac q w) = heap w.
Proof. by destruct fac. Qed.

Lemma scopes_setq q w : scopes (setq fac q w) = scopes w.
Proof. by destruct fac. Qed.

Lemma invoked_setq q w : invoked (setq fac q w) = invoked w.
Proof. by destruct fac. Qed.

Lemma queued_setq q w : queued fac (setq fac q w) = q.
Proof. by destruct fac. Qed.

Lemma unused_setq q w : unused fac (setq fac q w) = unused fac w.
Proof. by destruct fac. Qed.

(** An operation that leaves alone what is waiting. *)
Lemma appends_none {A} (m : M A) :
  (forall q w, m (setq fac q w) = ((m w).1, setq fac q (m w).2)) ->
  appends fac m.
Proof. intros Hm w. exists []. intros q. by rewrite app_nil_r. Qed.

Lemma appends_ret {A} (a : A) : appends fac (ret a).
Proof. by apply appends_none. Qed.

Lemma appends_throw {A} error : appends fac (@throw A error).
Proof. by apply appends_none. Qed.

Lemma appends_bind {A B} (m : M A) (k : A -> M B) :
  appends fac m -> (forall a, appends fac (k a)) -> appends fac (bind m k).
Proof.
  intros Hm Hk w. destruct (Hm w) as [ts1 H1]. unfold bind.
  destruct (m w) as [[a|error] w1] eqn:Hmw; cbn [fst snd] in H1.
  - destruct (Hk a w1) as [ts2 H2]. exists (ts1 ++ ts2). intros q.
    by rewrite H1, H2, app_assoc.
  - exists ts1. intros q. by rewrite H1.
Qed.

Lemma appends_try_catch {A} (m : M A) (h : Value -> M A) :
  appends fac m -> (forall error, appends fac (h error)) ->
  appends fac (try_catch m h).
Proof.
  intros Hm Hh w. destruct (Hm w) as [ts1 H1]. unfold try_catch.
  destruct (m w) as [[a|error] w1] eqn:Hmw; cbn [fst snd] in H1.
  - exists ts1. intros q. by rewrite H1.
  - destruct (Hh error w1) as [ts2 H2]. exists (ts1 ++ ts2). intros q.
    by rewrite H1, H2, app_assoc.
Qed.

Lemma appends_for_of {A} (xs : list A) (body : A -> M unit) :
  (forall x, appends fac (body x)) -> appends fac (for_of xs body).
Proof.
  intros Hbody. induction xs as [|x rest IH]; cbn [for_of].
  - apply appends_ret.
  - apply appends_bind; [apply Hbody|done].
Qed.

Lemma appends_getPromise p : appends fac (getPromise p).
Proof.
  apply appends_none. intros q w. unfold getPromise. rewrite heap_setq.
  by destruct (heap w !! p).
Qed.

Lemma appends_getScope c : appends fac (getScope c).
Proof.
  apply appends_none. intros q w. unfold getScope. rewrite scopes_setq.
  by destruct (scopes w !! c).
Qed.

Lemma appends_putPromise p o : appends fac (putPromise p o).
Proof.
  apply appends_none. intros q w. unfold putPromise. cbn [fst snd].
  by rewrite setq_with_heap.
Qed.

Lemma appends_newPromise o : appends fac (newPromise o).
Proof.
  apply appends_none. intros q w. unfold newPromise. cbn [fst snd].
  by rewrite setq_with_heap, heap_setq.
Qed.

Lemma appends_putScope c s : appends fac (putScope c s).
Proof.
  apply appends_none. intros q w. unfold putScope. cbn [fst snd].
  by rewrite setq_with_scopes.
Qed.

Lemma appends_newScope s : appends fac (newScope s).
Proof.
  apply appends_none. intros q w. unfold newScope. cbn [fst snd].
  by rewrite setq_with_scopes, scopes_setq.
Qed.

Variable host : Host.
Variable userFn : nat -> list Value -> Behaviour.
Hypothesis Hfac : facility host = Some fac.

Lemma appends_runMicroTask callback : appends fac (runMicroTask host callback).
Proof using Hfac.
  intros w. exists [callback]. intros q.
  rewrite !(runMicroTask_defers host fac Hfac). cbn [fst snd].
  by rewrite setq_enqueue.
Qed.

Lemma appends_pushHandler this e s res rej :
  appends fac (_pushHandler this e s res rej).
Proof.
  unfold _pushHandler. apply appends_bind; [apply appends_getPromise|].
  intros o. apply appends_bind; [apply appends_putPromise|]. intros _.
  apply appends_none. intros q w. cbn [fst snd].
  by rewrite setq_with_registered.
Qed.

Lemma appends_shiftHandlers this : appends fac (shiftHandlers this).
Proof.
  unfold shiftHandlers. apply appends_bind; [apply appends_getPromise|].
  intros o. apply appends_putPromise.
Qed.

Lemma appends_runHandlers this : appends fac (_runHandlers host this).
Proof using Hfac.
  unfold _runHandlers. apply appends_bind; [apply appends_getPromise|].
  intros o. destruct (State_eqb (_state o) PENDING); [apply appends_ret|].
  induction (_handlers o) as [|h rest IH]; cbn [_runHandlers_loop];
    [apply appends_ret|].
  apply appends_bind; [apply appends_runMicroTask|]. intros _.
  apply appends_bind; [apply appends_shiftHandlers|done].
Qed.

Lemma appends_changeState this newState value :
  appends fac (_changeState host this newState value).
Proof using Hfac.
  unfold _changeState. apply appends_bind; [apply appends_getPromise|].
  intros o. destruct (negb (State_eqb (_state o) PENDING)); [apply appends_ret|].
  apply appends_bind; [apply appends_putPromise|]. intros _.
  apply appends_runHandlers.
Qed.

Lemma appends_constructor executor :
  (forall resolve reject, appends fac (executor resolve reject)) ->
  appends fac (constructor host executor).
Proof using Hfac.
  intros Hexec. unfold constructor.
  apply appends_bind; [apply appends_newPromise|].
  intros this. apply appends_bind; [|intros; apply appends_ret].
  apply appends_try_catch; [apply Hexec|].
  intros error. apply appends_changeState.
Qed.

Lemma appends_then this onFulfilled onRejected :
  appends fac (then_ host this onFulfilled onRejected).
Proof using Hfac.
  apply appends_constructor. intros resolve reject.
  repeat (apply appends_bind; [apply appends_pushHandler|intros _]).
  apply appends_runHandlers.
Qed.

Lemma appends_call f : forall args, appends fac (call host userFn f args).
Proof using Hfac.
  induction f; intros args; cbn [call]; try apply appends_throw.
  - apply appends_bind; [|intros _; by apply appends_none].
    apply appends_for_of. intros s. unfold settle, _resolve, _reject.
    destruct (by_reject s); apply appends_changeState.
  - apply appends_bind; [apply appends_changeState|intros; apply appends_ret].
  - apply appends_bind; [apply appends_changeState|intros; apply appends_ret].
  - apply appends_bind; [apply appends_getScope|]. intros s.
    apply appends_bind; [apply appends_putScope|]. intros _.
    destruct (Nat.eqb _ _); [|apply appends_ret].
    apply appends_bind; [apply IHf|intros; apply appends_ret].
  - apply appends_ret.
  - apply appends_ret.
Qed.

Lemma appends_invoke_then obj onFulfilled onRejected :
  appends fac (invoke_then host userFn obj onFulfilled onRejected).
Proof using Hfac.
  destruct obj; cbn [invoke_then]; try apply appends_throw.
  - apply appends_call.
  - apply appends_bind; [apply appends_then|intros; apply appends_ret].
Qed.

Lemma appends_runTask t : appends fac (runTask host userFn t).
Proof using Hfac.
  unfold runTask. apply appends_bind; [apply appends_getPromise|]. intros o.
  destruct (negb _); [apply appends_ret|].
  destruct (negb _).
  - apply appends_bind; [|intros; apply appends_ret].
    destruct (State_eqb _ _); apply appends_call.
  - apply appends_try_catch.
    + apply appends_bind; [apply appends_call|]. intros result.
      destruct (isPromise result);
        (apply appends_bind; [|intros; apply appends_ret]);
        [apply appends_invoke_then|apply appends_call].
    + intros error.
      apply appends_bind; [apply appends_call|intros; apply appends_ret].
Qed.

Lemma appends_resolve data : appends fac (MyPromise_resolve host userFn data).
Proof using Hfac.
  assert (Hnew : appends fac
            (p <- constructor host (fun resolve reject =>
                    if isPromise data then
                      invoke_then host userFn data resolve reject;; ret tt
                    else
                      call host userFn resolve [data];; ret tt);;
             ret (VPromise p))).
  { apply appends_bind; [|intros; apply appends_ret].
    apply appends_constructor. intros resolve reject.
    destruct (isPromise data);
      (apply appends_bind; [|intros; apply appends_ret]);
      [apply appends_invoke_then|apply appends_call]. }
  destruct data; try exact Hnew. apply appends_ret.
Qed.

Lemma appends_reject reason : appends fac (MyPromise_reject host userFn reason).
Proof using Hfac.
  apply appends_bind; [|intros; apply appends_ret].
  apply appends_constructor. intros resolve reject.
  apply appends_bind; [apply appends_call|intros; apply appends_ret].
Qed.

Lemma appends_all proms : appends fac (MyPromise_all host userFn proms).
Proof using Hfac.
  apply appends_bind; [|intros; apply appends_ret].
  apply appends_constructor. intros resolve reject.
  apply appends_try_catch.
  - apply appends_bind; [apply appends_newScope|]. intros c.
    apply appends_bind.
    + apply appends_for_of. intros promise.
      apply appends_bind; [apply appends_getScope|]. intros s.
      apply appends_bind; [apply appends_putScope|]. intros _.
      apply appends_bind; [apply appends_resolve|]. intros q.
      apply appends_bind; [apply appends_invoke_then|].
      intros; apply appends_ret.
    + intros _. apply appends_bind; [apply appends_getScope|]. intros s.
      destruct (Nat.eqb _ _); [|apply appends_ret].
      apply appends_bind; [apply appends_call|intros; apply appends_ret].
  - intros error.
    apply appends_bind; [apply appends_call|intros; apply appends_ret].
Qed.

Lemma appends_allSettled proms :
  appends fac (MyPromise_allSettled host userFn proms).
Proof using Hfac.
  apply appends_bind; [|intros; apply appends_all].
  generalize (@nil Value). induction proms as [|p rest IH]; intros ps;
    cbn [allSettled_loop]; [apply appends_ret|].
  apply appends_bind; [apply appends_resolve|]. intros q.
  apply appends_bind; [apply appends_invoke_then|]. intros d. apply IH.
Qed.

Lemma appends_script settles raises resolve reject :
  appends fac (script_executor host userFn settles raises resolve reject).
Proof using Hfac.
  apply appends_bind.
  - apply appends_for_of. intros s.
    apply appends_bind; [apply appends_call|intros; apply appends_ret].
  - intros _. destruct raises; [apply appends_throw|apply appends_ret].
Qed.

(** X12.  No operation of the engine looks at the callbacks that are
    waiting in the host, takes one away or changes their order.  Whatever
    is waiting when the program constructs a promise, calls [then], a
    capability or another function, or one of the static combinators: the
    operation does the same to the promises, and it puts the same
    callbacks, in the same order, behind those that are waiting.  The
    same holds of a callback when the host runs it. *)
Theorem operations_only_append :
  (forall op w, op <> OpTick ->
     exists ts, forall q,
       perform host userFn op (setq fac q w)
       = setq fac (q ++ ts) (perform host userFn op w)) /\
  (forall t w,
     exists ts, forall q,
       runTask host userFn t (setq fac q w)
       = ((runTask host userFn t w).1,
          setq fac (q ++ ts) (runTask host userFn t w).2)).
Proof using Hfac.
  split; [|intros t; apply appends_runTask].
  assert (Hsnd : forall A (m : M A), appends fac m ->
            forall w, exists ts, forall q,
              (m (setq fac q w)).2 = setq fac (q ++ ts) (m w).2).
  { intros A m Hm w. destruct (Hm w) as [ts Hts]. exists ts. intros q.
    by rewrite Hts. }
  intros op w Hop. destruct op; cbn [perform]; try done; apply Hsnd.
  - apply appends_constructor. intros resolve reject. apply appends_script.
  - apply appends_then.
  - apply appends_call.
  - apply appends_resolve.
  - apply appends_reject.
  - apply appends_all.
  - apply appends_allSettled.
  - apply appends_throw.
Qed.

End Frame.

(** ** [allSettled] *)

Lemma input_part_app q1 q2 :
  input_part (q1 ++ q2) = input_part q1 ++ input_part q2.
Proof.
  induction q1 as [|[i b|i b] q1 IH]; cbn [app input_part]; [done| |done].
  by rewrite IH.
Qed.

Lemma all_part_app q1 q2 : all_part (q1 ++ q2) = all_part q1 ++ all_part q2.
Proof.
  induction q1 as [|[i b|i b] q1 IH]; cbn [app all_part]; [done|done|].
  by rewrite IH.
Qed.

Lemma atick_queue c n a : aqueue (atick c n a) = tail (aqueue a).
Proof.
  unfold atick. destruct (aqueue a) as [|[i b] q] eqn:Haq; [by rewrite Haq|].
  destruct (slots a !! i); [|done]. destruct b; [done|]. by case_decide.
Qed.

(** A tick of the machine of [all] moves phases only. *)
Lemma atick_slot c n a k t' :
  slots (atick c n a) !! k = Some t' ->
  exists t, slots a !! k = Some t /\
            slot_state t' = slot_state t /\ slot_value t' = slot_value t.
Proof.
  unfold atick. destruct (aqueue a) as [|[i b] q]; [by exists t'|].
  destruct (slots a !! i) as [s|] eqn:Hi; [|by exists t'].
  assert (Hin : slots (mkAbs (<[i := next_phase s]> (slots a)) q (acount a)
                         (aresults a) (aout a)) !! k = Some t' ->
                exists t, slots a !! k = Some t /\
                  slot_state t' = slot_state t /\ slot_value t' = slot_value t).
  { abs_simpl. destruct (decide (k = i)) as [->|Hne].
    - rewrite list_lookup_insert_eq by (by eapply lookup_lt_Some).
      intros [= <-]. by exists s.
    - rewrite list_lookup_insert_ne by done. by exists t'. }
  destruct b; [exact Hin|]. case_decide; exact Hin.
Qed.

Lemma atick_slot_inv c n a k t :
  slots a !! k = Some t ->
  exists t', slots (atick c n a) !! k = Some t' /\
             slot_state t' = slot_state t /\ slot_value t' = slot_value t.
Proof.
  intros Hk. unfold atick. destruct (aqueue a) as [|[i b] q]; [by exists t|].
  destruct (slots a !! i) as [s|] eqn:Hi; [|by exists t].
  assert (Hin : exists t',
            slots (mkAbs (<[i := next_phase s]> (slots a)) q (acount a)
                     (aresults a) (aout a)) !! k = Some t' /\
            slot_state t' = slot_state t /\ slot_value t' = slot_value t).
  { abs_simpl. destruct (decide (k = i)) as [->|Hne].
    - rewrite list_lookup_insert_eq by (by eapply lookup_lt_Some).
      rewrite Hi in Hk. injection Hk as <-. by exists (next_phase s).
    - rewrite list_lookup_insert_ne by done. by exists t. }
  destruct b; [exact Hin|]. case_decide; exact Hin.
Qed.

Lemma settle_slot_pending i st v a v0 ph :
  slots a !! i = Some (mkSlot PENDING v0 ph) ->
  settle_slot i st v a
  = mkAbs (<[i := mkSlot st v 1]> (slots a))
          (aqueue a ++ [(i, false); (i, true)])
          (acount a) (aresults a) (aout a).
Proof. intros Hi. unfold settle_slot. by rewrite Hi. Qed.

Lemma delivered_early s : slot_phase s < 2 -> delivered s = false.
Proof.
  intros H. unfold delivered.
  rewrite (bool_decide_false (2 <= _)), (bool_decide_false (_ = 3)) by lia.
  by rewrite !andb_false_r.
Qed.

Lemma consistent2_settle_input c n i st v m :
  consistent2 c n m -> st <> PENDING -> consistent2 c n (settle_input i st v m).
Proof.
  intros (Hc & Hlen & Ha & Hq & Hok & Hlink) Hst. unfold settle_input.
  destruct (inputs m !! i) as [[[] v0 ph]|] eqn:Hi; try done.
  assert (Hph : ph = 0) by (by apply (Hok _ _ Hi)). subst ph.
  assert (Hilt : i < length (inputs m)) by (by eapply lookup_lt_Some).
  unfold consistent2. cbn [inputs inner equeue].
  split; [done|]. split; [by rewrite length_insert|].
  split; [by rewrite all_part_app, app_nil_r|].
  split; [|split].
  - intros j. rewrite input_part_app, filter_app, Hq. cbn [input_part].
    destruct (decide (j = i)) as [->|Hne].
    + rewrite Hi, list_lookup_insert_eq by done. by rewrite filter_pair_own.
    + rewrite list_lookup_insert_ne by done.
      by rewrite filter_pair_other, app_nil_r.
  - intros j s Hj. destruct (decide (j = i)) as [->|Hne].
    + rewrite list_lookup_insert_eq in Hj by done. injection Hj as <-. cbn.
      split; [split; [done|lia]|lia].
    + rewrite list_lookup_insert_ne in Hj by done. by eapply Hok.
  - intros j s Hj. destruct (decide (j = i)) as [->|Hne].
    + rewrite list_lookup_insert_eq in Hj by done. injection Hj as <-.
      destruct (Hlink _ _ Hi) as (t & Ht & Hd).
      rewrite delivered_early in Hd by (cbn; lia).
      exists t. split; [done|]. by rewrite delivered_early by (cbn; lia).
    + rewrite list_lookup_insert_ne in Hj by done. by apply Hlink.
Qed.

(** The first callback, when it is one of an input. *)
Lemma input_head c n m i b q :
  consistent2 c n m -> equeue m = EInput i b :: q ->
  exists s, inputs m !! i = Some s /\ slot_phase s = (if b then 2 else 1) /\
            slot_state s <> PENDING /\ i < n /\
            filter (fun x : nat * bool => x.1 = i) (input_part q)
            = phase_queue i (S (slot_phase s)).
Proof.
  intros (_ & Hlen & _ & Hq & Hok & _) Haq. specialize (Hq i).
  rewrite Haq in Hq. cbn [input_part] in Hq.
  rewrite filter_cons_True in Hq by done.
  destruct (inputs m !! i) as [s|] eqn:Hi; [|done].
  exists s. destruct (Hok _ _ Hi) as [Hpend Hle].
  assert (Hilt : i < n) by (rewrite <- Hlen; by eapply lookup_lt_Some).
  destruct (slot_phase s) as [|[|[|ph]]] eqn:Hph; cbn in Hq; try done.
  - injection Hq as -> Hq. split; [done|]. split; [done|].
    split; [intros Hp; apply Hpend in Hp; lia|]. done.
  - injection Hq as -> Hq. split; [done|]. split; [done|].
    split; [intros Hp; apply Hpend in Hp; lia|]. done.
Qed.

Lemma delivered_next s (b : bool) :
  slot_phase s = (if b then 2 else 1) -> slot_state s <> PENDING ->
  delivered s = (if b then bool_decide (slot_state s = FULFILLED) else false) /\
  delivered (next_phase s)
  = (if b then true else bool_decide (slot_state s = FULFILLED)).
Proof.
  destruct s as [st v ph]. cbn [slot_phase slot_state next_phase].
  intros -> Hst. unfold delivered. cbn [slot_phase slot_state].
  by destruct b, st.
Qed.

Lemma consistent2_tick2 c n m : consistent2 c n m -> consistent2 c n (tick2 c n m).
Proof.
  intros Hm. unfold tick2.
  destruct (equeue m) as [|[i b|i b] q] eqn:Hq; [done| |].
  - destruct (input_head _ _ _ _ _ _ Hm Hq) as (s & Hi & Hph & Hnp & Hin & Hfil).
    destruct Hm as (Hc & Hlen & Ha & Hqf & Hok & Hlink). rewrite Hi.
    rewrite Hq in Ha, Hqf. cbn [all_part input_part] in Ha, Hqf.
    assert (Hilt : i < length (inputs m)) by (by eapply lookup_lt_Some).
    assert (Hfilter : forall j,
              filter (fun x : nat * bool => x.1 = j) (input_part q)
              = match <[i := next_phase s]> (inputs m) !! j with
                | Some s' => phase_queue j (slot_phase s')
                | None => []
                end).
    { intros j. destruct (decide (j = i)) as [->|Hne].
      - by rewrite list_lookup_insert_eq by done.
      - rewrite list_lookup_insert_ne by done. rewrite <- Hqf.
        by rewrite filter_cons_False by (cbn; congruence). }
    assert (Hok' : forall j s', <[i := next_phase s]> (inputs m) !! j = Some s' ->
              (slot_state s' = PENDING <-> slot_phase s' = 0) /\
              slot_phase s' <= 3).
    { intros j s' Hj. destruct (decide (j = i)) as [->|Hne].
      - rewrite list_lookup_insert_eq in Hj by done. injection Hj as <-.
        cbn. rewrite Hph. split; [split; [done|lia]|destruct b; lia].
      - rewrite list_lookup_insert_ne in Hj by done. by eapply Hok. }
    destruct (delivered_next s b Hph Hnp) as [Hd0 Hd1].
    destruct (Hlink _ _ Hi) as (t & Ht & Hd).
    destruct (delivers s b) eqn:Hdel.
    + assert (Hnot : delivered s = false).
      { rewrite Hd0. unfold delivers in Hdel. destruct b; [|done].
        apply bool_decide_eq_true in Hdel. apply bool_decide_eq_false.
        congruence. }
      rewrite Hnot in Hd.
      assert (Hnow : delivered (next_phase s) = true).
      { rewrite Hd1. destruct b; [done|]. exact Hdel. }
      destruct t as [tst tv tph]. cbn in Hd. subst tst.
      rewrite (settle_slot_pending _ _ _ _ _ _ Ht).
      unfold consistent2. cbn [inputs inner equeue]. abs_simpl.
      split.
      { rewrite <- (settle_slot_pending _ FULFILLED _ _ _ _ Ht).
        by apply consistent_settle. }
      split; [by rewrite length_insert|].
      split; [rewrite all_part_app, Ha; by cbn|].
      split; [intros j; rewrite input_part_app, app_nil_r; apply Hfilter|].
      split; [done|].
      intros j s' Hj. destruct (decide (j = i)) as [->|Hne].
      * rewrite list_lookup_insert_eq in Hj by done. injection Hj as <-.
        rewrite Hnow. exists (mkSlot FULFILLED
          (descriptor (slot_state s) (slot_value s)) 1).
        split; [|done].
        apply list_lookup_insert_eq. by eapply lookup_lt_Some.
      * rewrite list_lookup_insert_ne in Hj by done.
        rewrite list_lookup_insert_ne by done. by apply Hlink.
    + assert (Hsame : delivered (next_phase s) = delivered s).
      { rewrite Hd0, Hd1. unfold delivers in Hdel. destruct b.
        - apply bool_decide_eq_false in Hdel. symmetry.
          apply bool_decide_eq_true. destruct (slot_state s); done.
        - done. }
      unfold consistent2. cbn [inputs inner equeue].
      split; [done|]. split; [by rewrite length_insert|].
      split; [done|]. split; [done|]. split; [done|].
      intros j s' Hj. destruct (decide (j = i)) as [->|Hne].
      * rewrite list_lookup_insert_eq in Hj by done. injection Hj as <-.
        rewrite Hsame. by exists t.
      * rewrite list_lookup_insert_ne in Hj by done. by apply Hlink.
  - destruct Hm as (Hc & Hlen & Ha & Hqf & Hok & Hlink).
    rewrite Hq in Ha, Hqf. cbn [all_part input_part] in Ha, Hqf.
    unfold consistent2. cbn [inputs inner equeue].
    split; [by apply consistent_tick|]. split; [done|].
    split; [by rewrite atick_queue, Ha|]. split; [done|]. split; [done|].
    intros j s Hj. destruct (Hlink _ _ Hj) as (t & Ht & Hd).
    destruct (atick_slot_inv c n _ _ _ Ht) as (t' & Ht' & Hst & Hv).
    exists t'. split; [done|]. rewrite Hst, Hv. done.
Qed.

Lemma consistent2_step2 ps c op m :
  consistent2 c (length ps) m -> consistent2 c (length ps) (step2 ps c op m).
Proof.
  intros Hm. destruct op as [| |f args| | | | | |]; try done.
  - destruct f; try done; cbn [step2]; destruct (index_of _ _); try done;
      by apply consistent2_settle_input.
  - by apply consistent2_tick2.
Qed.

Lemma to_run_tick2 c n m :
  consistent2 c n m -> equeue m <> [] -> to_run (tick2 c n m) < to_run m.
Proof.
  intros Hm Hne. unfold tick2, to_run.
  destruct (equeue m) as [|[i b|i b] q] eqn:Hq; [done| |].
  - destruct (input_head _ _ _ _ _ _ Hm Hq) as (s & Hi & _). rewrite Hi.
    destruct (delivers s b); cbn [equeue input_part length].
    + rewrite input_part_app, !length_app. cbn. lia.
    + lia.
  - cbn [equeue input_part length]. lia.
Qed.

(** The result is never rejected. *)
Lemma allSettled_not_rejected c n m :
  consistent2 c n m -> (aout (inner m)).1 <> REJECTED.
Proof.
  intros (Hc & Hlen & Ha & Hqf & Hok & Hlink) Hrej.
  destruct Hc as (Hl & _ & _ & _ & _ & _ & Hout & _).
  destruct Hout as [Hout|[Hout|(_ & j & t & Hj & Ht & _)]];
    [congruence|by rewrite Hout in Hrej|].
  destruct (lookup_lt_is_Some_2 (inputs m) j) as [s Hs].
  { rewrite Hlen, <- Hl. by eapply lookup_lt_Some. }
  destruct (Hlink _ _ Hs) as (t' & Ht' & Hd). rewrite Hj in Ht'.
  injection Ht' as <-. destruct (delivered s); [destruct Hd|]; congruence.
Qed.

(** When nothing is waiting and every input is settled, the result is
    fulfilled with the descriptors in the order of the inputs. *)
Lemma allSettled_result c n m :
  consistent2 c n m -> equeue m = [] ->
  (forall i s, inputs m !! i = Some s -> slot_state s <> PENDING) ->
  aout (inner m) = (FULFILLED, VArray c) /\
  aresults (inner m)
  = (fun s => Some (descriptor (slot_state s) (slot_value s))) <$> inputs m.
Proof.
  intros (Hc & Hlen & Ha & Hqf & Hok & Hlink) Hempty Hall.
  rewrite Hempty in Ha, Hqf. cbn [all_part input_part] in Ha, Hqf.
  assert (Hdel : forall i s, inputs m !! i = Some s -> delivered s = true).
  { intros i s Hi. specialize (Hqf i). rewrite Hi, filter_nil in Hqf.
    destruct (Hok _ _ Hi) as [Hpend Hle]. pose proof (Hall _ _ Hi) as Hst.
    destruct s as [st v ph]. cbn in *. unfold delivered. cbn.
    destruct ph as [|[|[|[|ph]]]]; try done; try lia.
    - exfalso. apply Hst. by apply Hpend.
    - by destruct st. }
  assert (Hlen' : length (slots (inner m)) = length (inputs m)).
  { destruct Hc as (Hl & _). lia. }
  destruct (all_fulfilled_result c n (inner m) Hc Ha) as [Hout Hres].
  { intros i t Hi. destruct (lookup_lt_is_Some_2 (inputs m) i) as [s Hs].
    { rewrite <- Hlen'. by eapply lookup_lt_Some. }
    destruct (Hlink _ _ Hs) as (t' & Ht' & Hd). rewrite Hi in Ht'.
    injection Ht' as <-. rewrite (Hdel _ _ Hs) in Hd. by destruct Hd. }
  split; [done|]. rewrite Hres. apply list_eq. intros i.
  rewrite !list_lookup_fmap.
  destruct (inputs m !! i) as [s|] eqn:Hs.
  - destruct (Hlink _ _ Hs) as (t & Ht & Hd). rewrite Ht.
    rewrite (Hdel _ _ Hs) in Hd. destruct Hd as [_ Hv]. cbn. by rewrite Hv.
  - rewrite (proj2 (lookup_ge_None _ _)); [done|].
    rewrite Hlen'. by apply lookup_ge_None.
Qed.


(** *** What a callback of [all] writes *)

Global Instance only_preorder X : PreOrder (only X).
Proof.
  split; [by intros w x|].
  intros w1 w2 w3 H1 H2 x Hx. by rewrite H2, H1.
Qed.

Lemma respects_bind_result {A B} (R : World -> World -> Prop) `{!PreOrder R}
    (P : A -> Prop) (m : M A) (k : A -> M B) :
  respects R m -> (forall w a w', m w = (Normal a, w') -> P a) ->
  (forall a, P a -> respects R (k a)) -> respects R (bind m k).
Proof.
  intros Hm HP Hk w. unfold bind. specialize (Hm w). specialize (HP w).
  destruct (m w) as [[a|error] w1]; [|exact Hm].
  etransitivity; [exact Hm|]. by apply Hk, (HP a w1).
Qed.

Section Writes.

Variable host : Host.
Variable userFn : nat -> list Value -> Behaviour.
Variable X : ref -> Prop.

Lemma only_same_heap (w w' : World) : heap w' = heap w -> only X w w'.
Proof. intros Hh x _. by rewrite Hh. Qed.

Lemma only_insert p o w :
  X p -> only X w (with_heap (fun h => <[p := o]> h) w).
Proof.
  intros Hp x Hx. cbn. apply list_lookup_insert_ne. by intros ->.
Qed.

Lemma only_runHandlers this : X this -> respects (only X) (_runHandlers host this).
Proof.
  intros Hthis. unfold _runHandlers.
  apply respects_bind; [apply respects_getPromise|].
  intros o. destruct (State_eqb (_state o) PENDING); [apply respects_ret|].
  induction (_handlers o) as [|h rest IH]; cbn [_runHandlers_loop];
    [apply respects_ret|].
  apply respects_bind.
  { intros w. apply only_same_heap, runMicroTask_heap. }
  intros _. apply respects_bind; [|done].
  unfold shiftHandlers. apply respects_bind; [apply respects_getPromise|].
  intros o' w. by apply only_insert.
Qed.

Lemma only_changeState this newState value :
  X this -> respects (only X) (_changeState host this newState value).
Proof.
  intros Hthis. unfold _changeState.
  apply respects_bind; [apply respects_getPromise|].
  intros o. destruct (negb (State_eqb (_state o) PENDING)); [apply respects_ret|].
  apply respects_bind; [intros w; by apply only_insert|]. intros _.
  by apply only_runHandlers.
Qed.

Lemma only_resolve p args :
  X p -> respects (only X) (call host userFn (VResolve p) args).
Proof.
  intros Hp. cbn [call].
  apply respects_bind; [by apply only_changeState|intros; apply respects_ret].
Qed.

Lemma only_reject p args :
  X p -> respects (only X) (call host userFn (VReject p) args).
Proof.
  intros Hp. cbn [call].
  apply respects_bind; [by apply only_changeState|intros; apply respects_ret].
Qed.

Lemma only_all_onFulfilled r c i args :
  X r ->
  respects (only X) (call host userFn (VAllOnFulfilled (VResolve r) c i) args).
Proof.
  intros Hr. cbn [call]. apply respects_bind; [apply respects_getScope|].
  intros s. apply respects_bind; [by intros w; apply only_same_heap|].
  intros _. destruct (Nat.eqb _ _); [|apply respects_ret].
  apply respects_bind; [|intros; apply respects_ret].
  apply respects_bind; [by apply only_changeState|intros; apply respects_ret].
Qed.

(** The closures of [all] and the capabilities return [undefined]. *)
Lemma all_closures_return_undefined r c i (rejection : bool) args w a w' :
  call host userFn
    (if rejection then VReject r else VAllOnFulfilled (VResolve r) c i)
    args w = (Normal a, w') ->
  a = VUndefined.
Proof.
  destruct rejection; cbn [call]; unfold bind, ret; intros H;
    repeat match type of H with
      | context [match ?x with _ => _ end] =>
          first [destruct x as [[?|?] ?]|destruct x]; cbn beta iota in H
      end; congruence.
Qed.

(** A callback of [all] writes the result and the promise of its own
    [then], and no other promise. *)
Lemma only_all_task p r c i (rejection : bool) :
  X r -> X (r + 1 + i) ->
  respects (only X)
    (runTask host userFn
       (mkTask p
          (mkHandler
             (if rejection then VReject r else VAllOnFulfilled (VResolve r) c i)
             (if rejection then REJECTED else FULFILLED)
             (VResolve (r + 1 + i)) (VReject (r + 1 + i))))).
Proof.
  intros Hr Ht. unfold runTask. cbn [this handler executor state resolve reject].
  apply respects_bind; [apply respects_getPromise|]. intros o.
  destruct (negb (State_eqb _ _)); [apply respects_ret|].
  assert (Hfun : typeof (if rejection then VReject r
                         else VAllOnFulfilled (VResolve r) c i) = TFunction)
    by (by destruct rejection).
  rewrite Hfun. cbn [JSType_eqb negb].
  apply respects_try_catch.
  - apply (respects_bind_result _ (fun a => a = VUndefined)).
    + destruct rejection; [by apply only_reject|by apply only_all_onFulfilled].
    + intros w a w'. apply all_closures_return_undefined.
    + intros a ->. cbn [isPromise truthy andb].
      apply respects_bind; [by apply only_resolve|intros; apply respects_ret].
  - intros error.
    apply respects_bind; [by apply only_reject|intros; apply respects_ret].
Qed.

End Writes.


Lemma dequeue_setq fac w : dequeue fac w = setq fac (tail (queued fac w)) w.
Proof. by destruct fac. Qed.

Lemma descriptor_not_thenable st v : isPromise (descriptor st v) = false.
Proof. unfold descriptor. by case_decide. Qed.

Section Settled.

Variable host : Host.
Variable userFn : nat -> list Value -> Behaviour.
Variable fac : Facility.
Hypothesis Hfac : facility host = Some fac.

Variable ps : list ref.
Variables L c : nat.
Hypothesis Hnodup : NoDup ps.
Hypothesis Hbelow : forall p, p ∈ ps -> p < L.

Local Abbreviation n := (length ps).
Local Abbreviation ds := (seq L (length ps)).
Local Abbreviation r := (L + length ps).

Lemma ds_nodup : NoDup ds.
Proof. apply NoDup_seq. Qed.

Lemma ds_below d : d ∈ ds -> d < r.
Proof. intros Hd. apply elem_of_seq in Hd. lia. Qed.

Lemma ds_lookup i : i < n -> ds !! i = Some (L + i).
Proof. intros Hi. by apply lookup_seq_lt. Qed.

Lemma ds_above i d : ds !! i = Some d -> d = L + i /\ i < n.
Proof. intros Hd. by apply lookup_seq in Hd. Qed.

(** The machine of [all] is shown by the promises from [L] on, the
    scopes, and what is waiting. *)
Lemma represents_change q w w' a :
  represents fac ds r c (setq fac q w) a ->
  unused fac w' = unused fac w -> scopes w' = scopes w ->
  (forall x, L <= x -> heap w' !! x = heap w !! x) ->
  represents fac ds r c (setq fac q w') a.
Proof using Type.
  intros (Hu & Hq & Hsc & Hr & Hsl) Hu' Hs' Hh'. unfold represents.
  rewrite unused_setq, queued_setq, scopes_setq, heap_setq in *.
  split; [congruence|]. split; [done|]. split; [congruence|].
  split; [by rewrite Hh' by lia|].
  intros i d Hi. destruct (Hsl i d Hi) as (s & Hs & Hd & tst & tv & Ht).
  destruct (ds_above _ _ Hi) as [-> Hlt].
  exists s. split; [done|]. rewrite !Hh' by lia.
  split; [done|]. by exists tst, tv.
Qed.

Lemma input_tasks i p :
  ps !! i = Some p ->
  map (mkTask p) (settled_handlers L i)
  = map (entry_task ps L c) [EInput i false; EInput i true].
Proof using Type. intros Hi. cbn. by rewrite Hi. Qed.

Lemma all_entry_tasks i :
  i < n ->
  map (mkTask (L + i)) (all_handlers r c i)
  = map (entry_task ps L c) [EAll i false; EAll i true].
Proof using Type.
  intros Hi. cbn [map entry_task].
  apply (all_tasks_of_input ds r c i (L + i)). by apply ds_lookup.
Qed.

Lemma map_all_part q :
  all_part q = [] ->
  forall q', map (all_task ds r c) (all_part (q ++ q'))
             = map (all_task ds r c) (all_part q').
Proof using Type. intros Hq q'. by rewrite all_part_app, Hq. Qed.

(** The settlement of an input. *)
Lemma represents2_settle i p st v w m :
  ps !! i = Some p -> st <> PENDING ->
  represents2 fac ps L c w m ->
  represents2 fac ps L c (_changeState host p st v w).2 (settle_input i st v m).
Proof using Hfac Hnodup Hbelow.
  intros Hi Hst (Hu & Hq & Hrep & Hin).
  destruct (Hin _ _ Hi) as ([sst sv sph] & Hs & Hp).
  cbn [slot_state slot_value] in Hp.
  assert (HpL : p < L) by (apply Hbelow; by eapply list_elem_of_lookup_2).
  unfold settle_input. rewrite Hs.
  destruct (decide (sst = PENDING)) as [->|Hne].
  - cbn beta iota in Hp.
    erewrite changeState_defers; [|done..]. cbn [snd].
    unfold represents2. cbn [inputs inner equeue].
    split; [by wsimpl|]. split.
    { wsimpl. by rewrite map_app, Hq, (input_tasks _ _ Hi). }
    split.
    { apply (represents_change _ w); [done|by wsimpl|by wsimpl|].
      intros x Hx. wsimpl. apply list_lookup_insert_ne. lia. }
    intros j q Hj. wsimpl. destruct (decide (j = i)) as [->|Hji].
    + rewrite Hi in Hj. injection Hj as <-. exists (mkSlot st v 1).
      rewrite !list_lookup_insert_eq by (by eapply lookup_lt_Some).
      split; [done|]. cbn [slot_state slot_value]. by rewrite decide_False.
    + destruct (Hin _ _ Hj) as (s' & Hs' & Hp').
      assert (Hqp : p <> q) by (intros <-; apply Hji; by eapply NoDup_lookup).
      exists s'. by rewrite !list_lookup_insert_ne by done.
  - erewrite changeState_settled; [|done|done]. cbn [snd].
    destruct sst; try done; by repeat split.
Qed.

(** The host runs a callback of an input. *)
Lemma tick2_input w m i b q :
  represents2 fac ps L c w m -> consistent2 c n m ->
  equeue m = EInput i b :: q ->
  exists w', tick host userFn w = Some (Normal tt, w') /\
             represents2 fac ps L c w' (tick2 c n m).
Proof using Hfac Hnodup Hbelow.
  intros (Hu & Hq & Hrep & Hin) Hm Heq.
  destruct (input_head _ _ _ _ _ _ Hm Heq) as (s & Hi & Hph & Hnp & Hilt & _).
  destruct Hm as (Hc & Hlen & Ha & _ & _ & Hlink).
  destruct (lookup_lt_is_Some_2 ps i Hilt) as [p Hp].
  destruct (Hin _ _ Hp) as (s' & Hs' & Hhp).
  rewrite Hi in Hs'. injection Hs' as <-.
  rewrite decide_False in Hhp by done.
  assert (HpL : p < L) by (apply Hbelow; by eapply list_elem_of_lookup_2).
  unfold tick2. rewrite Heq, Hi. rewrite Heq in Hq. cbn [map] in Hq.
  unfold entry_task at 1 in Hq. rewrite Hp in Hq.
  cbn [default from_option id] in Hq.
  destruct (delivers s b) eqn:Hdel.
  - (* the continuation runs *)
    assert (Hstate : slot_state s = if b then REJECTED else FULFILLED).
    { unfold delivers in Hdel. destruct b; by apply bool_decide_eq_true in Hdel. }
    destruct (Hlink _ _ Hi) as (t & Ht & Hd).
    assert (Hnot : delivered s = false).
    { destruct (delivered_next s b Hph Hnp) as [-> _]. destruct b; [|done].
      apply bool_decide_eq_false. congruence. }
    rewrite Hnot in Hd.
    pose proof Hrep as (Hu0 & Hq0 & Hsc0 & Hr0 & Hsl0).
    destruct (Hsl0 i (L + i) (ds_lookup _ Hilt)) as (t' & Ht' & Hhd & _).
    rewrite Ht in Ht'. injection Ht' as <-.
    rewrite heap_setq, Hd in Hhd. rewrite decide_True in Hhd by done.
    rewrite (tick_defers host userFn fac _ _ w Hu Hq).
    set (W := with_invoked _ (dequeue fac w)).
    assert (HhW : heap W = heap w) by (subst W; by wsimpl).
    erewrite runTask_function;
      [|by rewrite HhW|by cbn; rewrite Hstate; destruct b|by destruct b].
    unfold try_catch. cbn [executor _value resolve reject].
    assert (Hcall : call host userFn
              (if b then VSettledOnRejected else VSettledOnFulfilled)
              [slot_value s] W
            = (Normal (descriptor (slot_state s) (slot_value s)), W)).
    { rewrite Hstate. by destruct b. }
    rewrite (bind_Normal _ _ _ _ _ Hcall), descriptor_not_thenable.
    erewrite bind_Normal;
      [|eapply (call_resolve_defers host userFn fac Hfac); by rewrite HhW].
    cbn [ret arg0]. eexists. split; [done|].
    destruct t as [tst tv tph]. cbn in Hd. subst tst.
    rewrite (settle_slot_pending _ _ _ _ _ _ Ht).
    unfold represents2. cbn [inputs inner equeue]. abs_simpl.
    split; [subst W; by wsimpl|]. split.
    { subst W. wsimpl. rewrite Hq. cbn [tail].
      by rewrite map_app, (all_entry_tasks _ Hilt). }
    split.
    { assert (HrepW : represents fac ds r c
                (setq fac (map (all_task ds r c) (aqueue (inner m))) W)
                (inner m)).
      { apply (represents_change _ w); [done|subst W; by wsimpl..|].
        intros x _. by rewrite HhW. }
      pose proof (represents_settle host fac Hfac ds r c ds_nodup
                    ds_below i (L + i) FULFILLED
                    (descriptor (slot_state s) (slot_value s)) _ _
                    (ds_lookup _ Hilt) ltac:(done) HrepW) as Hset.
      erewrite changeState_defers in Hset;
        [|done|by rewrite heap_setq, HhW|done].
      cbn [snd] in Hset.
      rewrite (settle_slot_pending _ _ _ _ _ _ Ht) in Hset.
      rewrite setq_with_heap, setq_enqueue in Hset. abs_simpl.
      rewrite map_app.
      by rewrite <- (all_tasks_of_input ds r c i (L + i) (ds_lookup _ Hilt)). }
    intros j q' Hj. wsimpl. subst W. wsimpl.
    assert (Hq'L : q' < L) by (apply Hbelow; by eapply list_elem_of_lookup_2).
    rewrite (list_lookup_insert_ne (heap w)) by lia.
    destruct (decide (j = i)) as [->|Hji].
    + rewrite Hp in Hj. injection Hj as <-. exists (next_phase s).
      rewrite list_lookup_insert_eq by (by eapply lookup_lt_Some).
      split; [done|]. cbn [next_phase slot_state slot_value].
      by rewrite decide_False.
    + rewrite list_lookup_insert_ne by done. by apply Hin.
  - (* the callback finds its input in the other state *)
    assert (Hstate : slot_state s <> if b then REJECTED else FULFILLED).
    { unfold delivers in Hdel. destruct b; by apply bool_decide_eq_false in Hdel. }
    destruct (tick_mismatch host userFn fac p _ _ _ w Hu Hq Hhp)
      as (w' & Ht & Hh & Hs & Hq' & Hu'); [by destruct b|].
    exists w'. split; [done|].
    unfold represents2. cbn [inputs inner equeue].
    split; [done|]. split; [done|]. split.
    { apply (represents_change _ w); [done|congruence|done|].
      intros x _. by rewrite Hh. }
    intros j q' Hj. rewrite Hh.
    destruct (decide (j = i)) as [->|Hji].
    + rewrite Hp in Hj. injection Hj as <-. exists (next_phase s).
      rewrite list_lookup_insert_eq by (by eapply lookup_lt_Some).
      split; [done|]. cbn [next_phase slot_state slot_value].
      by rewrite decide_False.
    + rewrite list_lookup_insert_ne by done. by apply Hin.
Qed.

(** The host runs a callback of the call of [all]. *)
Lemma tick2_all w m i b q :
  represents2 fac ps L c w m -> consistent2 c n m ->
  equeue m = EAll i b :: q ->
  exists w', tick host userFn w = Some (Normal tt, w') /\
             represents2 fac ps L c w' (tick2 c n m).
Proof using Hfac Hnodup Hbelow.
  intros (Hu & Hq & Hrep & Hin) (Hc & Hlen & Ha & _) Heq.
  rewrite Heq in Ha, Hq. cbn [all_part map entry_task] in Ha, Hq.
  unfold tick2. rewrite Heq.
  set (t := all_task ds r c (i, b)) in *.
  set (Q := map (entry_task ps L c) q) in *.
  set (Q0 := map (all_task ds r c) (all_part q)).
  assert (Hc' : consistent c (length ds) (inner m)) by (by rewrite length_seq).
  destruct (tick_represents host userFn fac Hfac ds r c ds_nodup ds_below
              _ _ _ _ Hrep Hc' Ha) as (w0' & Htick0 & Hrep0).
  rewrite length_seq in Hrep0.
  (* the same callback, in the world and in the world without the
     callbacks of the inputs *)
  set (W := with_invoked (fun l => l ++ [t]) w).
  assert (Hrun0 : runTask host userFn t (setq fac Q0 W) = (Normal tt, w0')).
  { erewrite tick_defers in Htick0;
      [|by rewrite unused_setq|rewrite queued_setq, Ha; reflexivity].
    injection Htick0 as Htick0. rewrite <- Htick0. f_equal.
    rewrite dequeue_setq, queued_setq, setq_setq, Ha. cbn [map tail].
    fold t Q0. by rewrite setq_with_invoked. }
  assert (Hrun : tick host userFn w
                 = Some (runTask host userFn t (setq fac Q W))).
  { rewrite (tick_defers host userFn fac _ _ w Hu Hq). do 2 f_equal.
    rewrite dequeue_setq, Hq. cbn [tail]. by rewrite setq_with_invoked. }
  destruct (appends_runTask fac host userFn Hfac t W) as [ts Hts].
  rewrite Hts in Hrun0. rewrite Hrun, Hts.
  destruct (runTask host userFn t W) as [res W2] eqn:HW2.
  cbn [fst snd] in Hrun0 |- *. injection Hrun0 as -> Hw0'.
  assert (Hnil : ts = []).
  { destruct Hrep0 as (_ & Hq0 & _). rewrite <- Hw0', queued_setq in Hq0.
    rewrite atick_queue, Ha in Hq0. cbn [tail] in Hq0. fold Q0 in Hq0.
    rewrite <- (app_nil_r Q0) in Hq0 at 2. by apply app_inv_head in Hq0. }
  subst ts. rewrite app_nil_r in Hw0' |- *.
  exists (setq fac Q W2). split; [done|].
  assert (Hheap : forall x, x < L -> heap W2 !! x = heap w !! x).
  { intros x Hx.
    assert (Honly : only (fun y => r <= y) W W2).
    { replace W2 with (runTask host userFn t W).2 by (by rewrite HW2).
      subst t. unfold all_task. cbn [fst snd].
      destruct b;
        [apply (only_all_task host userFn _ _ r c i true)
        |apply (only_all_task host userFn _ _ r c i false)]; lia. }
    rewrite (Honly x) by lia. subst W. by wsimpl. }
  unfold represents2. cbn [inputs inner equeue].
  split.
  { destruct Hrep0 as (Hu0 & _). rewrite <- Hw0', unused_setq in Hu0.
    by rewrite unused_setq. }
  split; [by rewrite queued_setq|]. split.
  { rewrite setq_setq, atick_queue, Ha. cbn [tail]. fold Q0.
    by rewrite Hw0'. }
  intros j p Hj. rewrite heap_setq, Hheap; [by apply Hin|].
  apply Hbelow. by eapply list_elem_of_lookup_2.
Qed.

Lemma tick2_represents w m e q :
  represents2 fac ps L c w m -> consistent2 c n m -> equeue m = e :: q ->
  exists w', tick host userFn w = Some (Normal tt, w') /\
             represents2 fac ps L c w' (tick2 c n m).
Proof using Hfac Hnodup Hbelow.
  intros Hrep Hm Heq. destruct e as [i b|i b].
  - by eapply tick2_input.
  - by eapply tick2_all.
Qed.

Lemma represents2_tick w m :
  represents2 fac ps L c w m -> consistent2 c n m ->
  represents2 fac ps L c (perform host userFn OpTick w) (tick2 c n m).
Proof using Hfac Hnodup Hbelow.
  intros Hrep Hm. cbn [perform].
  destruct (equeue m) as [|e q] eqn:Heq.
  - pose proof Hrep as (Hu & Hq & _). rewrite Heq in Hq.
    assert (Hnone : tick host userFn w = None).
    { unfold tick. clear Hfac. destruct fac; cbn in Hq, Hu; by rewrite Hq, Hu. }
    rewrite Hnone. unfold tick2. by rewrite Heq.
  - destruct (tick2_represents w m e q Hrep Hm Heq) as (w' & Ht & Hrep').
    by rewrite Ht.
Qed.

Lemma represents2_perform op w m :
  input_event ps op ->
  represents2 fac ps L c w m -> consistent2 c n m ->
  represents2 fac ps L c (perform host userFn op w) (step2 ps c op m).
Proof using Hfac Hnodup Hbelow.
  intros Hev Hrep Hm.
  destruct op as [| |f args| | | | | |]; cbn [input_event] in Hev; try done.
  - destruct f; try done; destruct (index_of_Some _ _ Hev) as (i & Hio & Hi);
      cbn [perform step2 call]; rewrite Hio; unfold _resolve, _reject;
      rewrite snd_bind_ret; by apply represents2_settle.
  - by apply represents2_tick.
Qed.

Lemma represents2_run_ops ops : forall w m,
  Forall (input_event ps) ops ->
  represents2 fac ps L c w m -> consistent2 c n m ->
  represents2 fac ps L c (run_ops host userFn ops w)
              (fold_left (fun m op => step2 ps c op m) ops m) /\
  consistent2 c n (fold_left (fun m op => step2 ps c op m) ops m).
Proof using Hfac Hnodup Hbelow.
  induction ops as [|op ops IH]; intros w m Hev Hrep Hm; [done|].
  apply Forall_cons in Hev as [Hop Hev]. cbn [run_ops fold_left].
  apply IH; [done| |by apply consistent2_step2].
  by apply represents2_perform.
Qed.

(** The host can always finish the callbacks of the call. *)
Lemma represents2_drain : forall k w m,
  to_run m <= k -> represents2 fac ps L c w m -> consistent2 c n m ->
  exists j w', ticks host userFn j w = Some w' /\ quiescent w' /\
    w' = run_ops host userFn (replicate j OpTick) w.
Proof using Hfac Hnodup Hbelow.
  induction k as [|k IH]; intros w m Hk Hrep Hm.
  - exists 0, w. split; [done|]. split; [|done].
    destruct Hrep as (Hu & Hq & _).
    assert (equeue m = []) as Heq.
    { unfold to_run in Hk. destruct (equeue m); [done|cbn in Hk; lia]. }
    rewrite Heq in Hq. by apply (quiescent_queued fac).
  - destruct (equeue m) as [|e q] eqn:Heq.
    + exists 0, w. split; [done|]. split; [|done].
      destruct Hrep as (Hu & Hq & _). rewrite Heq in Hq.
      by apply (quiescent_queued fac).
    + destruct (tick2_represents w m e q Hrep Hm Heq) as (w1 & Ht & Hrep1).
      pose proof (to_run_tick2 c n m Hm ltac:(by rewrite Heq)) as Hless.
      destruct (IH w1 (tick2 c n m)) as (j & w' & Hticks & Hquiet & Hrun);
        [lia|done|by apply consistent2_tick2|].
      exists (S j), w'. cbn [ticks]. rewrite Ht. split; [done|].
      split; [done|].
      cbn [replicate run_ops fold_left perform]. by rewrite Ht.
Qed.

End Settled.


(** *** The machine when [allSettled] returns *)

Lemma inner0_initial n c :
  inner0 n c = initial_abs empty_world (replicate n 0) c.
Proof.
  unfold inner0, initial_abs. f_equal.
  - by rewrite fmap_replicate.
  - by destruct n.
Qed.

Lemma consistent_inner0 n c : consistent c n (inner0 n c).
Proof.
  rewrite inner0_initial.
  rewrite <- (length_replicate n 0) at 1. apply consistent_initial.
Qed.

Lemma settle_entry2_inner w0 i p m :
  inner (settle_entry2 w0 i p m) = inner m /\
  all_part (equeue (settle_entry2 w0 i p m)) = all_part (equeue m).
Proof.
  unfold settle_entry2. destruct (heap w0 !! p) as [o|]; [|done].
  case_decide; [done|]. unfold settle_input.
  destruct (inputs m !! i) as [[[] v0 ph]|]; try done.
  cbn [inner equeue]. by rewrite all_part_app, app_nil_r.
Qed.

Lemma consistent2_enter2 w0 c n rest : forall j m,
  consistent2 c n m -> consistent2 c n (enter2 w0 j rest m).
Proof.
  induction rest as [|p rest IH]; intros j m Hm; cbn [enter2]; [done|].
  apply IH. unfold settle_entry2. destruct (heap w0 !! p) as [o|]; [|done].
  case_decide; [done|]. by apply consistent2_settle_input.
Qed.

Lemma consistent2_entry w0 ps c : consistent2 c (length ps) (entry_abs2 w0 ps c).
Proof.
  apply consistent2_enter2. unfold consistent2. cbn [inputs inner equeue].
  split; [apply consistent_inner0|]. split; [by rewrite length_fmap|].
  split; [done|]. split.
  { intros i. rewrite list_lookup_fmap. by destruct (ps !! i). }
  split.
  { intros i s Hi. rewrite list_lookup_fmap in Hi.
    destruct (ps !! i); [|done]. injection Hi as <-. cbn. split; [done|lia]. }
  intros i s Hi. rewrite list_lookup_fmap in Hi.
  destruct (ps !! i) as [p|] eqn:Hp; [|done]. injection Hi as <-.
  exists (mkSlot PENDING VUndefined 0). split; [|done].
  unfold inner0. abs_simpl. apply lookup_replicate_2.
  by eapply lookup_lt_Some.
Qed.

Section Entering2.

Variable host : Host.
Variable userFn : nat -> list Value -> Behaviour.
Variable fac : Facility.
Hypothesis Hfac : facility host = Some fac.

Variable w0 : World.
Variable ps : list ref.
Hypothesis Hnodup : NoDup ps.
Hypothesis Hany : forall p, p ∈ ps ->
  exists st v, heap w0 !! p = Some (mkPromise st v []).

Local Abbreviation L := (length (heap w0)).
Local Abbreviation c := (length (scopes w0)).
Local Abbreviation n := (length ps).
Local Abbreviation entered := (allSettled_entered fac w0 ps).

Lemma allSettled_loop_any rest : forall done w m,
  ps = done ++ rest -> entered (length done) w m ->
  exists w',
    allSettled_loop host userFn (VPromise <$> rest)
      (VPromise <$> seq L (length done)) w
    = (Normal (VPromise <$> seq L n), w') /\
    entered n w' (enter2 w0 (length done) rest m).
Proof using Hfac Hnodup Hany.
  induction rest as [|p rest IH]; intros done w m Hps Hloop.
  { exists w.
    assert (length ps = length done) as -> by (by rewrite Hps, app_nil_r).
    done. }
  set (j := length done) in *.
  destruct Hloop as (Hlen & Hsc & Hu & Hq & Hinner & Hall & Hdone & Hrest).
  assert (Hj : ps !! j = Some p).
  { rewrite Hps. subst j. by rewrite lookup_app_r, Nat.sub_diag by lia. }
  assert (Hin : p ∈ ps) by (by eapply list_elem_of_lookup_2).
  assert (Hbelow : forall q, q ∈ ps -> q < L).
  { intros q Hq'. destruct (Hany q Hq') as (st & v & Hq0).
    by eapply lookup_lt_Some. }
  assert (Hpr : p < L) by (by apply Hbelow).
  destruct (Hany p Hin) as (st & v & Hp0).
  destruct (Hrest j p Hj ltac:(lia)) as [Hpw Hsj].
  assert (Hv : initial_value w0 p = v)
    by (unfold initial_value; by rewrite Hp0).
  rewrite Hv in Hsj. rewrite Hp0 in Hpw.
  assert (Hother : forall i q, ps !! i = Some q -> i <> j -> p <> q).
  { intros i q Hi Hne <-. apply Hne. by eapply NoDup_lookup. }
  assert (Hseq : VPromise <$> seq L (length (done ++ [p]))
                 = (VPromise <$> seq L j) ++ [VPromise (L + j)]).
  { rewrite length_app. cbn [length]. fold j.
    replace (j + 1) with (S j) by lia. by rewrite seq_S, fmap_app. }
  cbn [fmap list_fmap allSettled_loop enter2 MyPromise_resolve].
  rewrite bind_eq. cbn [ret invoke_then]. rewrite !bind_eq.
  unfold settle_entry2. rewrite Hp0. cbn [_state _value].
  destruct (decide (st = PENDING)) as [->|Hst].
  - (* a pending input: its handlers wait *)
    rewrite (then_pending host p _ _ _ _ w Hpw). cbn [ret].
    rewrite Hlen, <- Hseq.
    set (w2 := with_registered _ _).
    assert (Hh2 : heap w2
                  = <[p := mkPromise PENDING v (settled_handlers L j)]>
                      (heap w ++ [fresh_promise])).
    { by subst w2; wsimpl. }
    destruct (IH (done ++ [p]) w2 m) as (w' & Hfor & Hloop').
    { by rewrite <- app_assoc. }
    { rewrite length_app. cbn [length]. fold j.
      replace (j + 1) with (S j) by lia.
      split; [rewrite Hh2, length_insert, length_app; cbn; lia|].
      split; [by subst w2; wsimpl|]. split; [by subst w2; wsimpl|].
      split; [by subst w2; wsimpl|]. do 2 (split; [done|]). split.
      - intros i q Hi Hlt. rewrite Hh2.
        destruct (decide (i = j)) as [->|Hne].
        + rewrite Hj in Hi. injection Hi as <-.
          exists (mkSlot PENDING v 0). split; [done|].
          cbn [slot_state slot_value]. rewrite decide_True by done.
          rewrite list_lookup_insert_eq by (rewrite length_app; cbn; lia).
          split; [done|]. rewrite list_lookup_insert_ne by lia.
          replace (L + j) with (length (heap w)) by lia.
          apply lookup_heap_snoc.
        + destruct (Hdone i q Hi ltac:(lia)) as (s & Hs & H1 & H2).
          exists s. split; [done|].
          assert (Hqr : q < L)
            by (apply Hbelow; by eapply list_elem_of_lookup_2).
          rewrite !list_lookup_insert_ne by (try lia; by eapply Hother).
          split; by apply lookup_heap_old.
      - intros i q Hi Hle. rewrite Hh2.
        destruct (Hrest i q Hi ltac:(lia)) as [H1 H2]. split; [|done].
        rewrite list_lookup_insert_ne by (eapply Hother; [done|lia]).
        rewrite <- H1. apply lookup_app_l.
        assert (Hqr : q < L)
          by (apply Hbelow; by eapply list_elem_of_lookup_2).
        lia. }
    rewrite length_app in Hloop'. cbn [length] in Hloop'. fold j in Hloop'.
    replace (j + 1) with (S j) in Hloop' by lia.
    exists w'. split; [|done]. exact Hfor.
  - (* a settled input: its callbacks go to the facility *)
    rewrite (then_settled host fac Hfac p st v [] _ _ w Hpw Hst). cbn [ret app].
    rewrite Hlen, <- Hseq.
    set (w2 := enqueue _ _ _).
    assert (Hh2 : heap w2
                  = <[p := mkPromise st v []]> (heap w ++ [fresh_promise]))
      by (by subst w2; wsimpl).
    assert (Hm2 : settle_input j st v m
                  = mkAbs2 (<[j := mkSlot st v 1]> (inputs m)) (inner m)
                           (equeue m ++ [EInput j false; EInput j true])).
    { unfold settle_input. by rewrite Hsj. }
    destruct (IH (done ++ [p]) w2 (settle_input j st v m))
      as (w' & Hfor & Hloop').
    { by rewrite <- app_assoc. }
    { rewrite length_app. cbn [length]. fold j.
      replace (j + 1) with (S j) by lia. rewrite Hm2.
      unfold allSettled_entered. cbn [inputs inner equeue].
      split; [rewrite Hh2, length_insert, length_app; cbn; lia|].
      split; [by subst w2; wsimpl|]. split; [by subst w2; wsimpl|].
      split.
      { subst w2. wsimpl. rewrite map_app, Hq. f_equal.
        apply (input_tasks ps L c j p Hj). }
      split; [done|]. split; [by rewrite all_part_app, Hall|]. split.
      - intros i q Hi Hlt. rewrite Hh2.
        destruct (decide (i = j)) as [->|Hne].
        + rewrite Hj in Hi. injection Hi as <-.
          exists (mkSlot st v 1).
          rewrite list_lookup_insert_eq by (by eapply lookup_lt_Some).
          split; [done|]. cbn [slot_state slot_value].
          rewrite decide_False by done.
          rewrite list_lookup_insert_eq by (rewrite length_app; cbn; lia).
          split; [done|]. rewrite list_lookup_insert_ne by lia.
          replace (L + j) with (length (heap w)) by lia.
          apply lookup_heap_snoc.
        + destruct (Hdone i q Hi ltac:(lia)) as (s & Hs & H1 & H2).
          exists s. rewrite list_lookup_insert_ne by done. split; [done|].
          assert (Hqr : q < L)
            by (apply Hbelow; by eapply list_elem_of_lookup_2).
          rewrite !list_lookup_insert_ne by (try lia; by eapply Hother).
          split; by apply lookup_heap_old.
      - intros i q Hi Hle. rewrite Hh2.
        destruct (Hrest i q Hi ltac:(lia)) as [H1 H2].
        split; [|by rewrite list_lookup_insert_ne by lia].
        rewrite list_lookup_insert_ne by (eapply Hother; [done|lia]).
        rewrite <- H1. apply lookup_app_l.
        assert (Hqr : q < L)
          by (apply Hbelow; by eapply list_elem_of_lookup_2).
        lia. }
    rewrite length_app in Hloop'. cbn [length] in Hloop'. fold j in Hloop'.
    replace (j + 1) with (S j) in Hloop' by lia.
    exists w'. split; [|done]. exact Hfor.
Qed.

End Entering2.


Lemma enter2_inner w0 rest : forall j m,
  inner (enter2 w0 j rest m) = inner m /\
  all_part (equeue (enter2 w0 j rest m)) = all_part (equeue m).
Proof.
  induction rest as [|p rest IH]; intros j m; cbn [enter2]; [done|].
  destruct (IH (S j) (settle_entry2 w0 j p m)) as [-> ->].
  apply settle_entry2_inner.
Qed.

Lemma enter_pending w0 rest : forall j a,
  (forall p, p ∈ rest ->
     exists v hs, heap w0 !! p = Some (mkPromise PENDING v hs)) ->
  enter w0 j rest a = a.
Proof.
  induction rest as [|p rest IH]; intros j a Hpend; cbn [enter]; [done|].
  destruct (Hpend p) as (v & hs & Hp); [left|].
  unfold settle_entry. rewrite Hp. cbn [_state]. rewrite decide_True by done.
  apply IH. intros q Hq. apply Hpend. by right.
Qed.

Section Established.

Variable host : Host.
Variable userFn : nat -> list Value -> Behaviour.
Variable fac : Facility.
Hypothesis Hfac : facility host = Some fac.

Variable w0 : World.
Variable ps : list ref.
Hypothesis Hnodup : NoDup ps.
Hypothesis Hany : forall p, p ∈ ps ->
  exists st v, heap w0 !! p = Some (mkPromise st v []).

Local Abbreviation L := (length (heap w0)).
Local Abbreviation c := (length (scopes w0)).
Local Abbreviation n := (length ps).

(** [allSettled] returns the promise of its call of [all]; the world then
    shows the machine as the inputs have left it. *)
Lemma allSettled_establishes :
  quiescent w0 ->
  exists w1,
    MyPromise_allSettled host userFn (VPromise <$> ps) w0
    = (Normal (VPromise (L + n)), w1) /\
    represents2 fac ps L c w1 (entry_abs2 w0 ps c).
Proof using Hfac Hnodup Hany.
  intros Hquiet. apply (queued_quiescent fac) in Hquiet as [Hq0 Hu0].
  assert (Hbelow : forall q, q ∈ ps -> q < L).
  { intros q Hq'. destruct (Hany q Hq') as (st & v & Hq0').
    by eapply lookup_lt_Some. }
  destruct (allSettled_loop_any host userFn fac Hfac w0 ps Hnodup Hany ps []
              w0 (mkAbs2 ((fun p => mkSlot PENDING (initial_value w0 p) 0) <$> ps)
                         (inner0 n c) []) eq_refl)
    as (wl & Hfor & Hloop).
  { cbn [length]. unfold allSettled_entered. cbn [inputs inner equeue].
    split; [lia|]. split; [done|]. split; [done|]. split; [by rewrite Hq0|].
    do 2 (split; [done|]). split; [intros; lia|].
    intros i p Hi _. split; [done|]. by rewrite list_lookup_fmap, Hi. }
  cbn [length seq fmap list_fmap] in Hfor. fold (entry_abs2 w0 ps c) in Hloop.
  destruct Hloop as (Hlen & Hsc & Hu & Hq & Hinner & Hall & Hdone & _).
  assert (Hlen' : length (heap (setq fac [] wl)) = L + n)
    by (by rewrite heap_setq).
  assert (Hsc' : length (scopes (setq fac [] wl)) = c)
    by (by rewrite scopes_setq, Hsc).
  assert (Hquiet' : quiescent (setq fac [] wl)).
  { apply (quiescent_queued fac); [apply queued_setq|by rewrite unused_setq]. }
  assert (Hfresh : forall d, d ∈ seq L n ->
            heap (setq fac [] wl) !! d = Some fresh_promise).
  { intros d Hd. apply elem_of_seq in Hd. rewrite heap_setq.
    destruct (lookup_lt_is_Some_2 ps (d - L)) as [p Hp]; [lia|].
    destruct (Hdone _ _ Hp ltac:(lia)) as (s & _ & _ & Hd').
    by replace (L + (d - L)) with d in Hd' by lia. }
  assert (Hest : exists w1,
            MyPromise_all host userFn (VPromise <$> seq L n) (setq fac [] wl)
            = (Normal (VPromise (L + n)), w1) /\
            represents fac (seq L n) (L + n) c w1 (inner0 n c) /\
            (forall x, x ∈ ps -> heap w1 !! x = heap wl !! x)).
  { destruct (decide (n = 0)) as [Hn|Hn].
    - destruct (all_establishes host userFn fac Hfac (setq fac [] wl) (seq L n))
        as (w1 & Hcall & Hrep); [apply NoDup_seq| |done|].
      { intros p Hp. exists VUndefined. rewrite (Hfresh p Hp). done. }
      rewrite Hlen' in Hcall, Hrep. rewrite Hsc' in Hrep.
      assert (Hinit : initial_abs (setq fac [] wl) (seq L n) c = inner0 n c)
        by (by rewrite Hn).
      rewrite Hinit in Hrep.
      exists w1. split; [done|]. split; [done|].
      intros x Hx. apply length_zero_iff_nil in Hn. rewrite Hn in Hx.
      by apply elem_of_nil in Hx.
    - destruct (all_establishes_any host userFn fac Hfac (setq fac [] wl)
                  (seq L n)) as (w1 & Hcall & Hrep & Hframe);
        [apply NoDup_seq| |done| |].
      { intros p Hp. exists PENDING, VUndefined. by rewrite (Hfresh p Hp). }
      { by destruct n. }
      rewrite Hlen' in Hcall, Hrep. rewrite Hsc' in Hrep. rewrite Hlen' in Hframe.
      assert (Hinit : entry_abs (setq fac [] wl) (seq L n) c = inner0 n c).
      { unfold entry_abs. rewrite enter_pending.
        2: { intros p Hp. exists VUndefined, []. by rewrite (Hfresh p Hp). }
        unfold initial_abs, inner0. f_equal.
        - apply list_eq. intros i. rewrite list_lookup_fmap.
          destruct (decide (i < n)) as [Hi|Hi].
          + rewrite lookup_seq_lt by done. cbn.
            rewrite lookup_replicate_2 by done. unfold initial_value.
            rewrite (Hfresh (L + i)); [done|]. apply elem_of_seq. lia.
          + rewrite lookup_seq_ge by lia. cbn. symmetry.
            apply lookup_replicate_None. lia.
        - destruct n; [done|]. done. }
      rewrite Hinit in Hrep.
      exists w1. split; [done|]. split; [done|].
      intros x Hx. apply Hbelow in Hx. rewrite Hframe, ?heap_setq; [done|lia|].
      intros Hin. apply elem_of_seq in Hin. lia. }
  destruct Hest as (w1 & Hcall & Hrep & Hframe).
  destruct (appends_all fac host userFn Hfac (VPromise <$> seq L n)
              (setq fac [] wl)) as (ts & Happ).
  assert (Hts : ts = []).
  { pose proof (Happ []) as H0. rewrite setq_setq, Hcall in H0.
    cbn [fst snd app] in H0. injection H0 as H0.
    destruct Hrep as (_ & Hq1 & _). unfold inner0 in Hq1. cbn in Hq1.
    rewrite H0, queued_setq in Hq1. done. }
  subst ts.
  pose proof (Happ (queued fac wl)) as Hreal.
  rewrite setq_setq, setq_queued, Hcall, app_nil_r in Hreal.
  cbn [fst snd] in Hreal.
  exists (setq fac (queued fac wl) w1). split.
  { unfold MyPromise_allSettled. rewrite bind_eq, Hfor. exact Hreal. }
  destruct (enter2_inner w0 ps 0
              (mkAbs2 ((fun p => mkSlot PENDING (initial_value w0 p) 0) <$> ps)
                      (inner0 n c) [])) as [Hin1 Hin2].
  fold (entry_abs2 w0 ps c) in Hin1, Hin2. cbn [inner equeue] in Hin1, Hin2.
  unfold represents2.
  split.
  { rewrite unused_setq. by destruct Hrep as (-> & _). }
  split; [by rewrite queued_setq|].
  split.
  { rewrite Hin1, setq_setq. unfold inner0 at 1. cbn [aqueue map].
    replace (setq fac [] w1) with w1; [done|].
    destruct Hrep as (_ & Hq1 & _). unfold inner0 in Hq1. cbn in Hq1.
    by rewrite <- Hq1, setq_queued. }
  intros i p Hi.
  assert (Hi' : i < n) by (by eapply lookup_lt_Some).
  destruct (Hdone _ _ Hi Hi') as (s & Hs & Hh & _).
  exists s. split; [done|]. rewrite heap_setq, Hframe; [done|].
  by eapply list_elem_of_lookup_2.
Qed.

End Established.


(** X13.  [allSettled] called on promises [ps], no two the same, each
    pending or settled already, and whatever the order in which the
    pending inputs are settled and the host runs callbacks afterwards.
    The call returns a new promise.  The host can always finish the
    callbacks.  The result is never rejected, also when inputs are.  And
    when the host has finished and every input is settled, the result is
    fulfilled with the array of the descriptors of the inputs, in the
    order of the inputs: status and value for a fulfilled input, status
    and reason for a rejected one. *)
Theorem allSettled_fulfills_with_descriptors host userFn fac w0 ps :
  facility host = Some fac -> quiescent w0 -> NoDup ps ->
  (forall p, p ∈ ps -> exists st v, heap w0 !! p = Some (mkPromise st v [])) ->
  let r := length (heap w0) + length ps in
  let c := length (scopes w0) in
  exists w1,
    MyPromise_allSettled host userFn (VPromise <$> ps) w0
    = (Normal (VPromise r), w1) /\
    forall ops, Forall (input_event ps) ops ->
      let w2 := run_ops host userFn ops w1 in
      (exists k w3,
         run_loop host userFn k w2 = Some (Normal tt, w3) /\
         quiescent w3 /\
         w3 = run_ops host userFn (ops ++ replicate k OpTick) w1) /\
      (exists o, heap w2 !! r = Some o /\ _state o <> REJECTED) /\
      (quiescent w2 ->
       forall svs : list (State * Value),
         Forall2 (fun p sv => sv.1 <> PENDING /\ exists hs,
                    heap w2 !! p = Some (mkPromise sv.1 sv.2 hs)) ps svs ->
         heap w2 !! r = Some (mkPromise FULFILLED (VArray c) []) /\
         results <$> scopes w2 !! c
         = Some ((fun sv => Some (descriptor sv.1 sv.2)) <$> svs)).
Proof.
  intros Hfac Hquiet Hnodup Hany r c.
  set (L := length (heap w0)) in *. subst r.
  assert (Hbelow : forall p, p ∈ ps -> p < L).
  { intros p Hin. destruct (Hany p Hin) as (st & v & Hv).
    by eapply lookup_lt_Some. }
  destruct (allSettled_establishes host userFn fac Hfac w0 ps Hnodup Hany Hquiet)
    as (w1 & Hcall & Hrep1).
  exists w1. split; [done|]. intros ops Hev w2.
  fold L c in Hrep1. pose proof (consistent2_entry w0 ps c) as Hc1.
  destruct (represents2_run_ops host userFn fac Hfac ps L c Hnodup Hbelow ops
              w1 _ Hev Hrep1 Hc1) as [Hrep2 Hc2].
  fold w2 in Hrep2. fold c in Hrep2, Hc2.
  set (m2 := fold_left (fun m op => step2 ps c op m) ops (entry_abs2 w0 ps c))
    in *.
  pose proof Hrep2 as (_ & Hq2 & Hin2 & Hsl2).
  destruct Hin2 as (_ & _ & Hsc & Hr & _).
  rewrite heap_setq in Hr. rewrite scopes_setq in Hsc.
  split; [|split].
  - destruct (represents2_drain host userFn fac Hfac ps L c Hnodup Hbelow
                _ w2 m2 (Nat.le_refl _) Hrep2 Hc2)
      as (k & w3 & Hticks & Hq3 & Hrun).
    exists k, w3. split; [by apply ticks_run_loop|]. split; [done|].
    by rewrite run_ops_app.
  - eexists. split; [exact Hr|]. cbn [_state].
    by eapply allSettled_not_rejected.
  - intros Hquiet2 svs Hsvs.
    apply (queued_quiescent fac) in Hquiet2 as [Hqe _].
    assert (Hempty : equeue m2 = []).
    { rewrite Hqe in Hq2. by destruct (equeue m2). }
    assert (Hlen : length (inputs m2) = length ps) by apply Hc2.
    assert (Hset : forall i s, inputs m2 !! i = Some s ->
              slot_state s <> PENDING /\
              svs !! i = Some (slot_state s, slot_value s)).
    { intros i s Hi.
      destruct (lookup_lt_is_Some_2 ps i) as [p Hp].
      { rewrite <- Hlen. by eapply lookup_lt_Some. }
      destruct (Hsl2 _ _ Hp) as (s' & Hs' & Hh).
      rewrite Hi in Hs'. injection Hs' as <-.
      destruct (Forall2_lookup_l _ _ _ _ _ Hsvs Hp)
        as ([st v] & Hv & Hst & hs & Hh').
      rewrite Hh in Hh'. cbn [fst snd] in Hh', Hst.
      injection Hh' as -> -> _. done. }
    destruct (allSettled_result _ _ m2 Hc2 Hempty) as [Hout Hres].
    { intros i s Hi. by destruct (Hset _ _ Hi). }
    rewrite Hout in Hr. split; [done|]. rewrite Hsc. cbn. f_equal.
    rewrite Hres. apply list_eq. intros i. rewrite !list_lookup_fmap.
    destruct (inputs m2 !! i) as [s|] eqn:Hi.
    + destruct (Hset _ _ Hi) as [_ ->]. done.
    + cbn. rewrite (proj2 (lookup_ge_None svs i)); [done|].
      apply lookup_ge_None in Hi. apply Forall2_length in Hsvs. lia.
Qed.

(** ** Instances *)

Lemma settled_future_ignores_settlement_witness :
  heap fulfilled_world !! 0 = Some (mkPromise FULFILLED (VNum 1) []) /\
  FULFILLED <> PENDING /\
  call node sampleFn (VResolve 0) [VNum 2] fulfilled_world
  = (Normal VUndefined, fulfilled_world) /\
  call node sampleFn (VReject 0) [VNum 2] fulfilled_world
  = (Normal VUndefined, fulfilled_world).
Proof.
  split; [reflexivity|]. split; [discriminate|].
  apply (settled_future_ignores_settlement node sampleFn fulfilled_world 0
           (mkPromise FULFILLED (VNum 1) []) [VNum 2]);
    [reflexivity|discriminate].
Defined.

Lemma missing_continuation_forwards_outcome_witness :
  heap rejected_and_pending_world !! 0 = Some (mkPromise REJECTED (VStr "x") []) /\
  exists hs,
    heap (runTask node sampleFn
            (mkTask 0 (mkHandler VUndefined REJECTED (VResolve 1) (VReject 1)))
            rejected_and_pending_world).2 !! 1
    = Some (mkPromise REJECTED (VStr "x") hs).
Proof.
  split; [reflexivity|].
  apply (proj2 (proj2 (missing_continuation_forwards_outcome node sampleFn
                         rejected_and_pending_world 0
                         (mkPromise REJECTED (VStr "x") []) VUndefined
                         VUndefined eq_refl))
               1 fresh_promise); [discriminate|reflexivity|reflexivity].
Defined.

Lemma non_function_argument_passes_outcome_through_witness :
  facility node = Some NextTick /\ quiescent fulfilled_world /\
  FULFILLED <> PENDING /\
  typeof (continuation_for FULFILLED (VNum 7) (VFunction 1)) <> TFunction /\
  exists w1 w2,
    then_ node 0 (VNum 7) (VFunction 1) fulfilled_world = (Normal 1, w1) /\
    run_loop node sampleFn 2 w1 = Some (Normal tt, w2) /\
    heap w2 !! 1 = Some (mkPromise FULFILLED (VNum 1) []).
Proof.
  split; [reflexivity|]. split; [by split|]. do 2 (split; [discriminate|]).
  apply (proj1 (proj2 (non_function_argument_passes_outcome_through
                         node sampleFn NextTick eq_refl fulfilled_world 0
                         FULFILLED (VNum 1) (VNum 7) (VFunction 1)
                         (conj eq_refl eq_refl)
                         ltac:(discriminate) ltac:(discriminate))));
    reflexivity.
Defined.

Lemma returned_future_is_adopted_witness :
  facility node = Some NextTick /\ quiescent fulfilled_world /\
  heap fulfilled_world !! 0 = Some (mkPromise FULFILLED (VNum 1) []) /\
  FULFILLED <> PENDING /\
  continuation_for FULFILLED (VFunction 4) VUndefined = VFunction 4 /\
  sampleFn 4 [VNum 1] = pure (Normal (VObject [("then", VFunction 5)])) /\
  exists w1 w2,
    then_ node 0 (VFunction 4) VUndefined fulfilled_world = (Normal 1, w1) /\
    run_loop node sampleFn 2 w1 = Some (Normal tt, w2) /\
    heap w2 !! 1 = Some (mkPromise FULFILLED (VStr "t") []).
Proof.
  split; [reflexivity|]. split; [by split|]. split; [reflexivity|].
  split; [discriminate|]. do 2 (split; [reflexivity|]).
  destruct (proj2 (proj2 (returned_future_is_adopted node sampleFn NextTick
                  eq_refl fulfilled_world 0 FULFILLED (VNum 1) 4
                  (VFunction 4) VUndefined (VObject [("then", VFunction 5)])
                  (conj eq_refl eq_refl) eq_refl ltac:(discriminate) eq_refl
                  eq_refl))
              [("then", VFunction 5)] 5 [(false, VStr "t")]
              (Throw (VStr "late")) eq_refl eq_refl eq_refl)
    as (w1 & w2 & H1 & H2 & H3 & _).
  exists w1, w2. split; [exact H1|]. split; [exact H2|]. exact H3.
Defined.

Lemma handlers_run_once_in_order_witness :
  facility node = Some NextTick /\
  let w := run_ops node sampleFn
             [OpNew [] None; OpThen 0 (VFunction 0) VUndefined;
              OpCall (VResolve 0) [VNum 1]; OpThen 0 VUndefined (VFunction 1);
              OpTick; OpTick; OpTick; OpTick] empty_world in
  (forall F,
     tasks_of F (registered w)
     = tasks_of F (invoked w) ++ tasks_of F (queued NextTick w) ++ waiting w F) /\
  (forall F o, heap w !! F = Some o -> _state o = PENDING ->
     tasks_of F (invoked w) = [] /\ tasks_of F (queued NextTick w) = []) /\
  (forall F o, heap w !! F = Some o -> _state o <> PENDING ->
     waiting w F = [] /\
     (quiescent w -> tasks_of F (invoked w) = tasks_of F (registered w))) /\
  (forall F newState value,
     invoked (_changeState node F newState value w).2 = invoked w) /\
  (forall F onFulfilled onRejected,
     invoked (then_ node F onFulfilled onRejected w).2 = invoked w) /\
  (forall t q, queued NextTick w = t :: q ->
     invoked (perform node sampleFn OpTick w) = invoked w ++ [t]).
Proof.
  split; [reflexivity|].
  apply (handlers_run_once_in_order node sampleFn NextTick _ eq_refl).
Defined.

Lemma all_follows_its_inputs_witness :
  facility node = Some NextTick /\ quiescent fulfilled_and_pending_world /\
  Forall2 (input_state sampleFn fulfilled_and_pending_world)
    [VStr "a"; VPromise 0; VPromise 1; VPromise 0;
     VObject [("then", VFunction 5)]]
    [(FULFILLED, VStr "a"); (FULFILLED, VNum 1); (PENDING, VUndefined);
     (FULFILLED, VNum 1); (FULFILLED, VStr "t")] /\
  exists w1,
    MyPromise_all node sampleFn
      [VStr "a"; VPromise 0; VPromise 1; VPromise 0;
       VObject [("then", VFunction 5)]] fulfilled_and_pending_world
    = (Normal (VPromise 2), w1) /\
    let w2 := run_ops node sampleFn
                ([OpTick; OpTick; OpCall (VResolve 1) [VNum 2]]
                 ++ replicate 8 OpTick) w1 in
    heap w2 !! 2 = Some (mkPromise FULFILLED (VArray 0) []) /\
    results <$> scopes w2 !! 0
    = Some [Some (VStr "a"); Some (VNum 1); Some (VNum 2); Some (VNum 1);
            Some (VStr "t")].
Proof.
  assert (Hin : Forall2 (input_state sampleFn fulfilled_and_pending_world)
    [VStr "a"; VPromise 0; VPromise 1; VPromise 0;
     VObject [("then", VFunction 5)]]
    [(FULFILLED, VStr "a"); (FULFILLED, VNum 1); (PENDING, VUndefined);
     (FULFILLED, VNum 1); (FULFILLED, VStr "t")]).
  { repeat (apply List.Forall2_cons; [try (vm_compute; reflexivity)|]);
      [|apply List.Forall2_nil].
    exists [("then", VFunction 5)], 5, [(false, VStr "t")],
           (Throw (VStr "late")).
    by repeat split. }
  split; [reflexivity|]. split; [by split|]. split; [exact Hin|].
  destruct (all_follows_its_inputs node sampleFn NextTick
              fulfilled_and_pending_world _ _ eq_refl
              (conj eq_refl eq_refl) Hin)
    as (_ & w1 & Hall & _ & Hops).
  exists w1. split; [exact Hall|].
  vm_compute in Hall. injection Hall as <-.
  assert (Hev : Forall (input_event [3; 0; 1; 0; 8])
                  ([OpTick; OpTick; OpCall (VResolve 1) [VNum 2]]
                   ++ replicate 8 OpTick)).
  { repeat constructor; vm_compute; by repeat constructor. }
  destruct (Hops _ Hev) as (_ & Hfulfilled & _).
  apply (Hfulfilled (conj eq_refl eq_refl)
           [VStr "a"; VNum 1; VNum 2; VNum 1; VStr "t"]).
  repeat constructor; by eexists.
Defined.

Lemma returned_value_fulfills_derived_promise_witness :
  facility node = Some NextTick /\ quiescent rejected_and_pending_world /\
  REJECTED <> PENDING /\
  continuation_for REJECTED VUndefined (VFunction 0) = VFunction 0 /\
  sampleFn 0 [VStr "x"] = pure (Normal (VStr "x")) /\
  isPromise (VStr "x") = false /\
  exists w1 w2,
    then_ node 0 VUndefined (VFunction 0) rejected_and_pending_world
    = (Normal 2, w1) /\
    heap w1 !! 2 = Some fresh_promise /\
    run_loop node sampleFn 2 w1 = Some (Normal tt, w2) /\
    heap w2 !! 2 = Some (mkPromise FULFILLED (VStr "x") []).
Proof.
  split; [reflexivity|]. split; [by split|]. split; [discriminate|].
  do 3 (split; [reflexivity|]).
  apply (proj1 (returned_value_fulfills_derived_promise node sampleFn NextTick
                  eq_refl rejected_and_pending_world 0 REJECTED (VStr "x")
                  VUndefined (VFunction 0) 0 (VStr "x")
                  (conj eq_refl eq_refl) ltac:(discriminate) eq_refl eq_refl
                  eq_refl)).
  reflexivity.
Defined.

Lemma raised_error_rejects_derived_promise_witness :
  facility node = Some NextTick /\ quiescent fulfilled_world /\
  FULFILLED <> PENDING /\
  continuation_for FULFILLED (VFunction 1) VUndefined = VFunction 1 /\
  sampleFn 1 [VNum 1] = pure (Throw (VNum 1)) /\
  exists w1 w2,
    then_ node 0 (VFunction 1) VUndefined fulfilled_world = (Normal 1, w1) /\
    heap w1 !! 1 = Some fresh_promise /\
    run_loop node sampleFn 2 w1 = Some (Normal tt, w2) /\
    heap w2 !! 1 = Some (mkPromise REJECTED (VNum 1) []).
Proof.
  split; [reflexivity|]. split; [by split|]. split; [discriminate|].
  do 2 (split; [reflexivity|]).
  apply (proj1 (raised_error_rejects_derived_promise node sampleFn NextTick
                  eq_refl fulfilled_world 0 FULFILLED (VNum 1)
                  (VFunction 1) VUndefined 1 (VNum 1)
                  (conj eq_refl eq_refl) ltac:(discriminate) eq_refl eq_refl)).
  reflexivity.
Defined.

Lemma catch_recovers_from_rejection_witness :
  facility node = Some NextTick /\ quiescent rejected_and_pending_world /\
  exists w1 w2,
    catch node 0 (VFunction 0) rejected_and_pending_world = (Normal 2, w1) /\
    run_loop node sampleFn 2 w1 = Some (Normal tt, w2) /\
    heap w2 !! 2 = Some (mkPromise FULFILLED (VStr "x") []).
Proof.
  split; [reflexivity|]. split; [by split|].
  apply (proj1 (proj2 (catch_recovers_from_rejection node sampleFn NextTick
                         eq_refl rejected_and_pending_world 0 (VStr "x")
                         (VFunction 0) (conj eq_refl eq_refl))
                      eq_refl) 0 (VStr "x"));
    reflexivity.
Defined.



Lemma all_takes_promises_in_any_state_witness :
  facility node = Some NextTick /\ quiescent rejected_and_pending_world /\
  NoDup [1; 0] /\
  (forall p, p ∈ [1; 0] ->
     exists st v,
       heap rejected_and_pending_world !! p = Some (mkPromise st v [])) /\
  exists w1,
    MyPromise_all node sampleFn (VPromise <$> [1; 0]) rejected_and_pending_world
    = (Normal (VPromise 2), w1) /\
    heap (run_ops node sampleFn [OpTick; OpTick] w1) !! 2
    = Some (mkPromise REJECTED (VStr "x") []).
Proof.
  assert (Hnodup : NoDup [1; 0])
    by (apply (bool_decide_unpack (NoDup [1; 0])); vm_compute; exact I).
  assert (Hany : forall p, p ∈ [1; 0] ->
            exists st v, heap rejected_and_pending_world !! p
                         = Some (mkPromise st v [])).
  { intros p Hp. apply elem_of_cons in Hp as [->|Hp];
      [by exists PENDING, VUndefined|].
    apply list_elem_of_singleton in Hp as ->. by exists REJECTED, (VStr "x"). }
  split; [reflexivity|]. split; [by split|]. split; [exact Hnodup|].
  split; [exact Hany|].
  destruct (all_takes_promises_in_any_state node sampleFn NextTick
              rejected_and_pending_world [1; 0] eq_refl (conj eq_refl eq_refl)
              Hnodup Hany)
    as (w1 & Hall & Hops).
  exists w1. split; [exact Hall|].
  vm_compute in Hall. injection Hall as <-.
  assert (Hev : Forall (input_event [1; 0]) [OpTick; OpTick])
    by (by repeat constructor).
  destruct (Hops _ Hev) as (_ & _ & Hrejected & _).
  apply (Hrejected (conj eq_refl eq_refl) 1 0 (VStr "x")); [reflexivity..|].
  intros j q o Hj Hq Ho. destruct j as [|j]; [|lia].
  injection Hq as <-. injection Ho as <-. discriminate.
Defined.

Lemma no_facility_no_callback_witness :
  facility bundled_browser = None /\ quiescent fulfilled_world /\
  let w' := run_ops bundled_browser sampleFn
              [OpThen 0 (VFunction 0) VUndefined; OpTick] fulfilled_world in
  quiescent w' /\ invoked w' = invoked fulfilled_world.
Proof.
  split; [reflexivity|]. split; [by split|].
  apply (no_facility_no_callback bundled_browser sampleFn eq_refl
           [OpThen 0 (VFunction 0) VUndefined; OpTick] fulfilled_world
           (conj eq_refl eq_refl)).
Defined.

Lemma operations_only_append_witness :
  facility node = Some NextTick /\
  exists ts, forall q,
    perform node sampleFn (OpThen 0 (VFunction 0) VUndefined)
      (setq NextTick q fulfilled_world)
    = setq NextTick (q ++ ts)
        (perform node sampleFn (OpThen 0 (VFunction 0) VUndefined)
           fulfilled_world).
Proof.
  split; [reflexivity|].
  apply (proj1 (operations_only_append NextTick node sampleFn eq_refl)).
  discriminate.
Defined.

Lemma allSettled_fulfills_with_descriptors_witness :
  facility node = Some NextTick /\ quiescent rejected_and_pending_world /\
  NoDup [1; 0] /\
  (forall p, p ∈ [1; 0] ->
     exists st v,
       heap rejected_and_pending_world !! p = Some (mkPromise st v [])) /\
  exists w1,
    MyPromise_allSettled node sampleFn (VPromise <$> [1; 0])
      rejected_and_pending_world
    = (Normal (VPromise 4), w1) /\
    let w2 := run_ops node sampleFn
                (OpCall (VResolve 1) [VNum 5] :: replicate 8 OpTick) w1 in
    heap w2 !! 4 = Some (mkPromise FULFILLED (VArray 0) []) /\
    results <$> scopes w2 !! 0
    = Some [Some (descriptor FULFILLED (VNum 5));
            Some (descriptor REJECTED (VStr "x"))].
Proof.
  assert (Hnodup : NoDup [1; 0])
    by (apply (bool_decide_unpack (NoDup [1; 0])); vm_compute; exact I).
  assert (Hany : forall p, p ∈ [1; 0] ->
            exists st v, heap rejected_and_pending_world !! p
                         = Some (mkPromise st v [])).
  { intros p Hp. apply elem_of_cons in Hp as [->|Hp];
      [by exists PENDING, VUndefined|].
    apply list_elem_of_singleton in Hp as ->. by exists REJECTED, (VStr "x"). }
  split; [reflexivity|]. split; [by split|]. split; [exact Hnodup|].
  split; [exact Hany|].
  destruct (allSettled_fulfills_with_descriptors node sampleFn NextTick
              rejected_and_pending_world [1; 0] eq_refl (conj eq_refl eq_refl)
              Hnodup Hany)
    as (w1 & Hcall & Hops).
  exists w1. split; [exact Hcall|].
  vm_compute in Hcall. injection Hcall as <-.
  assert (Hev : Forall (input_event [1; 0])
                  (OpCall (VResolve 1) [VNum 5] :: replicate 8 OpTick)).
  { apply Forall_cons. split; [cbn; left|]. by apply Forall_replicate. }
  destruct (Hops _ Hev) as (_ & _ & Hsettled).
  apply (Hsettled (conj eq_refl eq_refl)
           [(FULFILLED, VNum 5); (REJECTED, VStr "x")]).
  repeat constructor; try discriminate; by eexists.
Defined.
